(** * CPU-scheduler: a shallow embedding of the solver modules

    The development embeds the two solver modules of the repository,
    [src/app/utils/scheduler.ts] (module [Logged], which narrates its
    decisions in a [decisionLog]) and the older [src/unnamed/part_001]
    (module [Plain], which has no log), and proves properties of their
    [solve] entry points.

    Conventions of the embedding.
    - JavaScript numbers that the solvers receive and compute with are
      integers: they are modelled by [Z].  The two places where the
      code leaves the integers are modelled separately: the averages
      ([js_avg], an exact rational) and the response ratio of HRRN
      ([jsnum], a rational extended with the IEEE special values).
    - [Infinity] used as the start value of a running minimum is the
      constructor [Inf] of [bound].
    - An index variable that starts at [-1] is an [option nat].
    - Reading a property of [undefined] raises a [TypeError]: the
      solvers return [Throws] in that case.
    - Every [while] loop is run with an explicit amount of fuel. *)

From Stdlib Require Import ZArith QArith String List Sorted Lia.
From Stdlib Require Import DecimalString.
From stdpp Require Import base list.

Local Open Scope string_scope.
Local Open Scope list_scope.
Local Open Scope Z_scope.

(** ** Control flow *)

(** The result of running a loop or a solver. [Throws] is an uncaught
    [TypeError]; [OutOfFuel] says the given fuel did not suffice. *)
Inductive outcome (A : Type) : Type :=
| Done (a : A)
| Throws
| OutOfFuel.
Arguments Done {A} a.
Arguments Throws {A}.
Arguments OutOfFuel {A}.

(** The result of one run of a loop body. *)
Inductive flow (S : Type) : Type :=
| Next (s : S)
| Break (s : S)
| Throw.
Arguments Next {S} s.
Arguments Break {S} s.
Arguments Throw {S}.

Definition outcome_map {A B} (f : A → B) (o : outcome A) : outcome B :=
  match o with
  | Done a => Done (f a)
  | Throws => Throws
  | OutOfFuel => OutOfFuel
  end.

Definition flow_map {A B} (f : A → B) (o : flow A) : flow B :=
  match o with
  | Next a => Next (f a)
  | Break a => Break (f a)
  | Throw => Throw
  end.

(** [while (cond) { body }], the condition is tested before the fuel. *)
Fixpoint while_loop {S} (fuel : nat) (cond : S → bool) (body : S → flow S)
    (s : S) : outcome S :=
  match fuel with
  | O => if cond s then OutOfFuel else Done s
  | Datatypes.S fuel' =>
      if cond s then
        match body s with
        | Next s' => while_loop fuel' cond body s'
        | Break s' => Done s'
        | Throw => Throws
        end
      else Done s
  end.

(** [for (let i = 0; i < n; i++) a = f(a, i)]. *)
Definition for_loop {A} (n : nat) (f : A → nat → A) (a : A) : A :=
  fold_left f (seq 0 n) a.

(** ** Numbers *)

(** A running minimum that starts at [Infinity]. *)
Inductive bound : Type :=
| Fin (z : Z)
| Inf.

(** [x < b] and [x === b] for an integer [x]. *)
Definition lt_bound (x : Z) (b : bound) : bool :=
  match b with
  | Fin z => x <? z
  | Inf => true
  end.

Definition eq_bound (x : Z) (b : bound) : bool :=
  match b with
  | Fin z => x =? z
  | Inf => false
  end.

(** [Math.min(x, b)]. *)
Definition min_bound (x : Z) (b : bound) : Z :=
  match b with
  | Fin z => Z.min x z
  | Inf => x
  end.

(** The quotient of two integers as a JavaScript number. The rational
    stands for the double nearest to it; rounding is monotone and maps
    equal rationals to equal doubles, and for the magnitudes the
    scheduler handles (below [2^26]) distinct quotients stay distinct. *)
Inductive jsnum : Type :=
| Rat (q : Q)
| PInf
| NInf
| NaN.

Definition js_div (a b : Z) : jsnum :=
  match b with
  | Z0 => if 0 <? a then PInf else if a <? 0 then NInf else NaN
  | Zpos p => Rat (a # p)
  | Zneg p => Rat (- a # p)
  end.

(** [x > y]; any comparison with [NaN] is false. *)
Definition js_gt (x y : jsnum) : bool :=
  match x, y with
  | NaN, _ | _, NaN => false
  | PInf, PInf => false
  | PInf, _ => true
  | _, PInf => false
  | NInf, _ => false
  | Rat _, NInf => true
  | Rat p, Rat q => negb (Qle_bool p q)
  end.

(** [total / length || 0]: the quotient of the empty sum by zero is
    [NaN], which is falsy, so is a zero quotient; both give [0]. *)
Definition js_avg (total : Z) (len : nat) : Q :=
  match len with
  | O => 0%Q
  | Datatypes.S _ => (total # Pos.of_nat len)%Q
  end.

(** Template-literal interpolation of an integer. *)
Definition num (z : Z) : string := NilZero.string_of_int (Z.to_int z).

(** ** [Array.prototype.sort]

    The sort is stable. [cmp a b <= 0] keeps [a], which comes first in
    the array, in front of [b]. For a comparator that is not a total
    preorder the order is left to the engine; the model then still
    returns a permutation. *)
Fixpoint js_insert {A} (cmp : A → A → Z) (x : A) (l : list A) : list A :=
  match l with
  | [] => [x]
  | y :: l' => if cmp x y <=? 0 then x :: y :: l' else y :: js_insert cmp x l'
  end.

Definition js_sort {A} (cmp : A → A → Z) (l : list A) : list A :=
  foldr (js_insert cmp) [] l.

(** ** Data model *)

Record Process : Type := mkProcess {
  id : string;
  arrivalTime : Z;
  burstTime : Z;
  priority : Z
}.

(** [Process & {...}]: the spread [...p] copies the four fields of the
    process, which are never written again. *)
Record ProcessResult : Type := mkResult {
  process : Process;
  startTime : Z;
  endTime : Z;
  turnaroundTime : Z;
  waitingTime : Z
}.

(** The fields [startTime] and [endTime] of a Gantt block. *)
Record GanttBlock : Type := mkBlock {
  processId : string;
  blockStart : Z;
  blockEnd : Z
}.

#[global] Instance Process_inhabited : Inhabited Process :=
  populate (mkProcess "" 0 0 0).
#[global] Instance ProcessResult_inhabited : Inhabited ProcessResult :=
  populate (mkResult inhabitant 0 0 0 0).
#[global] Instance GanttBlock_inhabited : Inhabited GanttBlock :=
  populate (mkBlock "" 0 0).

(** [processes.map(p => ({...p, startTime: -1, endTime: 0,
    turnaroundTime: 0, waitingTime: 0}))]. *)
Definition init_results (processes : list Process) : list ProcessResult :=
  map (fun p => mkResult p (-1) 0 0 0) processes.

(** [if (results[idx].startTime === -1) results[idx].startTime = currentTime]. *)
Definition mark_start (idx : nat) (currentTime : Z)
    (results : list ProcessResult) : list ProcessResult :=
  let r := results !!! idx in
  if startTime r =? -1
  then <[idx := mkResult (process r) currentTime (endTime r)
                  (turnaroundTime r) (waitingTime r)]> results
  else results.

(** [results[idx].endTime = currentTime;
     results[idx].turnaroundTime = results[idx].endTime - results[idx].arrivalTime;
     results[idx].waitingTime = results[idx].turnaroundTime - results[idx].burstTime]. *)
Definition finalize (idx : nat) (currentTime : Z)
    (results : list ProcessResult) : list ProcessResult :=
  let r := results !!! idx in
  let tat := currentTime - arrivalTime (process r) in
  <[idx := mkResult (process r) (startTime r) currentTime tat
             (tat - burstTime (process r))]> results.

(** [ganttChart[ganttChart.length - 1].endTime++]; on the empty chart
    the element is [undefined] and the update throws. *)
Fixpoint extend_last (g : list GanttBlock) : option (list GanttBlock) :=
  match g with
  | [] => None
  | [b] => Some [mkBlock (processId b) (blockStart b) (blockEnd b + 1)]
  | b :: g' => cons b <$> extend_last g'
  end.

Definition sum_turnaround (results : list ProcessResult) : Z :=
  fold_left (fun acc curr => acc + turnaroundTime curr) results 0.

Definition sum_waiting (results : list ProcessResult) : Z :=
  fold_left (fun acc curr => acc + waitingTime curr) results 0.

(** The eleven policy identifiers. *)
Definition ALGORITHMS : list string :=
  [ "FCFS"; "SJF (Non-Preemptive)"; "SRTF (Preemptive)";
    "Priority (Non-Preemptive)"; "Priority (Preemptive)"; "Round Robin";
    "LJF (Non-Preemptive)"; "LRTF (Preemptive)"; "HRRN";
    "Multilevel Queue"; "Multilevel Feedback Queue (MLFQ)" ].

(** An unset array slot reads [undefined], which is falsy. *)
Definition is_set (flags : list bool) (i : nat) : bool :=
  default false (flags !! i).

(** [sorted[idx].arrivalTime]; with [idx = -1] the element is
    [undefined] and the access throws. *)
Definition arrival_at (sorted : list Process) (idx : option nat) : option Z :=
  j ← idx; arrivalTime <$> sorted !! j.

(** The comparator [(a, b) => a.arrivalTime - b.arrivalTime]. *)
Definition by_arrival (a b : Process) : Z := arrivalTime a - arrivalTime b.

(** [results[idx].endTime = currentTime;
     results[idx].turnaroundTime = currentTime - processes[idx].arrivalTime;
     results[idx].waitingTime = results[idx].turnaroundTime - processes[idx].burstTime]
    as the queue-based solvers write it. *)
Definition finalize_from (processes : list Process) (idx : nat)
    (currentTime : Z) (results : list ProcessResult) : list ProcessResult :=
  let r := results !!! idx in
  let tat := currentTime - arrivalTime (processes !!! idx) in
  <[idx := mkResult (process r) (startTime r) currentTime tat
             (tat - burstTime (processes !!! idx))]> results.

(** ** Local variables of the solvers

    The two modules declare the same local variables, apart from the
    log. One record per family of solvers holds them. *)

Module FCFS.
Record state : Type := mk {
  currentTime : Z;
  results : list ProcessResult;
  ganttChart : list GanttBlock
}.
End FCFS.

(** SJF, Priority (non-preemptive), LJF and HRRN. *)
Module NP.
Record state : Type := mk {
  currentTime : Z;
  completed : nat;
  isCompleted : list bool;
  results : list ProcessResult;
  ganttChart : list GanttBlock
}.
End NP.

(** SRTF, Priority (preemptive) and LRTF. *)
Module PR.
Record state : Type := mk {
  remainingTime : list Z;
  results : list ProcessResult;
  currentTime : Z;
  completed : nat;
  ganttChart : list GanttBlock;
  lastProcessId : string
}.
End PR.

Module RR.
Record state : Type := mk {
  remainingTime : list Z;
  results : list ProcessResult;
  currentTime : Z;
  completed : nat;
  ganttChart : list GanttBlock;
  queue : list nat;
  visited : list bool
}.
End RR.

Module MLQ.
Record state : Type := mk {
  remainingTime : list Z;
  results : list ProcessResult;
  currentTime : Z;
  completed : nat;
  ganttChart : list GanttBlock;
  q1 : list nat;
  q2 : list nat;
  visited : list bool
}.
End MLQ.

Module MLFQ.
Record state : Type := mk {
  remainingTime : list Z;
  results : list ProcessResult;
  currentTime : Z;
  completed : nat;
  ganttChart : list GanttBlock;
  q0 : list nat;
  q1 : list nat;
  q2 : list nat;
  visited : list bool
}.
End MLFQ.

(** ** Statements shared by both modules

    The statements below stand in both source files with the same
    text; the log statements of [scheduler.ts] are interleaved with
    them in module [Logged]. *)

(** The body of [sorted.forEach] in [solveFCFS], without its log
    statements. *)
Definition fcfs_run (s : FCFS.state) (process : Process) : FCFS.state :=
  let currentTime :=
    if FCFS.currentTime s <? arrivalTime process
    then arrivalTime process else FCFS.currentTime s in
  let startTime := currentTime in
  let endTime := startTime + burstTime process in
  FCFS.mk endTime
    (FCFS.results s ++
       [mkResult process startTime endTime
          (endTime - arrivalTime process) (startTime - arrivalTime process)])
    (FCFS.ganttChart s ++ [mkBlock (id process) startTime endTime]).

Definition fcfs_init : FCFS.state := FCFS.mk 0 [] [].

(** The branch [if (idx !== -1) {...}] of the run-to-completion
    solvers: the chosen process runs its whole burst. *)
Definition np_run (sorted : list Process) (idx : nat) (s : NP.state)
    : NP.state :=
  let p := sorted !!! idx in
  let startTime := NP.currentTime s in
  let endTime := startTime + burstTime p in
  NP.mk endTime
    (S (NP.completed s))
    (<[idx := true]> (NP.isCompleted s))
    (NP.results s ++
       [mkResult p startTime endTime
          (endTime - arrivalTime p) (startTime - arrivalTime p)])
    (NP.ganttChart s ++ [mkBlock (id p) startTime endTime]).

(** The branch [else { currentTime++ }]. *)
Definition np_idle (s : NP.state) : NP.state :=
  NP.mk (NP.currentTime s + 1) (NP.completed s) (NP.isCompleted s)
    (NP.results s) (NP.ganttChart s).

Definition np_init (n : nat) : NP.state :=
  NP.mk 0 0 (replicate n false) [] [].

Definition np_cond (n : nat) (s : NP.state) : bool :=
  bool_decide (NP.completed s < n)%nat.

(** The branch [if (idx !== -1) {...}] of the preemptive solvers: the
    chosen process runs one unit. [reset] says whether the solver
    has the statement [lastProcessId = ""] in its completion branch:
    [solveSRTF] and [solvePriorityP] of [scheduler.ts] have it, the
    other preemptive solvers do not. *)
Definition pr_run (processes : list Process) (reset : bool) (idx : nat)
    (s : PR.state) : flow PR.state :=
  let pid := id (processes !!! idx) in
  let t := PR.currentTime s in
  let switched := negb (PR.lastProcessId s =? pid)%string in
  match (if switched
         then Some (PR.ganttChart s ++ [mkBlock pid t (t + 1)])
         else extend_last (PR.ganttChart s)) with
  | None => Throw
  | Some ganttChart =>
      let lastProcessId := if switched then pid else PR.lastProcessId s in
      let results := mark_start idx t (PR.results s) in
      let remainingTime :=
        <[idx := PR.remainingTime s !!! idx - 1]> (PR.remainingTime s) in
      let currentTime := t + 1 in
      if remainingTime !!! idx =? 0 then
        Next (PR.mk remainingTime (finalize idx currentTime results)
                currentTime (S (PR.completed s)) ganttChart
                (if reset then "" else lastProcessId))
      else
        Next (PR.mk remainingTime results currentTime (PR.completed s)
                ganttChart lastProcessId)
  end.

Definition pr_idle (s : PR.state) : PR.state :=
  PR.mk (PR.remainingTime s) (PR.results s) (PR.currentTime s + 1)
    (PR.completed s) (PR.ganttChart s) (PR.lastProcessId s).

Definition pr_init (processes : list Process) : PR.state :=
  PR.mk (map burstTime processes) (init_results processes) 0 0 [] "".

Definition pr_cond (n : nat) (s : PR.state) : bool :=
  bool_decide (PR.completed s < n)%nat.

(** The scan of [solvePriorityP]. *)
Definition priop_scan_step (processes : list Process) (remainingTime : list Z)
    (currentTime : Z) (acc : option (option nat * bound)) (i : nat)
    : option (option nat * bound) :=
  '(idx, highestPriority) ← acc;
  let p := processes !!! i in
  if (arrivalTime p <=? currentTime) && (0 <? remainingTime !!! i) then
    if lt_bound (priority p) highestPriority then
      Some (Some i, Fin (priority p))
    else if eq_bound (priority p) highestPriority then
      a ← arrival_at processes idx;
      Some (if arrivalTime p <? a then Some i else idx, highestPriority)
    else Some (idx, highestPriority)
  else Some (idx, highestPriority).

Definition priop_scan (processes : list Process) (remainingTime : list Z)
    (currentTime : Z) : option (option nat) :=
  fst <$> for_loop (length processes)
            (priop_scan_step processes remainingTime currentTime)
            (Some (None, Inf)).

(** The scan of [solveLRTF]; [maxTime] starts at [-1]. *)
Definition lrtf_scan_step (processes : list Process) (remainingTime : list Z)
    (currentTime : Z) (acc : option (option nat * Z)) (i : nat)
    : option (option nat * Z) :=
  '(idx, maxTime) ← acc;
  let p := processes !!! i in
  if (arrivalTime p <=? currentTime) && (0 <? remainingTime !!! i) then
    if maxTime <? remainingTime !!! i then
      Some (Some i, remainingTime !!! i)
    else if remainingTime !!! i =? maxTime then
      a ← arrival_at processes idx;
      Some (if arrivalTime p <? a then Some i else idx, maxTime)
    else Some (idx, maxTime)
  else Some (idx, maxTime).

Definition lrtf_scan (processes : list Process) (remainingTime : list Z)
    (currentTime : Z) : option (option nat) :=
  fst <$> for_loop (length processes)
            (lrtf_scan_step processes remainingTime currentTime)
            (Some (None, -1)).

(** *** Round Robin *)

(** [processes.forEach((p, i) => { if (p.arrivalTime === 0)
    { queue.push(i); visited[i] = true; } })]. *)
Definition rr_seed_step (processes : list Process)
    (qv : list nat * list bool) (i : nat) : list nat * list bool :=
  let '(queue, visited) := qv in
  if arrivalTime (processes !!! i) =? 0
  then (queue ++ [i], <[i := true]> visited)
  else (queue, visited).

Definition rr_init (processes : list Process) : RR.state :=
  let n := length processes in
  let '(queue, visited) :=
    for_loop n (rr_seed_step processes) ([], replicate n false) in
  RR.mk (map burstTime processes) (init_results processes) 0 0 []
    queue visited.

Definition rr_cond (n : nat) (s : RR.state) : bool :=
  bool_decide (RR.completed s < n)%nat.

(** The search for the earliest arrival that was not visited. *)
Definition rr_next_step (processes : list Process) (visited : list bool)
    (acc : option nat * bound) (i : nat) : option nat * bound :=
  let '(nextIdx, nextArr) := acc in
  if negb (is_set visited i)
     && lt_bound (arrivalTime (processes !!! i)) nextArr
  then (Some i, Fin (arrivalTime (processes !!! i)))
  else (nextIdx, nextArr).

Definition rr_next_arrival (processes : list Process) (visited : list bool)
    : option nat * bound :=
  for_loop (length processes) (rr_next_step processes visited) (None, Inf).

(** [currentTime = nextArr; queue.push(nextIdx); visited[nextIdx] = true].
    [nextArr] is finite whenever [nextIdx] is set. *)
Definition rr_jump (nextIdx : nat) (nextArr : bound) (s : RR.state)
    : RR.state :=
  RR.mk (RR.remainingTime s) (RR.results s)
    (match nextArr with Fin a => a | Inf => RR.currentTime s end)
    (RR.completed s) (RR.ganttChart s)
    (RR.queue s ++ [nextIdx]) (<[nextIdx := true]> (RR.visited s)).

(** [if (queue.length === 0) {...}]; [None] is the [break]. *)
Definition rr_refill (processes : list Process) (s : RR.state)
    : option RR.state :=
  match RR.queue s with
  | [] =>
      match rr_next_arrival processes (RR.visited s) with
      | (Some nextIdx, nextArr) => Some (rr_jump nextIdx nextArr s)
      | (None, _) => None
      end
  | _ :: _ => Some s
  end.

(** From [queue.shift()] to [currentTime += execTime]; [rest] is the
    queue after the shift. *)
Definition rr_exec (processes : list Process) (timeQuantum : Z)
    (idx : nat) (rest : list nat) (s : RR.state) : RR.state :=
  let t := RR.currentTime s in
  let results := mark_start idx t (RR.results s) in
  let execTime := Z.min timeQuantum (RR.remainingTime s !!! idx) in
  RR.mk (<[idx := RR.remainingTime s !!! idx - execTime]> (RR.remainingTime s))
    results (t + execTime) (RR.completed s)
    (RR.ganttChart s ++ [mkBlock (id (processes !!! idx)) t (t + execTime)])
    rest (RR.visited s).

(** The loop that enqueues the processes that arrived meanwhile. *)
Definition rr_arrive (processes : list Process) (remainingTime : list Z)
    (currentTime : Z) (qv : list nat * list bool) (i : nat)
    : list nat * list bool :=
  let '(queue, visited) := qv in
  if negb (is_set visited i)
     && (arrivalTime (processes !!! i) <=? currentTime)
     && (0 <? remainingTime !!! i)
  then (queue ++ [i], <[i := true]> visited)
  else (queue, visited).

Definition rr_arrivals (processes : list Process) (s : RR.state) : RR.state :=
  let '(queue, visited) :=
    for_loop (length processes)
      (rr_arrive processes (RR.remainingTime s) (RR.currentTime s))
      (RR.queue s, RR.visited s) in
  RR.mk (RR.remainingTime s) (RR.results s) (RR.currentTime s)
    (RR.completed s) (RR.ganttChart s) queue visited.

(** [if (remainingTime[idx] > 0) queue.push(idx) else {...}]. *)
Definition rr_finish (processes : list Process) (idx : nat) (s : RR.state)
    : RR.state :=
  if 0 <? RR.remainingTime s !!! idx then
    RR.mk (RR.remainingTime s) (RR.results s) (RR.currentTime s)
      (RR.completed s) (RR.ganttChart s) (RR.queue s ++ [idx]) (RR.visited s)
  else
    RR.mk (RR.remainingTime s)
      (finalize_from processes idx (RR.currentTime s) (RR.results s))
      (RR.currentTime s) (S (RR.completed s)) (RR.ganttChart s)
      (RR.queue s) (RR.visited s).

(** *** Multilevel Queue *)

Definition mlq_init (processes : list Process) : MLQ.state :=
  MLQ.mk (map burstTime processes) (init_results processes) 0 0 [] [] []
    (replicate (length processes) false).

Definition mlq_cond (n : nat) (s : MLQ.state) : bool :=
  bool_decide (MLQ.completed s < n)%nat.

(** One round of the loop that classifies the arrived processes. *)
Definition mlq_arrive (processes : list Process) (currentTime : Z)
    (acc : list nat * list nat * list bool) (i : nat)
    : list nat * list nat * list bool :=
  let '(q1, q2, visited) := acc in
  if negb (is_set visited i)
     && (arrivalTime (processes !!! i) <=? currentTime)
  then
    if priority (processes !!! i) <=? 2
    then (q1 ++ [i], q2, <[i := true]> visited)
    else (q1, q2 ++ [i], <[i := true]> visited)
  else (q1, q2, visited).

Definition mlq_arrivals (processes : list Process) (s : MLQ.state)
    : MLQ.state :=
  let '(q1, q2, visited) :=
    for_loop (length processes) (mlq_arrive processes (MLQ.currentTime s))
      (MLQ.q1 s, MLQ.q2 s, MLQ.visited s) in
  MLQ.mk (MLQ.remainingTime s) (MLQ.results s) (MLQ.currentTime s)
    (MLQ.completed s) (MLQ.ganttChart s) q1 q2 visited.

(** The slice of a process of queue 1, from [q1.shift()] to
    [currentTime += exec]. *)
Definition mlq_exec1 (processes : list Process) (timeQuantum : Z)
    (idx : nat) (rest : list nat) (s : MLQ.state) : MLQ.state :=
  let t := MLQ.currentTime s in
  let results := mark_start idx t (MLQ.results s) in
  let exec := Z.min timeQuantum (MLQ.remainingTime s !!! idx) in
  MLQ.mk (<[idx := MLQ.remainingTime s !!! idx - exec]> (MLQ.remainingTime s))
    results (t + exec) (MLQ.completed s)
    (MLQ.ganttChart s ++ [mkBlock (id (processes !!! idx)) t (t + exec)])
    rest (MLQ.q2 s) (MLQ.visited s).

(** [if (remainingTime[idx] > 0) q1.push(idx); else {...}]. *)
Definition mlq_finish1 (processes : list Process) (idx : nat)
    (s : MLQ.state) : MLQ.state :=
  if 0 <? MLQ.remainingTime s !!! idx then
    MLQ.mk (MLQ.remainingTime s) (MLQ.results s) (MLQ.currentTime s)
      (MLQ.completed s) (MLQ.ganttChart s) (MLQ.q1 s ++ [idx]) (MLQ.q2 s)
      (MLQ.visited s)
  else
    MLQ.mk (MLQ.remainingTime s)
      (finalize_from processes idx (MLQ.currentTime s) (MLQ.results s))
      (MLQ.currentTime s) (S (MLQ.completed s)) (MLQ.ganttChart s)
      (MLQ.q1 s) (MLQ.q2 s) (MLQ.visited s).

(** The branch of queue 2: the head [q2[0]] runs one unit and leaves
    the queue only when it is finished. *)
Definition mlq_exec2 (processes : list Process) (idx : nat) (s : MLQ.state)
    : MLQ.state :=
  let t := MLQ.currentTime s in
  let results := mark_start idx t (MLQ.results s) in
  let ganttChart :=
    MLQ.ganttChart s ++ [mkBlock (id (processes !!! idx)) t (t + 1)] in
  let remainingTime :=
    <[idx := MLQ.remainingTime s !!! idx - 1]> (MLQ.remainingTime s) in
  let currentTime := t + 1 in
  if remainingTime !!! idx =? 0 then
    MLQ.mk remainingTime (finalize_from processes idx currentTime results)
      currentTime (S (MLQ.completed s)) ganttChart (MLQ.q1 s)
      (tail (MLQ.q2 s)) (MLQ.visited s)
  else
    MLQ.mk remainingTime results currentTime (MLQ.completed s) ganttChart
      (MLQ.q1 s) (MLQ.q2 s) (MLQ.visited s).

Definition mlq_idle (s : MLQ.state) : MLQ.state :=
  MLQ.mk (MLQ.remainingTime s) (MLQ.results s) (MLQ.currentTime s + 1)
    (MLQ.completed s) (MLQ.ganttChart s) (MLQ.q1 s) (MLQ.q2 s)
    (MLQ.visited s).

(** *** Multilevel Feedback Queue *)

Definition mlfq_init (processes : list Process) : MLFQ.state :=
  MLFQ.mk (map burstTime processes) (init_results processes) 0 0 [] [] [] []
    (replicate (length processes) false).

Definition mlfq_cond (n : nat) (s : MLFQ.state) : bool :=
  bool_decide (MLFQ.completed s < n)%nat.

(** One round of the loop that puts the arrived processes in [q0]. *)
Definition mlfq_arrive (processes : list Process) (currentTime : Z)
    (qv : list nat * list bool) (i : nat) : list nat * list bool :=
  let '(q0, visited) := qv in
  if negb (is_set visited i)
     && (arrivalTime (processes !!! i) <=? currentTime)
  then (q0 ++ [i], <[i := true]> visited)
  else (q0, visited).

Definition mlfq_arrivals (processes : list Process) (s : MLFQ.state)
    : MLFQ.state :=
  let '(q0, visited) :=
    for_loop (length processes) (mlfq_arrive processes (MLFQ.currentTime s))
      (MLFQ.q0 s, MLFQ.visited s) in
  MLFQ.mk (MLFQ.remainingTime s) (MLFQ.results s) (MLFQ.currentTime s)
    (MLFQ.completed s) (MLFQ.ganttChart s) q0 (MLFQ.q1 s) (MLFQ.q2 s) visited.

(** The choice of [idx], [queueLevel] and [quantum]; the queues [q0]
    and [q1] are shifted, the head of [q2] stays. [None] is [idx = -1]. *)
Definition mlfq_pick (timeQuantum : Z) (s : MLFQ.state)
    : option (nat * nat * bound * MLFQ.state) :=
  match MLFQ.q0 s with
  | idx :: rest =>
      Some (idx, 0%nat, Fin timeQuantum,
            MLFQ.mk (MLFQ.remainingTime s) (MLFQ.results s)
              (MLFQ.currentTime s) (MLFQ.completed s) (MLFQ.ganttChart s)
              rest (MLFQ.q1 s) (MLFQ.q2 s) (MLFQ.visited s))
  | [] =>
      match MLFQ.q1 s with
      | idx :: rest =>
          Some (idx, 1%nat, Fin (timeQuantum * 2),
                MLFQ.mk (MLFQ.remainingTime s) (MLFQ.results s)
                  (MLFQ.currentTime s) (MLFQ.completed s) (MLFQ.ganttChart s)
                  (MLFQ.q0 s) rest (MLFQ.q2 s) (MLFQ.visited s))
      | [] =>
          match MLFQ.q2 s with
          | idx :: _ => Some (idx, 2%nat, Inf, s)
          | [] => None
          end
      end
  end.

(** From [results[idx].startTime] to [currentTime += runTime]. *)
Definition mlfq_exec (processes : list Process) (idx queueLevel : nat)
    (quantum : bound) (s : MLFQ.state) : MLFQ.state :=
  let t := MLFQ.currentTime s in
  let results := mark_start idx t (MLFQ.results s) in
  let runTime :=
    if (queueLevel =? 2)%nat then 1
    else min_bound (MLFQ.remainingTime s !!! idx) quantum in
  MLFQ.mk
    (<[idx := MLFQ.remainingTime s !!! idx - runTime]> (MLFQ.remainingTime s))
    results (t + runTime) (MLFQ.completed s)
    (MLFQ.ganttChart s ++ [mkBlock (id (processes !!! idx)) t (t + runTime)])
    (MLFQ.q0 s) (MLFQ.q1 s) (MLFQ.q2 s) (MLFQ.visited s).

(** Completion, or demotion by one level. *)
Definition mlfq_finish (processes : list Process) (idx queueLevel : nat)
    (s : MLFQ.state) : MLFQ.state :=
  if MLFQ.remainingTime s !!! idx =? 0 then
    MLFQ.mk (MLFQ.remainingTime s)
      (finalize_from processes idx (MLFQ.currentTime s) (MLFQ.results s))
      (MLFQ.currentTime s) (S (MLFQ.completed s)) (MLFQ.ganttChart s)
      (MLFQ.q0 s) (MLFQ.q1 s)
      (if (queueLevel =? 2)%nat then tail (MLFQ.q2 s) else MLFQ.q2 s)
      (MLFQ.visited s)
  else if (queueLevel =? 0)%nat then
    MLFQ.mk (MLFQ.remainingTime s) (MLFQ.results s) (MLFQ.currentTime s)
      (MLFQ.completed s) (MLFQ.ganttChart s) (MLFQ.q0 s)
      (MLFQ.q1 s ++ [idx]) (MLFQ.q2 s) (MLFQ.visited s)
  else if (queueLevel =? 1)%nat then
    MLFQ.mk (MLFQ.remainingTime s) (MLFQ.results s) (MLFQ.currentTime s)
      (MLFQ.completed s) (MLFQ.ganttChart s) (MLFQ.q0 s) (MLFQ.q1 s)
      (MLFQ.q2 s ++ [idx]) (MLFQ.visited s)
  else s.

Definition mlfq_idle (s : MLFQ.state) : MLFQ.state :=
  MLFQ.mk (MLFQ.remainingTime s) (MLFQ.results s) (MLFQ.currentTime s + 1)
    (MLFQ.completed s) (MLFQ.ganttChart s) (MLFQ.q0 s) (MLFQ.q1 s)
    (MLFQ.q2 s) (MLFQ.visited s).

(** *** The loops of the scanning solvers, without their log *)

(** The loop body of the four run-to-completion solvers, which differ
    in the scan that chooses [idx]. *)
Definition np_body
    (scan : list Process → list bool → Z → option (option nat))
    (sorted : list Process) (s : NP.state) : flow NP.state :=
  match scan sorted (NP.isCompleted s) (NP.currentTime s) with
  | None => Throw
  | Some (Some idx) => Next (np_run sorted idx s)
  | Some None => Next (np_idle s)
  end.

(** The loop body of the three preemptive solvers. *)
Definition pr_body (reset : bool)
    (scan : list Process → list Z → Z → option (option nat))
    (processes : list Process) (s : PR.state) : flow PR.state :=
  match scan processes (PR.remainingTime s) (PR.currentTime s) with
  | None => Throw
  | Some (Some idx) => pr_run processes reset idx s
  | Some None => Next (pr_idle s)
  end.

(** ** The module without a decision log ([src/unnamed/part_001]) *)

Module Plain.

Record SchedulerOutput : Type := mkOutput {
  results : list ProcessResult;
  ganttChart : list GanttBlock;
  averageTurnaroundTime : Q;
  averageWaitingTime : Q
}.

Section Solvers.

(** [a.localeCompare(b, undefined, { numeric: true })] is a collation
    of the JavaScript runtime in its default locale; the solvers take
    it as a parameter. *)
Context (localeCompare : string → string → Z).

Definition by_id (a b : ProcessResult) : Z :=
  localeCompare (id (process a)) (id (process b)).

Definition calculateAverages (results : list ProcessResult)
    (ganttChart : list GanttBlock) : SchedulerOutput :=
  let totalTAT := sum_turnaround results in
  let totalWT := sum_waiting results in
  mkOutput (js_sort by_id results) ganttChart
    (js_avg totalTAT (length results)) (js_avg totalWT (length results)).

Definition solveFCFS (processes : list Process) : outcome SchedulerOutput :=
  let sorted := js_sort by_arrival processes in
  let s := fold_left fcfs_run sorted fcfs_init in
  Done (calculateAverages (FCFS.results s) (FCFS.ganttChart s)).

Definition np_solve
    (scan : list Process → list bool → Z → option (option nat))
    (fuel : nat) (processes : list Process) : outcome SchedulerOutput :=
  let n := length processes in
  let sorted := js_sort by_arrival processes in
  outcome_map
    (fun s => calculateAverages (NP.results s) (NP.ganttChart s))
    (while_loop fuel (np_cond n) (np_body scan sorted) (np_init n)).

Definition sjf_scan_step (sorted : list Process) (isCompleted : list bool)
    (currentTime : Z) (acc : option (option nat * bound)) (i : nat)
    : option (option nat * bound) :=
  '(idx, minBurst) ← acc;
  let p := sorted !!! i in
  if (arrivalTime p <=? currentTime) && negb (is_set isCompleted i) then
    if lt_bound (burstTime p) minBurst then
      Some (Some i, Fin (burstTime p))
    else if eq_bound (burstTime p) minBurst then
      a ← arrival_at sorted idx;
      Some (if arrivalTime p <? a then Some i else idx, minBurst)
    else Some (idx, minBurst)
  else Some (idx, minBurst).

Definition sjf_scan (sorted : list Process) (isCompleted : list bool)
    (currentTime : Z) : option (option nat) :=
  fst <$> for_loop (length sorted)
            (sjf_scan_step sorted isCompleted currentTime) (Some (None, Inf)).

Definition solveSJF := np_solve sjf_scan.

Definition prionp_scan_step (sorted : list Process) (isCompleted : list bool)
    (currentTime : Z) (acc : option (option nat * bound)) (i : nat)
    : option (option nat * bound) :=
  '(idx, highestPriority) ← acc;
  let p := sorted !!! i in
  if (arrivalTime p <=? currentTime) && negb (is_set isCompleted i) then
    if lt_bound (priority p) highestPriority then
      Some (Some i, Fin (priority p))
    else if eq_bound (priority p) highestPriority then
      a ← arrival_at sorted idx;
      Some (if arrivalTime p <? a then Some i else idx, highestPriority)
    else Some (idx, highestPriority)
  else Some (idx, highestPriority).

Definition prionp_scan (sorted : list Process) (isCompleted : list bool)
    (currentTime : Z) : option (option nat) :=
  fst <$> for_loop (length sorted)
            (prionp_scan_step sorted isCompleted currentTime)
            (Some (None, Inf)).

Definition solvePriorityNP := np_solve prionp_scan.

(** [maxBurst] starts at [-1]. *)
Definition ljf_scan_step (sorted : list Process) (isCompleted : list bool)
    (currentTime : Z) (acc : option (option nat * Z)) (i : nat)
    : option (option nat * Z) :=
  '(idx, maxBurst) ← acc;
  let p := sorted !!! i in
  if (arrivalTime p <=? currentTime) && negb (is_set isCompleted i) then
    if maxBurst <? burstTime p then
      Some (Some i, burstTime p)
    else if burstTime p =? maxBurst then
      a ← arrival_at sorted idx;
      Some (if arrivalTime p <? a then Some i else idx, maxBurst)
    else Some (idx, maxBurst)
  else Some (idx, maxBurst).

Definition ljf_scan (sorted : list Process) (isCompleted : list bool)
    (currentTime : Z) : option (option nat) :=
  fst <$> for_loop (length sorted)
            (ljf_scan_step sorted isCompleted currentTime) (Some (None, -1)).

Definition solveLJF := np_solve ljf_scan.

(** [maxRatio] starts at [-1]; there is no tie-break. *)
Definition hrrn_scan_step (sorted : list Process) (isCompleted : list bool)
    (currentTime : Z) (acc : option nat * jsnum) (i : nat)
    : option nat * jsnum :=
  let '(idx, maxRatio) := acc in
  let p := sorted !!! i in
  if (arrivalTime p <=? currentTime) && negb (is_set isCompleted i) then
    let waitingTime := currentTime - arrivalTime p in
    let ratio := js_div (waitingTime + burstTime p) (burstTime p) in
    if js_gt ratio maxRatio then (Some i, ratio) else (idx, maxRatio)
  else (idx, maxRatio).

Definition hrrn_scan (sorted : list Process) (isCompleted : list bool)
    (currentTime : Z) : option (option nat) :=
  Some (fst (for_loop (length sorted)
               (hrrn_scan_step sorted isCompleted currentTime)
               (None, Rat (-1)))).

Definition solveHRRN := np_solve hrrn_scan.

(** None of the three preemptive solvers of this module clears
    [lastProcessId]. *)
Definition pr_solve (scan : list Process → list Z → Z → option (option nat))
    (fuel : nat) (processes : list Process) : outcome SchedulerOutput :=
  let n := length processes in
  outcome_map
    (fun s => calculateAverages (PR.results s) (PR.ganttChart s))
    (while_loop fuel (pr_cond n) (pr_body false scan processes)
       (pr_init processes)).

Definition srtf_scan_step (processes : list Process) (remainingTime : list Z)
    (currentTime : Z) (acc : option (option nat * bound)) (i : nat)
    : option (option nat * bound) :=
  '(idx, minTime) ← acc;
  let p := processes !!! i in
  if (arrivalTime p <=? currentTime) && (0 <? remainingTime !!! i) then
    if lt_bound (remainingTime !!! i) minTime then
      Some (Some i, Fin (remainingTime !!! i))
    else if eq_bound (remainingTime !!! i) minTime then
      a ← arrival_at processes idx;
      Some (if arrivalTime p <? a then Some i else idx, minTime)
    else Some (idx, minTime)
  else Some (idx, minTime).

Definition srtf_scan (processes : list Process) (remainingTime : list Z)
    (currentTime : Z) : option (option nat) :=
  fst <$> for_loop (length processes)
            (srtf_scan_step processes remainingTime currentTime)
            (Some (None, Inf)).

Definition solveSRTF := pr_solve srtf_scan.
Definition solvePriorityP := pr_solve priop_scan.
Definition solveLRTF := pr_solve lrtf_scan.

Definition rr_body (processes : list Process) (timeQuantum : Z)
    (s : RR.state) : flow RR.state :=
  match rr_refill processes s with
  | None => Break s
  | Some s =>
      match RR.queue s with
      | [] => Throw
      | idx :: rest =>
          let s := rr_exec processes timeQuantum idx rest s in
          let s := rr_arrivals processes s in
          Next (rr_finish processes idx s)
      end
  end.

Definition solveRR (fuel : nat) (processes : list Process) (timeQuantum : Z)
    : outcome SchedulerOutput :=
  outcome_map
    (fun s => calculateAverages (RR.results s) (RR.ganttChart s))
    (while_loop fuel (rr_cond (length processes))
       (rr_body processes timeQuantum) (rr_init processes)).

Definition mlq_body (processes : list Process) (timeQuantum : Z)
    (s : MLQ.state) : flow MLQ.state :=
  let s := mlq_arrivals processes s in
  match MLQ.q1 s with
  | idx :: rest =>
      let s := mlq_exec1 processes timeQuantum idx rest s in
      let s := mlq_arrivals processes s in
      Next (mlq_finish1 processes idx s)
  | [] =>
      match MLQ.q2 s with
      | idx :: _ => Next (mlq_exec2 processes idx s)
      | [] => Next (mlq_idle s)
      end
  end.

Definition solveMLQ (fuel : nat) (processes : list Process) (timeQuantum : Z)
    : outcome SchedulerOutput :=
  outcome_map
    (fun s => calculateAverages (MLQ.results s) (MLQ.ganttChart s))
    (while_loop fuel (mlq_cond (length processes))
       (mlq_body processes timeQuantum) (mlq_init processes)).

Definition mlfq_body (processes : list Process) (timeQuantum : Z)
    (s : MLFQ.state) : flow MLFQ.state :=
  let s := mlfq_arrivals processes s in
  match mlfq_pick timeQuantum s with
  | Some (idx, queueLevel, quantum, s) =>
      let s := mlfq_exec processes idx queueLevel quantum s in
      let s := mlfq_arrivals processes s in
      Next (mlfq_finish processes idx queueLevel s)
  | None => Next (mlfq_idle s)
  end.

Definition solveMLFQ (fuel : nat) (processes : list Process) (timeQuantum : Z)
    : outcome SchedulerOutput :=
  outcome_map
    (fun s => calculateAverages (MLFQ.results s) (MLFQ.ganttChart s))
    (while_loop fuel (mlfq_cond (length processes))
       (mlfq_body processes timeQuantum) (mlfq_init processes)).

(** The dispatch on the policy identifier. *)
Definition solve (fuel : nat) (algorithm : string) (processes : list Process)
    (timeQuantum : Z) : outcome SchedulerOutput :=
  if (algorithm =? "FCFS")%string then solveFCFS processes
  else if (algorithm =? "SJF (Non-Preemptive)")%string
    then solveSJF fuel processes
  else if (algorithm =? "SRTF (Preemptive)")%string
    then solveSRTF fuel processes
  else if (algorithm =? "Priority (Non-Preemptive)")%string
    then solvePriorityNP fuel processes
  else if (algorithm =? "Priority (Preemptive)")%string
    then solvePriorityP fuel processes
  else if (algorithm =? "Round Robin")%string
    then solveRR fuel processes timeQuantum
  else if (algorithm =? "LJF (Non-Preemptive)")%string
    then solveLJF fuel processes
  else if (algorithm =? "LRTF (Preemptive)")%string
    then solveLRTF fuel processes
  else if (algorithm =? "HRRN")%string then solveHRRN fuel processes
  else if (algorithm =? "Multilevel Queue")%string
    then solveMLQ fuel processes timeQuantum
  else if (algorithm =? "Multilevel Feedback Queue (MLFQ)")%string
    then solveMLFQ fuel processes timeQuantum
  else solveFCFS processes.

End Solvers.
End Plain.

(** ** The module with a decision log ([src/app/utils/scheduler.ts])

    A solver state is the pair of the local variables and the log.
    The log is only ever appended to and never read. *)

Module Logged.

Record SchedulerOutput : Type := mkOutput {
  results : list ProcessResult;
  ganttChart : list GanttBlock;
  averageTurnaroundTime : Q;
  averageWaitingTime : Q;
  decisionLog : list string
}.

(** A template literal, given by its pieces. *)
Definition cat (pieces : list string) : string := String.concat "" pieces.

(** [candidates.join(", ")]. *)
Definition join (candidates : list string) : string :=
  String.concat ", " candidates.

(** [processes.findIndex(p => p.id === lastProcessId)]. *)
Fixpoint findIndex (lastProcessId : string) (processes : list Process)
    : option nat :=
  match processes with
  | [] => None
  | p :: rest =>
      if (id p =? lastProcessId)%string then Some O
      else S <$> findIndex lastProcessId rest
  end.

Section Solvers.

(** The collation [localeCompare] and the rendering
    [Number.prototype.toFixed(2)] belong to the JavaScript runtime;
    the solvers take them as parameters. *)
Context (localeCompare : string → string → Z).
Context (toFixed2 : jsnum → string).

Definition by_id (a b : ProcessResult) : Z :=
  localeCompare (id (process a)) (id (process b)).

Definition calculateAverages (results : list ProcessResult)
    (ganttChart : list GanttBlock) (decisionLog : list string)
    : SchedulerOutput :=
  let totalTAT := sum_turnaround results in
  let totalWT := sum_waiting results in
  mkOutput (js_sort by_id results) ganttChart
    (js_avg totalTAT (length results)) (js_avg totalWT (length results))
    decisionLog.

(** *** FCFS *)

Definition fcfs_each (sl : FCFS.state * list string) (process : Process)
    : FCFS.state * list string :=
  let '(s, logs) := sl in
  let idle := FCFS.currentTime s <? arrivalTime process in
  let logs :=
    if idle then
      logs ++ [cat ["Time "; num (FCFS.currentTime s);
                    ": CPU is idle. Waiting for "; id process;
                    " to arrive at "; num (arrivalTime process); "."]]
    else logs in
  let currentTime :=
    if idle then arrivalTime process else FCFS.currentTime s in
  let logs :=
    logs ++ [cat ["Time "; num currentTime; ": "; id process;
                  " starts (Arrived: "; num (arrivalTime process);
                  ", Burst: "; num (burstTime process);
                  "). Selected because it is next in the arrival queue."]] in
  let s := fcfs_run s process in
  (s, logs ++ [cat ["Time "; num (FCFS.currentTime s); ": "; id process;
                    " completed execution."]]).

Definition solveFCFS (processes : list Process) : outcome SchedulerOutput :=
  let sorted := js_sort by_arrival processes in
  let '(s, logs) :=
    fold_left fcfs_each sorted
      (fcfs_init,
       ["Algorithm Started: FCFS sorts strictly by Arrival Time."]) in
  Done (calculateAverages (FCFS.results s) (FCFS.ganttChart s) logs).

(** *** The run-to-completion solvers *)

Definition np_solve (body : list Process → NP.state * list string →
                            flow (NP.state * list string))
    (start : string) (fuel : nat) (processes : list Process)
    : outcome SchedulerOutput :=
  let n := length processes in
  let sorted := js_sort by_arrival processes in
  outcome_map
    (fun '(s, logs) =>
       calculateAverages (NP.results s) (NP.ganttChart s) logs)
    (while_loop fuel (fun sl => np_cond n (fst sl)) (body sorted)
       (np_init n, [start])).

Definition sjf_scan_step (sorted : list Process) (isCompleted : list bool)
    (currentTime : Z) (acc : option (option nat * bound * list string))
    (i : nat) : option (option nat * bound * list string) :=
  '(idx, minBurst, candidates) ← acc;
  let p := sorted !!! i in
  if (arrivalTime p <=? currentTime) && negb (is_set isCompleted i) then
    let candidates :=
      candidates ++ [cat [id p; "(Burst:"; num (burstTime p); ")"]] in
    if lt_bound (burstTime p) minBurst then
      Some (Some i, Fin (burstTime p), candidates)
    else if eq_bound (burstTime p) minBurst then
      a ← arrival_at sorted idx;
      Some (if arrivalTime p <? a then Some i else idx, minBurst, candidates)
    else Some (idx, minBurst, candidates)
  else Some (idx, minBurst, candidates).

Definition sjf_scan (sorted : list Process) (isCompleted : list bool)
    (currentTime : Z) : option (option nat * list string) :=
  (fun '(idx, _, candidates) => (idx, candidates)) <$>
    for_loop (length sorted) (sjf_scan_step sorted isCompleted currentTime)
      (Some (None, Inf, [])).

Definition sjf_body (sorted : list Process) (sl : NP.state * list string)
    : flow (NP.state * list string) :=
  let '(s, logs) := sl in
  match sjf_scan sorted (NP.isCompleted s) (NP.currentTime s) with
  | None => Throw
  | Some (Some idx, candidates) =>
      let logs :=
        logs ++ [cat ["Time "; num (NP.currentTime s); ": Ready Queue: [";
                      join candidates; "]. Comparing bursts... ";
                      id (sorted !!! idx); " is the shortest."]] in
      let s := np_run sorted idx s in
      Next (s, logs ++ [cat ["Time "; num (NP.currentTime s); ": ";
                             id (sorted !!! idx); " completed."]])
  | Some (None, _) =>
      Next (np_idle s,
            logs ++ [cat ["Time "; num (NP.currentTime s);
                          ": CPU Idle. No process has arrived yet."]])
  end.

Definition solveSJF :=
  np_solve sjf_body
    "Algorithm Started: SJF checks the ready queue for the process with the smallest Burst Time.".

Definition prionp_scan_step (sorted : list Process) (isCompleted : list bool)
    (currentTime : Z) (acc : option (option nat * bound * list string))
    (i : nat) : option (option nat * bound * list string) :=
  '(idx, highestPriority, candidates) ← acc;
  let p := sorted !!! i in
  if (arrivalTime p <=? currentTime) && negb (is_set isCompleted i) then
    let candidates :=
      candidates ++ [cat [id p; "(Prio:"; num (priority p); ")"]] in
    if lt_bound (priority p) highestPriority then
      Some (Some i, Fin (priority p), candidates)
    else if eq_bound (priority p) highestPriority then
      a ← arrival_at sorted idx;
      Some (if arrivalTime p <? a then Some i else idx, highestPriority,
            candidates)
    else Some (idx, highestPriority, candidates)
  else Some (idx, highestPriority, candidates).

Definition prionp_scan (sorted : list Process) (isCompleted : list bool)
    (currentTime : Z) : option (option nat * list string) :=
  (fun '(idx, _, candidates) => (idx, candidates)) <$>
    for_loop (length sorted)
      (prionp_scan_step sorted isCompleted currentTime)
      (Some (None, Inf, [])).

Definition prionp_body (sorted : list Process) (sl : NP.state * list string)
    : flow (NP.state * list string) :=
  let '(s, logs) := sl in
  match prionp_scan sorted (NP.isCompleted s) (NP.currentTime s) with
  | None => Throw
  | Some (Some idx, candidates) =>
      let logs :=
        logs ++ [cat ["Time "; num (NP.currentTime s); ": Ready Queue: [";
                      join candidates; "]. Selected "; id (sorted !!! idx);
                      " because it has the highest priority (Lowest number)."]]
      in
      let s := np_run sorted idx s in
      Next (s, logs ++ [cat ["Time "; num (NP.currentTime s); ": ";
                             id (sorted !!! idx); " completed."]])
  | Some (None, _) => Next (np_idle s, logs)
  end.

Definition solvePriorityNP :=
  np_solve prionp_body
    "Algorithm Started: Non-Preemptive Priority. Lower Number = Higher Importance.".

Definition ljf_scan_step (sorted : list Process) (isCompleted : list bool)
    (currentTime : Z) (acc : option (option nat * Z * list string))
    (i : nat) : option (option nat * Z * list string) :=
  '(idx, maxBurst, candidates) ← acc;
  let p := sorted !!! i in
  if (arrivalTime p <=? currentTime) && negb (is_set isCompleted i) then
    let candidates :=
      candidates ++ [cat [id p; "(Burst:"; num (burstTime p); ")"]] in
    if maxBurst <? burstTime p then
      Some (Some i, burstTime p, candidates)
    else if burstTime p =? maxBurst then
      a ← arrival_at sorted idx;
      Some (if arrivalTime p <? a then Some i else idx, maxBurst, candidates)
    else Some (idx, maxBurst, candidates)
  else Some (idx, maxBurst, candidates).

Definition ljf_scan (sorted : list Process) (isCompleted : list bool)
    (currentTime : Z) : option (option nat * list string) :=
  (fun '(idx, _, candidates) => (idx, candidates)) <$>
    for_loop (length sorted) (ljf_scan_step sorted isCompleted currentTime)
      (Some (None, -1, [])).

Definition ljf_body (sorted : list Process) (sl : NP.state * list string)
    : flow (NP.state * list string) :=
  let '(s, logs) := sl in
  match ljf_scan sorted (NP.isCompleted s) (NP.currentTime s) with
  | None => Throw
  | Some (Some idx, candidates) =>
      let logs :=
        logs ++ [cat ["Time "; num (NP.currentTime s); ": Candidates: [";
                      join candidates; "]. Selected "; id (sorted !!! idx);
                      " (Largest Burst: "; num (burstTime (sorted !!! idx));
                      ")."]] in
      let s := np_run sorted idx s in
      Next (s, logs ++ [cat ["Time "; num (NP.currentTime s); ": ";
                             id (sorted !!! idx); " finished."]])
  | Some (None, _) => Next (np_idle s, logs)
  end.

Definition solveLJF :=
  np_solve ljf_body
    "Algorithm Started: LJF selects the process with the Largest Burst Time.".

Definition hrrn_scan_step (sorted : list Process) (isCompleted : list bool)
    (currentTime : Z) (acc : option nat * jsnum * list string) (i : nat)
    : option nat * jsnum * list string :=
  let '(idx, maxRatio, candidates) := acc in
  let p := sorted !!! i in
  if (arrivalTime p <=? currentTime) && negb (is_set isCompleted i) then
    let waitingTime := currentTime - arrivalTime p in
    let ratio := js_div (waitingTime + burstTime p) (burstTime p) in
    let candidates :=
      candidates ++ [cat [id p; "(Wait:"; num waitingTime; ", Ratio:";
                          toFixed2 ratio; ")"]] in
    if js_gt ratio maxRatio then (Some i, ratio, candidates)
    else (idx, maxRatio, candidates)
  else (idx, maxRatio, candidates).

Definition hrrn_scan (sorted : list Process) (isCompleted : list bool)
    (currentTime : Z) : option (option nat * list string) :=
  Some ((fun '(idx, _, candidates) => (idx, candidates))
          (for_loop (length sorted)
             (hrrn_scan_step sorted isCompleted currentTime)
             (None, Rat (-1), []))).

Definition hrrn_body (sorted : list Process) (sl : NP.state * list string)
    : flow (NP.state * list string) :=
  let '(s, logs) := sl in
  match hrrn_scan sorted (NP.isCompleted s) (NP.currentTime s) with
  | None => Throw
  | Some (Some idx, candidates) =>
      let logs :=
        logs ++ [cat ["Time "; num (NP.currentTime s); ": Candidates [";
                      join candidates; "]. Selected "; id (sorted !!! idx);
                      " (Highest Ratio)."]] in
      let s := np_run sorted idx s in
      Next (s, logs ++ [cat ["Time "; num (NP.currentTime s); ": ";
                             id (sorted !!! idx); " finished."]])
  | Some (None, _) => Next (np_idle s, logs)
  end.

Definition solveHRRN :=
  np_solve hrrn_body
    "Algorithm Started: HRRN. Ratio = (Wait + Burst) / Burst. Longer wait = Higher priority.".

(** *** The preemptive solvers *)

Definition pr_solve (body : list Process → PR.state * list string →
                            flow (PR.state * list string))
    (start : string) (fuel : nat) (processes : list Process)
    : outcome SchedulerOutput :=
  let n := length processes in
  outcome_map
    (fun '(s, logs) =>
       calculateAverages (PR.results s) (PR.ganttChart s) logs)
    (while_loop fuel (fun sl => pr_cond n (fst sl)) (body processes)
       (pr_init processes, [start])).

Definition srtf_scan_step (processes : list Process) (remainingTime : list Z)
    (currentTime : Z) (acc : option (option nat * bound * list string))
    (i : nat) : option (option nat * bound * list string) :=
  '(idx, minTime, candidates) ← acc;
  let p := processes !!! i in
  if (arrivalTime p <=? currentTime) && (0 <? remainingTime !!! i) then
    let candidates :=
      candidates ++ [cat [id p; "(Rem:"; num (remainingTime !!! i); ")"]] in
    if lt_bound (remainingTime !!! i) minTime then
      Some (Some i, Fin (remainingTime !!! i), candidates)
    else if eq_bound (remainingTime !!! i) minTime then
      a ← arrival_at processes idx;
      Some (if arrivalTime p <? a then Some i else idx, minTime, candidates)
    else Some (idx, minTime, candidates)
  else Some (idx, minTime, candidates).

Definition srtf_scan (processes : list Process) (remainingTime : list Z)
    (currentTime : Z) : option (option nat * list string) :=
  (fun '(idx, _, candidates) => (idx, candidates)) <$>
    for_loop (length processes)
      (srtf_scan_step processes remainingTime currentTime)
      (Some (None, Inf, [])).

(** [solveSRTF] clears [lastProcessId] when the process finishes. *)
Definition srtf_body (processes : list Process) (sl : PR.state * list string)
    : flow (PR.state * list string) :=
  let '(s, logs) := sl in
  match srtf_scan processes (PR.remainingTime s) (PR.currentTime s) with
  | None => Throw
  | Some (Some idx, candidates) =>
      let pid := id (processes !!! idx) in
      let lastProcessId := PR.lastProcessId s in
      let rem := PR.remainingTime s !!! idx in
      let logs :=
        if negb (lastProcessId =? pid)%string then
          if negb (lastProcessId =? "")%string then
            let oldRem :=
              match findIndex lastProcessId processes with
              | Some oldIdx => PR.remainingTime s !!! oldIdx
              | None => 0
              end in
            logs ++ [cat ["Time "; num (PR.currentTime s);
                          ": ⚠️ PREEMPTION! "; pid; " (Rem:"; num rem;
                          ") is shorter than "; lastProcessId; " (Rem:";
                          num oldRem; "). Switching context."]]
          else
            logs ++ [cat ["Time "; num (PR.currentTime s); ": Starting ";
                          pid; " (Remaining: "; num rem; "). Candidates: [";
                          join candidates; "]."]]
        else logs in
      match pr_run processes true idx s with
      | Next s =>
          Next (s, if PR.remainingTime s !!! idx =? 0
                   then logs ++ [cat ["Time "; num (PR.currentTime s); ": ";
                                      pid; " finished execution."]]
                   else logs)
      | Break s => Break (s, logs)
      | Throw => Throw
      end
  | Some (None, _) => Next (pr_idle s, logs)
  end.

Definition solveSRTF :=
  pr_solve srtf_body
    "Algorithm Started: SRTF checks every 1ms unit. If a new process arrives with a shorter remaining time than the current one, it preempts.".

(** [solvePriorityP] clears [lastProcessId] when the process finishes. *)
Definition priop_body (processes : list Process)
    (sl : PR.state * list string) : flow (PR.state * list string) :=
  let '(s, logs) := sl in
  match priop_scan processes (PR.remainingTime s) (PR.currentTime s) with
  | None => Throw
  | Some (Some idx) =>
      let p := processes !!! idx in
      let lastProcessId := PR.lastProcessId s in
      let logs :=
        if negb (lastProcessId =? id p)%string then
          if negb (lastProcessId =? "")%string then
            logs ++ [cat ["Time "; num (PR.currentTime s);
                          ": ⚠️ INTERRUPT! "; id p; " (Prio ";
                          num (priority p); ") is more important than ";
                          lastProcessId; ". Preempting."]]
          else
            logs ++ [cat ["Time "; num (PR.currentTime s); ": "; id p;
                          " starts (Prio "; num (priority p); ")."]]
        else logs in
      match pr_run processes true idx s with
      | Next s =>
          Next (s, if PR.remainingTime s !!! idx =? 0
                   then logs ++ [cat ["Time "; num (PR.currentTime s); ": ";
                                      id p; " finished."]]
                   else logs)
      | Break s => Break (s, logs)
      | Throw => Throw
      end
  | Some None => Next (pr_idle s, logs)
  end.

Definition solvePriorityP :=
  pr_solve priop_body
    "Algorithm Started: Preemptive Priority. CPU immediately switches if a more important process arrives.".

(** [solveLRTF] keeps [lastProcessId] when the process finishes. *)
Definition lrtf_body (processes : list Process) (sl : PR.state * list string)
    : flow (PR.state * list string) :=
  let '(s, logs) := sl in
  match lrtf_scan processes (PR.remainingTime s) (PR.currentTime s) with
  | None => Throw
  | Some (Some idx) =>
      let p := processes !!! idx in
      let logs :=
        if negb (PR.lastProcessId s =? id p)%string then
          logs ++ [cat ["Time "; num (PR.currentTime s); ": Switched to ";
                        id p; " because it has the most work left (Rem: ";
                        num (PR.remainingTime s !!! idx); ")."]]
        else logs in
      match pr_run processes false idx s with
      | Next s =>
          Next (s, if PR.remainingTime s !!! idx =? 0
                   then logs ++ [cat ["Time "; num (PR.currentTime s); ": ";
                                      id p; " finished."]]
                   else logs)
      | Break s => Break (s, logs)
      | Throw => Throw
      end
  | Some None => Next (pr_idle s, logs)
  end.

Definition solveLRTF :=
  pr_solve lrtf_body
    "Algorithm Started: LRTF preemptively selects process with Longest Remaining Time to balance load.".

(** *** Round Robin *)

Definition rr_seed_step (processes : list Process)
    (acc : list nat * list bool * list string) (i : nat)
    : list nat * list bool * list string :=
  let '(queue, visited, logs) := acc in
  if arrivalTime (processes !!! i) =? 0
  then (queue ++ [i], <[i := true]> visited,
        logs ++ [cat ["Time 0: "; id (processes !!! i);
                      " arrived and pushed to queue."]])
  else (queue, visited, logs).

Definition rr_init (processes : list Process) (timeQuantum : Z)
    : RR.state * list string :=
  let n := length processes in
  let '(queue, visited, logs) :=
    for_loop n (rr_seed_step processes)
      ([], replicate n false,
       [cat ["Algorithm Started: Round Robin with Time Quantum ";
             num timeQuantum; "ms."]]) in
  (RR.mk (map burstTime processes) (init_results processes) 0 0 []
     queue visited, logs).

Definition rr_refill (processes : list Process) (sl : RR.state * list string)
    : option (RR.state * list string) :=
  let '(s, logs) := sl in
  match RR.queue s with
  | [] =>
      match rr_next_arrival processes (RR.visited s) with
      | (Some nextIdx, nextArr) =>
          let s := rr_jump nextIdx nextArr s in
          Some (s, logs ++ [cat ["Time "; num (RR.currentTime s);
                                 ": Queue empty. Fast-forward to ";
                                 id (processes !!! nextIdx); " arrival."]])
      | (None, _) => None
      end
  | _ :: _ => Some (s, logs)
  end.

Definition rr_arrive (processes : list Process) (remainingTime : list Z)
    (currentTime execTime : Z) (acc : list nat * list bool * list string)
    (i : nat) : list nat * list bool * list string :=
  let '(queue, visited, logs) := acc in
  if negb (is_set visited i)
     && (arrivalTime (processes !!! i) <=? currentTime)
     && (0 <? remainingTime !!! i)
  then (queue ++ [i], <[i := true]> visited,
        logs ++ [cat ["Time ";
                      num (Z.max (arrivalTime (processes !!! i))
                             (currentTime - execTime));
                      ": "; id (processes !!! i);
                      " arrived. Added to back of queue."]])
  else (queue, visited, logs).

Definition rr_arrivals (processes : list Process) (execTime : Z)
    (sl : RR.state * list string) : RR.state * list string :=
  let '(s, logs) := sl in
  let '(queue, visited, logs) :=
    for_loop (length processes)
      (rr_arrive processes (RR.remainingTime s) (RR.currentTime s) execTime)
      (RR.queue s, RR.visited s, logs) in
  (RR.mk (RR.remainingTime s) (RR.results s) (RR.currentTime s)
     (RR.completed s) (RR.ganttChart s) queue visited, logs).

Definition rr_body (processes : list Process) (timeQuantum : Z)
    (sl : RR.state * list string) : flow (RR.state * list string) :=
  match rr_refill processes sl with
  | None => Break sl
  | Some (s, logs) =>
      match RR.queue s with
      | [] => Throw
      | idx :: rest =>
          let pid := id (processes !!! idx) in
          let execTime := Z.min timeQuantum (RR.remainingTime s !!! idx) in
          let logs :=
            logs ++ [cat ["Time "; num (RR.currentTime s); ": Popped "; pid;
                          ". Executing for "; num execTime; "ms (Rem: ";
                          num (RR.remainingTime s !!! idx); "ms)."]] in
          let s := rr_exec processes timeQuantum idx rest s in
          let '(s, logs) := rr_arrivals processes execTime (s, logs) in
          let logs :=
            if 0 <? RR.remainingTime s !!! idx then
              logs ++ [cat ["Time "; num (RR.currentTime s); ": "; pid;
                            " Quantum expired. Re-added to back of queue (Rem: ";
                            num (RR.remainingTime s !!! idx); ")."]]
            else
              logs ++ [cat ["Time "; num (RR.currentTime s); ": "; pid;
                            " finished."]] in
          Next (rr_finish processes idx s, logs)
      end
  end.

Definition solveRR (fuel : nat) (processes : list Process) (timeQuantum : Z)
    : outcome SchedulerOutput :=
  outcome_map
    (fun '(s, logs) =>
       calculateAverages (RR.results s) (RR.ganttChart s) logs)
    (while_loop fuel (fun sl => rr_cond (length processes) (fst sl))
       (rr_body processes timeQuantum) (rr_init processes timeQuantum)).

(** *** Multilevel Queue *)

(** The classification at the head of the loop, which is narrated; the
    one after a slice of queue 1 is [mlq_arrivals], without a log. *)
Definition mlq_arrive (processes : list Process) (currentTime : Z)
    (acc : list nat * list nat * list bool * list string) (i : nat)
    : list nat * list nat * list bool * list string :=
  let '(q1, q2, visited, logs) := acc in
  if negb (is_set visited i)
     && (arrivalTime (processes !!! i) <=? currentTime)
  then
    if priority (processes !!! i) <=? 2
    then (q1 ++ [i], q2, <[i := true]> visited,
          logs ++ [cat ["Time "; num currentTime; ": ";
                        id (processes !!! i);
                        " enters Queue 1 (System - High Priority)."]])
    else (q1, q2 ++ [i], <[i := true]> visited,
          logs ++ [cat ["Time "; num currentTime; ": ";
                        id (processes !!! i);
                        " enters Queue 2 (User - Low Priority)."]])
  else (q1, q2, visited, logs).

Definition mlq_arrivals_logged (processes : list Process)
    (sl : MLQ.state * list string) : MLQ.state * list string :=
  let '(s, logs) := sl in
  let '(q1, q2, visited, logs) :=
    for_loop (length processes) (mlq_arrive processes (MLQ.currentTime s))
      (MLQ.q1 s, MLQ.q2 s, MLQ.visited s, logs) in
  (MLQ.mk (MLQ.remainingTime s) (MLQ.results s) (MLQ.currentTime s)
     (MLQ.completed s) (MLQ.ganttChart s) q1 q2 visited, logs).

Definition mlq_body (processes : list Process) (timeQuantum : Z)
    (sl : MLQ.state * list string) : flow (MLQ.state * list string) :=
  let '(s, logs) := mlq_arrivals_logged processes sl in
  match MLQ.q1 s with
  | idx :: rest =>
      let pid := id (processes !!! idx) in
      let logs :=
        logs ++ [cat ["Time "; num (MLQ.currentTime s);
                      ": Q1 has processes. Running "; pid; " (RR)."]] in
      let s := mlq_exec1 processes timeQuantum idx rest s in
      let s := mlq_arrivals processes s in
      let logs :=
        if 0 <? MLQ.remainingTime s !!! idx then logs
        else logs ++ [cat ["Time "; num (MLQ.currentTime s); ": "; pid;
                           " finished."]] in
      Next (mlq_finish1 processes idx s, logs)
  | [] =>
      match MLQ.q2 s with
      | idx :: _ =>
          let pid := id (processes !!! idx) in
          let logs :=
            logs ++ [cat ["Time "; num (MLQ.currentTime s);
                          ": Q1 empty. Running "; pid; " from Q2 (FCFS)."]] in
          let s := mlq_exec2 processes idx s in
          Next (s, if MLQ.remainingTime s !!! idx =? 0
                   then logs ++ [cat ["Time "; num (MLQ.currentTime s); ": ";
                                      pid; " finished."]]
                   else logs)
      | [] => Next (mlq_idle s, logs)
      end
  end.

Definition solveMLQ (fuel : nat) (processes : list Process) (timeQuantum : Z)
    : outcome SchedulerOutput :=
  outcome_map
    (fun '(s, logs) =>
       calculateAverages (MLQ.results s) (MLQ.ganttChart s) logs)
    (while_loop fuel (fun sl => mlq_cond (length processes) (fst sl))
       (mlq_body processes timeQuantum)
       (mlq_init processes,
        ["Algorithm Started: Multilevel Queue. Q1 (System/Prio<=2, RR) > Q2 (User/Prio>2, FCFS)."])).

(** *** Multilevel Feedback Queue *)

(** Both arrival loops are narrated, with the text [note]. *)
Definition mlfq_arrive (processes : list Process) (currentTime : Z)
    (note : string) (acc : list nat * list bool * list string) (i : nat)
    : list nat * list bool * list string :=
  let '(q0, visited, logs) := acc in
  if negb (is_set visited i)
     && (arrivalTime (processes !!! i) <=? currentTime)
  then (q0 ++ [i], <[i := true]> visited,
        logs ++ [cat ["Time "; num currentTime; ": "; id (processes !!! i);
                      note]])
  else (q0, visited, logs).

Definition mlfq_arrivals_logged (processes : list Process) (note : string)
    (sl : MLFQ.state * list string) : MLFQ.state * list string :=
  let '(s, logs) := sl in
  let '(q0, visited, logs) :=
    for_loop (length processes)
      (mlfq_arrive processes (MLFQ.currentTime s) note)
      (MLFQ.q0 s, MLFQ.visited s, logs) in
  (MLFQ.mk (MLFQ.remainingTime s) (MLFQ.results s) (MLFQ.currentTime s)
     (MLFQ.completed s) (MLFQ.ganttChart s) q0 (MLFQ.q1 s) (MLFQ.q2 s)
     visited, logs).

Definition mlfq_body (processes : list Process) (timeQuantum : Z)
    (sl : MLFQ.state * list string) : flow (MLFQ.state * list string) :=
  let '(s, logs) :=
    mlfq_arrivals_logged processes " Arrived. Added to Top Priority Q0." sl in
  match mlfq_pick timeQuantum s with
  | Some (idx, queueLevel, quantum, s) =>
      let pid := id (processes !!! idx) in
      let logs :=
        logs ++ [cat ["Time "; num (MLFQ.currentTime s); ": Executing "; pid;
                      " from Q"; num (Z.of_nat queueLevel); "."]] in
      let s := mlfq_exec processes idx queueLevel quantum s in
      let '(s, logs) :=
        mlfq_arrivals_logged processes " Arrived during exec. Added to Q0."
          (s, logs) in
      let logs :=
        if MLFQ.remainingTime s !!! idx =? 0 then
          logs ++ [cat ["Time "; num (MLFQ.currentTime s); ": "; pid;
                        " Finished."]]
        else if (queueLevel =? 0)%nat then
          logs ++ [cat ["Time "; num (MLFQ.currentTime s); ": "; pid;
                        " used full Q0 slice. Demoted to Q1."]]
        else if (queueLevel =? 1)%nat then
          logs ++ [cat ["Time "; num (MLFQ.currentTime s); ": "; pid;
                        " used full Q1 slice. Demoted to Q2."]]
        else logs in
      Next (mlfq_finish processes idx queueLevel s, logs)
  | None => Next (mlfq_idle s, logs)
  end.

(** The local variables and the log when the loop is entered. *)
Definition mlfq_start (processes : list Process) : MLFQ.state * list string :=
  (mlfq_init processes,
   ["Algorithm Started: MLFQ. Q0(RR, TQ) -> Q1(RR, TQ*2) -> Q2(FCFS). Processes downgrade if they use full quantum."]).

Definition solveMLFQ (fuel : nat) (processes : list Process)
    (timeQuantum : Z) : outcome SchedulerOutput :=
  outcome_map
    (fun '(s, logs) =>
       calculateAverages (MLFQ.results s) (MLFQ.ganttChart s) logs)
    (while_loop fuel (fun sl => mlfq_cond (length processes) (fst sl))
       (mlfq_body processes timeQuantum) (mlfq_start processes)).

(** The dispatch on the policy identifier. The type [AlgorithmType]
    admits the eleven names only; any other string reaches the
    [default] branch. *)
Definition solve (fuel : nat) (algorithm : string) (processes : list Process)
    (timeQuantum : Z) : outcome SchedulerOutput :=
  if (algorithm =? "FCFS")%string then solveFCFS processes
  else if (algorithm =? "SJF (Non-Preemptive)")%string
    then solveSJF fuel processes
  else if (algorithm =? "SRTF (Preemptive)")%string
    then solveSRTF fuel processes
  else if (algorithm =? "Priority (Non-Preemptive)")%string
    then solvePriorityNP fuel processes
  else if (algorithm =? "Priority (Preemptive)")%string
    then solvePriorityP fuel processes
  else if (algorithm =? "Round Robin")%string
    then solveRR fuel processes timeQuantum
  else if (algorithm =? "LJF (Non-Preemptive)")%string
    then solveLJF fuel processes
  else if (algorithm =? "LRTF (Preemptive)")%string
    then solveLRTF fuel processes
  else if (algorithm =? "HRRN")%string then solveHRRN fuel processes
  else if (algorithm =? "Multilevel Queue")%string
    then solveMLQ fuel processes timeQuantum
  else if (algorithm =? "Multilevel Feedback Queue (MLFQ)")%string
    then solveMLFQ fuel processes timeQuantum
  else solveFCFS processes.

End Solvers.
End Logged.


(** * Specification *)

(** The output of [scheduler.ts] without its decision log. *)
Definition forget (o : Logged.SchedulerOutput) : Plain.SchedulerOutput :=
  Plain.mkOutput (Logged.results o) (Logged.ganttChart o)
    (Logged.averageTurnaroundTime o) (Logged.averageWaitingTime o).

(** Two runs of loop bodies, or of loops, that end the same way in
    related states. *)
Definition flow_rel {A B} (R : A → B → Prop) (x : flow A) (y : flow B) : Prop :=
  match x, y with
  | Next a, Next b => R a b
  | Break a, Break b => R a b
  | Throw, Throw => True
  | _, _ => False
  end.

Definition outcome_rel {A B} (R : A → B → Prop) (x : outcome A)
    (y : outcome B) : Prop :=
  match x, y with
  | Done a, Done b => R a b
  | Throws, Throws => True
  | OutOfFuel, OutOfFuel => True
  | _, _ => False
  end.

(** The sample workload of the specification. *)
Definition sample : list Process :=
  [ mkProcess "P1" 0 5 2; mkProcess "P2" 2 3 1;
    mkProcess "P3" 4 1 3; mkProcess "P4" 6 4 2 ].

(** A collation that ranks strings by their characters' codes, and a
    rendering that prints nothing: stand-ins for the runtime where a
    statement needs a concrete one. *)
Definition code_order (a b : string) : Z :=
  match String.compare a b with
  | Lt => -1
  | Eq => 0
  | Gt => 1
  end.

Definition no_digits (x : jsnum) : string := "".

(** The results of FCFS on the sample workload, in the order of the
    process names. *)
Definition sample_fcfs_results : list ProcessResult :=
  [ mkResult (mkProcess "P1" 0 5 2) 0 5 5 0;
    mkResult (mkProcess "P2" 2 3 1) 5 8 6 3;
    mkResult (mkProcess "P3" 4 1 3) 8 9 5 4;
    mkResult (mkProcess "P4" 6 4 2) 9 13 7 3 ].

(** The loop of a preemptive solver with the result of
    [calculateAverages] without the log; [reset] as in [pr_run]. *)
Definition pr_solve_reset (reset : bool)
    (scan : list Process → list Z → Z → option (option nat))
    (localeCompare : string → string → Z) (fuel : nat)
    (processes : list Process) : outcome Plain.SchedulerOutput :=
  outcome_map
    (fun s => Plain.calculateAverages localeCompare (PR.results s)
                (PR.ganttChart s))
    (while_loop fuel (pr_cond (length processes))
       (pr_body reset scan processes) (pr_init processes)).

(** What the scans of the solvers achieve: they never throw, an index
    they return is a candidate, and they return none only when there
    is no candidate. *)
Definition pr_scan_ok
    (scan : list Process → list Z → Z → option (option nat))
    (processes : list Process) : Prop :=
  ∀ remainingTime currentTime,
    match scan processes remainingTime currentTime with
    | Some (Some idx) =>
        (idx < length processes)%nat
        ∧ 0 < remainingTime !!! idx
        ∧ arrivalTime (processes !!! idx) ≤ currentTime
    | Some None =>
        ∀ i, (i < length processes)%nat → 0 < remainingTime !!! i →
             currentTime < arrivalTime (processes !!! i)
    | None => False
    end.

Definition np_scan_ok
    (scan : list Process → list bool → Z → option (option nat))
    (sorted : list Process) : Prop :=
  ∀ isCompleted currentTime,
    match scan sorted isCompleted currentTime with
    | Some (Some idx) =>
        (idx < length sorted)%nat
        ∧ is_set isCompleted idx = false
        ∧ arrivalTime (sorted !!! idx) ≤ currentTime
    | Some None =>
        ∀ i, (i < length sorted)%nat → is_set isCompleted i = false →
             currentTime < arrivalTime (sorted !!! i)
    | None => False
    end.

(** The process names are pairwise distinct and not empty. *)
Definition ids_ok (processes : list Process) : Prop :=
  NoDup (map id processes) ∧ Forall (fun p => id p ≠ "") processes.

(** The states of a preemptive loop that clears [lastProcessId] on
    completion and of one that keeps it: they agree on everything
    else, and where they differ on [lastProcessId] the one is empty
    and the other names a finished process. *)
Definition reset_rel (processes : list Process) (s1 s2 : PR.state) : Prop :=
  PR.remainingTime s1 = PR.remainingTime s2
  ∧ PR.results s1 = PR.results s2
  ∧ PR.currentTime s1 = PR.currentTime s2
  ∧ PR.completed s1 = PR.completed s2
  ∧ PR.ganttChart s1 = PR.ganttChart s2
  ∧ (PR.lastProcessId s1 = PR.lastProcessId s2
     ∨ (PR.lastProcessId s1 = ""
        ∧ ∃ j, (j < length processes)%nat
               ∧ PR.lastProcessId s2 = id (processes !!! j)
               ∧ PR.remainingTime s2 !!! j ≤ 0)).

(** Two processes with the same name, both ready at time 0. *)
Definition twins : list Process :=
  [ mkProcess "A" 0 1 0; mkProcess "A" 0 1 0 ].

(** [visited[i] = true] for every [i] of a list. *)
Definition mark_all (new : list nat) (visited : list bool) : list bool :=
  fold_left (fun v i => <[i := true]> v) new visited.

(** The processes, by index, that an arrival loop enqueues: those not
    visited before the loop that satisfy the test [ready]. *)
Definition newcomers (n : nat) (visited : list bool) (ready : nat → bool)
    : list nat :=
  List.filter (fun i => negb (is_set visited i) && ready i) (seq 0 n).

(** The tests of the arrival loops of Round Robin and of the two
    multilevel solvers. *)
Definition rr_ready (processes : list Process) (remainingTime : list Z)
    (currentTime : Z) (i : nat) : bool :=
  (arrivalTime (processes !!! i) <=? currentTime) && (0 <? remainingTime !!! i).

Definition arrived (processes : list Process) (currentTime : Z) (i : nat)
    : bool :=
  arrivalTime (processes !!! i) <=? currentTime.

(** A workload whose list order is not the arrival order: P3 arrives
    before P2. *)
Definition late_first : list Process :=
  [ mkProcess "P1" 0 5 0; mkProcess "P2" 3 1 0; mkProcess "P3" 1 1 0 ].

(** Who sits in which queue of MLFQ: [q0] holds visited processes that
    never ran, each once; [q1] and [q2] hold visited processes whose
    burst exceeds the quantum. *)
Definition mlfq_levels (processes : list Process) (timeQuantum : Z)
    (s : MLFQ.state) : Prop :=
  length (MLFQ.remainingTime s) = length processes
  ∧ length (MLFQ.visited s) = length processes
  ∧ NoDup (MLFQ.q0 s)
  ∧ (∀ i, i ∈ MLFQ.q0 s →
          is_set (MLFQ.visited s) i = true
          ∧ MLFQ.remainingTime s !!! i = burstTime (processes !!! i))
  ∧ (∀ i, (i < length processes)%nat → is_set (MLFQ.visited s) i = false →
          MLFQ.remainingTime s !!! i = burstTime (processes !!! i))
  ∧ (∀ i, i ∈ MLFQ.q1 s ++ MLFQ.q2 s →
          is_set (MLFQ.visited s) i = true
          ∧ timeQuantum < burstTime (processes !!! i)).

(** ** What a schedule must satisfy *)

(** The metrics of a result agree with its completion time, and the
    process did not wait a negative time. *)
Definition result_ok (r : ProcessResult) : Prop :=
  turnaroundTime r = endTime r - arrivalTime (process r)
  ∧ waitingTime r = turnaroundTime r - burstTime (process r)
  ∧ 0 ≤ waitingTime r.

Definition duration (b : GanttBlock) : Z := blockEnd b - blockStart b.

(** The time the chart gives to the process named [pid]: the sum of
    the durations of its blocks. *)
Definition busy (pid : string) (g : list GanttBlock) : Z :=
  foldr (fun b acc =>
           (if (processId b =? pid)%string then duration b else 0) + acc)
    0 g.

(** A block ends before every later block starts. *)
Definition chart_ordered (g : list GanttBlock) : Prop :=
  ∀ i j bi bj, (i < j)%nat → g !! i = Some bi → g !! j = Some bj →
               blockEnd bi ≤ blockStart bj.

(** No block is empty. *)
Definition chart_positive (g : list GanttBlock) : Prop :=
  Forall (fun b => blockStart b < blockEnd b) g.

(** Every block names a process of the input: idle time has no block. *)
Definition chart_names (processes : list Process) (g : list GanttBlock)
    : Prop :=
  Forall (fun b => processId b ∈ map id processes) g.

(** No two consecutive blocks name the same process and touch. *)
Definition chart_merged (g : list GanttBlock) : Prop :=
  ∀ i b1 b2, g !! i = Some b1 → g !! S i = Some b2 →
             ¬ (processId b1 = processId b2 ∧ blockEnd b1 = blockStart b2).

(** No two consecutive blocks name the same process. *)
Definition chart_alternating (g : list GanttBlock) : Prop :=
  ∀ i b1 b2, g !! i = Some b1 → g !! S i = Some b2 →
             processId b1 ≠ processId b2.

(** The chart of a run that has reached time [t]. *)
Definition chart_inv (processes : list Process) (t : Z)
    (g : list GanttBlock) : Prop :=
  chart_ordered g
  ∧ Forall (fun b => blockStart b < blockEnd b ∧ blockEnd b ≤ t
                     ∧ ∃ i, (i < length processes)%nat
                            ∧ processId b = id (processes !!! i)) g.

(** The inputs the specification admits, as far as the solvers depend
    on them: names pairwise distinct and not empty, arrival times not
    negative, bursts of at least one unit. *)
Definition valid_processes (processes : list Process) : Prop :=
  ids_ok processes
  ∧ Forall (fun p => 0 ≤ arrivalTime p ∧ 1 ≤ burstTime p) processes.

Definition sumZ (l : list Z) : Z := foldr Z.add 0 l.

Definition max_arrival (processes : list Process) : Z :=
  foldr (fun p acc => Z.max (arrivalTime p) acc) 0 processes.

(** Rounds that suffice for every solver: one per unit of burst and
    one per unit of time up to the last arrival. *)
Definition fuel_bound (processes : list Process) : nat :=
  Z.to_nat (sumZ (map burstTime processes))
  + Z.to_nat (max_arrival processes).

(** The measure that the loops lower: the work left and the time
    left until the last arrival. *)
Definition work_left (processes : list Process) (remainingTime : list Z)
    (currentTime : Z) : nat :=
  Z.to_nat (sumZ remainingTime)
  + Z.to_nat (max_arrival processes - currentTime).

(** The invariant that the solvers with a [remainingTime] array share,
    on the variables they have in common. *)
Record core_inv (processes : list Process) (remainingTime : list Z)
    (results : list ProcessResult) (currentTime : Z) (completed : nat)
    (ganttChart : list GanttBlock) : Prop := mk_core_inv {
  ci_length : length remainingTime = length processes;
  ci_results : map process results = processes;
  ci_range : ∀ i, (i < length processes)%nat →
      0 ≤ remainingTime !!! i ≤ burstTime (processes !!! i);
  ci_done : ∃ done,
      NoDup done ∧ length done = completed
      ∧ ∀ i, i ∈ done ↔ (i < length processes)%nat ∧ remainingTime !!! i = 0;
  ci_ran : ∀ i, (i < length processes)%nat →
      remainingTime !!! i < burstTime (processes !!! i) →
      arrivalTime (processes !!! i)
      + (burstTime (processes !!! i) - remainingTime !!! i) ≤ currentTime;
  ci_final : ∀ i, (i < length processes)%nat → remainingTime !!! i = 0 →
      result_ok (results !!! i);
  ci_busy : ∀ i, (i < length processes)%nat →
      busy (id (processes !!! i)) ganttChart
      = burstTime (processes !!! i) - remainingTime !!! i;
  ci_chart : chart_inv processes currentTime ganttChart
}.

(** What [lastProcessId] says in a preemptive loop: it is empty on the
    empty chart; later it names the process of the last block, or is
    empty because that process is finished. Consecutive blocks belong
    to different processes. *)
Definition pr_last_inv (processes : list Process) (s : PR.state) : Prop :=
  chart_alternating (PR.ganttChart s)
  ∧ ((PR.ganttChart s = [] ∧ PR.lastProcessId s = "")
     ∨ ∃ g0 b j,
         PR.ganttChart s = g0 ++ [b]
         ∧ (j < length processes)%nat
         ∧ processId b = id (processes !!! j)
         ∧ (PR.lastProcessId s = id (processes !!! j)
            ∨ (PR.lastProcessId s = "" ∧ PR.remainingTime s !!! j = 0))).

Definition pr_inv (processes : list Process) (s : PR.state) : Prop :=
  core_inv processes (PR.remainingTime s) (PR.results s) (PR.currentTime s)
    (PR.completed s) (PR.ganttChart s)
  ∧ pr_last_inv processes s.

(** What every solver delivers on a valid input: sound metrics for
    every process, and a chart in time order that gives every process
    its burst and has no block for idle time. *)
Record schedule_ok (processes : list Process) (results : list ProcessResult)
    (g : list GanttBlock) : Prop := mk_schedule_ok {
  so_results : Forall result_ok results;
  so_all : map process results ≡ₚ processes;
  so_busy : ∀ p, p ∈ processes → busy (id p) g = burstTime p;
  so_ordered : chart_ordered g;
  so_positive : chart_positive g;
  so_names : chart_names processes g
}.

(** The invariant of the run-to-completion loops. [order] lists the
    completed processes, by index in [sorted], in the order they ran. *)
Record np_inv (sorted : list Process) (s : NP.state) : Prop := mk_np_inv {
  ni_length : length (NP.isCompleted s) = length sorted;
  ni_order : ∃ order,
      NoDup order ∧ length order = NP.completed s
      ∧ (∀ i, i ∈ order ↔
              (i < length sorted)%nat ∧ is_set (NP.isCompleted s) i = true)
      ∧ map process (NP.results s) = map (fun i => sorted !!! i) order
      ∧ map processId (NP.ganttChart s)
        = map (fun i => id (sorted !!! i)) order;
  ni_results : Forall result_ok (NP.results s);
  ni_busy : ∀ i, (i < length sorted)%nat →
      busy (id (sorted !!! i)) (NP.ganttChart s)
      = if is_set (NP.isCompleted s) i then burstTime (sorted !!! i) else 0;
  ni_chart : chart_inv sorted (NP.currentTime s) (NP.ganttChart s)
}.

(** The measure of the run-to-completion loops: the processes left
    and the time left until the last arrival. *)
Definition np_left (sorted : list Process) (s : NP.state) : nat :=
  (length sorted - NP.completed s)
  + Z.to_nat (max_arrival sorted - NP.currentTime s).

(** The ready queues of the queue-based solvers, taken together as
    [ready]: they hold, each once, the visited processes that have
    time remaining; a process not yet visited never ran. *)
Record ready_inv (processes : list Process) (remainingTime : list Z)
    (visited : list bool) (ready : list nat) : Prop := mk_ready_inv {
  ri_length : length visited = length processes;
  ri_nodup : NoDup ready;
  ri_mem : ∀ i, i ∈ ready ↔
      (i < length processes)%nat ∧ is_set visited i = true
      ∧ 0 < remainingTime !!! i;
  ri_fresh : ∀ i, (i < length processes)%nat → is_set visited i = false →
      remainingTime !!! i = burstTime (processes !!! i)
}.

(** The visited processes have arrived. *)
Definition seen_inv (processes : list Process) (visited : list bool)
    (currentTime : Z) : Prop :=
  ∀ i, (i < length processes)%nat → is_set visited i = true →
       arrivalTime (processes !!! i) ≤ currentTime.

(** The processes not visited are still to arrive. *)
Definition none_waiting (processes : list Process) (visited : list bool)
    (currentTime : Z) : Prop :=
  ∀ i, (i < length processes)%nat → is_set visited i = false →
       currentTime < arrivalTime (processes !!! i).

Definition rr_inv (processes : list Process) (s : RR.state) : Prop :=
  core_inv processes (RR.remainingTime s) (RR.results s) (RR.currentTime s)
    (RR.completed s) (RR.ganttChart s)
  ∧ ready_inv processes (RR.remainingTime s) (RR.visited s) (RR.queue s)
  ∧ seen_inv processes (RR.visited s) (RR.currentTime s)
  ∧ none_waiting processes (RR.visited s) (RR.currentTime s).

Definition mlq_inv (processes : list Process) (s : MLQ.state) : Prop :=
  core_inv processes (MLQ.remainingTime s) (MLQ.results s) (MLQ.currentTime s)
    (MLQ.completed s) (MLQ.ganttChart s)
  ∧ ready_inv processes (MLQ.remainingTime s) (MLQ.visited s)
      (MLQ.q1 s ++ MLQ.q2 s)
  ∧ seen_inv processes (MLQ.visited s) (MLQ.currentTime s).

Definition mlfq_inv (processes : list Process) (s : MLFQ.state) : Prop :=
  core_inv processes (MLFQ.remainingTime s) (MLFQ.results s)
    (MLFQ.currentTime s) (MLFQ.completed s) (MLFQ.ganttChart s)
  ∧ ready_inv processes (MLFQ.remainingTime s) (MLFQ.visited s)
      (MLFQ.q0 s ++ MLFQ.q1 s ++ MLFQ.q2 s)
  ∧ seen_inv processes (MLFQ.visited s) (MLFQ.currentTime s).

(** The three policies with ready queues: each slice they grant is a
    block of its own in the chart. *)
Definition slicing (algorithm : string) : bool :=
  (algorithm =? "Round Robin")%string
  || (algorithm =? "Multilevel Queue")%string
  || (algorithm =? "Multilevel Feedback Queue (MLFQ)")%string.

(** The blocks are in the order of their start times. *)
Definition chart_sorted (g : list GanttBlock) : Prop :=
  ∀ i j bi bj, (i < j)%nat → g !! i = Some bi → g !! j = Some bj →
               blockStart bi < blockStart bj.

(** A result whose process was run to its end: it ends no earlier
    than its arrival plus its burst. *)
Definition result_complete (r : ProcessResult) : Prop :=
  arrivalTime (process r) + burstTime (process r) ≤ endTime r.

(** A process without a name. *)
Definition nameless : list Process := [ mkProcess "" 0 1 0 ].

(** One process that needs more than one slice. *)
Definition lone : list Process := [ mkProcess "A" 0 3 0 ].

(** ** The selection rules of the scanning solvers *)

(** The processes a run-to-completion scan considers at [currentTime],
    and those a preemptive scan considers. *)
Definition waiting (sorted : list Process) (isCompleted : list bool)
    (currentTime : Z) (i : nat) : bool :=
  (arrivalTime (sorted !!! i) <=? currentTime) && negb (is_set isCompleted i).

Definition runnable (processes : list Process) (remainingTime : list Z)
    (currentTime : Z) (i : nat) : bool :=
  (arrivalTime (processes !!! i) <=? currentTime) && (0 <? remainingTime !!! i).

(** [i] is chosen rather than [j]: by a smaller [key], at equal keys
    by an earlier arrival, and at equal arrivals by its position. *)
Definition precedes (processes : list Process) (key : nat → Z) (i j : nat)
    : Prop :=
  key i < key j
  ∨ (key i = key j
     ∧ (arrivalTime (processes !!! i) < arrivalTime (processes !!! j)
        ∨ (arrivalTime (processes !!! i) = arrivalTime (processes !!! j)
           ∧ (i ≤ j)%nat))).

(** What a scan over [n] processes returns: the candidate that is
    chosen rather than any other one, none if there is no candidate;
    it does not throw. *)
Definition selects (n : nat) (cand : nat → bool) (better : nat → nat → Prop)
    (choice : option (option nat)) : Prop :=
  match choice with
  | Some (Some idx) =>
      (idx < n)%nat ∧ cand idx = true
      ∧ ∀ j, (j < n)%nat → cand j = true → better idx j
  | Some None => ∀ j, (j < n)%nat → cand j = false
  | None => False
  end.

(** The shape the scans for a least key share, and the one the scans
    for a greatest key share. *)
Definition least_step (processes : list Process) (cand : nat → bool)
    (key : nat → Z) (acc : option (option nat * bound)) (i : nat)
    : option (option nat * bound) :=
  '(idx, best) ← acc;
  if cand i then
    if lt_bound (key i) best then Some (Some i, Fin (key i))
    else if eq_bound (key i) best then
      a ← arrival_at processes idx;
      Some (if arrivalTime (processes !!! i) <? a then Some i else idx, best)
    else Some (idx, best)
  else Some (idx, best).

Definition greatest_step (processes : list Process) (cand : nat → bool)
    (key : nat → Z) (acc : option (option nat * Z)) (i : nat)
    : option (option nat * Z) :=
  '(idx, best) ← acc;
  if cand i then
    if best <? key i then Some (Some i, key i)
    else if key i =? best then
      a ← arrival_at processes idx;
      Some (if arrivalTime (processes !!! i) <? a then Some i else idx, best)
    else Some (idx, best)
  else Some (idx, best).

(** [i] is chosen rather than [j] by HRRN at [currentTime]: its
    response ratio [(waiting + burst) / burst] is greater, or equal
    with [i] first in the list. The ratios are compared by cross
    multiplication. *)
Definition higher_ratio (sorted : list Process) (currentTime : Z) (i j : nat)
    : Prop :=
  let total k := currentTime - arrivalTime (sorted !!! k)
                 + burstTime (sorted !!! k) in
  total j * burstTime (sorted !!! i) < total i * burstTime (sorted !!! j)
  ∨ (total j * burstTime (sorted !!! i) = total i * burstTime (sorted !!! j)
     ∧ (i ≤ j)%nat).

(** ** Start and end times *)

(** What the loops with a [remainingTime] array keep about the times
    they record: a process that never ran has no start time; one that
    ran started after its arrival and has been given its share since;
    one that is finished ended after its start plus its burst; and
    the clock is never ahead of the latest arrival plus the work done. *)
Record time_inv (processes : list Process) (remainingTime : list Z)
    (results : list ProcessResult) (currentTime : Z) : Prop := mk_time_inv {
  ti_fresh : ∀ i, (i < length processes)%nat →
      remainingTime !!! i = burstTime (processes !!! i) →
      startTime (results !!! i) = -1;
  ti_started : ∀ i, (i < length processes)%nat →
      remainingTime !!! i < burstTime (processes !!! i) →
      arrivalTime (processes !!! i) ≤ startTime (results !!! i)
      ∧ startTime (results !!! i)
        + (burstTime (processes !!! i) - remainingTime !!! i) ≤ currentTime;
  ti_ended : ∀ i, (i < length processes)%nat → remainingTime !!! i = 0 →
      startTime (results !!! i) + burstTime (processes !!! i)
      ≤ endTime (results !!! i)
      ∧ endTime (results !!! i) ≤ currentTime;
  ti_span : currentTime + sumZ remainingTime
            ≤ max_arrival processes + sumZ (map burstTime processes)
}.

(** A result with sound times: the process started after it arrived,
    ended after its start plus its burst, and ended by [deadline]. *)
Definition result_timed (deadline : Z) (r : ProcessResult) : Prop :=
  arrivalTime (process r) ≤ startTime r
  ∧ startTime r + burstTime (process r) ≤ endTime r
  ∧ endTime r ≤ deadline.

(** The time by which every solver is done: the latest arrival plus
    the sum of the bursts. *)
Definition deadline (processes : list Process) : Z :=
  max_arrival processes + sumZ (map burstTime processes).

(** ** The slices of the queue-based solvers *)

(** The processes of queue 1 of the Multilevel Queue. *)
Definition high (processes : list Process) (i : nat) : bool :=
  priority (processes !!! i) <=? 2.

(** What a block of the Multilevel Queue chart says while the loop
    runs: a block of a queue-1 process is no longer than the quantum;
    a block of a queue-2 process is one unit long, and every queue-1
    process that had arrived when it started was finished by then. *)
Definition mlq_block_ok (processes : list Process) (timeQuantum : Z)
    (remainingTime : list Z) (results : list ProcessResult) (b : GanttBlock)
    : Prop :=
  ∃ i, (i < length processes)%nat ∧ processId b = id (processes !!! i)
       ∧ if high processes i then duration b ≤ timeQuantum
         else duration b = 1
              ∧ ∀ j, (j < length processes)%nat → high processes j = true →
                     arrivalTime (processes !!! j) ≤ blockStart b →
                     remainingTime !!! j = 0
                     ∧ endTime (results !!! j) ≤ blockStart b.

Record mlq_extra (processes : list Process) (timeQuantum : Z)
    (s : MLQ.state) : Prop := mk_mlq_extra {
  me_time : time_inv processes (MLQ.remainingTime s) (MLQ.results s)
              (MLQ.currentTime s);
  me_q1 : Forall (fun i => high processes i = true) (MLQ.q1 s);
  me_q2 : Forall (fun i => high processes i = false) (MLQ.q2 s);
  me_chart : Forall (mlq_block_ok processes timeQuantum (MLQ.remainingTime s)
                       (MLQ.results s)) (MLQ.ganttChart s)
}.

(** ** Run to completion *)

(** The five policies that run a process from its start to its end. *)
Definition run_to_completion (algorithm : string) : bool :=
  (algorithm =? "FCFS")%string
  || (algorithm =? "SJF (Non-Preemptive)")%string
  || (algorithm =? "Priority (Non-Preemptive)")%string
  || (algorithm =? "LJF (Non-Preemptive)")%string
  || (algorithm =? "HRRN")%string.

(** The block that spans a result from its start to its end. *)
Definition block_of (r : ProcessResult) : GanttBlock :=
  mkBlock (id (process r)) (startTime r) (endTime r).

(** A result of a process that ran once, without interruption, and
    was done by [currentTime]. *)
Definition run_once (currentTime : Z) (r : ProcessResult) : Prop :=
  arrivalTime (process r) ≤ startTime r
  ∧ endTime r = startTime r + burstTime (process r)
  ∧ 1 ≤ burstTime (process r)
  ∧ endTime r ≤ currentTime.

(** What the run-to-completion loops keep besides: the chart is the
    list of the results' blocks, in the order of service, and the
    clock is never ahead of the latest arrival plus the work done. *)
Definition served (latest : Z) (currentTime : Z)
    (results : list ProcessResult) (ganttChart : list GanttBlock) : Prop :=
  Forall (run_once currentTime) results
  ∧ ganttChart = map block_of results
  ∧ currentTime
    ≤ latest + sumZ (map (fun r => burstTime (process r)) results).

(** ** The output record *)

(** A property of the output of a run that returns. *)
Definition outcome_all {A} (P : A → Prop) (o : outcome A) : Prop :=
  match o with
  | Done a => P a
  | Throws | OutOfFuel => True
  end.

(** A block of the Round Robin chart while the loop runs: it lasts a
    whole quantum, or it is the block in which its process finished. *)
Definition rr_block_ok (processes : list Process) (timeQuantum : Z)
    (remainingTime : list Z) (results : list ProcessResult) (b : GanttBlock)
    : Prop :=
  duration b = timeQuantum
  ∨ ∃ i, (i < length processes)%nat ∧ processId b = id (processes !!! i)
         ∧ remainingTime !!! i = 0
         ∧ endTime (results !!! i) = blockEnd b.

(** ** A quantum that is not positive *)

(** The states of the Round Robin loop when the quantum is 0 or
    less: no process ever loses remaining time, so none completes,
    and the queue is never left empty for good. *)
Definition rr_stuck (processes : list Process) (s : RR.state) : Prop :=
  length (RR.remainingTime s) = length processes
  ∧ (∀ i, (i < length processes)%nat → 1 ≤ RR.remainingTime s !!! i)
  ∧ RR.completed s = 0%nat
  ∧ (∀ i, i ∈ RR.queue s → (i < length processes)%nat)
  ∧ (RR.queue s ≠ []
     ∨ ∃ i, (i < length processes)%nat ∧ is_set (RR.visited s) i = false).

(** ** The comparison of the policies

    [handleCompare] of the page component ([src/unnamed/part_000], in
    both of its versions) runs [solve] for every name of [ALGORITHMS]
    on the same processes and quantum, keeps the two averages of each
    output, and sorts the rows by the average turnaround time. The
    model is of the value [data] that the handler stores with
    [setComparisonData]; its arguments are the values the handler
    has computed from the form. An exception of a solver ends the
    [map]: the newer page catches it and shows an error, the older
    one lets it escape; both are [Throws] here. *)

Record ComparisonResult : Type := mkComparison {
  algo : string;
  tat : Q;
  wt : Q
}.

(** [(a, b) => a.tat - b.tat]: the sort reads the sign of the
    difference. *)
Definition by_tat (a b : ComparisonResult) : Z :=
  match (tat a ?= tat b)%Q with
  | Lt => -1
  | Eq => 0
  | Gt => 1
  end.

Section Driver.

Context (localeCompare : string → string → Z).
Context (toFixed2 : jsnum → string).

(** [algos.map(algo => {...})]. *)
Fixpoint compare_each (fuel : nat) (algos : list string)
    (numProcesses : list Process) (quantum : Z)
    : outcome (list ComparisonResult) :=
  match algos with
  | [] => Done []
  | algo :: rest =>
      match Logged.solve localeCompare toFixed2 fuel algo numProcesses
              quantum with
      | Done res =>
          outcome_map
            (cons (mkComparison algo (Logged.averageTurnaroundTime res)
                     (Logged.averageWaitingTime res)))
            (compare_each fuel rest numProcesses quantum)
      | Throws => Throws
      | OutOfFuel => OutOfFuel
      end
  end.

Definition handleCompare (fuel : nat) (numProcesses : list Process)
    (quantum : Z) : outcome (list ComparisonResult) :=
  outcome_map (js_sort by_tat)
    (compare_each fuel ALGORITHMS numProcesses quantum).

End Driver.

(** A row of the comparison holds the averages of its policy. *)
Definition row_of (localeCompare : string → string → Z)
    (toFixed2 : jsnum → string) (fuel : nat) (numProcesses : list Process)
    (quantum : Z) (row : ComparisonResult) : Prop :=
  ∃ out,
    Logged.solve localeCompare toFixed2 fuel (algo row) numProcesses quantum
    = Done out
    ∧ tat row = Logged.averageTurnaroundTime out
    ∧ wt row = Logged.averageWaitingTime out.

(** ** No idle time while a process waits *)

(** The chart has a block over the unit of time that starts at [u]. *)
Definition covered (g : list GanttBlock) (u : Z) : Prop :=
  ∃ b, b ∈ g ∧ blockStart b ≤ u < blockEnd b.

(** From the arrival of a process to its end, some process runs. *)
Definition never_idle (results : list ProcessResult) (g : list GanttBlock)
    : Prop :=
  ∀ r u, r ∈ results → arrivalTime (process r) ≤ u < endTime r → covered g u.

(** The same while a loop with a [remainingTime] array runs: up to
    the clock for a process that is not finished. *)
Definition busy_inv (processes : list Process) (remainingTime : list Z)
    (results : list ProcessResult) (currentTime : Z) (g : list GanttBlock)
    : Prop :=
  ∀ i, (i < length processes)%nat →
  ∀ u, arrivalTime (processes !!! i) ≤ u →
       u < (if remainingTime !!! i =? 0 then endTime (results !!! i)
            else currentTime) →
       covered g u.

(** The last block of a preemptive chart belongs to a process that
    has arrived, and ends at the clock if that process is not
    finished. *)
Definition pr_tail (processes : list Process) (s : PR.state) : Prop :=
  ∀ g0 b, PR.ganttChart s = g0 ++ [b] →
    ∃ j, (j < length processes)%nat ∧ processId b = id (processes !!! j)
         ∧ arrivalTime (processes !!! j) ≤ PR.currentTime s
         ∧ (0 < PR.remainingTime s !!! j → blockEnd b = PR.currentTime s).

(** ** What termination needs

    The invariants of the loops that do not depend on the names of
    the processes nor on the sign of the arrival times. *)

(** The policies that extend the last block of the chart, and so read
    [lastProcessId]. *)
Definition merging (algorithm : string) : bool :=
  (algorithm =? "SRTF (Preemptive)")%string
  || (algorithm =? "Priority (Preemptive)")%string
  || (algorithm =? "LRTF (Preemptive)")%string.

(** The part of [core_inv] that does not speak of the chart. A
    process that has run and is not finished arrived before it ran. *)
Record live_inv (processes : list Process) (remainingTime : list Z)
    (results : list ProcessResult) (currentTime : Z) (completed : nat)
    : Prop := mk_live_inv {
  li_length : length remainingTime = length processes;
  li_results : map process results = processes;
  li_range : ∀ i, (i < length processes)%nat →
      0 ≤ remainingTime !!! i ≤ burstTime (processes !!! i);
  li_done : ∃ done,
      NoDup done ∧ length done = completed
      ∧ ∀ i, i ∈ done ↔ (i < length processes)%nat ∧ remainingTime !!! i = 0;
  li_ran : ∀ i, (i < length processes)%nat →
      0 < remainingTime !!! i →
      remainingTime !!! i < burstTime (processes !!! i) →
      arrivalTime (processes !!! i)
      + (burstTime (processes !!! i) - remainingTime !!! i) ≤ currentTime;
  li_final : ∀ i, (i < length processes)%nat → remainingTime !!! i = 0 →
      result_ok (results !!! i)
}.

(** A preemptive loop extends a block only of a chart that has one. *)
Definition pr_live (processes : list Process) (s : PR.state) : Prop :=
  live_inv processes (PR.remainingTime s) (PR.results s) (PR.currentTime s)
    (PR.completed s)
  ∧ (PR.lastProcessId s ≠ "" → PR.ganttChart s ≠ []).

(** The run-to-completion loops, without the chart. *)
Record np_live (sorted : list Process) (s : NP.state) : Prop := mk_np_live {
  nl_length : length (NP.isCompleted s) = length sorted;
  nl_order : ∃ order,
      NoDup order ∧ length order = NP.completed s
      ∧ (∀ i, i ∈ order ↔
              (i < length sorted)%nat ∧ is_set (NP.isCompleted s) i = true)
      ∧ map process (NP.results s) = map (fun i => sorted !!! i) order;
  nl_results : Forall result_ok (NP.results s)
}.

(** The processes in the ready queues have arrived. *)
Definition ready_arrived (processes : list Process) (ready : list nat)
    (currentTime : Z) : Prop :=
  ∀ i, i ∈ ready → arrivalTime (processes !!! i) ≤ currentTime.

(** Round Robin may set the clock back when it jumps to a process
    that arrived before time 0: only the queue is known to have
    arrived. *)
Definition rr_live (processes : list Process) (s : RR.state) : Prop :=
  live_inv processes (RR.remainingTime s) (RR.results s) (RR.currentTime s)
    (RR.completed s)
  ∧ ready_inv processes (RR.remainingTime s) (RR.visited s) (RR.queue s)
  ∧ ready_arrived processes (RR.queue s) (RR.currentTime s).

Definition mlq_live (processes : list Process) (s : MLQ.state) : Prop :=
  live_inv processes (MLQ.remainingTime s) (MLQ.results s) (MLQ.currentTime s)
    (MLQ.completed s)
  ∧ ready_inv processes (MLQ.remainingTime s) (MLQ.visited s)
      (MLQ.q1 s ++ MLQ.q2 s)
  ∧ seen_inv processes (MLQ.visited s) (MLQ.currentTime s).

Definition mlfq_live (processes : list Process) (s : MLFQ.state) : Prop :=
  live_inv processes (MLFQ.remainingTime s) (MLFQ.results s)
    (MLFQ.currentTime s) (MLFQ.completed s)
  ∧ ready_inv processes (MLFQ.remainingTime s) (MLFQ.visited s)
      (MLFQ.q0 s ++ MLFQ.q1 s ++ MLFQ.q2 s)
  ∧ seen_inv processes (MLFQ.visited s) (MLFQ.currentTime s).


(** Two processes of the same name, the first arrived before time 0. *)
Definition early_twins : list Process :=
  [ mkProcess "A" (-2) 3 1; mkProcess "A" 1 2 3 ].


(** ** The short jobs of the Multilevel Feedback Queue *)

(** Process [i], whose burst does not exceed the quantum, while the
    loop runs: either it was never dispatched (it is not visited or
    it waits in [q0], and its start time is unset), or it left [q0],
    ran from its start for its whole burst in one block, and with
    that ended. Where the names are pairwise distinct, no other block
    bears its name. *)
Definition short_ok (processes : list Process) (visited : list bool)
    (q0 : list nat) (results : list ProcessResult) (g : list GanttBlock)
    (i : nat) : Prop :=
  let r := results !!! i in
  let pid := id (processes !!! i) in
  ((is_set visited i = false ∨ i ∈ q0) ∧ startTime r = -1
   ∧ (NoDup (map id processes) → ∀ b, b ∈ g → processId b ≠ pid))
  ∨ (is_set visited i = true ∧ (i ∉ q0)
     ∧ endTime r = startTime r + burstTime (processes !!! i)
     ∧ mkBlock pid (startTime r) (endTime r) ∈ g
     ∧ (NoDup (map id processes) →
        ∀ b, b ∈ g → processId b = pid →
             b = mkBlock pid (startTime r) (endTime r))).

Definition short_jobs (processes : list Process) (timeQuantum : Z)
    (s : MLFQ.state) : Prop :=
  mlfq_levels processes timeQuantum s
  ∧ map process (MLFQ.results s) = processes
  ∧ ∀ i, (i < length processes)%nat →
         burstTime (processes !!! i) ≤ timeQuantum →
         short_ok processes (MLFQ.visited s) (MLFQ.q0 s) (MLFQ.results s)
           (MLFQ.ganttChart s) i.

(** What the output shows of a short job that ran. *)
Definition ran_once (g : list GanttBlock) (r : ProcessResult) : Prop :=
  endTime r = startTime r + burstTime (process r)
  ∧ mkBlock (id (process r)) (startTime r) (endTime r) ∈ g.

(** A long job between two short ones. *)
Definition mixed : list Process :=
  [ mkProcess "L" 0 7 1; mkProcess "S1" 0 2 1; mkProcess "S2" 3 1 1 ].

(** The states a loop passes through: the state at the start of each
    round, and the state it ends in. *)
Fixpoint while_trace {S} (fuel : nat) (cond : S → bool) (body : S → flow S)
    (s : S) : list S :=
  s :: match fuel with
       | O => []
       | Datatypes.S fuel' =>
           if cond s then
             match body s with
             | Next s' => while_trace fuel' cond body s'
             | Break s' => [s']
             | Throw => []
             end
           else []
       end.

(** The rounds of the loop of [solveMLFQ] in [scheduler.ts]. *)
Definition mlfq_rounds (fuel : nat) (processes : list Process)
    (timeQuantum : Z) : list (MLFQ.state * list string) :=
  while_trace fuel (fun sl => mlfq_cond (length processes) (fst sl))
    (Logged.mlfq_body processes timeQuantum) (Logged.mlfq_start processes).


(** ** One block for each slice *)

(** The blocks of the chart that bear the name [pid]. *)
Definition blocks_of (pid : string) (g : list GanttBlock) : nat :=
  length (List.filter (fun b => (processId b =? pid)%string) g).

(** The slices of at most [len] units that a burst takes. *)
Definition ceil_div (burst len : Z) : Z := (burst + len - 1) / len.

(** The slices that the Multilevel Feedback Queue grants a burst: one
    of [timeQuantum] units in Q0, one of twice as many in Q1, and one
    for each unit that is left in Q2. *)
Definition mlfq_slices (timeQuantum burst : Z) : Z :=
  if burst <=? timeQuantum then 1
  else if burst <=? 3 * timeQuantum then 2
  else 2 + (burst - 3 * timeQuantum).

(** The slices that a slicing policy grants a process. *)
Definition slices (algorithm : string) (timeQuantum : Z) (p : Process) : Z :=
  if (algorithm =? "Round Robin")%string
  then ceil_div (burstTime p) timeQuantum
  else if (algorithm =? "Multilevel Queue")%string
  then (if priority p <=? 2 then ceil_div (burstTime p) timeQuantum
        else burstTime p)
  else mlfq_slices timeQuantum (burstTime p).

(** The blocks of a process that runs in slices of [len] units, while
    it has time remaining and when it has none. *)
Definition sliced (len burst rem : Z) (blocks : nat) : Prop :=
  (0 < rem → burst - rem = len * Z.of_nat blocks)
  ∧ (rem = 0 → Z.of_nat blocks = ceil_div burst len).

(** The slice of a process of the Multilevel Queue. *)
Definition mlq_len (processes : list Process) (timeQuantum : Z) (i : nat)
    : Z :=
  if high processes i then timeQuantum else 1.

(** The blocks of a process of the Multilevel Feedback Queue, by the
    queue it is in. *)
Definition mlfq_counted (processes : list Process) (timeQuantum : Z)
    (remainingTime : list Z) (g : list GanttBlock) (q1 q2 : list nat)
    (i : nat) : Prop :=
  let burst := burstTime (processes !!! i) in
  let rem := remainingTime !!! i in
  let blocks := Z.of_nat (blocks_of (id (processes !!! i)) g) in
  (rem = burst → blocks = 0)
  ∧ (i ∈ q1 → blocks = 1 ∧ burst - rem = timeQuantum)
  ∧ (i ∈ q2 → 2 ≤ blocks ∧ burst - rem = 3 * timeQuantum + (blocks - 2))
  ∧ (rem = 0 → blocks = mlfq_slices timeQuantum burst).

(** * Proofs *)

(** ** Loops *)

Lemma for_loop_S {A} (n : nat) (f : A → nat → A) (a : A) :
  for_loop (S n) f a = f (for_loop n f a) n.
Proof. unfold for_loop. rewrite seq_S, fold_left_app. reflexivity. Qed.

Lemma for_loop_ind {A} (P : nat → A → Prop) (f : A → nat → A) (a : A) (n : nat) :
  P 0%nat a →
  (∀ i x, (i < n)%nat → P i x → P (S i) (f x i)) →
  P n (for_loop n f a).
Proof.
  intros H0 Hstep.
  assert (H : ∀ k, (k ≤ n)%nat → P k (for_loop k f a)).
  { induction k as [|k IH]; intros Hk; [exact H0|].
    rewrite for_loop_S. apply Hstep; [lia|]. apply IH. lia. }
  apply H. lia.
Qed.

Lemma for_loop_rel {A B} (R : A → B → Prop) (f : A → nat → A)
    (g : B → nat → B) (a : A) (b : B) (n : nat) :
  R a b →
  (∀ i x y, (i < n)%nat → R x y → R (f x i) (g y i)) →
  R (for_loop n f a) (for_loop n g b).
Proof.
  intros H0 Hstep.
  assert (H : ∀ k, (k ≤ n)%nat → R (for_loop k f a) (for_loop k g b)).
  { induction k as [|k IH]; intros Hk; [exact H0|].
    rewrite !for_loop_S. apply Hstep; [lia|]. apply IH. lia. }
  apply H. lia.
Qed.

Lemma outcome_map_map {A B C} (f : A → B) (g : B → C) (o : outcome A) :
  outcome_map g (outcome_map f o) = outcome_map (fun a => g (f a)) o.
Proof. destruct o; reflexivity. Qed.

Lemma outcome_map_ext {A B} (f g : A → B) (o : outcome A) :
  (∀ a, f a = g a) → outcome_map f o = outcome_map g o.
Proof. intros H. destruct o; simpl; [rewrite H|..]; reflexivity. Qed.

(** A loop on pairs whose body acts on the first component like
    [body] does projects on the loop of [body]. *)
Lemma while_loop_fst {S L} (cond : S → bool) (bodyL : S * L → flow (S * L))
    (body : S → flow S) :
  (∀ s l, cond s = true → flow_map fst (bodyL (s, l)) = body s) →
  ∀ fuel s l,
    outcome_map fst (while_loop fuel (fun sl => cond (fst sl)) bodyL (s, l))
    = while_loop fuel cond body s.
Proof.
  intros Hbody. induction fuel as [|fuel IH]; intros s l; simpl.
  - destruct (cond s); reflexivity.
  - destruct (cond s) eqn:Hc; [|reflexivity].
    specialize (Hbody s l Hc).
    destruct (bodyL (s, l)) as [[s' l']|[s' l']|]; simpl in Hbody;
      rewrite <- Hbody; simpl; [apply IH|reflexivity..].
Qed.

Lemma while_loop_rel {S1 S2} (R : S1 → S2 → Prop) (c1 : S1 → bool)
    (c2 : S2 → bool) (b1 : S1 → flow S1) (b2 : S2 → flow S2) :
  (∀ s1 s2, R s1 s2 → c1 s1 = c2 s2) →
  (∀ s1 s2, R s1 s2 → c1 s1 = true → flow_rel R (b1 s1) (b2 s2)) →
  ∀ fuel s1 s2, R s1 s2 →
    outcome_rel R (while_loop fuel c1 b1 s1) (while_loop fuel c2 b2 s2).
Proof.
  intros Hc Hb. induction fuel as [|fuel IH]; intros s1 s2 HR; simpl.
  - rewrite <- (Hc _ _ HR). destruct (c1 s1); simpl; auto.
  - rewrite <- (Hc _ _ HR). destruct (c1 s1) eqn:E; simpl; auto.
    specialize (Hb _ _ HR E).
    destruct (b1 s1), (b2 s2); simpl in *; auto; contradiction.
Qed.

(** A loop whose body keeps an invariant and lowers a measure ends
    within as many rounds as the measure says. *)
Lemma while_loop_total {S} (Inv : S → Prop) (mu : S → nat) (cond : S → bool)
    (body : S → flow S) :
  (∀ s, Inv s → cond s = true →
     ∃ s', body s = Next s' ∧ Inv s' ∧ (mu s' < mu s)%nat) →
  ∀ fuel s, Inv s → (mu s ≤ fuel)%nat →
    ∃ s', while_loop fuel cond body s = Done s' ∧ Inv s' ∧ cond s' = false.
Proof.
  intros Hstep. induction fuel as [|fuel IH]; intros s HI Hmu; simpl.
  - destruct (cond s) eqn:Hc; [|eauto].
    destruct (Hstep s HI Hc) as (s' & _ & _ & Hlt). lia.
  - destruct (cond s) eqn:Hc; [|eauto].
    destruct (Hstep s HI Hc) as (s' & -> & HI' & Hlt).
    apply IH; [assumption|lia].
Qed.

(** ** Sorting *)

Lemma js_insert_perm {A} (cmp : A → A → Z) (x : A) (l : list A) :
  js_insert cmp x l ≡ₚ x :: l.
Proof.
  induction l as [|y l IH]; simpl; [reflexivity|].
  destruct (cmp x y <=? 0); [reflexivity|].
  rewrite IH. apply Permutation_swap.
Qed.

Lemma js_sort_perm {A} (cmp : A → A → Z) (l : list A) : js_sort cmp l ≡ₚ l.
Proof.
  induction l as [|x l IH]; simpl; [reflexivity|].
  rewrite js_insert_perm. by rewrite IH.
Qed.

Lemma js_sort_length {A} (cmp : A → A → Z) (l : list A) :
  length (js_sort cmp l) = length l.
Proof. apply Permutation_length, js_sort_perm. Qed.

(** ** The dispatch and the degenerate inputs *)

(** C7. With an empty process list every policy identifier, every
    quantum and every amount of fuel give the degenerate output: no
    results, no Gantt block, and both averages zero. Nothing throws. *)
Theorem solve_empty_list localeCompare toFixed2 fuel algorithm timeQuantum :
  ∃ out,
    Logged.solve localeCompare toFixed2 fuel algorithm [] timeQuantum = Done out
    ∧ Logged.results out = []
    ∧ Logged.ganttChart out = []
    ∧ Logged.averageTurnaroundTime out = 0%Q
    ∧ Logged.averageWaitingTime out = 0%Q.
Proof.
  unfold Logged.solve.
  repeat (destruct (algorithm =? _)%string;
          [destruct fuel; eexists; repeat split; reflexivity|]).
  eexists; repeat split; reflexivity.
Qed.

(** C9. On the sample workload P1(0,5) P2(2,3) P3(4,1) P4(6,4) FCFS
    completes the processes at 5, 8, 9 and 13, with turnaround times
    5, 6, 5, 7 and waiting times 0, 3, 4, 3; the averages are 5.75 and
    2.5. The results are these four records in the order the collation
    gives them, which is P1, P2, P3, P4 when it ranks the names so. *)
Theorem fcfs_sample localeCompare toFixed2 fuel timeQuantum :
  ∃ out,
    Logged.solve localeCompare toFixed2 fuel "FCFS" sample timeQuantum = Done out
    ∧ Logged.results out
      = js_sort (Logged.by_id localeCompare) sample_fcfs_results
    ∧ Logged.results out ≡ₚ sample_fcfs_results
    ∧ map endTime sample_fcfs_results = [5; 8; 9; 13]
    ∧ map turnaroundTime sample_fcfs_results = [5; 6; 5; 7]
    ∧ map waitingTime sample_fcfs_results = [0; 3; 4; 3]
    ∧ js_sort (Logged.by_id code_order) sample_fcfs_results
      = sample_fcfs_results
    ∧ (Logged.averageTurnaroundTime out == 5.75)%Q
    ∧ (Logged.averageWaitingTime out == 2.5)%Q.
Proof.
  assert (∃ log,
            Logged.solve localeCompare toFixed2 fuel "FCFS" sample timeQuantum
            = Done (Logged.mkOutput
                      (js_sort (Logged.by_id localeCompare) sample_fcfs_results)
                      [ mkBlock "P1" 0 5; mkBlock "P2" 5 8; mkBlock "P3" 8 9;
                        mkBlock "P4" 9 13 ]
                      (23 # 4) (10 # 4) log)) as [log E]
    by (eexists; reflexivity).
  eexists. split; [exact E|]. cbn [Logged.results Logged.averageTurnaroundTime
    Logged.averageWaitingTime].
  split; [reflexivity|]. split; [apply js_sort_perm|].
  repeat split; reflexivity.
Qed.

(** C4, as the specification states it, fails: an identifier outside
    the eleven names throws nothing and yields the FCFS schedule. *)
Lemma solve_unknown_not_surfaced :
  ¬ In "Lottery" ALGORITHMS
  ∧ Logged.solve code_order no_digits 0 "Lottery" sample 2
    = Logged.solve code_order no_digits 0 "FCFS" sample 2
  ∧ Logged.ganttChart <$>
      (match Logged.solve code_order no_digits 0 "Lottery" sample 2 with
       | Done out => Some out
       | _ => None
       end)
    = Some [ mkBlock "P1" 0 5; mkBlock "P2" 5 8; mkBlock "P3" 8 9;
             mkBlock "P4" 9 13 ].
Proof.
  split; [|split; reflexivity].
  simpl. intros H. repeat (destruct H as [H|H]; [discriminate H|]). exact H.
Qed.

(** C4, amended. [solve] has a [default] branch: any identifier that
    is not one of the eleven names runs FCFS, with every quantum and
    every amount of fuel, and so returns normally. *)
Theorem solve_unknown_defaults_to_fcfs localeCompare toFixed2 fuel algorithm
    processes timeQuantum :
  ¬ In algorithm ALGORITHMS →
  Logged.solve localeCompare toFixed2 fuel algorithm processes timeQuantum
  = Logged.solveFCFS localeCompare processes
  ∧ ∃ out, Logged.solveFCFS localeCompare processes = Done out.
Proof.
  intros Hnot. split.
  - unfold Logged.solve.
    repeat (destruct (algorithm =? _)%string eqn:E;
            [apply String.eqb_eq in E; subst algorithm;
             exfalso; apply Hnot; simpl; tauto|clear E]).
    reflexivity.
  - unfold Logged.solveFCFS.
    destruct (fold_left _ _ _) as [s logs]. eauto.
Qed.

Lemma solve_unknown_defaults_to_fcfs_witness :
  Logged.solve code_order no_digits 0 "Lottery" sample 2
  = Logged.solveFCFS code_order sample
  ∧ ∃ out, Logged.solveFCFS code_order sample = Done out.
Proof.
  apply (solve_unknown_defaults_to_fcfs code_order no_digits 0 "Lottery"
           sample 2).
  simpl. intros H. repeat (destruct H as [H|H]; [discriminate H|]). exact H.
Defined.

(** ** The log is a side channel

    Each solver of [scheduler.ts] acts on its local variables like the
    loop without the log statements. *)

Lemma scan_fst {B} (n : nat)
    (f : option (option nat * B * list string) → nat →
         option (option nat * B * list string))
    (g : option (option nat * B) → nat → option (option nat * B)) (b0 : B) :
  (∀ i x, (fun '(idx, b, _) => (idx, b)) <$> f x i
          = g ((fun '(idx, b, _) => (idx, b)) <$> x) i) →
  fst <$> ((fun '(idx, _, c) => (idx, c)) <$> for_loop n f (Some (None, b0, [])))
  = fst <$> for_loop n g (Some (None, b0)).
Proof.
  intros Hstep.
  assert (H : (fun '(idx, b, _) => (idx, b)) <$> for_loop n f (Some (None, b0, []))
              = for_loop n g (Some (None, b0))).
  { apply (for_loop_rel (fun x y => (fun '(idx, b, _) => (idx, b)) <$> x = y));
      [reflexivity|].
    intros i x y _ <-. apply Hstep. }
  rewrite <- H. destruct (for_loop n f _) as [[[? ?] ?]|]; reflexivity.
Qed.

Lemma sjf_scan_fst sorted isCompleted currentTime :
  fst <$> Logged.sjf_scan sorted isCompleted currentTime
  = Plain.sjf_scan sorted isCompleted currentTime.
Proof.
  apply scan_fst. intros i [[[idx b] c]|]; [|reflexivity].
  unfold Logged.sjf_scan_step, Plain.sjf_scan_step. simpl.
  repeat (case_match; simpl; try reflexivity);
    destruct (arrival_at _ _); reflexivity.
Qed.

Lemma prionp_scan_fst sorted isCompleted currentTime :
  fst <$> Logged.prionp_scan sorted isCompleted currentTime
  = Plain.prionp_scan sorted isCompleted currentTime.
Proof.
  apply scan_fst. intros i [[[idx b] c]|]; [|reflexivity].
  unfold Logged.prionp_scan_step, Plain.prionp_scan_step. simpl.
  repeat (case_match; simpl; try reflexivity);
    destruct (arrival_at _ _); reflexivity.
Qed.

Lemma ljf_scan_fst sorted isCompleted currentTime :
  fst <$> Logged.ljf_scan sorted isCompleted currentTime
  = Plain.ljf_scan sorted isCompleted currentTime.
Proof.
  apply scan_fst. intros i [[[idx b] c]|]; [|reflexivity].
  unfold Logged.ljf_scan_step, Plain.ljf_scan_step. simpl.
  repeat (case_match; simpl; try reflexivity);
    destruct (arrival_at _ _); reflexivity.
Qed.

Lemma srtf_scan_fst processes remainingTime currentTime :
  fst <$> Logged.srtf_scan processes remainingTime currentTime
  = Plain.srtf_scan processes remainingTime currentTime.
Proof.
  apply scan_fst. intros i [[[idx b] c]|]; [|reflexivity].
  unfold Logged.srtf_scan_step, Plain.srtf_scan_step. simpl.
  repeat (case_match; simpl; try reflexivity);
    destruct (arrival_at _ _); reflexivity.
Qed.

Lemma hrrn_scan_fst toFixed2 sorted isCompleted currentTime :
  fst <$> Logged.hrrn_scan toFixed2 sorted isCompleted currentTime
  = Plain.hrrn_scan sorted isCompleted currentTime.
Proof.
  unfold Logged.hrrn_scan, Plain.hrrn_scan. simpl. f_equal.
  assert (H : (fun '(idx, b, _) => (idx, b))
                (for_loop (length sorted)
                   (Logged.hrrn_scan_step toFixed2 sorted isCompleted
                      currentTime) (None, Rat (-1), []))
              = for_loop (length sorted)
                  (Plain.hrrn_scan_step sorted isCompleted currentTime)
                  (None, Rat (-1))).
  { apply (for_loop_rel (fun x y => (fun '(idx, b, _) => (idx, b)) x = y));
      [reflexivity|].
    intros i [[idx b] c] y _ <-.
    unfold Logged.hrrn_scan_step, Plain.hrrn_scan_step. simpl.
    destruct (_ && _); [|reflexivity]. destruct (js_gt _ _); reflexivity. }
  rewrite <- H. destruct (for_loop _ _ _) as [[? ?] ?]. reflexivity.
Qed.

Lemma sjf_body_fst sorted s l :
  flow_map fst (Logged.sjf_body sorted (s, l))
  = np_body Plain.sjf_scan sorted s.
Proof.
  unfold Logged.sjf_body, np_body. rewrite <- sjf_scan_fst.
  destruct (Logged.sjf_scan _ _ _) as [[[idx|] c]|]; reflexivity.
Qed.

Lemma prionp_body_fst sorted s l :
  flow_map fst (Logged.prionp_body sorted (s, l))
  = np_body Plain.prionp_scan sorted s.
Proof.
  unfold Logged.prionp_body, np_body. rewrite <- prionp_scan_fst.
  destruct (Logged.prionp_scan _ _ _) as [[[idx|] c]|]; reflexivity.
Qed.

Lemma ljf_body_fst sorted s l :
  flow_map fst (Logged.ljf_body sorted (s, l))
  = np_body Plain.ljf_scan sorted s.
Proof.
  unfold Logged.ljf_body, np_body. rewrite <- ljf_scan_fst.
  destruct (Logged.ljf_scan _ _ _) as [[[idx|] c]|]; reflexivity.
Qed.

Lemma hrrn_body_fst toFixed2 sorted s l :
  flow_map fst (Logged.hrrn_body toFixed2 sorted (s, l))
  = np_body Plain.hrrn_scan sorted s.
Proof.
  unfold Logged.hrrn_body, np_body. rewrite <- (hrrn_scan_fst toFixed2).
  destruct (Logged.hrrn_scan _ _ _ _) as [[[idx|] c]|]; reflexivity.
Qed.

Lemma srtf_body_fst processes s l :
  flow_map fst (Logged.srtf_body processes (s, l))
  = pr_body true Plain.srtf_scan processes s.
Proof.
  unfold Logged.srtf_body, pr_body. rewrite <- srtf_scan_fst.
  destruct (Logged.srtf_scan _ _ _) as [[[idx|] c]|]; try reflexivity.
  simpl. destruct (pr_run _ _ _ _); reflexivity.
Qed.

Lemma priop_body_fst processes s l :
  flow_map fst (Logged.priop_body processes (s, l))
  = pr_body true priop_scan processes s.
Proof.
  unfold Logged.priop_body, pr_body.
  destruct (priop_scan _ _ _) as [[idx|]|]; try reflexivity.
  simpl. destruct (pr_run _ _ _ _); reflexivity.
Qed.

Lemma lrtf_body_fst processes s l :
  flow_map fst (Logged.lrtf_body processes (s, l))
  = pr_body false lrtf_scan processes s.
Proof.
  unfold Logged.lrtf_body, pr_body.
  destruct (lrtf_scan _ _ _) as [[idx|]|]; try reflexivity.
  simpl. destruct (pr_run _ _ _ _); reflexivity.
Qed.

Lemma fcfs_fold_fst sorted s l :
  fst (fold_left Logged.fcfs_each sorted (s, l)) = fold_left fcfs_run sorted s.
Proof.
  revert s l. induction sorted as [|p sorted IH]; intros s l; [reflexivity|].
  simpl. apply IH.
Qed.

Lemma rr_init_fst processes timeQuantum :
  fst (Logged.rr_init processes timeQuantum) = rr_init processes.
Proof.
  unfold Logged.rr_init, rr_init.
  assert (H : (fun '(q, v, _) => (q, v))
                (for_loop (length processes) (Logged.rr_seed_step processes)
                   ([], replicate (length processes) false,
                    [Logged.cat ["Algorithm Started: Round Robin with Time Quantum ";
                                 num timeQuantum; "ms."]]))
              = for_loop (length processes) (rr_seed_step processes)
                  ([], replicate (length processes) false)).
  { apply (for_loop_rel (fun x y => (fun '(q, v, _) => (q, v)) x = y));
      [reflexivity|].
    intros i [[q v] l] y _ <-. unfold Logged.rr_seed_step, rr_seed_step.
    destruct (_ =? _); reflexivity. }
  rewrite <- H. destruct (for_loop _ _ _) as [[q v] l]. reflexivity.
Qed.

Lemma rr_arrivals_fst processes execTime s l :
  fst (Logged.rr_arrivals processes execTime (s, l)) = rr_arrivals processes s.
Proof.
  unfold Logged.rr_arrivals, rr_arrivals.
  assert (H : (fun '(q, v, _) => (q, v))
                (for_loop (length processes)
                   (Logged.rr_arrive processes (RR.remainingTime s)
                      (RR.currentTime s) execTime)
                   (RR.queue s, RR.visited s, l))
              = for_loop (length processes)
                  (rr_arrive processes (RR.remainingTime s) (RR.currentTime s))
                  (RR.queue s, RR.visited s)).
  { apply (for_loop_rel (fun x y => (fun '(q, v, _) => (q, v)) x = y));
      [reflexivity|].
    intros i [[q v] l'] y _ <-. unfold Logged.rr_arrive, rr_arrive.
    destruct (_ && _); reflexivity. }
  rewrite <- H. destruct (for_loop _ _ _) as [[q v] l']. reflexivity.
Qed.

Lemma rr_body_fst processes timeQuantum s l :
  flow_map fst (Logged.rr_body processes timeQuantum (s, l))
  = Plain.rr_body processes timeQuantum s.
Proof.
  unfold Logged.rr_body, Plain.rr_body, Logged.rr_refill, rr_refill.
  destruct (RR.queue s) as [|i0 q0] eqn:Hq.
  - destruct (rr_next_arrival _ _) as [[nextIdx|] nextArr]; [|reflexivity].
    destruct (RR.queue (rr_jump _ _ _)) as [|idx rest]; [reflexivity|].
    match goal with
    | |- context [Logged.rr_arrivals ?p ?e (?s', ?l')] =>
        pose proof (rr_arrivals_fst p e s' l') as H;
        destruct (Logged.rr_arrivals p e (s', l')) as [s2 l2]
    end.
    simpl in H. subst s2. reflexivity.
  - rewrite Hq.
    match goal with
    | |- context [Logged.rr_arrivals ?p ?e (?s', ?l')] =>
        pose proof (rr_arrivals_fst p e s' l') as H;
        destruct (Logged.rr_arrivals p e (s', l')) as [s2 l2]
    end.
    simpl in H. subst s2. reflexivity.
Qed.

Lemma mlq_arrivals_fst processes s l :
  fst (Logged.mlq_arrivals_logged processes (s, l)) = mlq_arrivals processes s.
Proof.
  unfold Logged.mlq_arrivals_logged, mlq_arrivals.
  assert (H : (fun '(a, b, v, _) => (a, b, v))
                (for_loop (length processes)
                   (Logged.mlq_arrive processes (MLQ.currentTime s))
                   (MLQ.q1 s, MLQ.q2 s, MLQ.visited s, l))
              = for_loop (length processes)
                  (mlq_arrive processes (MLQ.currentTime s))
                  (MLQ.q1 s, MLQ.q2 s, MLQ.visited s)).
  { apply (for_loop_rel (fun x y => (fun '(a, b, v, _) => (a, b, v)) x = y));
      [reflexivity|].
    intros i [[[a b] v] l'] y _ <-. unfold Logged.mlq_arrive, mlq_arrive.
    destruct (_ && _); [|reflexivity]. destruct (_ <=? _); reflexivity. }
  rewrite <- H. destruct (for_loop _ _ _) as [[[a b] v] l']. reflexivity.
Qed.

Lemma mlq_body_fst processes timeQuantum s l :
  flow_map fst (Logged.mlq_body processes timeQuantum (s, l))
  = Plain.mlq_body processes timeQuantum s.
Proof.
  unfold Logged.mlq_body, Plain.mlq_body.
  pose proof (mlq_arrivals_fst processes s l) as H.
  destruct (Logged.mlq_arrivals_logged processes (s, l)) as [s1 l1].
  simpl in H. subst s1.
  destruct (MLQ.q1 _) as [|idx rest]; [|reflexivity].
  destruct (MLQ.q2 _) as [|idx rest]; reflexivity.
Qed.

Lemma mlfq_arrivals_fst processes note s l :
  fst (Logged.mlfq_arrivals_logged processes note (s, l))
  = mlfq_arrivals processes s.
Proof.
  unfold Logged.mlfq_arrivals_logged, mlfq_arrivals.
  assert (H : (fun '(q, v, _) => (q, v))
                (for_loop (length processes)
                   (Logged.mlfq_arrive processes (MLFQ.currentTime s) note)
                   (MLFQ.q0 s, MLFQ.visited s, l))
              = for_loop (length processes)
                  (mlfq_arrive processes (MLFQ.currentTime s))
                  (MLFQ.q0 s, MLFQ.visited s)).
  { apply (for_loop_rel (fun x y => (fun '(q, v, _) => (q, v)) x = y));
      [reflexivity|].
    intros i [[q v] l'] y _ <-. unfold Logged.mlfq_arrive, mlfq_arrive.
    destruct (_ && _); reflexivity. }
  rewrite <- H. destruct (for_loop _ _ _) as [[q v] l']. reflexivity.
Qed.

Lemma mlfq_body_fst processes timeQuantum s l :
  flow_map fst (Logged.mlfq_body processes timeQuantum (s, l))
  = Plain.mlfq_body processes timeQuantum s.
Proof.
  unfold Logged.mlfq_body, Plain.mlfq_body.
  pose proof (mlfq_arrivals_fst processes
                " Arrived. Added to Top Priority Q0." s l) as H.
  destruct (Logged.mlfq_arrivals_logged _ _ (s, l)) as [s1 l1].
  simpl in H. subst s1.
  destruct (mlfq_pick _ _) as [[[[idx lvl] qu] s2]|]; [|reflexivity].
  match goal with
  | |- context [Logged.mlfq_arrivals_logged ?p ?e (?s', ?l')] =>
      pose proof (mlfq_arrivals_fst p e s' l') as H;
      destruct (Logged.mlfq_arrivals_logged p e (s', l')) as [s3 l3]
  end.
  simpl in H. subst s3. reflexivity.
Qed.

Lemma np_solve_forget localeCompare body scan start fuel processes :
  (∀ sorted s l, flow_map fst (body sorted (s, l)) = np_body scan sorted s) →
  outcome_map forget (Logged.np_solve localeCompare body start fuel processes)
  = Plain.np_solve localeCompare scan fuel processes.
Proof.
  intros Hbody. unfold Logged.np_solve, Plain.np_solve.
  rewrite outcome_map_map.
  rewrite <- (while_loop_fst _ _ _ (fun s l _ => Hbody _ s l) fuel _ [start]).
  rewrite outcome_map_map. apply outcome_map_ext. intros [s l]. reflexivity.
Qed.

Lemma pr_solve_forget localeCompare reset body scan start fuel processes :
  (∀ s l, flow_map fst (body processes (s, l))
          = pr_body reset scan processes s) →
  outcome_map forget (Logged.pr_solve localeCompare body start fuel processes)
  = pr_solve_reset reset scan localeCompare fuel processes.
Proof.
  intros Hbody. unfold Logged.pr_solve, pr_solve_reset.
  rewrite outcome_map_map.
  rewrite <- (while_loop_fst _ _ _ (fun s l _ => Hbody s l) fuel _ [start]).
  rewrite outcome_map_map. apply outcome_map_ext. intros [s l]. reflexivity.
Qed.

Lemma solveFCFS_forget localeCompare processes :
  outcome_map forget (Logged.solveFCFS localeCompare processes)
  = Plain.solveFCFS localeCompare processes.
Proof.
  unfold Logged.solveFCFS, Plain.solveFCFS.
  match goal with
  | |- context [fold_left Logged.fcfs_each ?so (?s, ?l)] =>
      pose proof (fcfs_fold_fst so s l) as H;
      destruct (fold_left Logged.fcfs_each so (s, l)) as [s1 l1]
  end.
  simpl in H. subst s1. reflexivity.
Qed.

Lemma solveRR_forget localeCompare fuel processes timeQuantum :
  outcome_map forget (Logged.solveRR localeCompare fuel processes timeQuantum)
  = Plain.solveRR localeCompare fuel processes timeQuantum.
Proof.
  unfold Logged.solveRR, Plain.solveRR.
  pose proof (rr_init_fst processes timeQuantum) as H.
  destruct (Logged.rr_init processes timeQuantum) as [s0 l0].
  simpl in H. subst s0.
  rewrite outcome_map_map.
  rewrite <- (while_loop_fst _ _ _
                (fun s l _ => rr_body_fst processes timeQuantum s l) fuel _ l0).
  rewrite outcome_map_map. apply outcome_map_ext. intros [s l]. reflexivity.
Qed.

Lemma solveMLQ_forget localeCompare fuel processes timeQuantum :
  outcome_map forget (Logged.solveMLQ localeCompare fuel processes timeQuantum)
  = Plain.solveMLQ localeCompare fuel processes timeQuantum.
Proof.
  unfold Logged.solveMLQ, Plain.solveMLQ.
  rewrite outcome_map_map.
  match goal with
  | |- context [while_loop fuel _ _ (_, ?l0)] =>
      rewrite <- (while_loop_fst _ _ _
                    (fun s l _ => mlq_body_fst processes timeQuantum s l)
                    fuel _ l0)
  end.
  rewrite outcome_map_map. apply outcome_map_ext. intros [s l]. reflexivity.
Qed.

Lemma solveMLFQ_forget localeCompare fuel processes timeQuantum :
  outcome_map forget (Logged.solveMLFQ localeCompare fuel processes timeQuantum)
  = Plain.solveMLFQ localeCompare fuel processes timeQuantum.
Proof.
  unfold Logged.solveMLFQ, Plain.solveMLFQ, Logged.mlfq_start.
  rewrite outcome_map_map.
  match goal with
  | |- context [while_loop fuel _ _ (_, ?l0)] =>
      rewrite <- (while_loop_fst _ _ _
                    (fun s l _ => mlfq_body_fst processes timeQuantum s l)
                    fuel _ l0)
  end.
  rewrite outcome_map_map. apply outcome_map_ext. intros [s l]. reflexivity.
Qed.

(** What [scheduler.ts] computes besides its log, solver by solver:
    it is what [part_001] computes, except that its SRTF and
    preemptive-priority loops clear [lastProcessId] on completion. *)
Lemma solve_forget localeCompare toFixed2 fuel algorithm processes timeQuantum :
  outcome_map forget
    (Logged.solve localeCompare toFixed2 fuel algorithm processes timeQuantum)
  = if (algorithm =? "SRTF (Preemptive)")%string
    then pr_solve_reset true Plain.srtf_scan localeCompare fuel processes
    else if (algorithm =? "Priority (Preemptive)")%string
    then pr_solve_reset true priop_scan localeCompare fuel processes
    else Plain.solve localeCompare fuel algorithm processes timeQuantum.
Proof.
  unfold Logged.solve, Plain.solve.
  destruct (algorithm =? "FCFS")%string eqn:E1.
  { apply String.eqb_eq in E1. subst. simpl. apply solveFCFS_forget. }
  destruct (algorithm =? "SJF (Non-Preemptive)")%string eqn:E2.
  { apply String.eqb_eq in E2. subst. simpl.
    apply np_solve_forget, sjf_body_fst. }
  destruct (algorithm =? "SRTF (Preemptive)")%string eqn:E3.
  { apply pr_solve_forget, srtf_body_fst. }
  destruct (algorithm =? "Priority (Non-Preemptive)")%string eqn:E4.
  { apply String.eqb_eq in E4. subst. simpl.
    apply np_solve_forget, prionp_body_fst. }
  destruct (algorithm =? "Priority (Preemptive)")%string eqn:E5.
  { apply pr_solve_forget, priop_body_fst. }
  destruct (algorithm =? "Round Robin")%string. { apply solveRR_forget. }
  destruct (algorithm =? "LJF (Non-Preemptive)")%string.
  { apply np_solve_forget, ljf_body_fst. }
  destruct (algorithm =? "LRTF (Preemptive)")%string.
  { apply pr_solve_forget, lrtf_body_fst. }
  destruct (algorithm =? "HRRN")%string.
  { apply np_solve_forget, hrrn_body_fst. }
  destruct (algorithm =? "Multilevel Queue")%string. { apply solveMLQ_forget. }
  destruct (algorithm =? "Multilevel Feedback Queue (MLFQ)")%string.
  { apply solveMLFQ_forget. }
  apply solveFCFS_forget.
Qed.

(** ** The scans *)

(** A scan that keeps its choice on a non-candidate and holds a
    candidate after it met one ends with a candidate, if there is any. *)
Lemma scan_loop_spec {B} (cand : nat → bool) (n : nat) (b0 : B)
    (f : option (option nat * B) → nat → option (option nat * B)) :
  (∀ i idx b, (i < n)%nat →
     match idx with
     | Some j => cand j = true ∧ (j < i)%nat
     | None => b = b0
     end →
     (cand i = false → f (Some (idx, b)) i = Some (idx, b))
     ∧ (cand i = true →
        ∃ idx' b', f (Some (idx, b)) i = Some (Some idx', b')
                   ∧ (idx' = i ∨ Some idx' = idx))) →
  ∃ idx b,
    for_loop n f (Some (None, b0)) = Some (idx, b)
    ∧ match idx with
      | Some j => cand j = true ∧ (j < n)%nat
      | None => ∀ i, (i < n)%nat → cand i = false
      end.
Proof.
  intros Hstep.
  pose (P := fun (k : nat) (acc : option (option nat * B)) =>
    ∃ idx b, acc = Some (idx, b)
      ∧ match idx with
        | Some j => cand j = true ∧ (j < k)%nat
        | None => b = b0 ∧ ∀ i, (i < k)%nat → cand i = false
        end).
  assert (HP : P n (for_loop n f (Some (None, b0)))).
  { apply for_loop_ind.
    - exists None, b0. split; [reflexivity|]. split; [reflexivity|]. lia.
    - intros i x Hi (idx & b & -> & Hinv).
      assert (Hpre : match idx with
                     | Some j => cand j = true ∧ (j < i)%nat
                     | None => b = b0
                     end).
      { destruct idx; [exact Hinv|apply Hinv]. }
      destruct (Hstep i idx b Hi Hpre) as [Hno Hyes].
      destruct (cand i) eqn:Hc.
      + destruct (Hyes eq_refl) as (idx' & b' & -> & Hor).
        exists (Some idx'), b'. split; [reflexivity|].
        destruct Hor as [->|Heq]; [split; [exact Hc|lia]|].
        subst idx. destruct Hinv. split; [assumption|lia].
      + rewrite (Hno eq_refl). exists idx, b. split; [reflexivity|].
        destruct idx as [j|].
        * destruct Hinv. split; [assumption|lia].
        * destruct Hinv as [Hb Hall]. split; [exact Hb|].
          intros k Hk. destruct (decide (k = i)) as [->|]; [exact Hc|].
          apply Hall. lia. }
  destruct HP as (idx & b & Heq & Hinv). exists idx, b. split; [exact Heq|].
  destruct idx; [exact Hinv|apply Hinv].
Qed.

Lemma arrival_at_Some (sorted : list Process) (j : nat) :
  (j < length sorted)%nat →
  arrival_at sorted (Some j) = Some (arrivalTime (sorted !!! j)).
Proof.
  intros Hj. unfold arrival_at. simpl.
  destruct (lookup_lt_is_Some_2 sorted j Hj) as [p Hp].
  rewrite Hp. simpl. by rewrite (list_lookup_total_correct _ _ _ Hp).
Qed.

Lemma srtf_scan_ok processes : pr_scan_ok Plain.srtf_scan processes.
Proof.
  intros rem t. unfold Plain.srtf_scan.
  destruct (scan_loop_spec
              (fun i => (arrivalTime (processes !!! i) <=? t) && (0 <? rem !!! i))
              (length processes) Inf
              (Plain.srtf_scan_step processes rem t)) as (idx & b & -> & H).
  - intros i idx b Hi Hpre. unfold Plain.srtf_scan_step. simpl.
    destruct (_ && _); split; try discriminate; intros _; [|reflexivity].
    destruct (lt_bound _ b) eqn:Hlt; [eauto|].
    destruct b as [z|]; [|discriminate]. destruct idx as [j|]; [|discriminate].
    rewrite arrival_at_Some by lia. simpl.
    repeat case_match; eauto.
  - simpl. destruct idx as [j|].
    + destruct H as [Hc Hj]. apply andb_true_iff in Hc as [Ha Hr]. lia.
    + intros i Hi Hr. specialize (H i Hi).
      apply andb_false_iff in H as [H|H]; lia.
Qed.

Lemma priop_scan_ok processes : pr_scan_ok priop_scan processes.
Proof.
  intros rem t. unfold priop_scan.
  destruct (scan_loop_spec
              (fun i => (arrivalTime (processes !!! i) <=? t) && (0 <? rem !!! i))
              (length processes) Inf
              (priop_scan_step processes rem t)) as (idx & b & -> & H).
  - intros i idx b Hi Hpre. unfold priop_scan_step. simpl.
    destruct (_ && _); split; try discriminate; intros _; [|reflexivity].
    destruct (lt_bound _ b) eqn:Hlt; [eauto|].
    destruct b as [z|]; [|discriminate]. destruct idx as [j|]; [|discriminate].
    rewrite arrival_at_Some by lia. simpl.
    repeat case_match; eauto.
  - simpl. destruct idx as [j|].
    + destruct H as [Hc Hj]. apply andb_true_iff in Hc as [Ha Hr]. lia.
    + intros i Hi Hr. specialize (H i Hi).
      apply andb_false_iff in H as [H|H]; lia.
Qed.

Lemma lrtf_scan_ok processes : pr_scan_ok lrtf_scan processes.
Proof.
  intros rem t. unfold lrtf_scan.
  destruct (scan_loop_spec
              (fun i => (arrivalTime (processes !!! i) <=? t) && (0 <? rem !!! i))
              (length processes) (-1)
              (lrtf_scan_step processes rem t)) as (idx & b & -> & H).
  - intros i idx b Hi Hpre. unfold lrtf_scan_step. simpl.
    destruct (_ && _) eqn:Hc; split; try discriminate; intros _; [|reflexivity].
    apply andb_true_iff in Hc as [_ Hr].
    destruct (b <? _) eqn:Hlt; [eauto|].
    destruct idx as [j|]; [|subst b; lia].
    rewrite arrival_at_Some by lia. simpl.
    repeat case_match; eauto.
  - simpl. destruct idx as [j|].
    + destruct H as [Hc Hj]. apply andb_true_iff in Hc as [Ha Hr]. lia.
    + intros i Hi Hr. specialize (H i Hi).
      apply andb_false_iff in H as [H|H]; lia.
Qed.

Lemma sjf_scan_ok sorted : np_scan_ok Plain.sjf_scan sorted.
Proof.
  intros isC t. unfold Plain.sjf_scan.
  destruct (scan_loop_spec
              (fun i => (arrivalTime (sorted !!! i) <=? t) && negb (is_set isC i))
              (length sorted) Inf
              (Plain.sjf_scan_step sorted isC t)) as (idx & b & -> & H).
  - intros i idx b Hi Hpre. unfold Plain.sjf_scan_step. simpl.
    destruct (_ && _); split; try discriminate; intros _; [|reflexivity].
    destruct (lt_bound _ b) eqn:Hlt; [eauto|].
    destruct b as [z|]; [|discriminate]. destruct idx as [j|]; [|discriminate].
    rewrite arrival_at_Some by lia. simpl.
    repeat case_match; eauto.
  - simpl. destruct idx as [j|].
    + destruct H as [Hc Hj]. apply andb_true_iff in Hc as [Ha Hr].
      apply negb_true_iff in Hr. split; [lia|]. split; [exact Hr|lia].
    + intros i Hi Hr. specialize (H i Hi). rewrite Hr in H.
      apply andb_false_iff in H as [H|H]; [lia|discriminate].
Qed.

Lemma prionp_scan_ok sorted : np_scan_ok Plain.prionp_scan sorted.
Proof.
  intros isC t. unfold Plain.prionp_scan.
  destruct (scan_loop_spec
              (fun i => (arrivalTime (sorted !!! i) <=? t) && negb (is_set isC i))
              (length sorted) Inf
              (Plain.prionp_scan_step sorted isC t)) as (idx & b & -> & H).
  - intros i idx b Hi Hpre. unfold Plain.prionp_scan_step. simpl.
    destruct (_ && _); split; try discriminate; intros _; [|reflexivity].
    destruct (lt_bound _ b) eqn:Hlt; [eauto|].
    destruct b as [z|]; [|discriminate]. destruct idx as [j|]; [|discriminate].
    rewrite arrival_at_Some by lia. simpl.
    repeat case_match; eauto.
  - simpl. destruct idx as [j|].
    + destruct H as [Hc Hj]. apply andb_true_iff in Hc as [Ha Hr].
      apply negb_true_iff in Hr. split; [lia|]. split; [exact Hr|lia].
    + intros i Hi Hr. specialize (H i Hi). rewrite Hr in H.
      apply andb_false_iff in H as [H|H]; [lia|discriminate].
Qed.

Lemma ljf_scan_ok sorted :
  Forall (fun p => 0 ≤ burstTime p) sorted → np_scan_ok Plain.ljf_scan sorted.
Proof.
  intros Hb isC t. unfold Plain.ljf_scan.
  destruct (scan_loop_spec
              (fun i => (arrivalTime (sorted !!! i) <=? t) && negb (is_set isC i))
              (length sorted) (-1)
              (Plain.ljf_scan_step sorted isC t)) as (idx & b & -> & H).
  - intros i idx b Hi Hpre. unfold Plain.ljf_scan_step. simpl.
    destruct (_ && _); split; try discriminate; intros _; [|reflexivity].
    assert (0 ≤ burstTime (sorted !!! i)).
    { rewrite Forall_lookup in Hb. apply (Hb i).
      apply list_lookup_lookup_total_lt. lia. }
    destruct (b <? _) eqn:Hlt; [eauto|].
    destruct idx as [j|]; [|subst b; lia].
    rewrite arrival_at_Some by lia. simpl.
    repeat case_match; eauto.
  - simpl. destruct idx as [j|].
    + destruct H as [Hc Hj]. apply andb_true_iff in Hc as [Ha Hr].
      apply negb_true_iff in Hr. split; [lia|]. split; [exact Hr|lia].
    + intros i Hi Hr. specialize (H i Hi). rewrite Hr in H.
      apply andb_false_iff in H as [H|H]; [lia|discriminate].
Qed.

Lemma js_gt_ratio_start (w b : Z) :
  0 ≤ w → 1 ≤ b → js_gt (js_div (w + b) b) (Rat (-1)) = true.
Proof.
  intros Hw Hb. destruct b as [|p|p]; try lia. simpl.
  apply negb_true_iff. apply not_true_iff_false. intros H.
  apply Qle_bool_iff in H. unfold Qle in H. simpl in H. lia.
Qed.

Lemma hrrn_scan_ok sorted :
  Forall (fun p => 1 ≤ burstTime p) sorted → np_scan_ok Plain.hrrn_scan sorted.
Proof.
  intros Hb isC t. unfold Plain.hrrn_scan.
  pose (cand := fun i =>
          (arrivalTime (sorted !!! i) <=? t) && negb (is_set isC i)).
  pose (P := fun (k : nat) (acc : option nat * jsnum) =>
    match fst acc with
    | Some j => cand j = true ∧ (j < k)%nat
    | None => snd acc = Rat (-1) ∧ ∀ i, (i < k)%nat → cand i = false
    end).
  assert (HP : P (length sorted)
                 (for_loop (length sorted) (Plain.hrrn_scan_step sorted isC t)
                    (None, Rat (-1)))).
  { apply for_loop_ind.
    - split; [reflexivity|]. lia.
    - intros i [idx b] Hi Hinv. unfold P in *. simpl in Hinv.
      unfold Plain.hrrn_scan_step. fold (cand i).
      destruct (cand i) eqn:Hc.
      + destruct idx as [j|].
        * destruct (js_gt _ _); simpl; [split; [exact Hc|lia]|].
          destruct Hinv. split; [assumption|lia].
        * destruct Hinv as [-> _]. rewrite js_gt_ratio_start; simpl.
          -- split; [exact Hc|lia].
          -- unfold cand in Hc. apply andb_true_iff in Hc as [Ha _]. lia.
          -- rewrite Forall_lookup in Hb. apply (Hb i).
             apply list_lookup_lookup_total_lt. lia.
      + simpl. destruct idx as [j|].
        * destruct Hinv. split; [assumption|lia].
        * destruct Hinv as [Hb' Hall]. split; [exact Hb'|].
          intros k Hk. destruct (decide (k = i)) as [->|]; [exact Hc|].
          apply Hall. lia. }
  unfold P in HP. destruct (for_loop _ _ _) as [idx b]. simpl in *.
  destruct idx as [j|].
  - destruct HP as [Hc Hj]. unfold cand in Hc.
    apply andb_true_iff in Hc as [Ha Hr].
    apply negb_true_iff in Hr. split; [lia|]. split; [exact Hr|lia].
  - destruct HP as [_ Hall]. intros i Hi Hr. specialize (Hall i Hi).
    unfold cand in Hall. rewrite Hr in Hall.
    apply andb_false_iff in Hall as [H|H]; [lia|discriminate].
Qed.

(** ** The two modules agree apart from the log *)

Lemma ids_ok_inj processes i j :
  ids_ok processes → (i < length processes)%nat → (j < length processes)%nat →
  id (processes !!! i) = id (processes !!! j) → i = j.
Proof.
  intros [Hnd _] Hi Hj Heq.
  apply (NoDup_lookup _ i j (id (processes !!! i)) Hnd).
  - rewrite list_lookup_fmap, (list_lookup_lookup_total_lt processes i Hi).
    reflexivity.
  - rewrite list_lookup_fmap, (list_lookup_lookup_total_lt processes j Hj).
    simpl. by rewrite Heq.
Qed.

Lemma ids_ok_nonempty processes i :
  ids_ok processes → (i < length processes)%nat → id (processes !!! i) ≠ "".
Proof.
  intros [_ Hne] Hi. rewrite Forall_lookup in Hne.
  apply (Hne i). by apply list_lookup_lookup_total_lt.
Qed.

Lemma pr_body_reset_rel scan processes s1 s2 :
  pr_scan_ok scan processes → ids_ok processes →
  reset_rel processes s1 s2 →
  flow_rel (reset_rel processes)
    (pr_body true scan processes s1) (pr_body false scan processes s2).
Proof.
  intros Hscan Hids (Hrem & Hres & Ht & Hc & Hg & Hlast).
  destruct s1 as [rem res t c g last1], s2 as [rem2 res2 t2 c2 g2 last2].
  simpl in *. subst rem2 res2 t2 c2 g2.
  unfold pr_body. simpl. specialize (Hscan rem t).
  destruct (scan processes rem t) as [[idx|]|]; [| |contradiction].
  - destruct Hscan as (Hidx & Hpos & _).
    pose proof (ids_ok_nonempty _ _ Hids Hidx) as Hne.
    unfold pr_run. simpl.
    assert (Hsw : negb (last1 =? id (processes !!! idx))%string
                  = negb (last2 =? id (processes !!! idx))%string).
    { destruct Hlast as [->|(-> & j & Hj & -> & Hdone)]; [reflexivity|].
      destruct (String.eqb_spec "" (id (processes !!! idx))) as [E|_];
        [congruence|].
      destruct (String.eqb_spec (id (processes !!! j)) (id (processes !!! idx)))
        as [E|_]; [|reflexivity].
      apply (ids_ok_inj _ _ _ Hids Hj Hidx) in E. subst j. lia. }
    rewrite <- Hsw.
    destruct (negb (last1 =? id (processes !!! idx))%string) eqn:Hsw1.
    + destruct (_ =? 0) eqn:Hz; simpl; repeat split; auto.
      right. split; [reflexivity|]. exists idx. apply Z.eqb_eq in Hz.
      repeat split; auto. simpl. lia.
    + assert (last1 = id (processes !!! idx)) as Hl1.
      { apply negb_false_iff in Hsw1. by apply String.eqb_eq. }
      assert (last2 = id (processes !!! idx)) as Hl2.
      { symmetry in Hsw. apply negb_false_iff in Hsw.
        by apply String.eqb_eq in Hsw. }
      destruct (extend_last g); simpl; [|exact I].
      destruct (_ =? 0) eqn:Hz; simpl; repeat split; auto.
      * right. split; [reflexivity|]. exists idx. apply Z.eqb_eq in Hz.
        repeat split; auto. simpl. lia.
      * left. congruence.
  - simpl. repeat split; auto.
Qed.

Lemma outcome_rel_map {A B C} (R : A → B → Prop) (f : A → C) (g : B → C)
    (x : outcome A) (y : outcome B) :
  outcome_rel R x y → (∀ a b, R a b → f a = g b) →
  outcome_map f x = outcome_map g y.
Proof.
  intros HR Hfg. destruct x, y; simpl in *; try contradiction; try reflexivity.
  f_equal. by apply Hfg.
Qed.

Lemma pr_solve_reset_irrelevant scan localeCompare fuel processes :
  pr_scan_ok scan processes → ids_ok processes →
  pr_solve_reset true scan localeCompare fuel processes
  = pr_solve_reset false scan localeCompare fuel processes.
Proof.
  intros Hscan Hids. unfold pr_solve_reset.
  apply (outcome_rel_map (reset_rel processes)).
  - apply while_loop_rel.
    + intros s1 s2 (_ & _ & _ & Hc & _). unfold pr_cond. by rewrite Hc.
    + intros s1 s2 HR _. by apply pr_body_reset_rel.
    + repeat split; auto.
  - intros s1 s2 (_ & Hres & _ & _ & Hg & _). by rewrite Hres, Hg.
Qed.

Lemma ids_ok_sample : ids_ok sample.
Proof.
  split.
  - simpl. repeat (constructor;
                   [rewrite ?elem_of_cons, elem_of_nil; intros H;
                    repeat (destruct H as [H|H]; [discriminate H|]); exact H|]).
    constructor.
  - repeat (constructor; [discriminate|]). constructor.
Qed.

(** C10, as stated, fails: with two processes of the same name the
    SRTF solver of [scheduler.ts] draws two Gantt blocks where the one
    of [part_001] draws a single merged block. *)
Lemma modules_differ_on_twins :
  outcome_map Logged.ganttChart
    (Logged.solve code_order no_digits 2 "SRTF (Preemptive)" twins 1)
  = Done [ mkBlock "A" 0 1; mkBlock "A" 1 2 ]
  ∧ outcome_map Plain.ganttChart
      (Plain.solve code_order 2 "SRTF (Preemptive)" twins 1)
    = Done [ mkBlock "A" 0 2 ].
Proof. split; reflexivity. Qed.

(** C10, amended. Apart from the decision log both modules return the
    same outcome (the same results, Gantt chart and averages, or the
    same failure) for every policy identifier, quantum, amount of fuel
    and process list, provided that for SRTF and for the preemptive
    priority policy the process names are pairwise distinct and not
    empty. *)
Theorem modules_agree localeCompare toFixed2 fuel algorithm processes
    timeQuantum :
  (algorithm = "SRTF (Preemptive)" ∨ algorithm = "Priority (Preemptive)" →
   ids_ok processes) →
  outcome_map forget
    (Logged.solve localeCompare toFixed2 fuel algorithm processes timeQuantum)
  = Plain.solve localeCompare fuel algorithm processes timeQuantum.
Proof.
  intros Hids. rewrite solve_forget.
  destruct (algorithm =? "SRTF (Preemptive)")%string eqn:E1.
  { apply String.eqb_eq in E1. subst algorithm.
    rewrite pr_solve_reset_irrelevant; auto using srtf_scan_ok. }
  destruct (algorithm =? "Priority (Preemptive)")%string eqn:E2.
  { apply String.eqb_eq in E2. subst algorithm.
    rewrite pr_solve_reset_irrelevant; auto using priop_scan_ok. }
  reflexivity.
Qed.

Lemma modules_agree_witness :
  outcome_map forget
    (Logged.solve code_order no_digits 20 "SRTF (Preemptive)" sample 2)
  = Plain.solve code_order 20 "SRTF (Preemptive)" sample 2.
Proof.
  apply (modules_agree code_order no_digits 20 "SRTF (Preemptive)" sample 2).
  intros _. exact ids_ok_sample.
Defined.

(** ** The arrival loops *)

Lemma is_set_insert (v : list bool) (i j : nat) :
  is_set (<[j := true]> v) i
  = if decide (i = j ∧ (j < length v)%nat) then true else is_set v i.
Proof.
  unfold is_set. destruct (decide (i = j)) as [->|Hne].
  - destruct (decide (j < length v)%nat) as [Hlt|Hge].
    + rewrite list_lookup_insert_eq by exact Hlt.
      rewrite decide_True by auto. reflexivity.
    + rewrite list_insert_ge by lia. rewrite decide_False by tauto. reflexivity.
  - rewrite list_lookup_insert_ne by auto. rewrite decide_False by tauto.
    reflexivity.
Qed.

Lemma is_set_lt (v : list bool) (i : nat) :
  is_set v i = true → (i < length v)%nat.
Proof.
  unfold is_set. intros H. apply lookup_lt_is_Some.
  destruct (v !! i); [eauto|discriminate].
Qed.

Lemma length_mark_all (new : list nat) (v : list bool) :
  length (mark_all new v) = length v.
Proof.
  unfold mark_all. revert v. induction new as [|i new IH]; intros v; simpl;
    [reflexivity|]. rewrite IH. apply length_insert.
Qed.

Lemma is_set_mark_all (new : list nat) (v : list bool) (i : nat) :
  is_set (mark_all new v) i = true
  ↔ is_set v i = true ∨ (i ∈ new ∧ (i < length v)%nat).
Proof.
  unfold mark_all. revert v. induction new as [|j new IH]; intros v; simpl.
  - rewrite elem_of_nil. tauto.
  - rewrite IH, is_set_insert, length_insert, elem_of_cons.
    destruct (decide _) as [[-> Hlt]|Hno]; [tauto|].
    split; [tauto|]. intros [H|[[->|H] Hi]]; [tauto| |tauto].
    right. split; [|exact Hi]. exfalso. apply Hno. tauto.
Qed.

Lemma mark_all_app (a b : list nat) (v : list bool) :
  mark_all (a ++ b) v = mark_all b (mark_all a v).
Proof. unfold mark_all. apply fold_left_app. Qed.

Lemma newcomers_S n visited ready :
  newcomers (S n) visited ready
  = newcomers n visited ready
    ++ (if negb (is_set visited n) && ready n then [n] else []).
Proof. unfold newcomers. rewrite seq_S, List.filter_app. reflexivity. Qed.

Lemma elem_of_newcomers n visited ready i :
  i ∈ newcomers n visited ready
  ↔ (i < n)%nat ∧ is_set visited i = false ∧ ready i = true.
Proof.
  unfold newcomers. rewrite list_elem_of_In, List.filter_In, in_seq.
  rewrite andb_true_iff, negb_true_iff. split; [intros [? [? ?]]|]; intuition lia.
Qed.

Lemma NoDup_newcomers n visited ready : NoDup (newcomers n visited ready).
Proof.
  unfold newcomers. apply NoDup_ListNoDup, List.NoDup_filter, List.seq_NoDup.
Qed.

(** An arrival loop appends the newcomers in the order of their
    indices and marks them. *)
Lemma arrive_loop (ready : nat → bool) (n : nat)
    (g : list nat * list bool → nat → list nat * list bool)
    (queue : list nat) (visited : list bool) :
  (∀ q v i, g (q, v) i
            = if negb (is_set v i) && ready i
              then (q ++ [i], <[i := true]> v) else (q, v)) →
  for_loop n g (queue, visited)
  = (queue ++ newcomers n visited ready,
     mark_all (newcomers n visited ready) visited).
Proof.
  intros Hg. induction n as [|n IH]; [by rewrite app_nil_r|].
  rewrite for_loop_S, IH, Hg, newcomers_S.
  assert (Hsame : is_set (mark_all (newcomers n visited ready) visited) n
                  = is_set visited n).
  { apply eq_true_iff_eq. rewrite is_set_mark_all, elem_of_newcomers.
    split; [intros [H|[[H _] _]]; [exact H|lia]|tauto]. }
  rewrite Hsame. destruct (negb (is_set visited n) && ready n).
  - rewrite mark_all_app, app_assoc. reflexivity.
  - rewrite app_nil_r. reflexivity.
Qed.

Lemma rr_arrivals_spec processes s :
  let new := newcomers (length processes) (RR.visited s)
               (rr_ready processes (RR.remainingTime s) (RR.currentTime s)) in
  rr_arrivals processes s
  = RR.mk (RR.remainingTime s) (RR.results s) (RR.currentTime s)
      (RR.completed s) (RR.ganttChart s) (RR.queue s ++ new)
      (mark_all new (RR.visited s)).
Proof.
  unfold rr_arrivals.
  rewrite (arrive_loop (rr_ready processes (RR.remainingTime s)
                          (RR.currentTime s))); [reflexivity|].
  intros q v i. unfold rr_arrive, rr_ready. by rewrite andb_assoc.
Qed.

Lemma mlfq_arrivals_spec processes s :
  let new := newcomers (length processes) (MLFQ.visited s)
               (arrived processes (MLFQ.currentTime s)) in
  mlfq_arrivals processes s
  = MLFQ.mk (MLFQ.remainingTime s) (MLFQ.results s) (MLFQ.currentTime s)
      (MLFQ.completed s) (MLFQ.ganttChart s) (MLFQ.q0 s ++ new) (MLFQ.q1 s)
      (MLFQ.q2 s) (mark_all new (MLFQ.visited s)).
Proof.
  unfold mlfq_arrivals.
  rewrite (arrive_loop (arrived processes (MLFQ.currentTime s)));
    [reflexivity|].
  intros q v i. reflexivity.
Qed.

Lemma mlq_arrive_loop processes currentTime (n : nat) (q1 q2 : list nat)
    (visited : list bool) :
  let new := newcomers n visited (arrived processes currentTime) in
  for_loop n (mlq_arrive processes currentTime) (q1, q2, visited)
  = (q1 ++ List.filter (fun i => priority (processes !!! i) <=? 2) new,
     q2 ++ List.filter (fun i => negb (priority (processes !!! i) <=? 2)) new,
     mark_all new visited).
Proof.
  induction n as [|n IH]; simpl; [by rewrite !app_nil_r|].
  rewrite for_loop_S, IH, newcomers_S. unfold mlq_arrive at 1.
  assert (Hsame : is_set (mark_all (newcomers n visited
                                      (arrived processes currentTime)) visited) n
                  = is_set visited n).
  { apply eq_true_iff_eq. rewrite is_set_mark_all, elem_of_newcomers.
    split; [intros [H|[[H _] _]]; [exact H|lia]|tauto]. }
  rewrite Hsame. fold (arrived processes currentTime n).
  destruct (negb (is_set visited n) && arrived processes currentTime n).
  - rewrite !List.filter_app, mark_all_app. simpl.
    destruct (priority (processes !!! n) <=? 2); simpl;
      rewrite ?app_nil_r, ?app_assoc; reflexivity.
  - rewrite !app_nil_r. reflexivity.
Qed.

Lemma mlq_arrivals_spec processes s :
  let new := newcomers (length processes) (MLQ.visited s)
               (arrived processes (MLQ.currentTime s)) in
  mlq_arrivals processes s
  = MLQ.mk (MLQ.remainingTime s) (MLQ.results s) (MLQ.currentTime s)
      (MLQ.completed s) (MLQ.ganttChart s)
      (MLQ.q1 s ++ List.filter (fun i => priority (processes !!! i) <=? 2) new)
      (MLQ.q2 s
       ++ List.filter (fun i => negb (priority (processes !!! i) <=? 2)) new)
      (mark_all new (MLQ.visited s)).
Proof. unfold mlq_arrivals. rewrite mlq_arrive_loop. reflexivity. Qed.

(** ** Round Robin: the order of the queue *)

Lemma StronglySorted_seq (a n : nat) : StronglySorted lt (seq a n).
Proof.
  revert a. induction n as [|n IH]; intros a; simpl; constructor; [apply IH|].
  apply List.Forall_forall. intros x Hx. apply in_seq in Hx. lia.
Qed.

Lemma StronglySorted_filter {A} (R : A → A → Prop) (f : A → bool) (l : list A) :
  StronglySorted R l → StronglySorted R (List.filter f l).
Proof.
  induction 1 as [|x l Hl IH Hx]; simpl; [constructor|].
  destruct (f x); [|exact IH]. constructor; [exact IH|].
  apply List.Forall_forall. intros y Hy. apply List.filter_In in Hy as [Hy _].
  rewrite List.Forall_forall in Hx. by apply Hx.
Qed.

Lemma StronglySorted_weaken {A} (R Q : A → A → Prop) (P : A → Prop) (l : list A) :
  (∀ x y, P x → P y → R x y → Q x y) → List.Forall P l →
  StronglySorted R l → StronglySorted Q l.
Proof.
  intros HRQ HP. induction 1 as [|x l Hl IH Hx]; constructor.
  - apply IH. by inversion HP.
  - inversion HP as [|? ? Px Pl]; subst.
    rewrite List.Forall_forall in *. intros y Hy. apply HRQ; auto.
Qed.

(** C5, as stated, fails: the newcomers are enqueued in the order of
    the input list. Here P2 (arrival 3) enters the queue ahead of P3
    (arrival 1) after the first slice, and runs first. *)
Lemma rr_newcomers_not_in_arrival_order :
  flow_map (fun sl => RR.queue (fst sl))
    (Logged.rr_body late_first 4 (Logged.rr_init late_first 4))
  = Next [1; 2; 0]%nat
  ∧ arrivalTime (late_first !!! 1%nat) = 3
  ∧ arrivalTime (late_first !!! 2%nat) = 1
  ∧ outcome_map Logged.ganttChart
      (Logged.solve code_order no_digits 4 "Round Robin" late_first 4)
    = Done [ mkBlock "P1" 0 4; mkBlock "P2" 4 5; mkBlock "P3" 5 6;
             mkBlock "P1" 6 7 ].
Proof. repeat split; reflexivity. Qed.

(** C5, amended. In Round Robin, for every input list and quantum,
    after each executed slice the processes that were not visited,
    have arrived by the new clock and have time remaining are
    enqueued in the order of the input list, which is the arrival
    order when the list is sorted by arrival time; only after them is
    the process that just ran put at the back, if it has time
    remaining. *)
Theorem rr_requeue_order processes timeQuantum s logs s1 logs1 idx rest :
  Logged.rr_refill processes (s, logs) = Some (s1, logs1) →
  RR.queue s1 = idx :: rest →
  let execTime := Z.min timeQuantum (RR.remainingTime s1 !!! idx) in
  let remaining :=
    <[idx := RR.remainingTime s1 !!! idx - execTime]> (RR.remainingTime s1) in
  let new :=
    newcomers (length processes) (RR.visited s1)
      (rr_ready processes remaining (RR.currentTime s1 + execTime)) in
  ∃ s' logs',
    Logged.rr_body processes timeQuantum (s, logs) = Next (s', logs')
    ∧ RR.queue s'
      = rest ++ new ++ (if 0 <? remaining !!! idx then [idx] else [])
    ∧ RR.visited s' = mark_all new (RR.visited s1)
    ∧ (∀ i, i ∈ new ↔
            (i < length processes)%nat
            ∧ is_set (RR.visited s1) i = false
            ∧ arrivalTime (processes !!! i) ≤ RR.currentTime s1 + execTime
            ∧ 0 < remaining !!! i)
    ∧ StronglySorted lt new
    ∧ ((∀ i j, (i < j < length processes)%nat →
               arrivalTime (processes !!! i) ≤ arrivalTime (processes !!! j)) →
       StronglySorted
         (fun i j => arrivalTime (processes !!! i) ≤ arrivalTime (processes !!! j))
         new).
Proof.
  intros Hrefill Hq execTime remaining new.
  pose proof (rr_body_fst processes timeQuantum s logs) as Hfst.
  unfold Plain.rr_body in Hfst.
  assert (Hr : rr_refill processes s = Some s1).
  { unfold Logged.rr_refill, rr_refill in *.
    destruct (RR.queue s); [|congruence].
    destruct (rr_next_arrival _ _) as [[?|] ?]; congruence. }
  rewrite Hr, Hq in Hfst.
  destruct (Logged.rr_body processes timeQuantum (s, logs))
    as [[s' logs']| |]; try discriminate Hfst.
  simpl in Hfst. injection Hfst as Hs'. exists s', logs'.
  split; [reflexivity|]. rewrite Hs'.
  rewrite rr_arrivals_spec. cbn [rr_exec RR.remainingTime RR.currentTime
    RR.queue RR.visited RR.results RR.completed RR.ganttChart].
  fold execTime. fold remaining. fold new.
  unfold rr_finish. cbn [RR.remainingTime RR.queue RR.visited].
  assert (Hsorted : StronglySorted lt new).
  { apply StronglySorted_filter, StronglySorted_seq. }
  split; [|split; [|split; [|split; [exact Hsorted|]]]].
  - destruct (0 <? remaining !!! idx); simpl;
      rewrite <- ?app_assoc, ?app_nil_r; reflexivity.
  - destruct (0 <? remaining !!! idx); reflexivity.
  - intros i. unfold new. rewrite elem_of_newcomers. unfold rr_ready.
    rewrite andb_true_iff, Z.leb_le, Z.ltb_lt. tauto.
  - intros Hmono.
    apply (StronglySorted_weaken lt _ (fun i => (i < length processes)%nat));
      [| |exact Hsorted].
    + intros i j _ Hj Hij. apply Hmono. lia.
    + apply List.Forall_forall. intros i Hi.
      apply list_elem_of_In, elem_of_newcomers in Hi. tauto.
Qed.

Lemma rr_requeue_order_witness :
  ∃ s' logs',
    Logged.rr_body late_first 4 (Logged.rr_init late_first 4) = Next (s', logs')
    ∧ RR.queue s' = [1; 2; 0]%nat.
Proof.
  destruct (rr_requeue_order late_first 4
              (fst (Logged.rr_init late_first 4))
              (snd (Logged.rr_init late_first 4))
              (fst (Logged.rr_init late_first 4))
              (snd (Logged.rr_init late_first 4)) 0%nat [] eq_refl eq_refl)
    as (s' & logs' & Hbody & Hqueue & _).
  exists s', logs'. split; [exact Hbody|]. rewrite Hqueue. reflexivity.
Defined.

(** ** MLFQ: short jobs finish in the first queue *)

Lemma is_set_replicate_false (n i : nat) : is_set (replicate n false) i = false.
Proof.
  unfold is_set. destruct (replicate n false !! i) eqn:E; [|reflexivity].
  apply lookup_replicate in E as [-> _]. reflexivity.
Qed.

Lemma lookup_total_map {A B} `{Inhabited A, Inhabited B} (f : A → B)
    (l : list A) (i : nat) :
  (i < length l)%nat → map f l !!! i = f (l !!! i).
Proof.
  intros Hi. apply list_lookup_total_correct.
  change (map f l) with (f <$> l).
  rewrite list_lookup_fmap, (list_lookup_lookup_total_lt l i Hi). reflexivity.
Qed.

Lemma mlfq_levels_init processes timeQuantum :
  mlfq_levels processes timeQuantum (mlfq_init processes).
Proof.
  unfold mlfq_levels, mlfq_init. simpl.
  rewrite length_map, length_replicate.
  split; [reflexivity|]. split; [reflexivity|]. split; [apply NoDup_nil_2|].
  split; [|split].
  - intros i Hi. by apply elem_of_nil in Hi.
  - intros i Hi _. by apply lookup_total_map.
  - intros i Hi. by apply elem_of_nil in Hi.
Qed.

Lemma mlfq_levels_arrivals processes timeQuantum s :
  mlfq_levels processes timeQuantum s →
  mlfq_levels processes timeQuantum (mlfq_arrivals processes s).
Proof.
  intros (Hlen & Hlenv & Hnd & Hq0 & Hunv & Hq12).
  rewrite mlfq_arrivals_spec. simpl.
  set (new := newcomers _ _ _).
  unfold mlfq_levels. simpl. rewrite length_mark_all.
  split; [exact Hlen|]. split; [exact Hlenv|].
  split; [|split; [|split]].
  - apply NoDup_app. split; [exact Hnd|]. split; [|apply NoDup_newcomers].
    intros i Hi Hnew. apply elem_of_newcomers in Hnew as (_ & Hv & _).
    destruct (Hq0 i Hi) as [Hv' _]. congruence.
  - intros i Hi. rewrite is_set_mark_all. apply elem_of_app in Hi as [Hi|Hi].
    + destruct (Hq0 i Hi). tauto.
    + pose proof Hi as Hi'. apply elem_of_newcomers in Hi' as (Hlt & Hv & _).
      split; [right; split; [exact Hi|lia]|]. by apply Hunv.
  - intros i Hi Hv. apply Hunv; [exact Hi|].
    destruct (is_set (MLFQ.visited s) i) eqn:E; [|reflexivity].
    rewrite <- Hv. symmetry. apply is_set_mark_all. tauto.
  - intros i Hi. destruct (Hq12 i Hi) as [Hv Hb]. split; [|exact Hb].
    apply is_set_mark_all. tauto.
Qed.

Lemma mlfq_levels_exec processes timeQuantum idx lvl qu s :
  mlfq_levels processes timeQuantum s →
  is_set (MLFQ.visited s) idx = true → idx ∉ MLFQ.q0 s →
  mlfq_levels processes timeQuantum (mlfq_exec processes idx lvl qu s).
Proof.
  intros (Hlen & Hlenv & Hnd & Hq0 & Hunv & Hq12) Hv Hnot.
  unfold mlfq_levels, mlfq_exec. simpl. rewrite length_insert.
  split; [exact Hlen|]. split; [exact Hlenv|]. split; [exact Hnd|].
  split; [|split; [|exact Hq12]].
  - intros i Hi. destruct (Hq0 i Hi) as [Hvi Hri]. split; [exact Hvi|].
    rewrite list_lookup_total_insert_ne; [exact Hri|]. congruence.
  - intros i Hi Hvi.
    rewrite list_lookup_total_insert_ne; [by apply Hunv|]. congruence.
Qed.

Lemma elem_of_tail {A} (x : A) (l : list A) : x ∈ tail l → x ∈ l.
Proof. destruct l; simpl; [auto|]. intros H. apply elem_of_cons. auto. Qed.

Lemma mlfq_levels_finish processes timeQuantum idx lvl s :
  mlfq_levels processes timeQuantum s →
  is_set (MLFQ.visited s) idx = true →
  (MLFQ.remainingTime s !!! idx ≠ 0 → lvl ≠ 2%nat →
   timeQuantum < burstTime (processes !!! idx)) →
  mlfq_levels processes timeQuantum (mlfq_finish processes idx lvl s).
Proof.
  intros (Hlen & Hlenv & Hnd & Hq0 & Hunv & Hq12) Hv Hb.
  unfold mlfq_levels, mlfq_finish.
  destruct (_ =? 0) eqn:Hz; simpl.
  - split; [exact Hlen|]. split; [exact Hlenv|]. split; [exact Hnd|].
    split; [exact Hq0|]. split; [exact Hunv|].
    intros i Hi. apply Hq12. rewrite elem_of_app in *.
    destruct Hi as [Hi|Hi]; [auto|]. right.
    destruct (lvl =? 2)%nat; [by apply elem_of_tail|exact Hi].
  - apply Z.eqb_neq in Hz.
    destruct (lvl =? 0)%nat eqn:E0; [|destruct (lvl =? 1)%nat eqn:E1]; simpl.
    + apply Nat.eqb_eq in E0.
      split; [exact Hlen|]. split; [exact Hlenv|]. split; [exact Hnd|].
      split; [exact Hq0|]. split; [exact Hunv|].
      intros i Hi. rewrite !elem_of_app, list_elem_of_singleton in Hi.
      destruct Hi as [[Hi| ->]|Hi]; [apply Hq12, elem_of_app; auto| |
                                     apply Hq12, elem_of_app; auto].
      split; [exact Hv|]. apply Hb; [exact Hz|lia].
    + apply Nat.eqb_eq in E1.
      split; [exact Hlen|]. split; [exact Hlenv|]. split; [exact Hnd|].
      split; [exact Hq0|]. split; [exact Hunv|].
      intros i Hi. rewrite !elem_of_app, list_elem_of_singleton in Hi.
      destruct Hi as [Hi|[Hi| ->]]; [apply Hq12, elem_of_app; auto|
                                     apply Hq12, elem_of_app; auto|].
      split; [exact Hv|]. apply Hb; [exact Hz|lia].
    + split; [exact Hlen|]. split; [exact Hlenv|]. split; [exact Hnd|].
      split; [exact Hq0|]. split; [exact Hunv|exact Hq12].
Qed.

Lemma mlfq_levels_body processes timeQuantum s :
  mlfq_levels processes timeQuantum s →
  ∃ s', Plain.mlfq_body processes timeQuantum s = Next s'
        ∧ mlfq_levels processes timeQuantum s'.
Proof.
  intros Hs. apply mlfq_levels_arrivals in Hs.
  unfold Plain.mlfq_body. set (s1 := mlfq_arrivals processes s) in *.
  pose proof Hs as (Hlen & Hlenv & Hnd & Hq0 & Hunv & Hq12).
  unfold mlfq_pick.
  destruct (MLFQ.q0 s1) as [|idx rest] eqn:E0;
    [destruct (MLFQ.q1 s1) as [|idx rest] eqn:E1;
     [destruct (MLFQ.q2 s1) as [|idx rest] eqn:E2|]|].
  - eexists. split; [reflexivity|]. exact Hs.
  - (* queue 2 *)
    eexists. split; [reflexivity|].
    assert (Hv : is_set (MLFQ.visited s1) idx = true).
    { apply Hq12. apply elem_of_app. right. apply elem_of_cons. auto. }
    apply mlfq_levels_finish; [apply mlfq_levels_arrivals, mlfq_levels_exec| |].
    + exact Hs.
    + exact Hv.
    + rewrite E0. apply not_elem_of_nil.
    + rewrite mlfq_arrivals_spec. simpl. apply is_set_mark_all. auto.
    + intros _ Hl. contradiction.
  - (* queue 1 *)
    eexists. split; [reflexivity|].
    assert (Hin : idx ∈ (idx :: rest) ++ MLFQ.q2 s1).
    { apply elem_of_app. left. apply elem_of_cons. auto. }
    destruct (Hq12 idx Hin) as [Hv Hb].
    apply mlfq_levels_finish; [apply mlfq_levels_arrivals, mlfq_levels_exec| |].
    + unfold mlfq_levels. simpl. rewrite ?E0.
      split; [exact Hlen|]. split; [exact Hlenv|]. split; [apply NoDup_nil_2|].
      split; [intros i Hi; by apply elem_of_nil in Hi|]. split; [exact Hunv|].
      intros i Hi. apply Hq12. rewrite elem_of_app in *.
      rewrite elem_of_cons. tauto.
    + exact Hv.
    + simpl. apply not_elem_of_nil.
    + rewrite mlfq_arrivals_spec. simpl. apply is_set_mark_all. auto.
    + intros _ _. exact Hb.
  - (* queue 0 *)
    eexists. split; [reflexivity|].
    assert (Hin : idx ∈ idx :: rest) by (apply elem_of_cons; auto).
    destruct (Hq0 idx Hin) as [Hv Hr].
    apply NoDup_cons in Hnd as [Hnot Hnd].
    apply mlfq_levels_finish; [apply mlfq_levels_arrivals, mlfq_levels_exec| |].
    + unfold mlfq_levels. simpl.
      split; [exact Hlen|]. split; [exact Hlenv|]. split; [exact Hnd|].
      split; [|split; [exact Hunv|exact Hq12]].
      intros i Hi. apply Hq0. apply elem_of_cons. auto.
    + exact Hv.
    + exact Hnot.
    + rewrite mlfq_arrivals_spec. simpl. apply is_set_mark_all. auto.
    + intros Hne _. rewrite mlfq_arrivals_spec in Hne. simpl in Hne.
      rewrite list_lookup_total_insert_eq in Hne
        by (rewrite Hlen; rewrite <- Hlenv; by apply is_set_lt).
      rewrite <- Hr. lia.
Qed.

(** ** Gantt charts *)

Lemma busy_app pid g1 g2 : busy pid (g1 ++ g2) = busy pid g1 + busy pid g2.
Proof.
  unfold busy. induction g1 as [|b g1 IH]; simpl; [reflexivity|].
  rewrite IH. lia.
Qed.

Lemma busy_snoc pid g b :
  busy pid (g ++ [b])
  = busy pid g + (if (processId b =? pid)%string then duration b else 0).
Proof. rewrite busy_app. unfold busy. simpl. lia. Qed.

Lemma extend_last_snoc g b :
  extend_last (g ++ [b])
  = Some (g ++ [mkBlock (processId b) (blockStart b) (blockEnd b + 1)]).
Proof.
  induction g as [|b0 g IH]; [reflexivity|].
  simpl. rewrite IH. destruct (g ++ [b]) eqn:E; [|reflexivity].
  by destruct g.
Qed.

Lemma chart_ordered_snoc g b :
  chart_ordered g → Forall (fun b0 => blockEnd b0 ≤ blockStart b) g →
  chart_ordered (g ++ [b]).
Proof.
  intros Hord Hall i j bi bj Hij Hi Hj.
  destruct (decide (j < length g)%nat) as [Hjl|Hjl].
  - rewrite lookup_app_l in Hi by lia. rewrite lookup_app_l in Hj by lia.
    exact (Hord i j bi bj Hij Hi Hj).
  - assert (Hjeq : j = length g).
    { apply lookup_lt_Some in Hj. rewrite length_app in Hj. simpl in Hj. lia. }
    subst j. rewrite lookup_app_l in Hi by lia.
    rewrite list_lookup_middle in Hj by reflexivity. injection Hj as <-.
    rewrite Forall_lookup in Hall. exact (Hall i bi Hi).
Qed.

Lemma chart_ordered_snoc_inv g b :
  chart_ordered (g ++ [b]) →
  chart_ordered g ∧ Forall (fun b0 => blockEnd b0 ≤ blockStart b) g.
Proof.
  intros Hord. split.
  - intros i j bi bj Hij Hi Hj. apply (Hord i j); auto.
    + rewrite lookup_app_l; [exact Hi|]. by apply lookup_lt_Some in Hi.
    + rewrite lookup_app_l; [exact Hj|]. by apply lookup_lt_Some in Hj.
  - apply Forall_lookup. intros i b0 Hi.
    apply (Hord i (length g)).
    + by apply lookup_lt_Some in Hi.
    + rewrite lookup_app_l; [exact Hi|]. by apply lookup_lt_Some in Hi.
    + by rewrite list_lookup_middle.
Qed.

Lemma chart_inv_nil processes t : chart_inv processes t [].
Proof.
  split; [|constructor]. intros i j bi bj _ Hi. by rewrite lookup_nil in Hi.
Qed.

Lemma chart_inv_mono processes t t' g :
  chart_inv processes t g → t ≤ t' → chart_inv processes t' g.
Proof.
  intros [Hord Hall] Hle. split; [exact Hord|].
  eapply Forall_impl; [exact Hall|]. simpl. intros b (? & ? & ?).
  repeat split; auto. lia.
Qed.

Lemma chart_inv_snoc processes t g i d :
  chart_inv processes t g → (i < length processes)%nat → 0 < d →
  chart_inv processes (t + d) (g ++ [mkBlock (id (processes !!! i)) t (t + d)]).
Proof.
  intros [Hord Hall] Hi Hd. split.
  - apply chart_ordered_snoc; [exact Hord|].
    eapply Forall_impl; [exact Hall|]. simpl. tauto.
  - apply Forall_app. split.
    + eapply Forall_impl; [exact Hall|]. simpl. intros b (? & ? & ?).
      repeat split; auto. lia.
    + constructor; [|constructor]. simpl. split; [lia|]. split; [lia|eauto].
Qed.

Lemma chart_inv_extend processes t g b :
  chart_inv processes t (g ++ [b]) →
  chart_inv processes (t + 1)
    (g ++ [mkBlock (processId b) (blockStart b) (blockEnd b + 1)]).
Proof.
  intros [Hord Hall]. apply chart_ordered_snoc_inv in Hord as [Hord Hb].
  apply Forall_app in Hall as [Hall Hlast].
  apply Forall_cons in Hlast as [(Hpos & Hle & Hid) _]. split.
  - apply chart_ordered_snoc; [exact Hord|exact Hb].
  - apply Forall_app. split.
    + eapply Forall_impl; [exact Hall|]. simpl. intros b0 (? & ? & ?).
      repeat split; auto. lia.
    + constructor; [|constructor]. simpl. split; [lia|]. split; [lia|exact Hid].
Qed.

Lemma chart_inv_positive processes t g :
  chart_inv processes t g → chart_positive g.
Proof.
  intros [_ Hall]. eapply Forall_impl; [exact Hall|]. simpl. tauto.
Qed.

Lemma chart_inv_names processes t g :
  chart_inv processes t g → chart_names processes g.
Proof.
  intros [_ Hall]. eapply Forall_impl; [exact Hall|]. simpl.
  intros b (_ & _ & i & Hi & ->). apply list_elem_of_fmap.
  exists (processes !!! i). split; [reflexivity|].
  by apply list_elem_of_lookup_total_2.
Qed.

Lemma chart_alternating_merged g : chart_alternating g → chart_merged g.
Proof. intros H i b1 b2 H1 H2 [Heq _]. by apply (H i b1 b2). Qed.

Lemma chart_alternating_snoc g b0 b :
  chart_alternating (g ++ [b0]) → processId b0 ≠ processId b →
  chart_alternating ((g ++ [b0]) ++ [b]).
Proof.
  intros Halt Hne i b1 b2 H1 H2.
  assert (Hlen : length (g ++ [b0]) = S (length g))
    by (rewrite length_app; simpl; lia).
  destruct (decide (S i < length (g ++ [b0]))%nat) as [Hlt|Hge].
  - rewrite lookup_app_l in H1 by lia. rewrite lookup_app_l in H2 by lia.
    by apply (Halt i b1 b2).
  - assert (i = length g).
    { apply lookup_lt_Some in H2. rewrite length_app in H2. simpl in H2. lia. }
    subst i. rewrite lookup_app_l in H1 by lia.
    rewrite list_lookup_middle in H1 by reflexivity. injection H1 as <-.
    rewrite <- Hlen in H2. rewrite list_lookup_middle in H2 by reflexivity.
    by injection H2 as <-.
Qed.

Lemma chart_alternating_single b : chart_alternating [b].
Proof. intros i b1 b2 H1 H2. destruct i; discriminate H2. Qed.

Lemma chart_alternating_extend g b e :
  chart_alternating (g ++ [b]) →
  chart_alternating (g ++ [mkBlock (processId b) (blockStart b) e]).
Proof.
  intros Halt i b1 b2 H1 H2.
  assert (Hi : (S i < length (g ++ [b]))%nat).
  { apply lookup_lt_Some in H2. rewrite length_app in *. simpl in *. lia. }
  rewrite length_app in Hi. simpl in Hi.
  rewrite lookup_app_l in H1 by lia.
  destruct (decide (S i = length g)) as [Heq|Hne].
  - rewrite list_lookup_middle in H2 by exact Heq.
    injection H2 as <-. simpl.
    apply (Halt i b1 b); [rewrite lookup_app_l by lia; exact H1|].
    by rewrite list_lookup_middle.
  - rewrite lookup_app_l in H2 by lia.
    apply (Halt i b1 b2); rewrite lookup_app_l by lia; assumption.
Qed.

(** ** The shared invariant *)

Lemma sumZ_app l1 l2 : sumZ (l1 ++ l2) = sumZ l1 + sumZ l2.
Proof.
  unfold sumZ. induction l1 as [|x l1 IH]; simpl; [reflexivity|]. lia.
Qed.

Lemma sumZ_insert (l : list Z) (i : nat) (y : Z) :
  (i < length l)%nat → sumZ (<[i := y]> l) = sumZ l - l !!! i + y.
Proof.
  revert i. induction l as [|x l IH]; intros i Hi; simpl in *; [lia|].
  destruct i as [|i]; simpl.
  - unfold sumZ. simpl. lia.
  - unfold sumZ in *. simpl. rewrite IH by lia.
    change ((x :: l) !!! S i) with (l !!! i). lia.
Qed.

Lemma sumZ_nonneg (l : list Z) :
  (∀ i, (i < length l)%nat → 0 ≤ l !!! i) → 0 ≤ sumZ l.
Proof.
  induction l as [|x l IH]; intros H; unfold sumZ; simpl; [lia|].
  pose proof (H 0%nat ltac:(simpl; lia)) as H0. simpl in H0.
  assert (0 ≤ sumZ l); [|unfold sumZ in *; lia].
  apply IH. intros i Hi. apply (H (S i)). simpl. lia.
Qed.

Lemma sumZ_lookup_le (l : list Z) (i : nat) :
  (∀ j, (j < length l)%nat → 0 ≤ l !!! j) → (i < length l)%nat →
  l !!! i ≤ sumZ l.
Proof.
  intros Hpos Hi.
  pose proof (sumZ_insert l i 0 Hi) as Hins.
  assert (0 ≤ sumZ (<[i := 0]> l)); [|lia].
  apply sumZ_nonneg. intros j Hj. rewrite length_insert in Hj.
  destruct (decide (j = i)) as [->|Hne].
  - rewrite list_lookup_total_insert_eq by exact Hi. lia.
  - rewrite list_lookup_total_insert_ne by auto. by apply Hpos.
Qed.

Lemma max_arrival_nonneg processes : 0 ≤ max_arrival processes.
Proof. induction processes; simpl; lia. Qed.

Lemma max_arrival_ge processes (i : nat) :
  (i < length processes)%nat →
  arrivalTime (processes !!! i) ≤ max_arrival processes.
Proof.
  revert i. induction processes as [|p ps IH]; intros i Hi; simpl in *; [lia|].
  destruct i as [|i]; simpl; [lia|].
  change ((p :: ps) !!! S i) with (ps !!! i).
  specialize (IH i ltac:(lia)). lia.
Qed.

Lemma lookup_total_init_results processes (i : nat) :
  (i < length processes)%nat →
  init_results processes !!! i = mkResult (processes !!! i) (-1) 0 0 0.
Proof. intros Hi. unfold init_results. by rewrite lookup_total_map. Qed.

Lemma map_process_init processes : map process (init_results processes) = processes.
Proof.
  unfold init_results. rewrite map_map. simpl. apply map_id.
Qed.

Lemma map_process_insert (results : list ProcessResult) (i : nat)
    (r : ProcessResult) :
  process r = process (results !!! i) →
  map process (<[i := r]> results) = map process results.
Proof.
  intros Hr. destruct (decide (i < length results)%nat) as [Hi|Hi].
  - change (map process (<[i := r]> results)) with (process <$> <[i := r]> results).
    rewrite list_fmap_insert. apply list_insert_id.
    rewrite list_lookup_fmap, (list_lookup_lookup_total_lt results i Hi).
    simpl. by rewrite Hr.
  - rewrite list_insert_ge by lia. reflexivity.
Qed.

Lemma map_process_mark_start idx t results :
  map process (mark_start idx t results) = map process results.
Proof.
  unfold mark_start. destruct (_ =? _); [|reflexivity].
  by apply map_process_insert.
Qed.

Lemma map_process_finalize idx t results :
  map process (finalize idx t results) = map process results.
Proof. unfold finalize. by apply map_process_insert. Qed.

Lemma length_map_process (results : list ProcessResult) processes :
  map process results = processes → length results = length processes.
Proof. intros <-. by rewrite length_map. Qed.

Lemma process_lookup (results : list ProcessResult) processes (i : nat) :
  map process results = processes → (i < length processes)%nat →
  process (results !!! i) = processes !!! i.
Proof.
  intros Hmap Hi. rewrite <- Hmap. symmetry. apply lookup_total_map.
  by rewrite (length_map_process _ _ Hmap).
Qed.

Lemma result_ok_mark_start idx t results (i : nat) :
  result_ok (results !!! i) → result_ok (mark_start idx t results !!! i).
Proof.
  unfold mark_start. destruct (_ =? _); [|auto].
  destruct (decide (i = idx)) as [->|Hne].
  - destruct (decide (idx < length results)%nat) as [Hi|Hi].
    + rewrite list_lookup_total_insert_eq by exact Hi. auto.
    + rewrite list_insert_ge by lia. auto.
  - rewrite list_lookup_total_insert_ne by auto. auto.
Qed.

Lemma finalize_from_eq processes idx t results :
  map process results = processes → (idx < length processes)%nat →
  finalize_from processes idx t results = finalize idx t results.
Proof.
  intros Hmap Hi. unfold finalize_from, finalize.
  by rewrite (process_lookup _ _ _ Hmap Hi).
Qed.

Lemma core_inv_init processes :
  valid_processes processes →
  core_inv processes (map burstTime processes) (init_results processes) 0 0 [].
Proof.
  intros [_ Hall].
  assert (Hb : ∀ i, (i < length processes)%nat →
                    map burstTime processes !!! i = burstTime (processes !!! i)
                    ∧ 1 ≤ burstTime (processes !!! i)).
  { intros i Hi. split; [by apply lookup_total_map|].
    rewrite Forall_lookup in Hall.
    apply (Hall i (processes !!! i)). by apply list_lookup_lookup_total_lt. }
  constructor.
  - apply length_map.
  - apply map_process_init.
  - intros i Hi. destruct (Hb i Hi). lia.
  - exists []. split; [constructor|]. split; [reflexivity|].
    intros i. rewrite elem_of_nil. split; [tauto|].
    intros [Hi Hz]. destruct (Hb i Hi). lia.
  - intros i Hi. destruct (Hb i Hi). lia.
  - intros i Hi. destruct (Hb i Hi). lia.
  - intros i Hi. destruct (Hb i Hi). simpl. lia.
  - apply chart_inv_nil.
Qed.

Lemma core_inv_wait processes rem results t t' completed g :
  core_inv processes rem results t completed g → t ≤ t' →
  core_inv processes rem results t' completed g.
Proof.
  intros [Hlen Hres Hrange Hdone Hran Hfin Hbusy Hchart] Hle.
  constructor; auto.
  - intros i Hi Hlt. specialize (Hran i Hi Hlt). lia.
  - by apply (chart_inv_mono _ t).
Qed.

(** Process [idx], ready at [t], runs [d] units. *)
Lemma core_inv_slice processes rem results t completed g idx d g' :
  ids_ok processes →
  core_inv processes rem results t completed g →
  (idx < length processes)%nat →
  arrivalTime (processes !!! idx) ≤ t →
  1 ≤ d ≤ rem !!! idx →
  chart_inv processes (t + d) g' →
  (∀ i, (i < length processes)%nat →
        busy (id (processes !!! i)) g'
        = busy (id (processes !!! i)) g + (if decide (i = idx) then d else 0)) →
  let rem' := <[idx := rem !!! idx - d]> rem in
  core_inv processes rem'
    (if rem' !!! idx =? 0
     then finalize idx (t + d) (mark_start idx t results)
     else mark_start idx t results)
    (t + d)
    (if rem' !!! idx =? 0 then S completed else completed)
    g'.
Proof.
  intros Hids [Hlen Hres Hrange (done & Hnd & Hdlen & Hdone) Hran Hfin Hbusy _]
    Hidx Harr Hd Hchart Hbusy' rem'.
  assert (Hidx' : (idx < length rem)%nat) by lia.
  assert (Hrem_idx : rem' !!! idx = rem !!! idx - d).
  { unfold rem'. by rewrite list_lookup_total_insert_eq. }
  assert (Hrem_ne : ∀ i, i ≠ idx → rem' !!! i = rem !!! i).
  { intros i Hne. unfold rem'. by rewrite list_lookup_total_insert_ne. }
  pose proof (Hrange idx Hidx) as Hr.
  constructor.
  - unfold rem'. by rewrite length_insert.
  - destruct (_ =? 0); rewrite ?map_process_finalize, map_process_mark_start;
      exact Hres.
  - intros i Hi. destruct (decide (i = idx)) as [->|Hne].
    + rewrite Hrem_idx. lia.
    + rewrite Hrem_ne by exact Hne. by apply Hrange.
  - destruct (rem' !!! idx =? 0) eqn:Hz.
    + apply Z.eqb_eq in Hz. exists (idx :: done).
      split; [|split; [simpl; by rewrite Hdlen|]].
      * constructor; [|exact Hnd]. intros Hin. apply Hdone in Hin. lia.
      * intros i. rewrite elem_of_cons, Hdone.
        destruct (decide (i = idx)) as [->|Hne]; [tauto|].
        rewrite Hrem_ne by exact Hne. tauto.
    + apply Z.eqb_neq in Hz. exists done.
      split; [exact Hnd|]. split; [exact Hdlen|].
      intros i. rewrite Hdone.
      destruct (decide (i = idx)) as [->|Hne]; [split; intros [? ?]; lia|].
      rewrite Hrem_ne by exact Hne. tauto.
  - intros i Hi Hlt. destruct (decide (i = idx)) as [->|Hne].
    + rewrite Hrem_idx in *.
      destruct (decide (rem !!! idx < burstTime (processes !!! idx))) as [Hl|Hl].
      * specialize (Hran idx Hidx Hl). lia.
      * lia.
    + rewrite Hrem_ne in * by exact Hne. specialize (Hran i Hi Hlt). lia.
  - intros i Hi Hzero. destruct (decide (i = idx)) as [->|Hne].
    + rewrite Hzero. simpl. unfold finalize.
      rewrite list_lookup_total_insert_eq.
      2:{ rewrite <- (length_map process), map_process_mark_start, Hres.
          exact Hidx. }
      assert (Hp : process (mark_start idx t results !!! idx)
                   = processes !!! idx).
      { apply process_lookup; [|exact Hidx].
        by rewrite map_process_mark_start. }
      unfold result_ok. simpl. rewrite Hp.
      split; [reflexivity|]. split; [reflexivity|].
      rewrite Hrem_idx in Hzero.
      destruct (decide (rem !!! idx < burstTime (processes !!! idx))) as [Hl|Hl].
      * specialize (Hran idx Hidx Hl). lia.
      * lia.
    + rewrite Hrem_ne in Hzero by exact Hne.
      specialize (Hfin i Hi Hzero).
      destruct (_ =? 0).
      * unfold finalize. rewrite list_lookup_total_insert_ne by auto.
        by apply result_ok_mark_start.
      * by apply result_ok_mark_start.
  - intros i Hi. rewrite (Hbusy' i Hi), (Hbusy i Hi).
    destruct (decide (i = idx)) as [->|Hne].
    + rewrite Hrem_idx. lia.
    + rewrite Hrem_ne by exact Hne. lia.
  - exact Hchart.
Qed.

Lemma id_eqb_index processes (i j : nat) :
  ids_ok processes → (i < length processes)%nat → (j < length processes)%nat →
  (id (processes !!! j) =? id (processes !!! i))%string
  = bool_decide (i = j).
Proof.
  intros Hids Hi Hj. destruct (String.eqb_spec (id (processes !!! j))
                                 (id (processes !!! i))) as [E|E].
  - apply (ids_ok_inj _ _ _ Hids Hj Hi) in E. subst. by rewrite bool_decide_true.
  - rewrite bool_decide_false; [reflexivity|]. intros ->. by apply E.
Qed.

Lemma busy_push processes g idx t d (i : nat) :
  ids_ok processes → (i < length processes)%nat → (idx < length processes)%nat →
  busy (id (processes !!! i)) (g ++ [mkBlock (id (processes !!! idx)) t (t + d)])
  = busy (id (processes !!! i)) g + (if decide (i = idx) then d else 0).
Proof.
  intros Hids Hi Hidx. rewrite busy_snoc. simpl.
  rewrite (id_eqb_index _ _ _ Hids Hi Hidx). unfold duration. simpl.
  destruct (decide (i = idx)) as [->|Hne].
  - rewrite bool_decide_true by reflexivity. lia.
  - rewrite bool_decide_false by exact Hne. reflexivity.
Qed.

Lemma busy_extend processes g b idx (i : nat) :
  ids_ok processes → (i < length processes)%nat → (idx < length processes)%nat →
  processId b = id (processes !!! idx) →
  busy (id (processes !!! i))
    (g ++ [mkBlock (processId b) (blockStart b) (blockEnd b + 1)])
  = busy (id (processes !!! i)) (g ++ [b]) + (if decide (i = idx) then 1 else 0).
Proof.
  intros Hids Hi Hidx Hb. rewrite !busy_snoc. simpl. rewrite Hb.
  rewrite (id_eqb_index _ _ _ Hids Hi Hidx). unfold duration. simpl.
  destruct (decide (i = idx)) as [->|Hne].
  - rewrite bool_decide_true by reflexivity. lia.
  - rewrite bool_decide_false by exact Hne. lia.
Qed.

Lemma work_left_slice processes rem results t completed g idx d t' :
  core_inv processes rem results t completed g →
  (idx < length processes)%nat → 1 ≤ d ≤ rem !!! idx → t ≤ t' →
  (work_left processes (<[idx := (rem !!! idx - d)%Z]> rem) t'
   < work_left processes rem t)%nat.
Proof.
  intros Hinv Hidx Hd Hle. unfold work_left.
  assert (Hidx' : (idx < length rem)%nat) by (rewrite (ci_length _ _ _ _ _ _ Hinv); lia).
  rewrite sumZ_insert by exact Hidx'.
  assert (Hpos : ∀ j, (j < length rem)%nat → 0 ≤ rem !!! j).
  { intros j Hj. apply (ci_range _ _ _ _ _ _ Hinv).
    by rewrite <- (ci_length _ _ _ _ _ _ Hinv). }
  pose proof (sumZ_lookup_le rem idx Hpos Hidx'). lia.
Qed.

Lemma work_left_wait processes rem t (i : nat) :
  (i < length processes)%nat → t < arrivalTime (processes !!! i) →
  (work_left processes rem (t + 1)%Z < work_left processes rem t)%nat.
Proof.
  intros Hi Hlt. unfold work_left.
  pose proof (max_arrival_ge processes i Hi). lia.
Qed.

Lemma work_left_init processes :
  work_left processes (map burstTime processes) 0 = fuel_bound processes.
Proof. unfold work_left, fuel_bound. by rewrite Z.sub_0_r. Qed.

Lemma NoDup_below_length (done : list nat) (n : nat) :
  NoDup done → (∀ i, i ∈ done → (i < n)%nat) → (length done ≤ n)%nat.
Proof.
  intros Hnd Hlt.
  assert (done ⊆+ seq 0 n) as Hsub.
  { apply NoDup_submseteq; [exact Hnd|]. intros i Hi.
    apply elem_of_seq. specialize (Hlt i Hi). lia. }
  apply submseteq_length in Hsub. by rewrite length_seq in Hsub.
Qed.

Lemma NoDup_below_full (done : list nat) (n : nat) :
  NoDup done → (∀ i, i ∈ done → (i < n)%nat) → (n ≤ length done)%nat →
  ∀ i, (i < n)%nat → i ∈ done.
Proof.
  intros Hnd Hlt Hlen i Hi.
  assert (done ⊆+ seq 0 n) as Hsub.
  { apply NoDup_submseteq; [exact Hnd|]. intros j Hj.
    apply elem_of_seq. specialize (Hlt j Hj). lia. }
  apply submseteq_length_Permutation in Hsub; [|by rewrite length_seq].
  rewrite Hsub. apply elem_of_seq. lia.
Qed.

Lemma core_inv_all_done processes rem results t completed g :
  core_inv processes rem results t completed g →
  (length processes ≤ completed)%nat →
  ∀ i, (i < length processes)%nat → rem !!! i = 0.
Proof.
  intros Hinv Hc i Hi.
  destruct (ci_done _ _ _ _ _ _ Hinv) as (done & Hnd & Hlen & Hdone).
  apply Hdone. apply (NoDup_below_full done (length processes)); auto.
  - intros j Hj. by apply Hdone in Hj as [? _].
  - lia.
Qed.

Lemma core_inv_pending processes rem results t completed g :
  core_inv processes rem results t completed g →
  (completed < length processes)%nat →
  ∃ i, (i < length processes)%nat ∧ 0 < rem !!! i.
Proof.
  intros Hinv Hc.
  destruct (ci_done _ _ _ _ _ _ Hinv) as (done & Hnd & Hlen & Hdone).
  destruct (decide (Forall (fun i => rem !!! i = 0) (seq 0 (length processes))))
    as [Hall|Hex].
  - exfalso. rewrite Forall_forall in Hall.
    assert (seq 0 (length processes) ⊆+ done) as Hsub.
    { apply NoDup_submseteq; [apply NoDup_seq|]. intros i Hi.
      apply Hdone. split; [apply elem_of_seq in Hi; lia|by apply Hall]. }
    apply submseteq_length in Hsub. rewrite length_seq in Hsub. lia.
  - apply not_Forall_Exists in Hex; [|intros x; apply _].
    apply Exists_exists in Hex as (i & Hi & Hne). apply elem_of_seq in Hi.
    exists i. split; [lia|]. simpl in Hne.
    pose proof (ci_range _ _ _ _ _ _ Hinv i ltac:(lia)). lia.
Qed.

Lemma core_inv_schedule processes rem results t completed g :
  core_inv processes rem results t completed g →
  (∀ i, (i < length processes)%nat → rem !!! i = 0) →
  schedule_ok processes results g.
Proof.
  intros Hinv Hzero. constructor.
  - apply Forall_lookup. intros i r Hi.
    rewrite <- (list_lookup_total_correct _ _ _ Hi).
    assert (i < length processes)%nat as Hlt.
    { rewrite <- (length_map_process _ _ (ci_results _ _ _ _ _ _ Hinv)).
      by apply lookup_lt_Some in Hi. }
    apply (ci_final _ _ _ _ _ _ Hinv i Hlt). by apply Hzero.
  - by rewrite (ci_results _ _ _ _ _ _ Hinv).
  - intros p Hp. apply list_elem_of_lookup in Hp as [i Hi].
    assert (i < length processes)%nat as Hlt by (by apply lookup_lt_Some in Hi).
    rewrite <- (list_lookup_total_correct _ _ _ Hi).
    rewrite (ci_busy _ _ _ _ _ _ Hinv i Hlt), (Hzero i Hlt). lia.
  - apply (ci_chart _ _ _ _ _ _ Hinv).
  - apply (chart_inv_positive _ _ _ (ci_chart _ _ _ _ _ _ Hinv)).
  - apply (chart_inv_names _ _ _ (ci_chart _ _ _ _ _ _ Hinv)).
Qed.

(** ** The preemptive solvers *)

Lemma pr_inv_init processes :
  valid_processes processes → pr_inv processes (pr_init processes).
Proof.
  intros Hv. split; [by apply core_inv_init|]. split.
  - intros i b1 b2 H. simpl in H. by rewrite lookup_nil in H.
  - left. split; reflexivity.
Qed.

Lemma pr_body_inv reset scan processes s :
  valid_processes processes → pr_scan_ok scan processes →
  pr_inv processes s → pr_cond (length processes) s = true →
  ∃ s', pr_body reset scan processes s = Next s'
        ∧ pr_inv processes s'
        ∧ (work_left processes (PR.remainingTime s') (PR.currentTime s')
           < work_left processes (PR.remainingTime s) (PR.currentTime s))%nat.
Proof.
  intros [Hids Hall] Hscan [Hcore [Halt Hlast]] Hcond.
  destruct s as [rem res t c g last]. simpl in *.
  unfold pr_cond in Hcond. apply bool_decide_eq_true in Hcond. simpl in Hcond.
  unfold pr_body. simpl. specialize (Hscan rem t).
  destruct (scan processes rem t) as [[idx|]|]; [| |contradiction].
  - destruct Hscan as (Hidx & Hpos & Harr).
    pose proof (ids_ok_nonempty _ _ Hids Hidx) as Hne.
    unfold pr_run. simpl.
    destruct (String.eqb_spec last (id (processes !!! idx))) as [Heq|Hneq];
      simpl.
    + (* the same process goes on: its block is extended *)
      destruct Hlast as [[_ ->]|(g0 & b & j & -> & Hj & Hb & Hl)];
        [congruence|].
      destruct Hl as [Hl|[Hl _]]; [|congruence].
      assert (j = idx) as ->.
      { apply (ids_ok_inj processes); auto. congruence. }
      rewrite extend_last_snoc.
      pose proof (core_inv_slice processes rem res t c (g0 ++ [b]) idx 1 _
                    Hids Hcore Hidx Harr ltac:(lia)
                    (chart_inv_extend _ _ _ _ (ci_chart _ _ _ _ _ _ Hcore))
                    (fun i Hi => busy_extend processes g0 b idx i Hids Hi Hidx Hb))
        as Hnew.
      pose proof (work_left_slice _ _ _ _ _ _ idx 1 (t + 1) Hcore Hidx
                    ltac:(lia) ltac:(lia)) as Hmu.
      simpl in Hnew.
      destruct (_ =? 0) eqn:Hz; (eexists; split; [reflexivity|]);
        (split; [split; [exact Hnew|]|exact Hmu]); simpl.
      * split; [by apply chart_alternating_extend|]. right.
        exists g0, (mkBlock (processId b) (blockStart b) (blockEnd b + 1)), idx.
        simpl. repeat split; auto. apply Z.eqb_eq in Hz.
        destruct reset; auto.
      * split; [by apply chart_alternating_extend|]. right.
        exists g0, (mkBlock (processId b) (blockStart b) (blockEnd b + 1)), idx.
        simpl. repeat split; auto.
    + (* another process: a new block *)
      pose proof (core_inv_slice processes rem res t c g idx 1 _
                    Hids Hcore Hidx Harr ltac:(lia)
                    (chart_inv_snoc _ _ _ idx 1 (ci_chart _ _ _ _ _ _ Hcore)
                       Hidx ltac:(lia))
                    (fun i Hi => busy_push processes g idx t 1 i Hids Hi Hidx))
        as Hnew.
      pose proof (work_left_slice _ _ _ _ _ _ idx 1 (t + 1) Hcore Hidx
                    ltac:(lia) ltac:(lia)) as Hmu.
      simpl in Hnew.
      assert (Halt' : chart_alternating
                        (g ++ [mkBlock (id (processes !!! idx)) t (t + 1)])).
      { destruct Hlast as [[-> _]|(g0 & b & j & -> & Hj & Hb & Hl)];
          [apply chart_alternating_single|].
        apply chart_alternating_snoc; [exact Halt|]. simpl. rewrite Hb.
        destruct Hl as [Hl|[_ Hzero]]; [congruence|].
        intros E. apply (ids_ok_inj processes) in E; auto. subst j. lia. }
      destruct (_ =? 0) eqn:Hz; (eexists; split; [reflexivity|]);
        (split; [split; [exact Hnew|]|exact Hmu]); simpl.
      * split; [exact Halt'|]. right.
        exists g, (mkBlock (id (processes !!! idx)) t (t + 1)), idx.
        simpl. repeat split; auto. apply Z.eqb_eq in Hz.
        destruct reset; auto.
      * split; [exact Halt'|]. right.
        exists g, (mkBlock (id (processes !!! idx)) t (t + 1)), idx.
        simpl. repeat split; auto.
  - destruct (core_inv_pending _ _ _ _ _ _ Hcore Hcond) as (i & Hi & Hri).
    eexists. split; [reflexivity|]. unfold pr_inv, pr_last_inv, pr_idle. simpl.
    split; [split; [apply (core_inv_wait _ _ _ t); [exact Hcore|lia]|]|].
    + split; [exact Halt|exact Hlast].
    + apply (work_left_wait _ _ _ i Hi). by apply Hscan.
Qed.

Lemma schedule_ok_sort processes results g (cmp : ProcessResult → ProcessResult → Z) :
  schedule_ok processes results g →
  schedule_ok processes (js_sort cmp results) g.
Proof.
  intros [Hres Hall Hbusy Hord Hpos Hnames]. constructor; auto.
  - by rewrite js_sort_perm.
  - rewrite <- Hall. change map with (@fmap list _). by rewrite js_sort_perm.
Qed.

Lemma pr_solve_ok reset scan localeCompare fuel processes :
  valid_processes processes → pr_scan_ok scan processes →
  (fuel_bound processes ≤ fuel)%nat →
  ∃ out,
    pr_solve_reset reset scan localeCompare fuel processes = Done out
    ∧ schedule_ok processes (Plain.results out) (Plain.ganttChart out)
    ∧ chart_alternating (Plain.ganttChart out).
Proof.
  intros Hv Hscan Hfuel. unfold pr_solve_reset.
  destruct (while_loop_total (pr_inv processes)
              (fun s => work_left processes (PR.remainingTime s)
                          (PR.currentTime s))
              (pr_cond (length processes))
              (pr_body reset scan processes)
              (fun s Hs Hc => pr_body_inv reset scan processes s Hv Hscan Hs Hc)
              fuel (pr_init processes) (pr_inv_init processes Hv))
    as (s & -> & [Hcore [Halt _]] & Hcond).
  - simpl. rewrite work_left_init. exact Hfuel.
  - eexists. split; [reflexivity|]. simpl. split; [|exact Halt].
    apply schedule_ok_sort. apply (core_inv_schedule _ _ _ _ _ _ Hcore).
    apply (core_inv_all_done _ _ _ _ _ _ Hcore).
    unfold pr_cond in Hcond. apply bool_decide_eq_false in Hcond. lia.
Qed.

(** ** The run-to-completion solvers *)

Lemma map_lookup_total_seq {A} `{Inhabited A} (l : list A) :
  map (fun i => l !!! i) (seq 0 (length l)) = l.
Proof.
  apply list_eq. intros i. change map with (@fmap list _).
  rewrite list_lookup_fmap.
  destruct (decide (i < length l)%nat) as [Hi|Hi].
  - rewrite lookup_seq_lt by exact Hi. simpl.
    by rewrite (list_lookup_lookup_total_lt l i Hi).
  - rewrite lookup_seq_ge by lia. simpl. symmetry. apply lookup_ge_None. lia.
Qed.

Lemma NoDup_ids_alternating g :
  NoDup (map processId g) → chart_alternating g.
Proof.
  intros Hnd i b1 b2 H1 H2 Heq.
  assert (i = S i); [|lia].
  apply (NoDup_lookup _ i (S i) (processId b1) Hnd).
  - change map with (@fmap list _). by rewrite list_lookup_fmap, H1.
  - change map with (@fmap list _). rewrite list_lookup_fmap, H2. simpl.
    by rewrite Heq.
Qed.

Lemma np_inv_init sorted : np_inv sorted (np_init (length sorted)).
Proof.
  constructor; simpl.
  - apply length_replicate.
  - exists []. split; [constructor|]. split; [reflexivity|].
    split; [|split; reflexivity].
    intros i. rewrite elem_of_nil, is_set_replicate_false.
    split; [tauto|]. intros [_ ?]. discriminate.
  - constructor.
  - intros i Hi. by rewrite is_set_replicate_false.
  - apply chart_inv_nil.
Qed.

Lemma np_body_inv scan sorted s :
  valid_processes sorted → np_scan_ok scan sorted →
  np_inv sorted s → np_cond (length sorted) s = true →
  ∃ s', np_body scan sorted s = Next s'
        ∧ np_inv sorted s'
        ∧ (np_left sorted s' < np_left sorted s)%nat.
Proof.
  intros [Hids Hall] Hscan
    [Hlen (order & Hnd & Holen & Hmem & Hres & Hchartids) Hok Hbusy Hchart] Hcond.
  destruct s as [t c isC res g]. simpl in *.
  unfold np_cond in Hcond. apply bool_decide_eq_true in Hcond. simpl in Hcond.
  unfold np_body. simpl. specialize (Hscan isC t).
  destruct (scan sorted isC t) as [[idx|]|]; [| |contradiction].
  - destruct Hscan as (Hidx & Hfree & Harr).
    assert (Hburst : 1 ≤ burstTime (sorted !!! idx)).
    { rewrite Forall_lookup in Hall.
      apply (Hall idx (sorted !!! idx)). by apply list_lookup_lookup_total_lt. }
    eexists. split; [reflexivity|]. unfold np_run, np_left. simpl.
    split; [|lia]. constructor; simpl.
    + by rewrite length_insert.
    + exists (order ++ [idx]).
      split; [|split; [|split; [|split]]].
      * apply NoDup_app. split; [exact Hnd|]. split; [|apply NoDup_singleton].
        intros i Hi Hi'. apply list_elem_of_singleton in Hi'. subst i.
        apply Hmem in Hi as [_ Hset]. congruence.
      * rewrite length_app. simpl. lia.
      * intros i. rewrite elem_of_app, list_elem_of_singleton, Hmem, is_set_insert.
        destruct (decide (i = idx ∧ (idx < length isC)%nat)) as [[-> _]|Hno].
        -- tauto.
        -- split; [intros [H| ->]; [exact H|exfalso; apply Hno; split; [reflexivity|lia]]|].
           tauto.
      * rewrite !map_app, Hres. reflexivity.
      * rewrite !map_app, Hchartids. reflexivity.
    + apply Forall_app. split; [exact Hok|]. constructor; [|constructor].
      unfold result_ok. simpl. lia.
    + intros i Hi. rewrite (busy_push sorted g idx t _ i Hids Hi Hidx).
      rewrite (Hbusy i Hi), is_set_insert.
      destruct (decide (i = idx)) as [->|Hne].
      * rewrite decide_True by (split; [reflexivity|lia]). rewrite Hfree. lia.
      * rewrite decide_False by tauto. lia.
    + apply chart_inv_snoc; [exact Hchart|exact Hidx|lia].
  - assert (Hex : ∃ i, (i < length sorted)%nat ∧ is_set isC i = false).
    { destruct (decide (Forall (fun i => is_set isC i = true)
                          (seq 0 (length sorted)))) as [Hfull|Hex].
      - exfalso. rewrite Forall_forall in Hfull.
        assert (seq 0 (length sorted) ⊆+ order) as Hsub.
        { apply NoDup_submseteq; [apply NoDup_seq|]. intros i Hi.
          apply Hmem. split; [apply elem_of_seq in Hi; lia|by apply Hfull]. }
        apply submseteq_length in Hsub. rewrite length_seq in Hsub. lia.
      - apply not_Forall_Exists in Hex; [|intros x; apply _].
        apply Exists_exists in Hex as (i & Hi & Hne). apply elem_of_seq in Hi.
        exists i. split; [lia|]. simpl in Hne. by destruct (is_set isC i). }
    destruct Hex as (i & Hi & Hfree).
    eexists. split; [reflexivity|]. unfold np_idle, np_left. simpl.
    pose proof (Hscan i Hi Hfree). pose proof (max_arrival_ge sorted i Hi).
    split; [|lia]. constructor; simpl; auto.
    + exists order. auto.
    + apply (chart_inv_mono _ t); [exact Hchart|lia].
Qed.

Lemma max_arrival_perm ps ps' : ps ≡ₚ ps' → max_arrival ps = max_arrival ps'.
Proof. induction 1; simpl; lia. Qed.

Lemma sumZ_perm (l l' : list Z) : l ≡ₚ l' → sumZ l = sumZ l'.
Proof. unfold sumZ. induction 1; simpl; lia. Qed.

Lemma fuel_bound_perm ps ps' : ps ≡ₚ ps' → fuel_bound ps = fuel_bound ps'.
Proof.
  intros Hp. unfold fuel_bound. rewrite (max_arrival_perm _ _ Hp).
  rewrite (sumZ_perm (map burstTime ps) (map burstTime ps')); [reflexivity|].
  change map with (@fmap list _). by rewrite Hp.
Qed.

Lemma valid_processes_perm ps ps' :
  ps ≡ₚ ps' → valid_processes ps → valid_processes ps'.
Proof.
  intros Hp [[Hnd Hne] Hall]. split; [split|].
  - change map with (@fmap list _) in *. by rewrite <- Hp.
  - by rewrite <- Hp.
  - by rewrite <- Hp.
Qed.

Lemma length_le_sum_burst processes :
  Forall (fun p => 0 ≤ arrivalTime p ∧ 1 ≤ burstTime p) processes →
  Z.of_nat (length processes) ≤ sumZ (map burstTime processes).
Proof.
  induction 1 as [|p ps [_ Hp] _ IH]; unfold sumZ in *; simpl; lia.
Qed.

Lemma schedule_ok_perm ps ps' results g :
  ps ≡ₚ ps' → schedule_ok ps results g → schedule_ok ps' results g.
Proof.
  intros Hp [Hres Hall Hbusy Hord Hpos Hnames]. constructor; auto.
  - by rewrite Hall.
  - intros p Hin. apply Hbusy. by rewrite Hp.
  - unfold chart_names in *. eapply Forall_impl; [exact Hnames|]. simpl.
    intros b Hb. change map with (@fmap list _) in *. by rewrite <- Hp.
Qed.

Lemma np_inv_schedule sorted s :
  ids_ok sorted → np_inv sorted s → (length sorted ≤ NP.completed s)%nat →
  schedule_ok sorted (NP.results s) (NP.ganttChart s)
  ∧ chart_alternating (NP.ganttChart s).
Proof.
  intros Hids [Hlen (order & Hnd & Holen & Hmem & Hres & Hchartids)
                 Hok Hbusy Hchart] Hc.
  assert (Hlt : ∀ i, i ∈ order → (i < length sorted)%nat).
  { intros i Hi. by apply Hmem in Hi as [? _]. }
  assert (Hfull : ∀ i, (i < length sorted)%nat → i ∈ order).
  { apply NoDup_below_full; auto. lia. }
  assert (Hperm : order ≡ₚ seq 0 (length sorted)).
  { apply submseteq_length_Permutation.
    - apply NoDup_submseteq; [exact Hnd|]. intros i Hi. apply elem_of_seq.
      specialize (Hlt i Hi). lia.
    - rewrite length_seq. lia. }
  split; [constructor|].
  - exact Hok.
  - rewrite Hres. change map with (@fmap list _). rewrite Hperm.
    change (@fmap list _) with map. by rewrite map_lookup_total_seq.
  - intros p Hp. apply list_elem_of_lookup in Hp as [i Hi].
    assert (i < length sorted)%nat as Hil by (by apply lookup_lt_Some in Hi).
    rewrite <- (list_lookup_total_correct _ _ _ Hi), (Hbusy i Hil).
    destruct (Hmem i) as [Hin _]. destruct (Hin (Hfull i Hil)) as [_ ->].
    reflexivity.
  - apply Hchart.
  - by apply (chart_inv_positive sorted (NP.currentTime s)).
  - by apply (chart_inv_names sorted (NP.currentTime s)).
  - apply NoDup_ids_alternating. rewrite Hchartids.
    change map with (@fmap list _). apply NoDup_fmap_2_strong; [|exact Hnd].
    intros i j Hi Hj. apply ids_ok_inj; auto.
Qed.

Lemma np_solve_ok scan localeCompare fuel processes :
  valid_processes processes →
  (∀ sorted, valid_processes sorted → np_scan_ok scan sorted) →
  (fuel_bound processes ≤ fuel)%nat →
  ∃ out,
    Plain.np_solve localeCompare scan fuel processes = Done out
    ∧ schedule_ok processes (Plain.results out) (Plain.ganttChart out)
    ∧ chart_alternating (Plain.ganttChart out).
Proof.
  intros Hv Hscan Hfuel. unfold Plain.np_solve.
  set (sorted := js_sort by_arrival processes).
  assert (Hperm : sorted ≡ₚ processes) by apply js_sort_perm.
  assert (Hvs : valid_processes sorted).
  { apply (valid_processes_perm processes); [by symmetry|exact Hv]. }
  assert (Hlen : length processes = length sorted).
  { symmetry. apply js_sort_length. }
  rewrite Hlen.
  destruct (while_loop_total (np_inv sorted) (np_left sorted)
              (np_cond (length sorted)) (np_body scan sorted)
              (fun s Hs Hc => np_body_inv scan sorted s Hvs (Hscan _ Hvs) Hs Hc)
              fuel (np_init (length sorted)) (np_inv_init sorted))
    as (s & -> & Hinv & Hcond).
  - unfold np_left. simpl.
    rewrite <- (fuel_bound_perm _ _ Hperm) in Hfuel. unfold fuel_bound in Hfuel.
    pose proof (length_le_sum_burst sorted (proj2 Hvs)). lia.
  - unfold np_cond in Hcond. apply bool_decide_eq_false in Hcond.
    destruct (np_inv_schedule sorted s (proj1 Hvs) Hinv ltac:(lia))
      as [Hsched Halt].
    eexists. split; [reflexivity|]. simpl. split; [|exact Halt].
    apply schedule_ok_sort. by apply (schedule_ok_perm sorted).
Qed.

(** ** FCFS *)

Lemma fcfs_fold_inv sorted :
  ∀ (before : list Process) (s : FCFS.state),
    ids_ok (before ++ sorted) →
    Forall (fun p => 0 ≤ arrivalTime p ∧ 1 ≤ burstTime p) sorted →
    Forall result_ok (FCFS.results s) →
    map process (FCFS.results s) = before →
    map processId (FCFS.ganttChart s) = map id before →
    chart_inv (before ++ sorted) (FCFS.currentTime s) (FCFS.ganttChart s) →
    (∀ i, (i < length (before ++ sorted))%nat →
          busy (id ((before ++ sorted) !!! i)) (FCFS.ganttChart s)
          = if decide (i < length before)%nat
            then burstTime ((before ++ sorted) !!! i) else 0) →
    let s' := fold_left fcfs_run sorted s in
    Forall result_ok (FCFS.results s')
    ∧ map process (FCFS.results s') = before ++ sorted
    ∧ map processId (FCFS.ganttChart s') = map id (before ++ sorted)
    ∧ (∃ t, chart_inv (before ++ sorted) t (FCFS.ganttChart s'))
    ∧ (∀ i, (i < length (before ++ sorted))%nat →
            busy (id ((before ++ sorted) !!! i)) (FCFS.ganttChart s')
            = burstTime ((before ++ sorted) !!! i)).
Proof.
  induction sorted as [|p sorted IH]; intros before s Hids Hall Hok Hres Hg Hchart Hbusy.
  - simpl. rewrite app_nil_r in *. repeat split; eauto.
    intros i Hi. rewrite (Hbusy i Hi). by rewrite decide_True.
  - simpl.
    assert (Heq : before ++ p :: sorted = (before ++ [p]) ++ sorted)
      by (by rewrite <- app_assoc).
    rewrite Heq in *.
    apply Forall_cons in Hall as [[Harr Hburst] Hall].
    assert (Hidx : (length before < length ((before ++ [p]) ++ sorted))%nat).
    { rewrite !length_app. simpl. lia. }
    assert (Hp : ((before ++ [p]) ++ sorted) !!! length before = p).
    { apply list_lookup_total_correct. rewrite <- app_assoc. simpl.
      by rewrite list_lookup_middle. }
    set (t := if FCFS.currentTime s <? arrivalTime p
              then arrivalTime p else FCFS.currentTime s).
    assert (Hge : FCFS.currentTime s ≤ t ∧ arrivalTime p ≤ t).
    { unfold t. destruct (Z.ltb_spec (FCFS.currentTime s) (arrivalTime p)); lia. }
    apply (IH (before ++ [p]) (fcfs_run s p)); auto.
    + unfold fcfs_run. simpl. apply Forall_app. split; [exact Hok|].
      constructor; [|constructor]. unfold result_ok. simpl. fold t. lia.
    + unfold fcfs_run. simpl. rewrite map_app, Hres. reflexivity.
    + unfold fcfs_run. simpl. rewrite !map_app, Hg. reflexivity.
    + unfold fcfs_run. simpl. fold t.
      pose proof (chart_inv_snoc _ t (FCFS.ganttChart s) (length before)
                    (burstTime p)
                    (chart_inv_mono _ _ _ _ Hchart (proj1 Hge)) Hidx
                    ltac:(lia)) as Hc.
      rewrite Hp in Hc. exact Hc.
    + intros i Hi. unfold fcfs_run. simpl. fold t.
      pose proof (busy_push _ (FCFS.ganttChart s) (length before) t
                    (burstTime p) i Hids Hi Hidx) as Hb.
      rewrite Hp in Hb. rewrite Hb.
      rewrite (Hbusy i Hi), length_app. simpl.
      destruct (decide (i = length before)) as [->|Hne].
      * rewrite decide_False by lia. rewrite decide_True by lia.
        rewrite Hp. lia.
      * destruct (decide (i < length before)%nat);
          [rewrite decide_True by lia|rewrite decide_False by lia]; lia.
Qed.

Lemma solveFCFS_ok localeCompare processes :
  valid_processes processes →
  ∃ out,
    Plain.solveFCFS localeCompare processes = Done out
    ∧ schedule_ok processes (Plain.results out) (Plain.ganttChart out)
    ∧ chart_alternating (Plain.ganttChart out).
Proof.
  intros Hv. unfold Plain.solveFCFS.
  set (sorted := js_sort by_arrival processes).
  assert (Hperm : sorted ≡ₚ processes) by apply js_sort_perm.
  assert (Hvs : valid_processes sorted).
  { apply (valid_processes_perm processes); [by symmetry|exact Hv]. }
  assert (Hb0 : ∀ i, (i < length ([] ++ sorted))%nat →
            busy (id (([] ++ sorted) !!! i)) (FCFS.ganttChart fcfs_init)
            = if decide (i < length (@nil Process))%nat
              then burstTime (([] ++ sorted) !!! i) else 0).
  { intros i Hi. simpl. reflexivity. }
  destruct (fcfs_fold_inv sorted [] fcfs_init (proj1 Hvs) (proj2 Hvs)
              (Forall_nil_2 _) eq_refl eq_refl (chart_inv_nil _ _) Hb0)
    as (Hok & Hres & Hg & [t Hchart] & Hbusy).
  simpl in *. eexists. split; [reflexivity|]. simpl. split.
  - apply schedule_ok_sort, (schedule_ok_perm sorted); [exact Hperm|].
    constructor; auto.
    + by rewrite Hres.
    + intros p Hp. apply list_elem_of_lookup in Hp as [i Hi].
      rewrite <- (list_lookup_total_correct _ _ _ Hi). apply Hbusy.
      by apply lookup_lt_Some in Hi.
    + apply Hchart.
    + by apply (chart_inv_positive sorted t).
    + by apply (chart_inv_names sorted t).
  - apply NoDup_ids_alternating. rewrite Hg. apply Hvs.
Qed.

(** ** The ready queues *)

Lemma burst_pos processes (i : nat) :
  valid_processes processes → (i < length processes)%nat →
  0 ≤ arrivalTime (processes !!! i) ∧ 1 ≤ burstTime (processes !!! i).
Proof.
  intros [_ Hall] Hi. rewrite Forall_lookup in Hall.
  apply (Hall i (processes !!! i)). by apply list_lookup_lookup_total_lt.
Qed.

(** Processes that were not visited join the ready queues. *)
Lemma ready_inv_arrive processes rem visited ready new ready' :
  valid_processes processes →
  ready_inv processes rem visited ready →
  NoDup new →
  (∀ i, i ∈ new → (i < length processes)%nat ∧ is_set visited i = false) →
  ready' ≡ₚ ready ++ new →
  ready_inv processes rem (mark_all new visited) ready'.
Proof.
  intros Hv [Hlen Hnd Hmem Hfresh] Hnew Hin Hperm. constructor.
  - by rewrite length_mark_all.
  - rewrite Hperm. apply NoDup_app. split; [exact Hnd|]. split; [|exact Hnew].
    intros i Hi Hi'. apply Hmem in Hi as (_ & Hset & _).
    apply Hin in Hi' as [_ Hunset]. congruence.
  - intros i. rewrite Hperm, elem_of_app, Hmem, is_set_mark_all. split.
    + intros [(Hi & Hset & Hpos)|Hi']; [tauto|].
      destruct (Hin i Hi') as [Hi Hunset]. split; [exact Hi|].
      split; [right; split; [exact Hi'|lia]|].
      rewrite (Hfresh i Hi Hunset). destruct (burst_pos _ i Hv Hi). lia.
    + intros (Hi & [Hset|[Hi' _]] & Hpos); tauto.
  - intros i Hi Hunset. apply Hfresh; [exact Hi|].
    destruct (is_set visited i) eqn:E; [|reflexivity].
    rewrite <- Hunset. symmetry. apply is_set_mark_all. tauto.
Qed.

(** A ready process runs and is left with [r'] units, processes that
    were not visited join the ready queues, and the one that ran stays
    ready if it has time remaining. *)
Lemma ready_inv_round processes rem visited ready idx rest r' new ready' :
  valid_processes processes →
  length rem = length processes →
  ready_inv processes rem visited ready →
  ready ≡ₚ idx :: rest →
  0 ≤ r' →
  NoDup new →
  (∀ i, i ∈ new → (i < length processes)%nat ∧ is_set visited i = false) →
  ready' ≡ₚ rest ++ new ++ (if 0 <? r' then [idx] else []) →
  ready_inv processes (<[idx := r']> rem) (mark_all new visited) ready'.
Proof.
  intros Hv Hlenr [Hlen Hnd Hmem Hfresh] Hready Hr' Hnew Hin Hperm.
  rewrite Hready in Hnd. apply NoDup_cons in Hnd as [Hnot Hndr].
  assert (Hidx : (idx < length processes)%nat ∧ is_set visited idx = true
                 ∧ 0 < rem !!! idx).
  { apply Hmem. rewrite Hready. apply elem_of_cons. auto. }
  destruct Hidx as (Hidx & Hset & Hpos).
  assert (Hrest : ∀ i, i ∈ rest ↔
            i ≠ idx ∧ (i < length processes)%nat ∧ is_set visited i = true
            ∧ 0 < rem !!! i).
  { intros i. rewrite <- Hmem, Hready, elem_of_cons. split.
    - intros Hi. split; [intros ->; contradiction|auto].
    - intros [Hne [->|Hi]]; [contradiction|exact Hi]. }
  assert (Hnew_idx : idx ∉ new).
  { intros Hi. apply Hin in Hi as [_ Hunset]. congruence. }
  assert (Hiff : ∀ i, i ∈ ready' ↔
            i ∈ rest ∨ i ∈ new ∨ (0 < r' ∧ i = idx)).
  { intros i. rewrite Hperm, !elem_of_app.
    destruct (Z.ltb_spec 0 r'); rewrite ?list_elem_of_singleton, ?elem_of_nil;
      intuition lia. }
  constructor.
  - by rewrite length_mark_all.
  - rewrite Hperm. apply NoDup_app. split; [exact Hndr|]. split.
    + intros i Hi Hi'. apply Hrest in Hi as (Hne & _ & Hseti & _).
      apply elem_of_app in Hi' as [Hi'|Hi'].
      * apply Hin in Hi' as [_ Hunset]. congruence.
      * destruct (0 <? r'); [apply list_elem_of_singleton in Hi'; congruence|
                             by apply elem_of_nil in Hi'].
    + apply NoDup_app. split; [exact Hnew|]. split.
      * intros i Hi Hi'. destruct (0 <? r');
          [apply list_elem_of_singleton in Hi'; congruence|
           by apply elem_of_nil in Hi'].
      * destruct (0 <? r'); [apply NoDup_singleton|constructor].
  - intros i. rewrite Hiff, Hrest, is_set_mark_all.
    destruct (decide (i = idx)) as [->|Hne].
    + rewrite list_lookup_total_insert_eq by lia. split.
      * intros [[? _]|[?|[? _]]]; [congruence|contradiction|tauto].
      * intros (_ & _ & ?). tauto.
    + rewrite list_lookup_total_insert_ne by auto. split.
      * intros [H|[Hi|[_ ?]]]; [tauto| |contradiction].
        destruct (Hin i Hi) as [Hlt Hunset]. split; [exact Hlt|].
        split; [right; split; [exact Hi|lia]|].
        rewrite (Hfresh i Hlt Hunset). destruct (burst_pos _ i Hv Hlt). lia.
      * intros (Hlt & [Hseti|[Hi _]] & Hposi); tauto.
  - intros i Hi Hunset.
    assert (is_set visited i = false) as Hu.
    { destruct (is_set visited i) eqn:E; [|reflexivity].
      rewrite <- Hunset. symmetry. apply is_set_mark_all. tauto. }
    rewrite list_lookup_total_insert_ne by congruence. by apply Hfresh.
Qed.

Lemma mark_all_nil visited : mark_all [] visited = visited.
Proof. reflexivity. Qed.

Lemma seen_inv_arrive processes visited t t' new :
  seen_inv processes visited t → t ≤ t' →
  (∀ i, i ∈ new → arrivalTime (processes !!! i) ≤ t') →
  seen_inv processes (mark_all new visited) t'.
Proof.
  intros Hseen Hle Hnew i Hi Hset. apply is_set_mark_all in Hset as [Hset|[Hin _]].
  - specialize (Hseen i Hi Hset). lia.
  - by apply Hnew.
Qed.

Lemma seen_inv_mono processes visited t t' :
  seen_inv processes visited t → t ≤ t' → seen_inv processes visited t'.
Proof. intros Hseen Hle i Hi Hset. specialize (Hseen i Hi Hset). lia. Qed.

Lemma none_waiting_arrived processes visited ready t :
  length visited = length processes →
  (∀ i, (i < length processes)%nat → is_set visited i = false →
        arrivalTime (processes !!! i) ≤ t → ready i = true) →
  none_waiting processes
    (mark_all (newcomers (length processes) visited ready) visited) t.
Proof.
  intros Hlen Hready i Hi Hunset.
  destruct (Z.lt_ge_cases t (arrivalTime (processes !!! i))) as [|Hle];
    [assumption|].
  assert (is_set visited i = false) as Hu.
  { destruct (is_set visited i) eqn:E; [|reflexivity].
    rewrite <- Hunset. symmetry. apply is_set_mark_all. tauto. }
  exfalso. apply not_true_iff_false in Hunset. apply Hunset.
  apply is_set_mark_all. right. split; [|lia].
  apply elem_of_newcomers. auto.
Qed.

(** ** Round Robin *)

Lemma rr_seed_loop processes (v0 : list bool) (k : nat) :
  (∀ i, is_set v0 i = false) →
  for_loop k (rr_seed_step processes) ([], v0)
  = (newcomers k v0 (fun i => arrivalTime (processes !!! i) =? 0),
     mark_all (newcomers k v0 (fun i => arrivalTime (processes !!! i) =? 0)) v0).
Proof.
  intros Hv0. induction k as [|k IH]; [reflexivity|].
  rewrite for_loop_S, IH, newcomers_S. unfold rr_seed_step at 1.
  rewrite Hv0. simpl.
  destruct (arrivalTime (processes !!! k) =? 0).
  - by rewrite mark_all_app.
  - by rewrite app_nil_r.
Qed.

Lemma rr_init_spec processes :
  let seeds := newcomers (length processes) (replicate (length processes) false)
                 (fun i => arrivalTime (processes !!! i) =? 0) in
  rr_init processes
  = RR.mk (map burstTime processes) (init_results processes) 0 0 [] seeds
      (mark_all seeds (replicate (length processes) false)).
Proof.
  unfold rr_init. rewrite rr_seed_loop; [reflexivity|].
  intros i. apply is_set_replicate_false.
Qed.

Lemma rr_next_arrival_spec processes visited :
  match rr_next_arrival processes visited with
  | (Some i, b) =>
      (i < length processes)%nat ∧ is_set visited i = false
      ∧ b = Fin (arrivalTime (processes !!! i))
      ∧ ∀ j, (j < length processes)%nat → is_set visited j = false →
             arrivalTime (processes !!! i) ≤ arrivalTime (processes !!! j)
  | (None, _) =>
      ∀ j, (j < length processes)%nat → is_set visited j = true
  end.
Proof.
  unfold rr_next_arrival.
  cut (match for_loop (length processes) (rr_next_step processes visited)
               (None, Inf) with
       | (Some i, b) =>
           (i < length processes)%nat ∧ is_set visited i = false
           ∧ b = Fin (arrivalTime (processes !!! i))
           ∧ ∀ j, (j < length processes)%nat → is_set visited j = false →
                  arrivalTime (processes !!! i) ≤ arrivalTime (processes !!! j)
       | (None, b) =>
           b = Inf
           ∧ ∀ j, (j < length processes)%nat → is_set visited j = true
       end).
  { destruct (for_loop _ _ _) as [[i|] b]; [auto|]. by intros [_ ?]. }
  apply (for_loop_ind
           (fun k acc =>
              match acc with
              | (Some i, b) =>
                  (i < k)%nat ∧ is_set visited i = false
                  ∧ b = Fin (arrivalTime (processes !!! i))
                  ∧ ∀ j, (j < k)%nat → is_set visited j = false →
                         arrivalTime (processes !!! i)
                         ≤ arrivalTime (processes !!! j)
              | (None, b) =>
                  b = Inf ∧ ∀ j, (j < k)%nat → is_set visited j = true
              end)).
  - split; [reflexivity|]. lia.
  - intros k [[i|] b] Hk Hinv; unfold rr_next_step.
    + destruct Hinv as (Hi & Hu & -> & Hmin).
      destruct (is_set visited k) eqn:Hvk; simpl.
      * split; [lia|]. split; [exact Hu|]. split; [reflexivity|].
        intros j Hj Huj.
        destruct (decide (j = k)) as [->|]; [congruence|]. apply Hmin; [lia|auto].
      * destruct (Z.ltb_spec (arrivalTime (processes !!! k))
                    (arrivalTime (processes !!! i))).
        -- split; [lia|]. split; [exact Hvk|]. split; [reflexivity|].
           intros j Hj Huj.
           destruct (decide (j = k)) as [->|]; [lia|].
           specialize (Hmin j ltac:(lia) Huj). lia.
        -- split; [lia|]. split; [exact Hu|]. split; [reflexivity|].
           intros j Hj Huj.
           destruct (decide (j = k)) as [->|]; [lia|]. apply Hmin; [lia|auto].
    + destruct Hinv as (-> & Hall).
      destruct (is_set visited k) eqn:Hvk; simpl.
      * split; [reflexivity|]. intros j Hj.
        destruct (decide (j = k)) as [->|]; [exact Hvk|]. apply Hall. lia.
      * split; [lia|]. split; [exact Hvk|]. split; [reflexivity|].
        intros j Hj Huj.
        destruct (decide (j = k)) as [->|]; [lia|].
        specialize (Hall j ltac:(lia)). congruence.
Qed.

Lemma rr_inv_init processes :
  valid_processes processes → rr_inv processes (rr_init processes).
Proof.
  intros Hv. rewrite rr_init_spec. simpl.
  set (seeds := newcomers _ _ _).
  assert (Hseed : ∀ i, i ∈ seeds ↔
            (i < length processes)%nat ∧ arrivalTime (processes !!! i) = 0).
  { intros i. unfold seeds. rewrite elem_of_newcomers, is_set_replicate_false.
    rewrite Z.eqb_eq. tauto. }
  assert (Hset : ∀ i, is_set (mark_all seeds (replicate (length processes) false)) i
                      = true ↔ i ∈ seeds).
  { intros i. rewrite is_set_mark_all, is_set_replicate_false, length_replicate.
    rewrite Hseed. split; [intros [?|[? _]]; [discriminate|assumption]|tauto]. }
  assert (Hrem : ∀ i, (i < length processes)%nat →
            map burstTime processes !!! i = burstTime (processes !!! i)).
  { intros i Hi. by apply lookup_total_map. }
  split; [by apply core_inv_init|]. simpl. split; [|split].
  - constructor.
    + by rewrite length_mark_all, length_replicate.
    + apply NoDup_newcomers.
    + intros i. rewrite Hset, Hseed. split; [|tauto].
      intros [Hi Ha]. repeat split; auto.
      rewrite (Hrem i Hi). destruct (burst_pos _ i Hv Hi). lia.
    + intros i Hi _. by apply Hrem.
  - intros i Hi Hs. apply Hset, Hseed in Hs. lia.
  - intros i Hi Hu. destruct (burst_pos _ i Hv Hi) as [Ha _].
    destruct (decide (arrivalTime (processes !!! i) = 0)) as [Hz|]; [|lia].
    exfalso. apply not_true_iff_false in Hu. apply Hu, Hset, Hseed. auto.
Qed.

(** The state after the refill: the queue is not empty. *)
Lemma rr_refill_inv processes s :
  valid_processes processes → rr_inv processes s →
  rr_cond (length processes) s = true →
  ∃ s1 idx rest,
    rr_refill processes s = Some s1
    ∧ RR.queue s1 = idx :: rest
    ∧ RR.remainingTime s1 = RR.remainingTime s
    ∧ RR.results s1 = RR.results s
    ∧ RR.completed s1 = RR.completed s
    ∧ RR.ganttChart s1 = RR.ganttChart s
    ∧ RR.currentTime s ≤ RR.currentTime s1
    ∧ ready_inv processes (RR.remainingTime s1) (RR.visited s1) (RR.queue s1)
    ∧ seen_inv processes (RR.visited s1) (RR.currentTime s1).
Proof.
  intros Hv (Hcore & Hready & Hseen & Hnone) Hcond.
  unfold rr_cond in Hcond. apply bool_decide_eq_true in Hcond.
  unfold rr_refill. destruct (RR.queue s) as [|idx rest] eqn:Hq.
  - destruct (core_inv_pending _ _ _ _ _ _ Hcore Hcond) as (i & Hi & Hpos).
    assert (Hui : is_set (RR.visited s) i = false).
    { destruct (is_set (RR.visited s) i) eqn:E; [|reflexivity].
      assert (i ∈ @nil nat) as Hin by (by apply (ri_mem _ _ _ _ Hready)).
      by apply elem_of_nil in Hin. }
    pose proof (rr_next_arrival_spec processes (RR.visited s)) as Hnext.
    destruct (rr_next_arrival processes (RR.visited s)) as [[nextIdx|] nextArr].
    + destruct Hnext as (Hn & Hun & -> & Hmin).
      exists (rr_jump nextIdx (Fin (arrivalTime (processes !!! nextIdx))) s),
        nextIdx, [].
      unfold rr_jump. simpl. rewrite Hq. simpl.
      pose proof (Hnone nextIdx Hn Hun) as Hlater.
      do 6 (split; [reflexivity|]). split; [lia|]. split.
      * change (<[nextIdx := true]> (RR.visited s))
          with (mark_all [nextIdx] (RR.visited s)).
        apply (ready_inv_arrive _ _ _ [] [nextIdx]); auto.
        -- apply NoDup_singleton.
        -- intros j Hj. apply list_elem_of_singleton in Hj. by subst j.
      * change (<[nextIdx := true]> (RR.visited s))
          with (mark_all [nextIdx] (RR.visited s)).
        apply (seen_inv_arrive _ _ (RR.currentTime s)); [exact Hseen|lia|].
        intros j Hj. apply list_elem_of_singleton in Hj. subst j. lia.
    + specialize (Hnext i Hi). congruence.
  - exists s, idx, rest. rewrite Hq.
    do 6 (split; [reflexivity|]). split; [lia|]. split; assumption.
Qed.

(** A ready process runs for [d] units from [t]: the shared part of a
    round of the three solvers with ready queues. *)
Lemma queue_slice processes rem results t completed g visited ready
    idx rest d new ready' :
  valid_processes processes →
  core_inv processes rem results t completed g →
  ready_inv processes rem visited ready →
  seen_inv processes visited t →
  ready ≡ₚ idx :: rest →
  1 ≤ d ≤ rem !!! idx →
  NoDup new →
  (∀ i, i ∈ new → (i < length processes)%nat ∧ is_set visited i = false
                  ∧ arrivalTime (processes !!! i) ≤ t + d) →
  ready' ≡ₚ rest ++ new ++ (if 0 <? rem !!! idx - d then [idx] else []) →
  let rem' := <[idx := (rem !!! idx - d)%Z]> rem in
  let done := rem' !!! idx =? 0 in
  let started := mark_start idx t results in
  (idx < length processes)%nat
  ∧ rem' !!! idx = rem !!! idx - d
  ∧ core_inv processes rem'
      (if done then finalize_from processes idx (t + d) started else started)
      (t + d) (if done then S completed else completed)
      (g ++ [mkBlock (id (processes !!! idx)) t (t + d)])
  ∧ ready_inv processes rem' (mark_all new visited) ready'
  ∧ seen_inv processes (mark_all new visited) (t + d)
  ∧ (work_left processes rem' (t + d) < work_left processes rem t)%nat.
Proof.
  intros Hv Hcore Hready Hseen Hperm Hd Hnew Hin Hperm' rem' done started.
  assert (Hidx : (idx < length processes)%nat ∧ is_set visited idx = true).
  { assert (idx ∈ ready) as Hi by (rewrite Hperm; apply elem_of_cons; auto).
    apply (ri_mem _ _ _ _ Hready) in Hi. tauto. }
  destruct Hidx as [Hidx Hset].
  assert (Hlen : (idx < length rem)%nat)
    by (rewrite (ci_length _ _ _ _ _ _ Hcore); exact Hidx).
  assert (Hrem' : rem' !!! idx = rem !!! idx - d)
    by (unfold rem'; by rewrite list_lookup_total_insert_eq).
  split; [exact Hidx|]. split; [exact Hrem'|]. split; [|split; [|split]].
  - assert (Hfin : finalize_from processes idx (t + d) started
                   = finalize idx (t + d) started).
    { apply finalize_from_eq; [|exact Hidx]. unfold started.
      rewrite map_process_mark_start. apply (ci_results _ _ _ _ _ _ Hcore). }
    rewrite Hfin.
    apply (core_inv_slice processes rem results t completed g idx d);
      [apply Hv|exact Hcore|exact Hidx|by apply Hseen|exact Hd| |].
    + apply chart_inv_snoc; [apply (ci_chart _ _ _ _ _ _ Hcore)|exact Hidx|lia].
    + intros i Hi. apply busy_push; [apply Hv|exact Hi|exact Hidx].
  - apply (ready_inv_round processes rem visited ready idx rest
             (rem !!! idx - d) new ready'); auto.
    + apply (ci_length _ _ _ _ _ _ Hcore).
    + lia.
    + intros i Hi. apply Hin in Hi. tauto.
  - apply (seen_inv_arrive _ _ t); [exact Hseen|lia|].
    intros i Hi. apply Hin in Hi. tauto.
  - apply (work_left_slice processes rem results t completed g idx d (t + d));
      [exact Hcore|exact Hidx|exact Hd|lia].
Qed.

Lemma work_left_later processes rem t t' :
  t ≤ t' → (work_left processes rem t' ≤ work_left processes rem t)%nat.
Proof. intros Hle. unfold work_left. lia. Qed.

Lemma core_inv_later processes rem results t t' completed g :
  core_inv processes rem results t completed g → t ≤ t' →
  core_inv processes rem results t' completed g.
Proof.
  intros [Hlen Hres Hrange Hdone Hran Hfinal Hbusy Hchart] Hle.
  constructor; auto.
  - intros i Hi Hlt. specialize (Hran i Hi Hlt). lia.
  - by apply (chart_inv_mono _ t).
Qed.

Lemma rr_body_inv processes timeQuantum s :
  valid_processes processes → 1 ≤ timeQuantum →
  rr_inv processes s → rr_cond (length processes) s = true →
  ∃ s', Plain.rr_body processes timeQuantum s = Next s'
        ∧ rr_inv processes s'
        ∧ (work_left processes (RR.remainingTime s') (RR.currentTime s')
           < work_left processes (RR.remainingTime s) (RR.currentTime s))%nat.
Proof.
  intros Hv Hq Hinv Hcond.
  destruct (rr_refill_inv processes s Hv Hinv Hcond)
    as (s1 & idx & rest & Hrefill & Hqueue & Hrem & Hres & Hcomp & Hg & Hle
        & Hready & Hseen).
  destruct Hinv as (Hcore & _ & _ & _).
  assert (Hcore1 : core_inv processes (RR.remainingTime s1) (RR.results s1)
                     (RR.currentTime s1) (RR.completed s1) (RR.ganttChart s1)).
  { rewrite Hrem, Hres, Hcomp, Hg. by apply (core_inv_later _ _ _ (RR.currentTime s)). }
  unfold Plain.rr_body. rewrite Hrefill, Hqueue.
  eexists. split; [reflexivity|].
  rewrite rr_arrivals_spec. unfold rr_exec. cbn [RR.remainingTime RR.results
    RR.currentTime RR.completed RR.ganttChart RR.queue RR.visited].
  set (d := Z.min timeQuantum (RR.remainingTime s1 !!! idx)).
  set (t := RR.currentTime s1).
  set (rem' := <[idx := RR.remainingTime s1 !!! idx - d]> (RR.remainingTime s1)).
  set (new := newcomers (length processes) (RR.visited s1)
                (rr_ready processes rem' (t + d))).
  assert (Hpos : 0 < RR.remainingTime s1 !!! idx).
  { assert (idx ∈ RR.queue s1) as Hi by (rewrite Hqueue; apply elem_of_cons; auto).
    apply (ri_mem _ _ _ _ Hready) in Hi. tauto. }
  assert (Hnew : ∀ i, i ∈ new → (i < length processes)%nat
                   ∧ is_set (RR.visited s1) i = false
                   ∧ arrivalTime (processes !!! i) ≤ t + d).
  { intros i Hi. apply elem_of_newcomers in Hi as (Hi & Hu & Hr).
    unfold rr_ready in Hr. apply andb_true_iff in Hr as [Hr _].
    apply Z.leb_le in Hr. auto. }
  destruct (queue_slice processes (RR.remainingTime s1) (RR.results s1) t
              (RR.completed s1) (RR.ganttChart s1) (RR.visited s1)
              (RR.queue s1) idx rest d new
              (rest ++ new ++ (if 0 <? RR.remainingTime s1 !!! idx - d
                               then [idx] else [])))
    as (Hidx & Hrem' & Hcore' & Hready' & Hseen' & Hwork); auto.
  { by rewrite Hqueue. }
  { unfold d. lia. }
  { apply NoDup_newcomers. }
  fold rem' in Hrem', Hcore', Hready', Hseen', Hwork.
  assert (Hnone' : none_waiting processes (mark_all new (RR.visited s1)) (t + d)).
  { apply none_waiting_arrived; [apply (ri_length _ _ _ _ Hready)|].
    intros i Hi Hu Ha. unfold rr_ready. apply andb_true_iff. split.
    - by apply Z.leb_le.
    - apply Z.ltb_lt.
      assert (i ≠ idx) as Hne.
      { intros ->.
        assert (idx ∈ RR.queue s1) as Hi' by (rewrite Hqueue; apply elem_of_cons; auto).
        apply (ri_mem _ _ _ _ Hready) in Hi'. destruct Hi' as (_ & Hs & _).
        congruence. }
      unfold rem'. rewrite list_lookup_total_insert_ne by auto.
      rewrite (ri_fresh _ _ _ _ Hready i Hi Hu).
      destruct (burst_pos _ i Hv Hi). lia. }
  unfold rr_finish. cbn [RR.remainingTime RR.results RR.currentTime
    RR.completed RR.ganttChart RR.queue RR.visited].
  rewrite Hrem'. rewrite Hrem' in Hcore'.
  assert (Hwork' : (work_left processes rem' (t + d)
                    < work_left processes (RR.remainingTime s) (RR.currentTime s))%nat).
  { rewrite <- Hrem.
    pose proof (work_left_later processes (RR.remainingTime s1) _ _ Hle).
    fold t in H. lia. }
  destruct (Z.ltb_spec 0 (RR.remainingTime s1 !!! idx - d)) as [Hlt|Hge].
  - assert ((RR.remainingTime s1 !!! idx - d =? 0) = false) as Hz
      by (apply Z.eqb_neq; lia).
    rewrite Hz in Hcore'. unfold rr_inv.
    cbn [RR.remainingTime RR.results RR.currentTime RR.completed
         RR.ganttChart RR.queue RR.visited].
    split; [|exact Hwork'].
    split; [exact Hcore'|]. split; [|split; [exact Hseen'|exact Hnone']].
    rewrite <- app_assoc. exact Hready'.
  - assert ((RR.remainingTime s1 !!! idx - d =? 0) = true) as Hz
      by (apply Z.eqb_eq; unfold d in *; lia).
    rewrite Hz in Hcore'. unfold rr_inv.
    cbn [RR.remainingTime RR.results RR.currentTime RR.completed
         RR.ganttChart RR.queue RR.visited].
    split; [|exact Hwork'].
    split; [exact Hcore'|]. split; [|split; [exact Hseen'|exact Hnone']].
    rewrite !app_nil_r in Hready'. exact Hready'.
Qed.

Lemma solveRR_ok localeCompare fuel processes timeQuantum :
  valid_processes processes → 1 ≤ timeQuantum →
  (fuel_bound processes ≤ fuel)%nat →
  ∃ out,
    Plain.solveRR localeCompare fuel processes timeQuantum = Done out
    ∧ schedule_ok processes (Plain.results out) (Plain.ganttChart out).
Proof.
  intros Hv Hq Hfuel. unfold Plain.solveRR.
  destruct (while_loop_total (rr_inv processes)
              (fun s => work_left processes (RR.remainingTime s)
                          (RR.currentTime s))
              (rr_cond (length processes))
              (Plain.rr_body processes timeQuantum)
              (fun s Hs Hc => rr_body_inv processes timeQuantum s Hv Hq Hs Hc)
              fuel (rr_init processes) (rr_inv_init processes Hv))
    as (s & -> & [Hcore _] & Hcond).
  - rewrite rr_init_spec. simpl. rewrite work_left_init. exact Hfuel.
  - eexists. split; [reflexivity|]. simpl.
    apply schedule_ok_sort. apply (core_inv_schedule _ _ _ _ _ _ Hcore).
    apply (core_inv_all_done _ _ _ _ _ _ Hcore).
    unfold rr_cond in Hcond. apply bool_decide_eq_false in Hcond. lia.
Qed.

(** ** Multilevel Queue *)

Lemma filter_split_perm {A} (f : A → bool) (l : list A) :
  List.filter f l ++ List.filter (fun x => negb (f x)) l ≡ₚ l.
Proof.
  induction l as [|a l IH]; simpl; [reflexivity|].
  destruct (f a); simpl.
  - by rewrite IH.
  - rewrite <- Permutation_middle. by rewrite IH.
Qed.

Lemma newcomers_arrived processes visited t (i : nat) :
  i ∈ newcomers (length processes) visited (arrived processes t) →
  (i < length processes)%nat ∧ is_set visited i = false
  ∧ arrivalTime (processes !!! i) ≤ t.
Proof.
  intros Hi. apply elem_of_newcomers in Hi as (Hi & Hu & Hr).
  unfold arrived in Hr. apply Z.leb_le in Hr. auto.
Qed.

(** The enqueueing at the start of a round of the two multilevel
    solvers: afterwards no arrived process is left out. *)
Lemma arrivals_inv processes rem visited ready t ready' :
  valid_processes processes →
  ready_inv processes rem visited ready →
  seen_inv processes visited t →
  let new := newcomers (length processes) visited (arrived processes t) in
  ready' ≡ₚ ready ++ new →
  ready_inv processes rem (mark_all new visited) ready'
  ∧ seen_inv processes (mark_all new visited) t
  ∧ none_waiting processes (mark_all new visited) t.
Proof.
  intros Hv Hready Hseen new Hperm. split; [|split].
  - apply (ready_inv_arrive _ _ _ ready new); auto.
    + apply NoDup_newcomers.
    + intros i Hi. apply newcomers_arrived in Hi. tauto.
  - apply (seen_inv_arrive _ _ t); [exact Hseen|lia|].
    intros i Hi. apply newcomers_arrived in Hi. tauto.
  - apply none_waiting_arrived; [apply (ri_length _ _ _ _ Hready)|].
    intros i Hi Hu Ha. unfold arrived. by apply Z.leb_le.
Qed.

(** Nothing is ready: some process is still to arrive. *)
Lemma idle_inv processes rem results t completed g visited :
  core_inv processes rem results t completed g →
  ready_inv processes rem visited [] →
  seen_inv processes visited t →
  none_waiting processes visited t →
  (completed < length processes)%nat →
  core_inv processes rem results (t + 1) completed g
  ∧ seen_inv processes visited (t + 1)
  ∧ (work_left processes rem (t + 1) < work_left processes rem t)%nat.
Proof.
  intros Hcore Hready Hseen Hnone Hc.
  split; [apply (core_inv_later _ _ _ t); [exact Hcore|lia]|].
  split; [apply (seen_inv_mono _ _ t); [exact Hseen|lia]|].
  destruct (core_inv_pending _ _ _ _ _ _ Hcore Hc) as (i & Hi & Hpos).
  apply (work_left_wait _ _ _ i Hi). apply Hnone; [exact Hi|].
  destruct (is_set visited i) eqn:E; [|reflexivity].
  assert (i ∈ @nil nat) as Hin by (by apply (ri_mem _ _ _ _ Hready)).
  by apply elem_of_nil in Hin.
Qed.

Lemma mlq_inv_init processes :
  valid_processes processes → mlq_inv processes (mlq_init processes).
Proof.
  intros Hv. unfold mlq_inv, mlq_init. simpl.
  split; [by apply core_inv_init|]. split.
  - constructor.
    + by rewrite length_replicate.
    + constructor.
    + intros i. rewrite is_set_replicate_false, elem_of_nil.
      split; [tauto|]. intros (_ & ? & _). discriminate.
    + intros i Hi _. by apply lookup_total_map.
  - intros i Hi Hs. rewrite is_set_replicate_false in Hs. discriminate.
Qed.

Lemma mlq_body_inv processes timeQuantum s :
  valid_processes processes → 1 ≤ timeQuantum →
  mlq_inv processes s → mlq_cond (length processes) s = true →
  ∃ s', Plain.mlq_body processes timeQuantum s = Next s'
        ∧ mlq_inv processes s'
        ∧ (work_left processes (MLQ.remainingTime s') (MLQ.currentTime s')
           < work_left processes (MLQ.remainingTime s) (MLQ.currentTime s))%nat.
Proof.
  intros Hv Hq (Hcore & Hready & Hseen) Hcond.
  unfold mlq_cond in Hcond. apply bool_decide_eq_true in Hcond.
  unfold Plain.mlq_body. rewrite mlq_arrivals_spec.
  cbn [MLQ.remainingTime MLQ.results MLQ.currentTime MLQ.completed
       MLQ.ganttChart MLQ.q1 MLQ.q2 MLQ.visited].
  set (hi := fun i : nat => priority (processes !!! i) <=? 2).
  set (new0 := newcomers (length processes) (MLQ.visited s)
                 (arrived processes (MLQ.currentTime s))).
  set (q1A := MLQ.q1 s ++ List.filter hi new0).
  set (lo := fun i : nat => negb (priority (processes !!! i) <=? 2)).
  set (q2A := MLQ.q2 s ++ List.filter lo new0).
  assert (Hsplit : ∀ l, List.filter hi l ++ List.filter lo l ≡ₚ l)
    by (intros l; apply filter_split_perm).
  destruct (arrivals_inv processes (MLQ.remainingTime s) (MLQ.visited s)
              (MLQ.q1 s ++ MLQ.q2 s) (MLQ.currentTime s) (q1A ++ q2A)
              Hv Hready Hseen) as (HreadyA & HseenA & HnoneA).
  { unfold q1A, q2A. fold new0.
    etrans; [|apply Permutation_app; [reflexivity|apply (Hsplit new0)]].
    solve_Permutation. }
  fold new0 in HreadyA, HseenA, HnoneA.
  destruct q1A as [|idx rest] eqn:Hq1A.
  - destruct q2A as [|idx rest2] eqn:Hq2A.
    + (* idle *)
      destruct (idle_inv _ _ _ _ _ _ _ Hcore HreadyA HseenA HnoneA Hcond)
        as (Hcore' & Hseen' & Hwork).
      eexists. split; [reflexivity|]. unfold mlq_inv, mlq_idle.
      cbn [MLQ.remainingTime MLQ.results MLQ.currentTime MLQ.completed
           MLQ.ganttChart MLQ.q1 MLQ.q2 MLQ.visited].
      split; [|exact Hwork]. split; [exact Hcore'|]. split; assumption.
    + (* queue 2 *)
      assert (Hpos : 0 < MLQ.remainingTime s !!! idx).
      { assert (idx ∈ [] ++ idx :: rest2) as Hi by (apply elem_of_cons; auto).
        apply (ri_mem _ _ _ _ HreadyA) in Hi. tauto. }
      destruct (queue_slice processes (MLQ.remainingTime s) (MLQ.results s)
                  (MLQ.currentTime s) (MLQ.completed s) (MLQ.ganttChart s)
                  (mark_all new0 (MLQ.visited s)) ([] ++ idx :: rest2)
                  idx rest2 1 []
                  ([] ++ (if (MLQ.remainingTime s !!! idx - 1 =? 0)
                          then rest2 else idx :: rest2)))
        as (Hidx & Hrem' & Hcore' & Hready' & Hseen' & Hwork); auto.
      { lia. }
      { constructor. }
      { intros i Hi. by apply elem_of_nil in Hi. }
      { destruct (Z.eqb_spec (MLQ.remainingTime s !!! idx - 1) 0) as [Hz|Hz].
        - rewrite Hz. simpl. by rewrite app_nil_r.
        - destruct (Z.ltb_spec 0 (MLQ.remainingTime s !!! idx - 1)); [|lia].
          simpl. apply Permutation_cons_append. }
      eexists. split; [reflexivity|]. unfold mlq_exec2.
      cbn [MLQ.remainingTime MLQ.results MLQ.currentTime MLQ.completed
           MLQ.ganttChart MLQ.q1 MLQ.q2 MLQ.visited].
      rewrite mark_all_nil in Hready', Hseen'.
      rewrite Hrem'. rewrite Hrem' in Hcore'.
      destruct (MLQ.remainingTime s !!! idx - 1 =? 0); unfold mlq_inv;
        cbn [MLQ.remainingTime MLQ.results MLQ.currentTime MLQ.completed
             MLQ.ganttChart MLQ.q1 MLQ.q2 MLQ.visited tail];
        (split; [|exact Hwork]); (split; [exact Hcore'|]); split; assumption.
  - (* queue 1 *)
    rewrite mlq_arrivals_spec. unfold mlq_exec1.
    cbn [MLQ.remainingTime MLQ.results MLQ.currentTime MLQ.completed
         MLQ.ganttChart MLQ.q1 MLQ.q2 MLQ.visited].
    set (d := Z.min timeQuantum (MLQ.remainingTime s !!! idx)).
    set (t := MLQ.currentTime s).
    set (visitedA := mark_all new0 (MLQ.visited s)).
    set (new1 := newcomers (length processes) visitedA
                   (arrived processes (t + d))).
    fold hi lo.
    assert (Hpos : 0 < MLQ.remainingTime s !!! idx).
    { assert (idx ∈ (idx :: rest) ++ q2A) as Hi by (apply elem_of_cons; auto).
      apply (ri_mem _ _ _ _ HreadyA) in Hi. tauto. }
    destruct (queue_slice processes (MLQ.remainingTime s) (MLQ.results s)
                t (MLQ.completed s) (MLQ.ganttChart s)
                visitedA ((idx :: rest) ++ q2A) idx (rest ++ q2A) d new1
                (((rest ++ List.filter hi new1)
                  ++ (if 0 <? MLQ.remainingTime s !!! idx - d
                      then [idx] else []))
                 ++ (q2A ++ List.filter lo new1)))
      as (Hidx & Hrem' & Hcore' & Hready' & Hseen' & Hwork); auto.
    { unfold d. lia. }
    { apply NoDup_newcomers. }
    { intros i Hi. by apply newcomers_arrived in Hi. }
    { etrans; [|apply Permutation_app; [reflexivity|
                 apply Permutation_app; [apply (Hsplit new1)|reflexivity]]].
      solve_Permutation. }
    eexists. split; [reflexivity|]. unfold mlq_finish1.
    cbn [MLQ.remainingTime MLQ.results MLQ.currentTime MLQ.completed
         MLQ.ganttChart MLQ.q1 MLQ.q2 MLQ.visited].
    rewrite Hrem'. rewrite Hrem' in Hcore'.
    destruct (Z.ltb_spec 0 (MLQ.remainingTime s !!! idx - d)) as [Hlt|Hge].
    + assert ((MLQ.remainingTime s !!! idx - d =? 0) = false) as Hz
        by (apply Z.eqb_neq; lia).
      rewrite Hz in Hcore'. unfold mlq_inv.
      cbn [MLQ.remainingTime MLQ.results MLQ.currentTime MLQ.completed
           MLQ.ganttChart MLQ.q1 MLQ.q2 MLQ.visited].
      split; [|exact Hwork]. split; [exact Hcore'|]. split; assumption.
    + assert ((MLQ.remainingTime s !!! idx - d =? 0) = true) as Hz
        by (apply Z.eqb_eq; unfold d in *; lia).
      rewrite Hz in Hcore'. unfold mlq_inv.
      cbn [MLQ.remainingTime MLQ.results MLQ.currentTime MLQ.completed
           MLQ.ganttChart MLQ.q1 MLQ.q2 MLQ.visited].
      split; [|exact Hwork]. split; [exact Hcore'|]. split; [|assumption].
      rewrite app_nil_r in Hready'. exact Hready'.
Qed.

Lemma solveMLQ_ok localeCompare fuel processes timeQuantum :
  valid_processes processes → 1 ≤ timeQuantum →
  (fuel_bound processes ≤ fuel)%nat →
  ∃ out,
    Plain.solveMLQ localeCompare fuel processes timeQuantum = Done out
    ∧ schedule_ok processes (Plain.results out) (Plain.ganttChart out).
Proof.
  intros Hv Hq Hfuel. unfold Plain.solveMLQ.
  destruct (while_loop_total (mlq_inv processes)
              (fun s => work_left processes (MLQ.remainingTime s)
                          (MLQ.currentTime s))
              (mlq_cond (length processes))
              (Plain.mlq_body processes timeQuantum)
              (fun s Hs Hc => mlq_body_inv processes timeQuantum s Hv Hq Hs Hc)
              fuel (mlq_init processes) (mlq_inv_init processes Hv))
    as (s & -> & [Hcore _] & Hcond).
  - simpl. rewrite work_left_init. exact Hfuel.
  - eexists. split; [reflexivity|]. simpl.
    apply schedule_ok_sort. apply (core_inv_schedule _ _ _ _ _ _ Hcore).
    apply (core_inv_all_done _ _ _ _ _ _ Hcore).
    unfold mlq_cond in Hcond. apply bool_decide_eq_false in Hcond. lia.
Qed.

(** ** Multilevel Feedback Queue *)

Lemma mlfq_inv_init processes :
  valid_processes processes → mlfq_inv processes (mlfq_init processes).
Proof.
  intros Hv. unfold mlfq_inv, mlfq_init. simpl.
  split; [by apply core_inv_init|]. split.
  - constructor.
    + by rewrite length_replicate.
    + constructor.
    + intros i. rewrite is_set_replicate_false, elem_of_nil.
      split; [tauto|]. intros (_ & ? & _). discriminate.
    + intros i Hi _. by apply lookup_total_map.
  - intros i Hi Hs. rewrite is_set_replicate_false in Hs. discriminate.
Qed.

Ltac mlfq_fields :=
  cbn [MLFQ.remainingTime MLFQ.results MLFQ.currentTime MLFQ.completed
       MLFQ.ganttChart MLFQ.q0 MLFQ.q1 MLFQ.q2 MLFQ.visited].

Lemma mlfq_body_inv processes timeQuantum s :
  valid_processes processes → 1 ≤ timeQuantum →
  mlfq_inv processes s → mlfq_cond (length processes) s = true →
  ∃ s', Plain.mlfq_body processes timeQuantum s = Next s'
        ∧ mlfq_inv processes s'
        ∧ (work_left processes (MLFQ.remainingTime s') (MLFQ.currentTime s')
           < work_left processes (MLFQ.remainingTime s) (MLFQ.currentTime s))%nat.
Proof.
  intros Hv Hq (Hcore & Hready & Hseen) Hcond.
  unfold mlfq_cond in Hcond. apply bool_decide_eq_true in Hcond.
  unfold Plain.mlfq_body. rewrite mlfq_arrivals_spec. unfold mlfq_pick.
  mlfq_fields.
  set (new0 := newcomers (length processes) (MLFQ.visited s)
                 (arrived processes (MLFQ.currentTime s))).
  set (q0A := MLFQ.q0 s ++ new0).
  set (t := MLFQ.currentTime s).
  set (visitedA := mark_all new0 (MLFQ.visited s)).
  destruct (arrivals_inv processes (MLFQ.remainingTime s) (MLFQ.visited s)
              (MLFQ.q0 s ++ MLFQ.q1 s ++ MLFQ.q2 s) (MLFQ.currentTime s)
              (q0A ++ MLFQ.q1 s ++ MLFQ.q2 s)
              Hv Hready Hseen) as (HreadyA & HseenA & HnoneA).
  { unfold q0A. fold new0. solve_Permutation. }
  fold new0 visitedA t in HreadyA, HseenA, HnoneA.
  assert (Hhead : ∀ idx l1 l2 l3, q0A ++ MLFQ.q1 s ++ MLFQ.q2 s
                                  = l1 ++ l2 ++ idx :: l3 →
                    0 < MLFQ.remainingTime s !!! idx).
  { intros idx l1 l2 l3 Heq.
    assert (idx ∈ q0A ++ MLFQ.q1 s ++ MLFQ.q2 s) as Hi.
    { rewrite Heq, !elem_of_app, elem_of_cons. auto. }
    apply (ri_mem _ _ _ _ HreadyA) in Hi. tauto. }
  destruct q0A as [|idx rest] eqn:Hq0A;
    [destruct (MLFQ.q1 s) as [|idx rest] eqn:Hq1;
     [destruct (MLFQ.q2 s) as [|idx rest] eqn:Hq2|]|].
  - (* idle *)
    destruct (idle_inv _ _ _ _ _ _ _ Hcore HreadyA HseenA HnoneA Hcond)
      as (Hcore' & Hseen' & Hwork).
    eexists. split; [reflexivity|]. unfold mlfq_inv, mlfq_idle. mlfq_fields.
    split; [|exact Hwork]. split; [exact Hcore'|]. split; assumption.
  - (* queue 2 *)
    pose proof (Hhead idx [] [] rest eq_refl) as Hpos.
    rewrite mlfq_arrivals_spec. unfold mlfq_exec. mlfq_fields.
    change (2 =? 2)%nat with true. cbv iota.
    set (new1 := newcomers (length processes) visitedA
                   (arrived processes (t + 1))).
    destruct (queue_slice processes (MLFQ.remainingTime s) (MLFQ.results s)
                t (MLFQ.completed s) (MLFQ.ganttChart s)
                visitedA ([] ++ [] ++ idx :: rest) idx rest 1 new1
                (([] ++ new1) ++ []
                 ++ (if (MLFQ.remainingTime s !!! idx - 1 =? 0)
                     then rest else idx :: rest)))
      as (Hidx & Hrem' & Hcore' & Hready' & Hseen' & Hwork); auto.
    { lia. }
    { apply NoDup_newcomers. }
    { intros i Hi. apply newcomers_arrived in Hi. exact Hi. }
    { destruct (Z.eqb_spec (MLFQ.remainingTime s !!! idx - 1) 0) as [Hz|Hz].
      - rewrite Hz. simpl. rewrite app_nil_r. solve_Permutation.
      - destruct (Z.ltb_spec 0 (MLFQ.remainingTime s !!! idx - 1)); [|lia].
        simpl. solve_Permutation. }
    eexists. split; [reflexivity|]. unfold mlfq_finish. mlfq_fields.
    rewrite Hrem'. rewrite Hrem' in Hcore'.
    change (2 =? 2)%nat with true. change (2 =? 0)%nat with false.
    change (2 =? 1)%nat with false. cbv iota.
    destruct (MLFQ.remainingTime s !!! idx - 1 =? 0); unfold mlfq_inv;
      mlfq_fields; cbn [tail]; rewrite ?Hq1, ?Hq2;
      (split; [|exact Hwork]); (split; [exact Hcore'|]); split; assumption.
  - (* queue 1 *)
    pose proof (Hhead idx [] [] (rest ++ MLFQ.q2 s) eq_refl) as Hpos.
    rewrite mlfq_arrivals_spec. unfold mlfq_exec. mlfq_fields.
    change (1 =? 2)%nat with false. cbv iota. unfold min_bound.
    set (d := Z.min (MLFQ.remainingTime s !!! idx) (timeQuantum * 2)).
    set (new1 := newcomers (length processes) visitedA
                   (arrived processes (t + d))).
    destruct (queue_slice processes (MLFQ.remainingTime s) (MLFQ.results s)
                t (MLFQ.completed s) (MLFQ.ganttChart s)
                visitedA ([] ++ (idx :: rest) ++ MLFQ.q2 s) idx
                (rest ++ MLFQ.q2 s) d new1
                (([] ++ new1) ++ rest
                 ++ (if (MLFQ.remainingTime s !!! idx - d =? 0)
                     then MLFQ.q2 s else MLFQ.q2 s ++ [idx])))
      as (Hidx & Hrem' & Hcore' & Hready' & Hseen' & Hwork); auto.
    { unfold d. lia. }
    { apply NoDup_newcomers. }
    { intros i Hi. apply newcomers_arrived in Hi. exact Hi. }
    { destruct (Z.eqb_spec (MLFQ.remainingTime s !!! idx - d) 0) as [Hz|Hz].
      - rewrite Hz. simpl. rewrite app_nil_r. solve_Permutation.
      - destruct (Z.ltb_spec 0 (MLFQ.remainingTime s !!! idx - d));
          [|unfold d in *; lia].
        simpl. solve_Permutation. }
    eexists. split; [reflexivity|]. unfold mlfq_finish. mlfq_fields.
    rewrite Hrem'. rewrite Hrem' in Hcore'.
    change (1 =? 2)%nat with false. change (1 =? 0)%nat with false.
    change (1 =? 1)%nat with true. cbv iota.
    destruct (MLFQ.remainingTime s !!! idx - d =? 0); unfold mlfq_inv;
      mlfq_fields;
      (split; [|exact Hwork]); (split; [exact Hcore'|]); split; assumption.
  - (* queue 0 *)
    pose proof (Hhead idx [] [] (rest ++ MLFQ.q1 s ++ MLFQ.q2 s) eq_refl)
      as Hpos.
    rewrite mlfq_arrivals_spec. unfold mlfq_exec. mlfq_fields.
    change (0 =? 2)%nat with false. cbv iota. unfold min_bound.
    set (d := Z.min (MLFQ.remainingTime s !!! idx) timeQuantum).
    set (new1 := newcomers (length processes) visitedA
                   (arrived processes (t + d))).
    destruct (queue_slice processes (MLFQ.remainingTime s) (MLFQ.results s)
                t (MLFQ.completed s) (MLFQ.ganttChart s)
                visitedA ((idx :: rest) ++ MLFQ.q1 s ++ MLFQ.q2 s) idx
                (rest ++ MLFQ.q1 s ++ MLFQ.q2 s) d new1
                ((rest ++ new1)
                 ++ (if (MLFQ.remainingTime s !!! idx - d =? 0)
                     then MLFQ.q1 s else MLFQ.q1 s ++ [idx])
                 ++ MLFQ.q2 s))
      as (Hidx & Hrem' & Hcore' & Hready' & Hseen' & Hwork); auto.
    { unfold d. lia. }
    { apply NoDup_newcomers. }
    { intros i Hi. apply newcomers_arrived in Hi. exact Hi. }
    { destruct (Z.eqb_spec (MLFQ.remainingTime s !!! idx - d) 0) as [Hz|Hz].
      - rewrite Hz. simpl. rewrite app_nil_r. solve_Permutation.
      - destruct (Z.ltb_spec 0 (MLFQ.remainingTime s !!! idx - d));
          [|unfold d in *; lia].
        simpl. solve_Permutation. }
    eexists. split; [reflexivity|]. unfold mlfq_finish. mlfq_fields.
    rewrite Hrem'. rewrite Hrem' in Hcore'.
    change (0 =? 2)%nat with false. change (0 =? 0)%nat with true. cbv iota.
    destruct (MLFQ.remainingTime s !!! idx - d =? 0); unfold mlfq_inv;
      mlfq_fields;
      (split; [|exact Hwork]); (split; [exact Hcore'|]); split; assumption.
Qed.

Lemma solveMLFQ_ok localeCompare fuel processes timeQuantum :
  valid_processes processes → 1 ≤ timeQuantum →
  (fuel_bound processes ≤ fuel)%nat →
  ∃ out,
    Plain.solveMLFQ localeCompare fuel processes timeQuantum = Done out
    ∧ schedule_ok processes (Plain.results out) (Plain.ganttChart out).
Proof.
  intros Hv Hq Hfuel. unfold Plain.solveMLFQ.
  destruct (while_loop_total (mlfq_inv processes)
              (fun s => work_left processes (MLFQ.remainingTime s)
                          (MLFQ.currentTime s))
              (mlfq_cond (length processes))
              (Plain.mlfq_body processes timeQuantum)
              (fun s Hs Hc => mlfq_body_inv processes timeQuantum s Hv Hq Hs Hc)
              fuel (mlfq_init processes) (mlfq_inv_init processes Hv))
    as (s & -> & [Hcore _] & Hcond).
  - simpl. rewrite work_left_init. exact Hfuel.
  - eexists. split; [reflexivity|]. simpl.
    apply schedule_ok_sort. apply (core_inv_schedule _ _ _ _ _ _ Hcore).
    apply (core_inv_all_done _ _ _ _ _ _ Hcore).
    unfold mlfq_cond in Hcond. apply bool_decide_eq_false in Hcond. lia.
Qed.

(** ** The dispatch *)

Lemma valid_bursts processes :
  valid_processes processes → Forall (fun p => 1 ≤ burstTime p) processes.
Proof. intros [_ H]. eapply Forall_impl; [exact H|]. simpl. tauto. Qed.

Lemma valid_bursts_nonneg processes :
  valid_processes processes → Forall (fun p => 0 ≤ burstTime p) processes.
Proof. intros [_ H]. eapply Forall_impl; [exact H|]. simpl. lia. Qed.

(** What every policy achieves on an input the specification admits,
    within [fuel_bound] rounds of its loop. *)
Lemma plain_solve_ok localeCompare fuel algorithm processes timeQuantum :
  valid_processes processes → 1 ≤ timeQuantum →
  (fuel_bound processes ≤ fuel)%nat →
  ∃ out,
    (if (algorithm =? "SRTF (Preemptive)")%string
     then pr_solve_reset true Plain.srtf_scan localeCompare fuel processes
     else if (algorithm =? "Priority (Preemptive)")%string
     then pr_solve_reset true priop_scan localeCompare fuel processes
     else Plain.solve localeCompare fuel algorithm processes timeQuantum)
    = Done out
    ∧ schedule_ok processes (Plain.results out) (Plain.ganttChart out)
    ∧ (slicing algorithm = false → chart_alternating (Plain.ganttChart out)).
Proof.
  intros Hv Hq Hfuel.
  assert (Hweaken : ∀ (P : Prop) (o : outcome Plain.SchedulerOutput),
            (∃ out, o = Done out
                    ∧ schedule_ok processes (Plain.results out)
                        (Plain.ganttChart out)
                    ∧ chart_alternating (Plain.ganttChart out)) →
            ∃ out, o = Done out
                   ∧ schedule_ok processes (Plain.results out)
                       (Plain.ganttChart out)
                   ∧ (P → chart_alternating (Plain.ganttChart out))).
  { intros P o (out & ? & ? & ?). exists out. auto. }
  destruct (algorithm =? "SRTF (Preemptive)")%string eqn:E3.
  { apply Hweaken, pr_solve_ok; auto using srtf_scan_ok. }
  destruct (algorithm =? "Priority (Preemptive)")%string eqn:E5.
  { apply Hweaken, pr_solve_ok; auto using priop_scan_ok. }
  unfold Plain.solve, slicing. rewrite E3, E5.
  destruct (algorithm =? "FCFS")%string.
  { by apply Hweaken, solveFCFS_ok. }
  destruct (algorithm =? "SJF (Non-Preemptive)")%string.
  { apply Hweaken, np_solve_ok; auto using sjf_scan_ok. }
  destruct (algorithm =? "Priority (Non-Preemptive)")%string.
  { apply Hweaken, np_solve_ok; auto using prionp_scan_ok. }
  destruct (algorithm =? "Round Robin")%string.
  { destruct (solveRR_ok localeCompare fuel processes timeQuantum Hv Hq Hfuel)
      as (out & ? & ?). exists out. simpl. split; [|split]; auto. discriminate. }
  destruct (algorithm =? "LJF (Non-Preemptive)")%string.
  { apply Hweaken, np_solve_ok; auto.
    intros sorted Hs. by apply ljf_scan_ok, valid_bursts_nonneg. }
  destruct (algorithm =? "LRTF (Preemptive)")%string.
  { apply Hweaken. apply (pr_solve_ok false); auto using lrtf_scan_ok. }
  destruct (algorithm =? "HRRN")%string.
  { apply Hweaken, np_solve_ok; auto.
    intros sorted Hs. by apply hrrn_scan_ok, valid_bursts. }
  destruct (algorithm =? "Multilevel Queue")%string.
  { destruct (solveMLQ_ok localeCompare fuel processes timeQuantum Hv Hq Hfuel)
      as (out & ? & ?). exists out. simpl. split; [|split]; auto. discriminate. }
  destruct (algorithm =? "Multilevel Feedback Queue (MLFQ)")%string.
  { destruct (solveMLFQ_ok localeCompare fuel processes timeQuantum Hv Hq Hfuel)
      as (out & ? & ?). exists out. simpl. split; [|split]; auto. discriminate. }
  by apply Hweaken, solveFCFS_ok.
Qed.

Lemma solve_ok localeCompare toFixed2 fuel algorithm processes timeQuantum :
  valid_processes processes → 1 ≤ timeQuantum →
  (fuel_bound processes ≤ fuel)%nat →
  ∃ out,
    Logged.solve localeCompare toFixed2 fuel algorithm processes timeQuantum
    = Done out
    ∧ schedule_ok processes (Logged.results out) (Logged.ganttChart out)
    ∧ (slicing algorithm = false → chart_alternating (Logged.ganttChart out)).
Proof.
  intros Hv Hq Hfuel.
  destruct (plain_solve_ok localeCompare fuel algorithm processes timeQuantum
              Hv Hq Hfuel) as (pout & Heq & Hok & Halt).
  rewrite <- solve_forget with (toFixed2 := toFixed2) in Heq.
  destruct (Logged.solve _ _ _ _ _ _) as [out| |]; simpl in Heq;
    [|discriminate|discriminate].
  injection Heq as <-. exists out. auto.
Qed.

Lemma chart_ordered_sorted g :
  chart_ordered g → chart_positive g → chart_sorted g.
Proof.
  intros Hord Hpos i j bi bj Hij Hi Hj.
  specialize (Hord i j bi bj Hij Hi Hj).
  unfold chart_positive in Hpos. rewrite Forall_lookup in Hpos.
  specialize (Hpos i bi Hi). simpl in Hpos. lia.
Qed.

Lemma result_ok_complete r : result_ok r → result_complete r.
Proof. unfold result_ok, result_complete. lia. Qed.

Lemma valid_sample : valid_processes sample.
Proof.
  split; [exact ids_ok_sample|].
  repeat (constructor; [simpl; lia|]). constructor.
Qed.

Lemma fuel_bound_sample : (fuel_bound sample ≤ 20)%nat.
Proof. unfold fuel_bound. simpl. lia. Qed.

(** ** The results and the chart of a run *)

(** C1. For every policy identifier, every process list with pairwise
    distinct, non-empty names, arrival times of at least 0 and bursts
    of at least 1, and every quantum of at least 1, [solve] returns
    (within [fuel_bound] rounds of its loop) an output in which every
    result has [turnaroundTime = endTime - arrivalTime],
    [waitingTime = turnaroundTime - burstTime] and [waitingTime >= 0]. *)
Theorem results_consistent localeCompare toFixed2 fuel algorithm processes
    timeQuantum :
  valid_processes processes → 1 ≤ timeQuantum →
  (fuel_bound processes ≤ fuel)%nat →
  ∃ out,
    Logged.solve localeCompare toFixed2 fuel algorithm processes timeQuantum
    = Done out
    ∧ Forall (fun r =>
                turnaroundTime r = endTime r - arrivalTime (process r)
                ∧ waitingTime r = turnaroundTime r - burstTime (process r)
                ∧ 0 ≤ waitingTime r)
        (Logged.results out).
Proof.
  intros Hv Hq Hfuel.
  destruct (solve_ok localeCompare toFixed2 fuel algorithm processes
              timeQuantum Hv Hq Hfuel) as (out & Heq & Hok & _).
  exists out. split; [exact Heq|]. exact (so_results _ _ _ Hok).
Qed.

Lemma results_consistent_witness :
  ∃ out,
    Logged.solve code_order no_digits 20 "Round Robin" sample 2 = Done out
    ∧ Forall (fun r =>
                turnaroundTime r = endTime r - arrivalTime (process r)
                ∧ waitingTime r = turnaroundTime r - burstTime (process r)
                ∧ 0 ≤ waitingTime r)
        (Logged.results out).
Proof.
  apply (results_consistent code_order no_digits 20 "Round Robin" sample 2).
  - exact valid_sample.
  - lia.
  - exact fuel_bound_sample.
Defined.

(** C2. For every policy identifier and every input as in C1, in the
    chart that [solve] returns the durations of the blocks of each
    process add up to its burst, a block ends before every later block
    starts, the start times increase along the chart, and every block
    ends after it starts. *)
Theorem chart_accounts_for_bursts localeCompare toFixed2 fuel algorithm
    processes timeQuantum :
  valid_processes processes → 1 ≤ timeQuantum →
  (fuel_bound processes ≤ fuel)%nat →
  ∃ out,
    Logged.solve localeCompare toFixed2 fuel algorithm processes timeQuantum
    = Done out
    ∧ (∀ p, p ∈ processes → busy (id p) (Logged.ganttChart out) = burstTime p)
    ∧ chart_ordered (Logged.ganttChart out)
    ∧ chart_sorted (Logged.ganttChart out)
    ∧ chart_positive (Logged.ganttChart out).
Proof.
  intros Hv Hq Hfuel.
  destruct (solve_ok localeCompare toFixed2 fuel algorithm processes
              timeQuantum Hv Hq Hfuel) as (out & Heq & Hok & _).
  exists out. split; [exact Heq|].
  split; [exact (so_busy _ _ _ Hok)|].
  split; [exact (so_ordered _ _ _ Hok)|].
  split; [|exact (so_positive _ _ _ Hok)].
  apply chart_ordered_sorted; [exact (so_ordered _ _ _ Hok)|].
  exact (so_positive _ _ _ Hok).
Qed.

Lemma chart_accounts_for_bursts_witness :
  ∃ out,
    Logged.solve code_order no_digits 20 "Multilevel Feedback Queue (MLFQ)"
      sample 2 = Done out
    ∧ (∀ p, p ∈ sample → busy (id p) (Logged.ganttChart out) = burstTime p)
    ∧ chart_ordered (Logged.ganttChart out)
    ∧ chart_sorted (Logged.ganttChart out)
    ∧ chart_positive (Logged.ganttChart out).
Proof.
  apply (chart_accounts_for_bursts code_order no_digits 20
           "Multilevel Feedback Queue (MLFQ)" sample 2).
  - exact valid_sample.
  - lia.
  - exact fuel_bound_sample.
Defined.

(** ** Termination *)

Lemma outcome_map_out_of_fuel {A B} (f : A → B) (o : outcome A) :
  outcome_map f o = OutOfFuel → o = OutOfFuel.
Proof. destruct o; simpl; congruence. Qed.

(** ** Merging *)

Lemma valid_lone : valid_processes lone.
Proof.
  split; [split|].
  - simpl. constructor; [apply not_elem_of_nil|constructor].
  - repeat constructor. discriminate.
  - repeat constructor; simpl; lia.
Qed.

(** C6, as stated, fails. Round Robin, the Multilevel Queue and the
    Multilevel Feedback Queue push one block for each slice: a process
    that runs two slices in a row has two blocks that touch. *)
Lemma slices_not_merged :
  valid_processes lone
  ∧ outcome_map Logged.ganttChart
      (Logged.solve code_order no_digits 3 "Round Robin" lone 2)
    = Done [ mkBlock "A" 0 2; mkBlock "A" 2 3 ]
  ∧ outcome_map Logged.ganttChart
      (Logged.solve code_order no_digits 3 "Multilevel Queue" lone 2)
    = Done [ mkBlock "A" 0 2; mkBlock "A" 2 3 ]
  ∧ outcome_map Logged.ganttChart
      (Logged.solve code_order no_digits 3 "Multilevel Feedback Queue (MLFQ)"
         lone 2)
    = Done [ mkBlock "A" 0 2; mkBlock "A" 2 3 ]
  ∧ ¬ chart_merged [ mkBlock "A" 0 2; mkBlock "A" 2 3 ].
Proof.
  split; [exact valid_lone|]. do 3 (split; [reflexivity|]).
  intros Hm. apply (Hm 0%nat (mkBlock "A" 0 2) (mkBlock "A" 2 3)); auto.
Qed.

(** ** The selection rules *)

Lemma least_step_selects processes cand key :
  selects (length processes) cand (precedes processes key)
    (fst <$> for_loop (length processes) (least_step processes cand key)
               (Some (None, Inf))).
Proof.
  pose (P := fun (k : nat) (acc : option (option nat * bound)) =>
    ∃ idx b, acc = Some (idx, b)
      ∧ match idx with
        | Some i => (i < k)%nat ∧ cand i = true ∧ b = Fin (key i)
                    ∧ ∀ j, (j < k)%nat → cand j = true →
                           precedes processes key i j
        | None => b = Inf ∧ ∀ j, (j < k)%nat → cand j = false
        end).
  assert (HP : P (length processes)
                 (for_loop (length processes) (least_step processes cand key)
                    (Some (None, Inf)))).
  { apply for_loop_ind.
    - exists None, Inf. split; [reflexivity|]. split; [reflexivity|]. lia.
    - intros k x Hk (idx & b & -> & Hinv). unfold least_step. simpl.
      destruct (cand k) eqn:Hc.
      + destruct idx as [i|].
        * destruct Hinv as (Hi & Hci & -> & Hbest). cbn [lt_bound eq_bound].
          destruct (Z.ltb_spec (key k) (key i)) as [Hlt|Hge].
          { exists (Some k), (Fin (key k)). split; [reflexivity|].
            split; [lia|]. split; [exact Hc|]. split; [reflexivity|].
            intros j Hj Hcj. unfold precedes.
            destruct (decide (j = k)) as [->|Hne]; [lia|].
            specialize (Hbest j ltac:(lia) Hcj). unfold precedes in Hbest.
            lia. }
          destruct (Z.eqb_spec (key k) (key i)) as [Heq|Hne].
          { rewrite arrival_at_Some by lia. simpl.
            destruct (Z.ltb_spec (arrivalTime (processes !!! k))
                        (arrivalTime (processes !!! i))) as [Ha|Ha].
            - exists (Some k), (Fin (key i)). split; [reflexivity|].
              split; [lia|]. split; [exact Hc|].
              split; [by rewrite Heq|].
              intros j Hj Hcj. unfold precedes.
              destruct (decide (j = k)) as [->|Hne]; [lia|].
              specialize (Hbest j ltac:(lia) Hcj). unfold precedes in Hbest.
              lia.
            - exists (Some i), (Fin (key i)). split; [reflexivity|].
              split; [lia|]. split; [exact Hci|]. split; [reflexivity|].
              intros j Hj Hcj. unfold precedes.
              destruct (decide (j = k)) as [->|Hne']; [lia|].
              specialize (Hbest j ltac:(lia) Hcj). unfold precedes in Hbest.
              lia. }
          exists (Some i), (Fin (key i)). split; [reflexivity|].
          split; [lia|]. split; [exact Hci|]. split; [reflexivity|].
          intros j Hj Hcj. unfold precedes.
          destruct (decide (j = k)) as [->|Hne']; [lia|].
          specialize (Hbest j ltac:(lia) Hcj). unfold precedes in Hbest. lia.
        * destruct Hinv as (-> & Hnone). simpl.
          exists (Some k), (Fin (key k)). split; [reflexivity|].
          split; [lia|]. split; [exact Hc|]. split; [reflexivity|].
          intros j Hj Hcj. unfold precedes.
          destruct (decide (j = k)) as [->|Hne]; [lia|].
          specialize (Hnone j ltac:(lia)). congruence.
      + exists idx, b. split; [reflexivity|]. destruct idx as [i|].
        * destruct Hinv as (Hi & Hci & -> & Hbest).
          split; [lia|]. split; [exact Hci|]. split; [reflexivity|].
          intros j Hj Hcj.
          destruct (decide (j = k)) as [->|Hne]; [congruence|].
          apply Hbest; [lia|exact Hcj].
        * destruct Hinv as (-> & Hnone). split; [reflexivity|].
          intros j Hj.
          destruct (decide (j = k)) as [->|Hne]; [exact Hc|].
          apply Hnone. lia. }
  destruct HP as (idx & b & -> & Hinv). simpl. destruct idx as [i|].
  - destruct Hinv as (Hi & Hci & _ & Hbest). auto.
  - apply Hinv.
Qed.

Lemma greatest_step_selects processes cand key :
  (∀ i, (i < length processes)%nat → cand i = true → -1 < key i) →
  selects (length processes) cand (precedes processes (fun i => - key i))
    (fst <$> for_loop (length processes) (greatest_step processes cand key)
               (Some (None, -1))).
Proof.
  intros Hkey.
  pose (P := fun (k : nat) (acc : option (option nat * Z)) =>
    ∃ idx b, acc = Some (idx, b)
      ∧ match idx with
        | Some i => (i < k)%nat ∧ cand i = true ∧ b = key i
                    ∧ ∀ j, (j < k)%nat → cand j = true →
                           precedes processes (fun i => - key i) i j
        | None => b = -1 ∧ ∀ j, (j < k)%nat → cand j = false
        end).
  assert (HP : P (length processes)
                 (for_loop (length processes)
                    (greatest_step processes cand key) (Some (None, -1)))).
  { apply for_loop_ind.
    - exists None, (-1). split; [reflexivity|]. split; [reflexivity|]. lia.
    - intros k x Hk (idx & b & -> & Hinv). unfold greatest_step. simpl.
      destruct (cand k) eqn:Hc.
      + pose proof (Hkey k Hk Hc) as Hpos. destruct idx as [i|].
        * destruct Hinv as (Hi & Hci & -> & Hbest).
          destruct (Z.ltb_spec (key i) (key k)) as [Hlt|Hge].
          { exists (Some k), (key k). split; [reflexivity|].
            split; [lia|]. split; [exact Hc|]. split; [reflexivity|].
            intros j Hj Hcj. unfold precedes.
            destruct (decide (j = k)) as [->|Hne]; [lia|].
            specialize (Hbest j ltac:(lia) Hcj). unfold precedes in Hbest.
            lia. }
          destruct (Z.eqb_spec (key k) (key i)) as [Heq|Hne].
          { rewrite arrival_at_Some by lia. simpl.
            destruct (Z.ltb_spec (arrivalTime (processes !!! k))
                        (arrivalTime (processes !!! i))) as [Ha|Ha].
            - exists (Some k), (key i). split; [reflexivity|].
              split; [lia|]. split; [exact Hc|]. split; [by rewrite Heq|].
              intros j Hj Hcj. unfold precedes.
              destruct (decide (j = k)) as [->|Hne]; [lia|].
              specialize (Hbest j ltac:(lia) Hcj). unfold precedes in Hbest.
              lia.
            - exists (Some i), (key i). split; [reflexivity|].
              split; [lia|]. split; [exact Hci|]. split; [reflexivity|].
              intros j Hj Hcj. unfold precedes.
              destruct (decide (j = k)) as [->|Hne']; [lia|].
              specialize (Hbest j ltac:(lia) Hcj). unfold precedes in Hbest.
              lia. }
          exists (Some i), (key i). split; [reflexivity|].
          split; [lia|]. split; [exact Hci|]. split; [reflexivity|].
          intros j Hj Hcj. unfold precedes.
          destruct (decide (j = k)) as [->|Hne']; [lia|].
          specialize (Hbest j ltac:(lia) Hcj). unfold precedes in Hbest. lia.
        * destruct Hinv as (-> & Hnone).
          destruct (Z.ltb_spec (-1) (key k)) as [_|?]; [|lia].
          exists (Some k), (key k). split; [reflexivity|].
          split; [lia|]. split; [exact Hc|]. split; [reflexivity|].
          intros j Hj Hcj. unfold precedes.
          destruct (decide (j = k)) as [->|Hne]; [lia|].
          specialize (Hnone j ltac:(lia)). congruence.
      + exists idx, b. split; [reflexivity|]. destruct idx as [i|].
        * destruct Hinv as (Hi & Hci & -> & Hbest).
          split; [lia|]. split; [exact Hci|]. split; [reflexivity|].
          intros j Hj Hcj.
          destruct (decide (j = k)) as [->|Hne]; [congruence|].
          apply Hbest; [lia|exact Hcj].
        * destruct Hinv as (-> & Hnone). split; [reflexivity|].
          intros j Hj.
          destruct (decide (j = k)) as [->|Hne]; [exact Hc|].
          apply Hnone. lia. }
  destruct HP as (idx & b & -> & Hinv). simpl. destruct idx as [i|].
  - destruct Hinv as (Hi & Hci & _ & Hbest). auto.
  - apply Hinv.
Qed.

(** X1. SJF runs the arrived, uncompleted process with the least burst;
    among equal bursts the one that arrived first, and among those the
    first of the sorted list. If there is none it idles. The scan
    (the [for] loop of [solveSJF], in both modules) never throws. *)
Theorem sjf_selection sorted isCompleted currentTime :
  selects (length sorted) (waiting sorted isCompleted currentTime)
    (precedes sorted (fun i => burstTime (sorted !!! i)))
    (Plain.sjf_scan sorted isCompleted currentTime)
  ∧ selects (length sorted) (waiting sorted isCompleted currentTime)
      (precedes sorted (fun i => burstTime (sorted !!! i)))
      (fst <$> Logged.sjf_scan sorted isCompleted currentTime).
Proof.
  rewrite sjf_scan_fst.
  assert (H : selects (length sorted) (waiting sorted isCompleted currentTime)
                (precedes sorted (fun i => burstTime (sorted !!! i)))
                (Plain.sjf_scan sorted isCompleted currentTime))
    by apply (least_step_selects sorted (waiting sorted isCompleted currentTime)
                (fun i => burstTime (sorted !!! i))).
  split; exact H.
Qed.

(** X2. The non-preemptive priority policy runs the arrived, uncompleted
    process with the least priority number; among equal priorities
    the one that arrived first, and among those the first of the
    sorted list. *)
Theorem prionp_selection sorted isCompleted currentTime :
  selects (length sorted) (waiting sorted isCompleted currentTime)
    (precedes sorted (fun i => priority (sorted !!! i)))
    (Plain.prionp_scan sorted isCompleted currentTime)
  ∧ selects (length sorted) (waiting sorted isCompleted currentTime)
      (precedes sorted (fun i => priority (sorted !!! i)))
      (fst <$> Logged.prionp_scan sorted isCompleted currentTime).
Proof.
  rewrite prionp_scan_fst.
  assert (H : selects (length sorted) (waiting sorted isCompleted currentTime)
                (precedes sorted (fun i => priority (sorted !!! i)))
                (Plain.prionp_scan sorted isCompleted currentTime))
    by apply (least_step_selects sorted (waiting sorted isCompleted currentTime)
                (fun i => priority (sorted !!! i))).
  split; exact H.
Qed.

(** X3. SRTF gives the next unit of time to the arrived process with the
    least remaining time (more than 0); among equal remaining times
    to the one that arrived first, and among those to the first of
    the list. *)
Theorem srtf_selection processes remainingTime currentTime :
  selects (length processes) (runnable processes remainingTime currentTime)
    (precedes processes (fun i => remainingTime !!! i))
    (Plain.srtf_scan processes remainingTime currentTime)
  ∧ selects (length processes) (runnable processes remainingTime currentTime)
      (precedes processes (fun i => remainingTime !!! i))
      (fst <$> Logged.srtf_scan processes remainingTime currentTime).
Proof.
  rewrite srtf_scan_fst.
  assert (H : selects (length processes)
                (runnable processes remainingTime currentTime)
                (precedes processes (fun i => remainingTime !!! i))
                (Plain.srtf_scan processes remainingTime currentTime))
    by apply (least_step_selects processes
                (runnable processes remainingTime currentTime)
                (fun i => remainingTime !!! i)).
  split; exact H.
Qed.

(** X4. The preemptive priority policy gives the next unit of time to the
    arrived, unfinished process with the least priority number; among
    equal priorities to the one that arrived first, and among those
    to the first of the list. *)
Theorem priop_selection processes remainingTime currentTime :
  selects (length processes) (runnable processes remainingTime currentTime)
    (precedes processes (fun i => priority (processes !!! i)))
    (priop_scan processes remainingTime currentTime).
Proof.
  apply (least_step_selects processes
           (runnable processes remainingTime currentTime)
           (fun i => priority (processes !!! i))).
Qed.

(** X5. LRTF gives the next unit of time to the arrived process with the
    greatest remaining time; among equal remaining times to the one
    that arrived first, and among those to the first of the list. *)
Theorem lrtf_selection processes remainingTime currentTime :
  selects (length processes) (runnable processes remainingTime currentTime)
    (precedes processes (fun i => - remainingTime !!! i))
    (lrtf_scan processes remainingTime currentTime).
Proof.
  apply (greatest_step_selects processes
           (runnable processes remainingTime currentTime)
           (fun i => remainingTime !!! i)).
  intros i _ Hc. unfold runnable in Hc. apply andb_true_iff in Hc as [_ Hr].
  apply Z.ltb_lt in Hr. lia.
Qed.

(** X6. LJF runs the arrived, uncompleted process with the greatest
    burst; among equal bursts the one that arrived first, and among
    those the first of the sorted list. The running maximum starts at
    -1, so the bursts must not be negative. *)
Theorem ljf_selection sorted isCompleted currentTime :
  Forall (fun p => 0 ≤ burstTime p) sorted →
  selects (length sorted) (waiting sorted isCompleted currentTime)
    (precedes sorted (fun i => - burstTime (sorted !!! i)))
    (Plain.ljf_scan sorted isCompleted currentTime)
  ∧ selects (length sorted) (waiting sorted isCompleted currentTime)
      (precedes sorted (fun i => - burstTime (sorted !!! i)))
      (fst <$> Logged.ljf_scan sorted isCompleted currentTime).
Proof.
  intros Hb. rewrite ljf_scan_fst.
  assert (H : selects (length sorted) (waiting sorted isCompleted currentTime)
                (precedes sorted (fun i => - burstTime (sorted !!! i)))
                (Plain.ljf_scan sorted isCompleted currentTime)).
  { apply (greatest_step_selects sorted
             (waiting sorted isCompleted currentTime)
             (fun i => burstTime (sorted !!! i))).
    intros i Hi _. rewrite Forall_lookup in Hb.
    specialize (Hb i _ (list_lookup_lookup_total_lt sorted i Hi)).
    simpl in Hb. lia. }
  split; exact H.
Qed.

Lemma ljf_selection_witness :
  selects (length sample) (waiting sample [false; true; false; false] 7)
    (precedes sample (fun i => - burstTime (sample !!! i)))
    (Plain.ljf_scan sample [false; true; false; false] 7)
  ∧ selects (length sample) (waiting sample [false; true; false; false] 7)
      (precedes sample (fun i => - burstTime (sample !!! i)))
      (fst <$> Logged.ljf_scan sample [false; true; false; false] 7).
Proof.
  apply (ljf_selection sample [false; true; false; false] 7).
  repeat (constructor; [simpl; lia|]). constructor.
Defined.

Lemma js_div_pos (a b : Z) : 1 ≤ b → js_div a b = Rat (a # Z.to_pos b).
Proof. intros Hb. destruct b as [|p|p]; try lia. reflexivity. Qed.

(** X7. HRRN runs the arrived, uncompleted process with the greatest
    response ratio [(waiting + burst) / burst]; among equal ratios the
    first of the sorted list (there is no tie-break on arrival). The
    bursts must be at least 1. *)
Theorem hrrn_selection toFixed2 sorted isCompleted currentTime :
  Forall (fun p => 1 ≤ burstTime p) sorted →
  selects (length sorted) (waiting sorted isCompleted currentTime)
    (higher_ratio sorted currentTime)
    (Plain.hrrn_scan sorted isCompleted currentTime)
  ∧ selects (length sorted) (waiting sorted isCompleted currentTime)
      (higher_ratio sorted currentTime)
      (fst <$> Logged.hrrn_scan toFixed2 sorted isCompleted currentTime).
Proof.
  intros Hb. rewrite hrrn_scan_fst.
  cut (selects (length sorted) (waiting sorted isCompleted currentTime)
         (higher_ratio sorted currentTime)
         (Plain.hrrn_scan sorted isCompleted currentTime)); [tauto|].
  assert (Hburst : ∀ i, (i < length sorted)%nat → 1 ≤ burstTime (sorted !!! i)).
  { intros i Hi. rewrite Forall_lookup in Hb.
    apply (Hb i _ (list_lookup_lookup_total_lt sorted i Hi)). }
  pose (cand := waiting sorted isCompleted currentTime).
  pose (rq := fun i : nat =>
          (currentTime - arrivalTime (sorted !!! i) + burstTime (sorted !!! i))
          # Z.to_pos (burstTime (sorted !!! i))).
  pose (P := fun (k : nat) (acc : option nat * jsnum) =>
    match fst acc with
    | Some i => (i < k)%nat ∧ cand i = true ∧ snd acc = Rat (rq i)
                ∧ ∀ j, (j < k)%nat → cand j = true →
                       (rq j < rq i)%Q ∨ ((rq j == rq i)%Q ∧ (i ≤ j)%nat)
    | None => snd acc = Rat (-1) ∧ ∀ j, (j < k)%nat → cand j = false
    end).
  assert (HP : P (length sorted)
                 (for_loop (length sorted)
                    (Plain.hrrn_scan_step sorted isCompleted currentTime)
                    (None, Rat (-1)))).
  { apply for_loop_ind.
    - split; [reflexivity|]. lia.
    - intros k [idx b] Hk Hinv. unfold P in *. simpl in Hinv.
      unfold Plain.hrrn_scan_step.
      change ((arrivalTime (sorted !!! k) <=? currentTime)
              && negb (is_set isCompleted k)) with (cand k).
      destruct (cand k) eqn:Hc.
      + rewrite js_div_pos by (by apply Hburst). fold (rq k).
        destruct idx as [i|].
        * destruct Hinv as (Hi & Hci & -> & Hbest). simpl.
          destruct (Qle_bool (rq k) (rq i)) eqn:Hle; simpl.
          -- apply Qle_bool_iff in Hle.
             split; [lia|]. split; [exact Hci|]. split; [reflexivity|].
             intros j Hj Hcj.
             destruct (decide (j = k)) as [->|Hne].
             ++ apply Qle_lt_or_eq in Hle as [Hlt|Heq]; [auto|].
                right. split; [exact Heq|lia].
             ++ apply Hbest; [lia|exact Hcj].
          -- assert (Hlt : (rq i < rq k)%Q).
             { apply Qnot_le_lt. intros H. apply Qle_bool_iff in H. congruence. }
             split; [lia|]. split; [exact Hc|]. split; [reflexivity|].
             intros j Hj Hcj.
             destruct (decide (j = k)) as [->|Hne].
             ++ right. split; [reflexivity|lia].
             ++ left. destruct (Hbest j ltac:(lia) Hcj) as [Hji|[Hji _]].
                ** by apply (Qlt_trans _ (rq i)).
                ** by rewrite Hji.
        * destruct Hinv as (Hb0 & Hnone). simpl in Hb0. subst b.
          assert (Hgt : js_gt (Rat (rq k)) (Rat (-1)) = true).
          { unfold rq. rewrite <- js_div_pos by (by apply Hburst).
            apply js_gt_ratio_start; [|by apply Hburst].
            unfold cand, waiting in Hc. apply andb_true_iff in Hc as [Ha _].
            lia. }
          rewrite Hgt. simpl.
          split; [lia|]. split; [exact Hc|]. split; [reflexivity|].
          intros j Hj Hcj.
          destruct (decide (j = k)) as [->|Hne].
          -- right. split; [reflexivity|lia].
          -- specialize (Hnone j ltac:(lia)). congruence.
      + simpl. destruct idx as [i|].
        * destruct Hinv as (Hi & Hci & Hbi & Hbest).
          split; [lia|]. split; [exact Hci|]. split; [exact Hbi|].
          intros j Hj Hcj.
          destruct (decide (j = k)) as [->|Hne]; [congruence|].
          apply Hbest; [lia|exact Hcj].
        * destruct Hinv as (Hb0 & Hnone). split; [exact Hb0|].
          intros j Hj.
          destruct (decide (j = k)) as [->|Hne]; [exact Hc|].
          apply Hnone. lia. }
  unfold Plain.hrrn_scan, P in *.
  destruct (for_loop _ _ _) as [idx b]. simpl in *. destruct idx as [i|].
  - destruct HP as (Hi & Hci & _ & Hbest).
    split; [exact Hi|]. split; [exact Hci|].
    intros j Hj Hcj. unfold higher_ratio.
    pose proof (Hburst i Hi) as Hbi. pose proof (Hburst j Hj) as Hbj.
    destruct (Hbest j Hj Hcj) as [Hlt|[Heq Hij]].
    + left. unfold Qlt, rq in Hlt. simpl in Hlt.
      rewrite !Z2Pos.id in Hlt by lia. exact Hlt.
    + right. split; [|exact Hij]. unfold Qeq, rq in Heq. simpl in Heq.
      rewrite !Z2Pos.id in Heq by lia. exact Heq.
  - apply HP.
Qed.

Lemma hrrn_selection_witness :
  selects (length sample) (waiting sample [true; false; false; false] 5)
    (higher_ratio sample 5)
    (Plain.hrrn_scan sample [true; false; false; false] 5)
  ∧ selects (length sample) (waiting sample [true; false; false; false] 5)
      (higher_ratio sample 5)
      (fst <$> Logged.hrrn_scan no_digits sample
                 [true; false; false; false] 5).
Proof.
  apply (hrrn_selection no_digits sample [true; false; false; false] 5).
  repeat (constructor; [simpl; lia|]). constructor.
Defined.

(** ** Start and end times *)

Lemma while_loop_total_with {S} (Inv Extra : S → Prop) (mu : S → nat)
    (cond : S → bool) (body : S → flow S) :
  (∀ s, Inv s → cond s = true →
     ∃ s', body s = Next s' ∧ Inv s' ∧ (mu s' < mu s)%nat) →
  (∀ s s', Inv s → cond s = true → Extra s → body s = Next s' → Extra s') →
  ∀ fuel s, Inv s → Extra s → (mu s ≤ fuel)%nat →
    ∃ s', while_loop fuel cond body s = Done s' ∧ Inv s' ∧ Extra s'
          ∧ cond s' = false.
Proof.
  intros Hstep Hextra fuel s HI HE Hmu.
  destruct (while_loop_total (fun s => Inv s ∧ Extra s) mu cond body)
    with (fuel := fuel) (s := s) as (s' & Heq & [HI' HE'] & Hc); auto.
  - intros s0 [HI0 HE0] Hc0.
    destruct (Hstep s0 HI0 Hc0) as (s1 & Hb & HI1 & Hlt).
    exists s1. split; [exact Hb|]. split; [|exact Hlt].
    split; [exact HI1|]. by apply (Hextra s0).
  - exists s'. auto.
Qed.

Lemma sumZ_le (l l' : list Z) :
  length l = length l' →
  (∀ i, (i < length l)%nat → l !!! i ≤ l' !!! i) → sumZ l ≤ sumZ l'.
Proof.
  revert l'. induction l as [|x l IH]; intros [|y l'] Hlen Hle;
    simpl in *; try lia.
  unfold sumZ in *. simpl.
  pose proof (Hle 0%nat ltac:(lia)) as H0. simpl in H0.
  assert (foldr Z.add 0 l ≤ foldr Z.add 0 l'); [|lia].
  apply IH; [lia|]. intros i Hi. apply (Hle (S i)). lia.
Qed.

Lemma sumZ_rem_le processes rem results t completed g :
  core_inv processes rem results t completed g →
  0 ≤ sumZ rem ≤ sumZ (map burstTime processes).
Proof.
  intros Hcore. pose proof (ci_length _ _ _ _ _ _ Hcore) as Hlen. split.
  - apply sumZ_nonneg. intros i Hi. apply (ci_range _ _ _ _ _ _ Hcore). lia.
  - apply sumZ_le; [by rewrite length_map|]. intros i Hi.
    rewrite lookup_total_map by lia. apply (ci_range _ _ _ _ _ _ Hcore). lia.
Qed.

Lemma lookup_mark_start idx t results (i : nat) :
  (idx < length results)%nat →
  mark_start idx t results !!! i
  = if decide (i = idx)
    then (if startTime (results !!! idx) =? -1
          then mkResult (process (results !!! idx)) t
                 (endTime (results !!! idx))
                 (turnaroundTime (results !!! idx))
                 (waitingTime (results !!! idx))
          else results !!! idx)
    else results !!! i.
Proof.
  intros Hidx. unfold mark_start.
  destruct (decide (i = idx)) as [->|Hne].
  - destruct (_ =? _); [|reflexivity].
    by rewrite list_lookup_total_insert_eq.
  - destruct (_ =? _); [|reflexivity].
    by rewrite list_lookup_total_insert_ne.
Qed.

Lemma lookup_finalize idx t results (i : nat) :
  (idx < length results)%nat →
  finalize idx t results !!! i
  = if decide (i = idx)
    then mkResult (process (results !!! idx)) (startTime (results !!! idx)) t
           (t - arrivalTime (process (results !!! idx)))
           (t - arrivalTime (process (results !!! idx))
            - burstTime (process (results !!! idx)))
    else results !!! i.
Proof.
  intros Hidx. unfold finalize.
  destruct (decide (i = idx)) as [->|Hne].
  - by rewrite list_lookup_total_insert_eq.
  - by rewrite list_lookup_total_insert_ne.
Qed.

Lemma length_mark_start idx t results :
  length (mark_start idx t results) = length results.
Proof. unfold mark_start. destruct (_ =? _); by rewrite ?length_insert. Qed.

Lemma time_inv_init processes :
  valid_processes processes →
  time_inv processes (map burstTime processes) (init_results processes) 0.
Proof.
  intros Hv. constructor.
  - intros i Hi _. by rewrite lookup_total_init_results.
  - intros i Hi Hlt. rewrite lookup_total_map in Hlt by exact Hi. lia.
  - intros i Hi Hz. rewrite lookup_total_map in Hz by exact Hi.
    destruct (burst_pos _ i Hv Hi). lia.
  - pose proof (max_arrival_nonneg processes). lia.
Qed.

(** The clock advances while nothing runs, no further than the latest
    arrival. *)
Lemma time_inv_later processes rem results t t' completed g :
  core_inv processes rem results t completed g →
  time_inv processes rem results t →
  t ≤ t' → t' ≤ Z.max t (max_arrival processes) →
  time_inv processes rem results t'.
Proof.
  intros Hcore [Hfresh Hstarted Hended Hspan] Hle Hmax.
  pose proof (sumZ_rem_le _ _ _ _ _ _ Hcore) as Hsum. constructor.
  - exact Hfresh.
  - intros i Hi Hlt. specialize (Hstarted i Hi Hlt). lia.
  - intros i Hi Hz. specialize (Hended i Hi Hz). lia.
  - lia.
Qed.

(** A process that has arrived runs for [d] units from [t]. *)
Lemma time_inv_run processes rem results t completed g idx d :
  valid_processes processes →
  core_inv processes rem results t completed g →
  time_inv processes rem results t →
  (idx < length processes)%nat →
  arrivalTime (processes !!! idx) ≤ t →
  1 ≤ d ≤ rem !!! idx →
  let rem' := <[idx := (rem !!! idx - d)%Z]> rem in
  time_inv processes rem'
    (if rem' !!! idx =? 0
     then finalize idx (t + d) (mark_start idx t results)
     else mark_start idx t results)
    (t + d).
Proof.
  intros Hv Hcore [Hfresh Hstarted Hended Hspan] Hidx Harr Hd rem'.
  pose proof (ci_length _ _ _ _ _ _ Hcore) as Hlen.
  pose proof (length_map_process _ _ (ci_results _ _ _ _ _ _ Hcore)) as Hlenr.
  pose proof (ci_range _ _ _ _ _ _ Hcore idx Hidx) as Hr.
  destruct (burst_pos _ idx Hv Hidx) as [Ha Hb].
  assert (Hrem_idx : rem' !!! idx = rem !!! idx - d).
  { unfold rem'. rewrite list_lookup_total_insert_eq; [reflexivity|lia]. }
  assert (Hrem_ne : ∀ i, i ≠ idx → rem' !!! i = rem !!! i).
  { intros i Hne. unfold rem'. by rewrite list_lookup_total_insert_ne. }
  assert (Hstart : startTime (mark_start idx t results !!! idx)
                   = if decide (rem !!! idx = burstTime (processes !!! idx))
                     then t else startTime (results !!! idx)).
  { rewrite lookup_mark_start by lia. rewrite decide_True by reflexivity.
    destruct (decide (rem !!! idx = burstTime (processes !!! idx))) as [He|He].
    - rewrite (Hfresh idx Hidx He). reflexivity.
    - destruct (Hstarted idx Hidx ltac:(lia)) as [Hs _].
      destruct (Z.eqb_spec (startTime (results !!! idx)) (-1)); [lia|].
      reflexivity. }
  assert (Hend : endTime (mark_start idx t results !!! idx)
                 = endTime (results !!! idx)).
  { rewrite lookup_mark_start by lia. rewrite decide_True by reflexivity.
    destruct (_ =? _); reflexivity. }
  assert (Hother : ∀ i, i ≠ idx →
            (if rem' !!! idx =? 0
             then finalize idx (t + d) (mark_start idx t results)
             else mark_start idx t results) !!! i = results !!! i).
  { intros i Hne. destruct (_ =? 0).
    - rewrite lookup_finalize by (rewrite length_mark_start; lia).
      rewrite decide_False by exact Hne.
      rewrite lookup_mark_start by lia. by rewrite decide_False.
    - rewrite lookup_mark_start by lia. by rewrite decide_False. }
  assert (Hsame : startTime
            ((if rem' !!! idx =? 0
              then finalize idx (t + d) (mark_start idx t results)
              else mark_start idx t results) !!! idx)
            = startTime (mark_start idx t results !!! idx)).
  { destruct (_ =? 0); [|reflexivity].
    rewrite lookup_finalize by (rewrite length_mark_start; lia).
    by rewrite decide_True. }
  constructor.
  - intros i Hi He. destruct (decide (i = idx)) as [->|Hne].
    + rewrite Hrem_idx in He. lia.
    + rewrite Hother by exact Hne. rewrite Hrem_ne in He by exact Hne.
      by apply Hfresh.
  - intros i Hi Hlt. destruct (decide (i = idx)) as [->|Hne].
    + rewrite Hsame, Hstart, Hrem_idx.
      destruct (decide (rem !!! idx = burstTime (processes !!! idx)))
        as [He|He]; [lia|].
      destruct (Hstarted idx Hidx ltac:(lia)). lia.
    + rewrite Hother by exact Hne. rewrite Hrem_ne in * by exact Hne.
      specialize (Hstarted i Hi Hlt). lia.
  - intros i Hi Hz. destruct (decide (i = idx)) as [->|Hne].
    + rewrite Hz. simpl.
      rewrite lookup_finalize by (rewrite length_mark_start; lia).
      rewrite decide_True by reflexivity. simpl. rewrite Hstart.
      rewrite Hrem_idx in Hz.
      destruct (decide (rem !!! idx = burstTime (processes !!! idx)))
        as [He|He]; [lia|].
      destruct (Hstarted idx Hidx ltac:(lia)). lia.
    + rewrite Hother by exact Hne. rewrite Hrem_ne in Hz by exact Hne.
      specialize (Hended i Hi Hz). lia.
  - unfold rem'. rewrite sumZ_insert by lia. lia.
Qed.

(** At the end of a run the times of every result are sound. *)
Lemma time_inv_final processes rem results t completed g :
  valid_processes processes →
  core_inv processes rem results t completed g →
  time_inv processes rem results t →
  (∀ i, (i < length processes)%nat → rem !!! i = 0) →
  Forall (result_timed (deadline processes)) results.
Proof.
  intros Hv Hcore [Hfresh Hstarted Hended Hspan] Hzero.
  pose proof (sumZ_rem_le _ _ _ _ _ _ Hcore) as Hsum.
  apply Forall_lookup. intros i r Hi.
  rewrite <- (list_lookup_total_correct _ _ _ Hi).
  assert (i < length processes)%nat as Hlt.
  { rewrite <- (length_map_process _ _ (ci_results _ _ _ _ _ _ Hcore)).
    by apply lookup_lt_Some in Hi. }
  destruct (burst_pos _ i Hv Hlt) as [Ha Hb].
  pose proof (Hzero i Hlt) as Hz.
  destruct (Hstarted i Hlt ltac:(lia)) as [Hs _].
  destruct (Hended i Hlt Hz) as [He Ht].
  unfold result_timed, deadline.
  rewrite (process_lookup _ _ _ (ci_results _ _ _ _ _ _ Hcore) Hlt). lia.
Qed.

Lemma result_timed_sort deadline results
    (cmp : ProcessResult → ProcessResult → Z) :
  Forall (result_timed deadline) results →
  Forall (result_timed deadline) (js_sort cmp results).
Proof. intros H. by rewrite js_sort_perm. Qed.

Lemma time_inv_slice processes rem results t completed g idx d :
  valid_processes processes →
  core_inv processes rem results t completed g →
  time_inv processes rem results t →
  (idx < length processes)%nat →
  arrivalTime (processes !!! idx) ≤ t →
  1 ≤ d ≤ rem !!! idx →
  let rem' := <[idx := (rem !!! idx - d)%Z]> rem in
  time_inv processes rem'
    (if rem' !!! idx =? 0
     then finalize_from processes idx (t + d) (mark_start idx t results)
     else mark_start idx t results)
    (t + d).
Proof.
  intros Hv Hcore Htime Hidx Harr Hd rem'.
  rewrite finalize_from_eq; [|rewrite map_process_mark_start;
                              apply (ci_results _ _ _ _ _ _ Hcore)|exact Hidx].
  by apply (time_inv_run processes rem results t completed g idx d).
Qed.

Lemma pr_body_time reset scan processes s s' :
  valid_processes processes → pr_scan_ok scan processes →
  pr_inv processes s → pr_cond (length processes) s = true →
  time_inv processes (PR.remainingTime s) (PR.results s) (PR.currentTime s) →
  pr_body reset scan processes s = Next s' →
  time_inv processes (PR.remainingTime s') (PR.results s') (PR.currentTime s').
Proof.
  intros Hv Hscan [Hcore _] Hcond Htime.
  destruct s as [rem res t c g last]. simpl in *.
  unfold pr_cond in Hcond. apply bool_decide_eq_true in Hcond. simpl in Hcond.
  unfold pr_body. simpl. specialize (Hscan rem t).
  destruct (scan processes rem t) as [[idx|]|]; [| |contradiction].
  - destruct Hscan as (Hidx & Hpos & Harr).
    pose proof (time_inv_run processes rem res t c g idx 1 Hv Hcore Htime
                  Hidx Harr ltac:(lia)) as Hnew.
    simpl in Hnew. unfold pr_run. simpl.
    destruct (if negb (last =? id (processes !!! idx))%string
              then Some (g ++ [mkBlock (id (processes !!! idx)) t (t + 1)])
              else extend_last g) as [g'|]; [|discriminate].
    destruct (_ =? 0); intros [= <-]; exact Hnew.
  - intros [= <-]. unfold pr_idle. simpl.
    destruct (core_inv_pending _ _ _ _ _ _ Hcore Hcond) as (i & Hi & Hri).
    pose proof (Hscan i Hi Hri). pose proof (max_arrival_ge processes i Hi).
    apply (time_inv_later _ _ _ t _ c g); auto; lia.
Qed.

Lemma pr_solve_timed reset scan localeCompare fuel processes :
  valid_processes processes → pr_scan_ok scan processes →
  (fuel_bound processes ≤ fuel)%nat →
  ∃ out,
    pr_solve_reset reset scan localeCompare fuel processes = Done out
    ∧ Forall (result_timed (deadline processes)) (Plain.results out).
Proof.
  intros Hv Hscan Hfuel. unfold pr_solve_reset.
  destruct (while_loop_total_with (pr_inv processes)
              (fun s => time_inv processes (PR.remainingTime s)
                          (PR.results s) (PR.currentTime s))
              (fun s => work_left processes (PR.remainingTime s)
                          (PR.currentTime s))
              (pr_cond (length processes))
              (pr_body reset scan processes)
              (fun s Hs Hc => pr_body_inv reset scan processes s Hv Hscan Hs Hc)
              (fun s s' Hs Hc He Hb =>
                 pr_body_time reset scan processes s s' Hv Hscan Hs Hc He Hb)
              fuel (pr_init processes) (pr_inv_init processes Hv)
              (time_inv_init processes Hv))
    as (s & -> & [Hcore _] & Htime & Hcond).
  - simpl. rewrite work_left_init. exact Hfuel.
  - eexists. split; [reflexivity|]. simpl. apply result_timed_sort.
    apply (time_inv_final _ _ _ _ _ _ Hv Hcore Htime).
    apply (core_inv_all_done _ _ _ _ _ _ Hcore).
    unfold pr_cond in Hcond. apply bool_decide_eq_false in Hcond. lia.
Qed.

(** *** Round Robin *)

Lemma rr_refill_clock processes s s1 :
  rr_refill processes s = Some s1 →
  RR.currentTime s1 ≤ Z.max (RR.currentTime s) (max_arrival processes).
Proof.
  unfold rr_refill. destruct (RR.queue s); [|intros [= <-]; lia].
  pose proof (rr_next_arrival_spec processes (RR.visited s)) as Hnext.
  destruct (rr_next_arrival processes (RR.visited s)) as [[i|] b];
    [|discriminate].
  destruct Hnext as (Hi & _ & -> & _). intros [= <-]. simpl.
  pose proof (max_arrival_ge processes i Hi). lia.
Qed.

Lemma rr_body_time processes timeQuantum s s' :
  valid_processes processes → 1 ≤ timeQuantum →
  rr_inv processes s → rr_cond (length processes) s = true →
  time_inv processes (RR.remainingTime s) (RR.results s) (RR.currentTime s)
  ∧ Forall (fun b => duration b ≤ timeQuantum) (RR.ganttChart s) →
  Plain.rr_body processes timeQuantum s = Next s' →
  time_inv processes (RR.remainingTime s') (RR.results s') (RR.currentTime s')
  ∧ Forall (fun b => duration b ≤ timeQuantum) (RR.ganttChart s').
Proof.
  intros Hv Hq Hinv Hcond [Htime Hslices].
  destruct (rr_refill_inv processes s Hv Hinv Hcond)
    as (s1 & idx & rest & Hrefill & Hqueue & Hrem & Hres & Hcomp & Hg & Hle
        & Hready & Hseen).
  pose proof (rr_refill_clock _ _ _ Hrefill) as Hclock.
  destruct Hinv as (Hcore & _ & _ & _).
  assert (Hcore1 : core_inv processes (RR.remainingTime s) (RR.results s)
                     (RR.currentTime s1) (RR.completed s) (RR.ganttChart s)).
  { by apply (core_inv_later _ _ _ (RR.currentTime s)). }
  assert (Htime1 : time_inv processes (RR.remainingTime s) (RR.results s)
                     (RR.currentTime s1)).
  { by apply (time_inv_later _ _ _ (RR.currentTime s) _ (RR.completed s)
                (RR.ganttChart s)). }
  assert (Hin : (idx < length processes)%nat
                ∧ is_set (RR.visited s1) idx = true
                ∧ 0 < RR.remainingTime s1 !!! idx).
  { apply (ri_mem _ _ _ _ Hready). rewrite Hqueue. apply elem_of_cons. auto. }
  destruct Hin as (Hidx & Hvis & Hpos). rewrite Hrem in Hpos.
  pose proof (Hseen idx Hidx Hvis) as Harr.
  assert (Hd : 1 ≤ Z.min timeQuantum (RR.remainingTime s !!! idx)
               ≤ RR.remainingTime s !!! idx) by lia.
  pose proof (time_inv_slice processes (RR.remainingTime s) (RR.results s)
                (RR.currentTime s1) (RR.completed s) (RR.ganttChart s) idx
                (Z.min timeQuantum (RR.remainingTime s !!! idx))
                Hv Hcore1 Htime1 Hidx Harr Hd) as Hnew.
  simpl in Hnew.
  unfold Plain.rr_body. rewrite Hrefill, Hqueue. intros [= <-].
  rewrite rr_arrivals_spec. unfold rr_exec, rr_finish.
  cbn [RR.remainingTime RR.results RR.currentTime RR.completed RR.ganttChart
       RR.queue RR.visited].
  rewrite Hrem, Hres, Hg.
  set (d := Z.min timeQuantum (RR.remainingTime s !!! idx)) in *.
  set (rem' := <[idx := RR.remainingTime s !!! idx - d]> (RR.remainingTime s))
    in *.
  assert (Hrem' : rem' !!! idx = RR.remainingTime s !!! idx - d).
  { unfold rem'. rewrite list_lookup_total_insert_eq; [reflexivity|].
    rewrite (ci_length _ _ _ _ _ _ Hcore). exact Hidx. }
  assert (Hslices' : Forall (fun b => duration b ≤ timeQuantum)
            (RR.ganttChart s
             ++ [mkBlock (id (processes !!! idx)) (RR.currentTime s1)
                   (RR.currentTime s1 + d)])).
  { apply Forall_app. split; [exact Hslices|]. constructor; [|constructor].
    unfold duration. simpl. unfold d. lia. }
  rewrite Hrem' in Hnew |- *.
  destruct (Z.ltb_spec 0 (RR.remainingTime s !!! idx - d)) as [Hlt|Hge];
    cbn [RR.remainingTime RR.results RR.currentTime RR.completed
         RR.ganttChart RR.queue RR.visited].
  - destruct (Z.eqb_spec (RR.remainingTime s !!! idx - d) 0); [lia|].
    split; [exact Hnew|exact Hslices'].
  - destruct (Z.eqb_spec (RR.remainingTime s !!! idx - d) 0);
      [|unfold d in *; lia].
    split; [exact Hnew|exact Hslices'].
Qed.

(** The final state of the Round Robin loop on a valid input. *)
Lemma rr_loop_timed fuel processes timeQuantum :
  valid_processes processes → 1 ≤ timeQuantum →
  (fuel_bound processes ≤ fuel)%nat →
  ∃ s,
    while_loop fuel (rr_cond (length processes))
      (Plain.rr_body processes timeQuantum) (rr_init processes) = Done s
    ∧ Forall (result_timed (deadline processes)) (RR.results s)
    ∧ Forall (fun b => duration b ≤ timeQuantum) (RR.ganttChart s)
    ∧ chart_positive (RR.ganttChart s).
Proof.
  intros Hv Hq Hfuel.
  destruct (while_loop_total_with (rr_inv processes)
              (fun s => time_inv processes (RR.remainingTime s)
                          (RR.results s) (RR.currentTime s)
                        ∧ Forall (fun b => duration b ≤ timeQuantum)
                            (RR.ganttChart s))
              (fun s => work_left processes (RR.remainingTime s)
                          (RR.currentTime s))
              (rr_cond (length processes))
              (Plain.rr_body processes timeQuantum)
              (fun s Hs Hc => rr_body_inv processes timeQuantum s Hv Hq Hs Hc)
              (fun s s' Hs Hc He Hb =>
                 rr_body_time processes timeQuantum s s' Hv Hq Hs Hc He Hb)
              fuel (rr_init processes) (rr_inv_init processes Hv))
    as (s & Heq & [Hcore _] & [Htime Hslices] & Hcond).
  - rewrite rr_init_spec. simpl. split; [by apply time_inv_init|constructor].
  - rewrite rr_init_spec. simpl. rewrite work_left_init. exact Hfuel.
  - exists s. split; [exact Heq|]. split; [|split; [exact Hslices|]].
    + apply (time_inv_final _ _ _ _ _ _ Hv Hcore Htime).
      apply (core_inv_all_done _ _ _ _ _ _ Hcore).
      unfold rr_cond in Hcond. apply bool_decide_eq_false in Hcond. lia.
    + apply (chart_inv_positive processes (RR.currentTime s)).
      apply (ci_chart _ _ _ _ _ _ Hcore).
Qed.

(** *** Multilevel Queue *)

(** The result of a process other than the one that runs is not
    touched by a slice. *)
Lemma lookup_slice_other processes idx t t' results (c : bool) (j : nat) :
  (idx < length results)%nat → j ≠ idx →
  (if c then finalize_from processes idx t' (mark_start idx t results)
   else mark_start idx t results) !!! j = results !!! j.
Proof.
  intros Hidx Hne. destruct c.
  - unfold finalize_from. rewrite list_lookup_total_insert_ne by auto.
    rewrite lookup_mark_start by exact Hidx. by rewrite decide_False.
  - rewrite lookup_mark_start by exact Hidx. by rewrite decide_False.
Qed.

Lemma idle_pending processes rem results t completed g visited :
  core_inv processes rem results t completed g →
  ready_inv processes rem visited [] →
  none_waiting processes visited t →
  (completed < length processes)%nat →
  t + 1 ≤ Z.max t (max_arrival processes).
Proof.
  intros Hcore Hready Hnone Hc.
  destruct (core_inv_pending _ _ _ _ _ _ Hcore Hc) as (i & Hi & Hpos).
  assert (t < arrivalTime (processes !!! i)) as Hlt.
  { apply Hnone; [exact Hi|].
    destruct (is_set visited i) eqn:E; [|reflexivity].
    assert (i ∈ @nil nat) as Hin by (by apply (ri_mem _ _ _ _ Hready)).
    by apply elem_of_nil in Hin. }
  pose proof (max_arrival_ge processes i Hi). lia.
Qed.

Lemma Forall_filter_true {A} (f : A → bool) (l : list A) :
  Forall (fun x => f x = true) (List.filter f l).
Proof.
  apply Forall_forall. intros x Hx. apply list_elem_of_In in Hx.
  by apply List.filter_In in Hx as [_ ?].
Qed.

(** The blocks drawn so far stay sound when a process that is not
    finished runs. *)
Lemma mlq_blocks_stable processes timeQuantum rem results rem' results' g :
  (∀ j, (j < length processes)%nat → rem !!! j = 0 →
        rem' !!! j = 0 ∧ results' !!! j = results !!! j) →
  Forall (mlq_block_ok processes timeQuantum rem results) g →
  Forall (mlq_block_ok processes timeQuantum rem' results') g.
Proof.
  intros Hstable Hall. eapply Forall_impl; [exact Hall|].
  intros b (i & Hi & Hid & Hb).
  exists i. split; [exact Hi|]. split; [exact Hid|].
  destruct (high processes i); [exact Hb|].
  destruct Hb as [Hd Hprec]. split; [exact Hd|].
  intros j Hj Hh Ha. destruct (Hprec j Hj Hh Ha) as [Hz He].
  destruct (Hstable j Hj Hz) as [Hz' ->]. auto.
Qed.

Ltac mlq_fields :=
  cbn [MLQ.remainingTime MLQ.results MLQ.currentTime MLQ.completed
       MLQ.ganttChart MLQ.q1 MLQ.q2 MLQ.visited].

Lemma mlq_body_extra processes timeQuantum s s' :
  valid_processes processes → 1 ≤ timeQuantum →
  mlq_inv processes s → mlq_cond (length processes) s = true →
  mlq_extra processes timeQuantum s →
  Plain.mlq_body processes timeQuantum s = Next s' →
  mlq_extra processes timeQuantum s'.
Proof.
  intros Hv Hq (Hcore & Hready & Hseen) Hcond [Htime Hq1 Hq2 Hchart].
  unfold mlq_cond in Hcond. apply bool_decide_eq_true in Hcond.
  pose proof (ci_length _ _ _ _ _ _ Hcore) as Hlen.
  pose proof (length_map_process _ _ (ci_results _ _ _ _ _ _ Hcore)) as Hlenr.
  unfold Plain.mlq_body. rewrite mlq_arrivals_spec. mlq_fields.
  change (fun i : nat => priority (processes !!! i) <=? 2)
    with (high processes).
  set (new0 := newcomers (length processes) (MLQ.visited s)
                 (arrived processes (MLQ.currentTime s))).
  set (lo := fun i : nat => negb (high processes i)).
  change (fun i : nat => negb (priority (processes !!! i) <=? 2)) with lo.
  set (q1A := MLQ.q1 s ++ List.filter (high processes) new0).
  set (q2A := MLQ.q2 s ++ List.filter lo new0).
  assert (Hsplit : ∀ l, List.filter (high processes) l ++ List.filter lo l ≡ₚ l)
    by (intros l; apply filter_split_perm).
  assert (Hlo : ∀ l, Forall (fun i => high processes i = false)
                       (List.filter lo l)).
  { intros l. eapply Forall_impl; [apply (Forall_filter_true lo)|].
    intros i Hi. unfold lo in Hi. by apply negb_true_iff in Hi. }
  destruct (arrivals_inv processes (MLQ.remainingTime s) (MLQ.visited s)
              (MLQ.q1 s ++ MLQ.q2 s) (MLQ.currentTime s) (q1A ++ q2A)
              Hv Hready Hseen) as (HreadyA & HseenA & HnoneA).
  { unfold q1A, q2A. fold new0.
    etrans; [|apply Permutation_app; [reflexivity|apply (Hsplit new0)]].
    solve_Permutation. }
  fold new0 in HreadyA, HseenA, HnoneA.
  assert (Hq1A : Forall (fun i => high processes i = true) q1A).
  { apply Forall_app. split; [exact Hq1|apply Forall_filter_true]. }
  assert (Hq2A : Forall (fun i => high processes i = false) q2A).
  { apply Forall_app. split; [exact Hq2|apply Hlo]. }
  set (t := MLQ.currentTime s) in *.
  set (visitedA := mark_all new0 (MLQ.visited s)) in *.
  destruct q1A as [|idx rest] eqn:Eq1A.
  - destruct q2A as [|idx rest2] eqn:Eq2A.
    + (* idle *)
      intros [= <-]. unfold mlq_idle. mlq_fields. constructor; mlq_fields.
      * apply (time_inv_later _ _ _ t _ (MLQ.completed s) (MLQ.ganttChart s));
          auto; [lia|].
        apply (idle_pending _ _ _ _ _ _ visitedA Hcore HreadyA HnoneA Hcond).
      * constructor.
      * constructor.
      * exact Hchart.
    + (* queue 2 *)
      assert (Hin : (idx < length processes)%nat
                    ∧ is_set visitedA idx = true
                    ∧ 0 < MLQ.remainingTime s !!! idx).
      { apply (ri_mem _ _ _ _ HreadyA). apply elem_of_cons. auto. }
      destruct Hin as (Hidx & Hvis & Hpos).
      pose proof (HseenA idx Hidx Hvis) as Harr.
      assert (Hlow : high processes idx = false)
        by (by apply Forall_cons in Hq2A as [? _]).
      pose proof (time_inv_slice processes (MLQ.remainingTime s)
                    (MLQ.results s) t (MLQ.completed s) (MLQ.ganttChart s)
                    idx 1 Hv Hcore Htime Hidx Harr ltac:(lia)) as Hnew.
      simpl in Hnew.
      assert (Hstable : ∀ j, (j < length processes)%nat →
                MLQ.remainingTime s !!! j = 0 →
                <[idx := MLQ.remainingTime s !!! idx - 1]>
                  (MLQ.remainingTime s) !!! j = 0
                ∧ ∀ c : bool,
                    (if c then finalize_from processes idx (t + 1)
                                 (mark_start idx t (MLQ.results s))
                     else mark_start idx t (MLQ.results s)) !!! j
                    = MLQ.results s !!! j).
      { intros j Hj Hz. assert (j ≠ idx) by (intros ->; lia).
        rewrite list_lookup_total_insert_ne by auto. split; [exact Hz|].
        intros c. apply lookup_slice_other; [lia|assumption]. }
      assert (Hblock : ∀ c : bool,
                mlq_block_ok processes timeQuantum
                  (<[idx := MLQ.remainingTime s !!! idx - 1]>
                     (MLQ.remainingTime s))
                  (if c then finalize_from processes idx (t + 1)
                               (mark_start idx t (MLQ.results s))
                   else mark_start idx t (MLQ.results s))
                  (mkBlock (id (processes !!! idx)) t (t + 1))).
      { intros c. exists idx. split; [exact Hidx|]. split; [reflexivity|].
        rewrite Hlow. split; [unfold duration; simpl; lia|].
        simpl. intros j Hj Hh Ha.
        assert (Hz : MLQ.remainingTime s !!! j = 0).
        { pose proof (ci_range _ _ _ _ _ _ Hcore j Hj) as Hr.
          destruct (decide (MLQ.remainingTime s !!! j = 0)) as [|Hnz];
            [assumption|]. exfalso.
          assert (is_set visitedA j = true) as Hvj.
          { destruct (is_set visitedA j) eqn:E; [reflexivity|].
            specialize (HnoneA j Hj E). lia. }
          assert (j ∈ [] ++ idx :: rest2) as Hjq.
          { apply (ri_mem _ _ _ _ HreadyA). split; [exact Hj|].
            split; [exact Hvj|lia]. }
          rewrite Forall_forall in Hq2A. specialize (Hq2A j Hjq). congruence. }
        destruct (Hstable j Hj Hz) as [Hz' Hsame]. rewrite Hsame.
        split; [exact Hz'|]. apply (ti_ended _ _ _ _ Htime j Hj Hz). }
      unfold mlq_exec2. mlq_fields.
      destruct (_ =? 0) eqn:Hz; intros [= <-]; constructor; mlq_fields.
      * exact Hnew.
      * constructor.
      * simpl. by apply Forall_cons in Hq2A as [_ ?].
      * apply Forall_app. split; [|constructor; [apply (Hblock true)|constructor]].
        apply (mlq_blocks_stable _ _ (MLQ.remainingTime s) (MLQ.results s));
          [|exact Hchart].
        intros j Hj Hzj. destruct (Hstable j Hj Hzj) as [? Hs].
        split; [assumption|apply (Hs true)].
      * exact Hnew.
      * constructor.
      * exact Hq2A.
      * apply Forall_app. split; [|constructor; [apply (Hblock false)|constructor]].
        apply (mlq_blocks_stable _ _ (MLQ.remainingTime s) (MLQ.results s));
          [|exact Hchart].
        intros j Hj Hzj. destruct (Hstable j Hj Hzj) as [? Hs].
        split; [assumption|apply (Hs false)].
  - (* queue 1 *)
    assert (Hin : (idx < length processes)%nat
                  ∧ is_set visitedA idx = true
                  ∧ 0 < MLQ.remainingTime s !!! idx).
    { apply (ri_mem _ _ _ _ HreadyA). apply elem_of_cons. auto. }
    destruct Hin as (Hidx & Hvis & Hpos).
    pose proof (HseenA idx Hidx Hvis) as Harr.
    assert (Hhigh : high processes idx = true)
      by (by apply Forall_cons in Hq1A as [? _]).
    assert (Hd : 1 ≤ Z.min timeQuantum (MLQ.remainingTime s !!! idx)
                 ≤ MLQ.remainingTime s !!! idx) by lia.
    pose proof (time_inv_slice processes (MLQ.remainingTime s)
                  (MLQ.results s) t (MLQ.completed s) (MLQ.ganttChart s)
                  idx _ Hv Hcore Htime Hidx Harr Hd) as Hnew.
    simpl in Hnew.
    rewrite mlq_arrivals_spec. unfold mlq_exec1, mlq_finish1. mlq_fields.
    change (fun i : nat => priority (processes !!! i) <=? 2)
      with (high processes).
    change (fun i : nat => negb (priority (processes !!! i) <=? 2)) with lo.
    set (d := Z.min timeQuantum (MLQ.remainingTime s !!! idx)) in *.
    set (rem' := <[idx := MLQ.remainingTime s !!! idx - d]>
                   (MLQ.remainingTime s)) in *.
    set (new1 := newcomers (length processes) visitedA
                   (arrived processes (t + d))).
    assert (Hrem' : rem' !!! idx = MLQ.remainingTime s !!! idx - d).
    { unfold rem'. rewrite list_lookup_total_insert_eq; [reflexivity|lia]. }
    assert (Hstable : ∀ j, (j < length processes)%nat →
              MLQ.remainingTime s !!! j = 0 →
              rem' !!! j = 0
              ∧ ∀ c : bool,
                  (if c then finalize_from processes idx (t + d)
                               (mark_start idx t (MLQ.results s))
                   else mark_start idx t (MLQ.results s)) !!! j
                  = MLQ.results s !!! j).
    { intros j Hj Hz. assert (j ≠ idx) by (intros ->; lia).
      unfold rem'. rewrite list_lookup_total_insert_ne by auto.
      split; [exact Hz|].
      intros c. apply lookup_slice_other; [lia|assumption]. }
    assert (Hblock : ∀ c : bool,
              mlq_block_ok processes timeQuantum rem'
                (if c then finalize_from processes idx (t + d)
                             (mark_start idx t (MLQ.results s))
                 else mark_start idx t (MLQ.results s))
                (mkBlock (id (processes !!! idx)) t (t + d))).
    { intros c. exists idx. split; [exact Hidx|]. split; [reflexivity|].
      rewrite Hhigh. unfold duration. simpl. unfold d. lia. }
    assert (Hrestq : Forall (fun i => high processes i = true)
                       (rest ++ List.filter (high processes) new1)).
    { apply Forall_app. split; [|apply Forall_filter_true].
      by apply Forall_cons in Hq1A as [_ ?]. }
    assert (Hq2' : Forall (fun i => high processes i = false)
                     (q2A ++ List.filter lo new1)).
    { apply Forall_app. split; [exact Hq2A|apply Hlo]. }
    rewrite Hrem' in Hnew |- *.
    destruct (Z.ltb_spec 0 (MLQ.remainingTime s !!! idx - d)) as [Hlt|Hge];
      intros [= <-]; constructor; mlq_fields.
    + destruct (Z.eqb_spec (MLQ.remainingTime s !!! idx - d) 0); [lia|].
      exact Hnew.
    + apply Forall_app. split; [exact Hrestq|]. by repeat constructor.
    + exact Hq2'.
    + apply Forall_app. split; [|constructor; [apply (Hblock false)|constructor]].
      apply (mlq_blocks_stable _ _ (MLQ.remainingTime s) (MLQ.results s));
        [|exact Hchart].
      intros j Hj Hzj. destruct (Hstable j Hj Hzj) as [? Hs].
      split; [assumption|apply (Hs false)].
    + destruct (Z.eqb_spec (MLQ.remainingTime s !!! idx - d) 0);
        [|unfold d in *; lia].
      exact Hnew.
    + exact Hrestq.
    + exact Hq2'.
    + apply Forall_app. split; [|constructor; [apply (Hblock true)|constructor]].
      apply (mlq_blocks_stable _ _ (MLQ.remainingTime s) (MLQ.results s));
        [|exact Hchart].
      intros j Hj Hzj. destruct (Hstable j Hj Hzj) as [? Hs].
      split; [assumption|apply (Hs true)].
Qed.

Lemma mlq_extra_init processes timeQuantum :
  valid_processes processes →
  mlq_extra processes timeQuantum (mlq_init processes).
Proof.
  intros Hv. constructor; simpl; try constructor.
  all: try apply (time_inv_init processes Hv).
Qed.

(** The final state of the Multilevel Queue loop on a valid input. *)
Lemma mlq_loop_extra fuel processes timeQuantum :
  valid_processes processes → 1 ≤ timeQuantum →
  (fuel_bound processes ≤ fuel)%nat →
  ∃ s,
    while_loop fuel (mlq_cond (length processes))
      (Plain.mlq_body processes timeQuantum) (mlq_init processes) = Done s
    ∧ map process (MLQ.results s) = processes
    ∧ Forall (result_timed (deadline processes)) (MLQ.results s)
    ∧ Forall (mlq_block_ok processes timeQuantum (MLQ.remainingTime s)
                (MLQ.results s)) (MLQ.ganttChart s).
Proof.
  intros Hv Hq Hfuel.
  destruct (while_loop_total_with (mlq_inv processes)
              (mlq_extra processes timeQuantum)
              (fun s => work_left processes (MLQ.remainingTime s)
                          (MLQ.currentTime s))
              (mlq_cond (length processes))
              (Plain.mlq_body processes timeQuantum)
              (fun s Hs Hc => mlq_body_inv processes timeQuantum s Hv Hq Hs Hc)
              (fun s s' Hs Hc He Hb =>
                 mlq_body_extra processes timeQuantum s s' Hv Hq Hs Hc He Hb)
              fuel (mlq_init processes) (mlq_inv_init processes Hv)
              (mlq_extra_init processes timeQuantum Hv))
    as (s & Heq & [Hcore _] & [Htime _ _ Hchart] & Hcond).
  - simpl. rewrite work_left_init. exact Hfuel.
  - exists s. split; [exact Heq|].
    split; [apply (ci_results _ _ _ _ _ _ Hcore)|]. split; [|exact Hchart].
    apply (time_inv_final _ _ _ _ _ _ Hv Hcore Htime).
    apply (core_inv_all_done _ _ _ _ _ _ Hcore).
    unfold mlq_cond in Hcond. apply bool_decide_eq_false in Hcond. lia.
Qed.

(** *** Multilevel Feedback Queue *)

Lemma mlfq_body_time processes timeQuantum s s' :
  valid_processes processes → 1 ≤ timeQuantum →
  mlfq_inv processes s → mlfq_cond (length processes) s = true →
  time_inv processes (MLFQ.remainingTime s) (MLFQ.results s)
    (MLFQ.currentTime s)
  ∧ Forall (fun b => duration b ≤ 2 * timeQuantum) (MLFQ.ganttChart s) →
  Plain.mlfq_body processes timeQuantum s = Next s' →
  time_inv processes (MLFQ.remainingTime s') (MLFQ.results s')
    (MLFQ.currentTime s')
  ∧ Forall (fun b => duration b ≤ 2 * timeQuantum) (MLFQ.ganttChart s').
Proof.
  intros Hv Hq (Hcore & Hready & Hseen) Hcond [Htime Hslices].
  unfold mlfq_cond in Hcond. apply bool_decide_eq_true in Hcond.
  pose proof (ci_length _ _ _ _ _ _ Hcore) as Hlen.
  unfold Plain.mlfq_body. rewrite mlfq_arrivals_spec. unfold mlfq_pick.
  mlfq_fields.
  set (new0 := newcomers (length processes) (MLFQ.visited s)
                 (arrived processes (MLFQ.currentTime s))).
  set (q0A := MLFQ.q0 s ++ new0).
  set (t := MLFQ.currentTime s) in *.
  set (visitedA := mark_all new0 (MLFQ.visited s)).
  destruct (arrivals_inv processes (MLFQ.remainingTime s) (MLFQ.visited s)
              (MLFQ.q0 s ++ MLFQ.q1 s ++ MLFQ.q2 s) t
              (q0A ++ MLFQ.q1 s ++ MLFQ.q2 s)
              Hv Hready Hseen) as (HreadyA & HseenA & HnoneA).
  { unfold q0A. fold new0. solve_Permutation. }
  fold new0 visitedA in HreadyA, HseenA, HnoneA.
  assert (Hhead : ∀ idx l1 l2 l3, q0A ++ MLFQ.q1 s ++ MLFQ.q2 s
                                  = l1 ++ l2 ++ idx :: l3 →
                    (idx < length processes)%nat
                    ∧ arrivalTime (processes !!! idx) ≤ t
                    ∧ 0 < MLFQ.remainingTime s !!! idx).
  { intros idx l1 l2 l3 Heq.
    assert (idx ∈ q0A ++ MLFQ.q1 s ++ MLFQ.q2 s) as Hi.
    { rewrite Heq, !elem_of_app, elem_of_cons. auto. }
    apply (ri_mem _ _ _ _ HreadyA) in Hi. destruct Hi as (Hi & Hvis & Hpos).
    split; [exact Hi|]. split; [by apply HseenA|exact Hpos]. }
  assert (Hrun : ∀ idx d,
            (idx < length processes)%nat →
            arrivalTime (processes !!! idx) ≤ t →
            1 ≤ d ≤ MLFQ.remainingTime s !!! idx → d ≤ 2 * timeQuantum →
            let rem' := <[idx := MLFQ.remainingTime s !!! idx - d]>
                          (MLFQ.remainingTime s) in
            rem' !!! idx = MLFQ.remainingTime s !!! idx - d
            ∧ time_inv processes rem'
                (if MLFQ.remainingTime s !!! idx - d =? 0
                 then finalize_from processes idx (t + d)
                        (mark_start idx t (MLFQ.results s))
                 else mark_start idx t (MLFQ.results s)) (t + d)
            ∧ Forall (fun b => duration b ≤ 2 * timeQuantum)
                (MLFQ.ganttChart s
                 ++ [mkBlock (id (processes !!! idx)) t (t + d)])).
  { intros idx d Hidx Harr Hd Hd2 rem'.
    assert (Hrem' : rem' !!! idx = MLFQ.remainingTime s !!! idx - d).
    { unfold rem'. rewrite list_lookup_total_insert_eq; [reflexivity|lia]. }
    split; [exact Hrem'|]. split.
    - rewrite <- Hrem'.
      apply (time_inv_slice processes (MLFQ.remainingTime s) (MLFQ.results s)
               t (MLFQ.completed s) (MLFQ.ganttChart s) idx d); auto.
    - apply Forall_app. split; [exact Hslices|]. constructor; [|constructor].
      unfold duration. simpl. lia. }
  destruct q0A as [|idx rest] eqn:Hq0A;
    [destruct (MLFQ.q1 s) as [|idx rest] eqn:Hq1;
     [destruct (MLFQ.q2 s) as [|idx rest] eqn:Hq2|]|].
  - (* idle *)
    intros [= <-]. unfold mlfq_idle. mlfq_fields. split; [|exact Hslices].
    apply (time_inv_later _ _ _ t _ (MLFQ.completed s) (MLFQ.ganttChart s));
      auto; [lia|].
    apply (idle_pending _ _ _ _ _ _ visitedA Hcore HreadyA HnoneA Hcond).
  - (* queue 2 *)
    destruct (Hhead idx [] [] rest eq_refl) as (Hidx & Harr & Hpos).
    destruct (Hrun idx 1 Hidx Harr ltac:(lia) ltac:(lia))
      as (Hrem' & Htime' & Hslices').
    rewrite mlfq_arrivals_spec. unfold mlfq_exec, mlfq_finish. mlfq_fields.
    change (2 =? 2)%nat with true. change (2 =? 0)%nat with false.
    change (2 =? 1)%nat with false. cbv iota.
    rewrite Hrem'.
    destruct (MLFQ.remainingTime s !!! idx - 1 =? 0); intros [= <-];
      mlfq_fields; split; assumption.
  - (* queue 1 *)
    destruct (Hhead idx [] [] (rest ++ MLFQ.q2 s) eq_refl)
      as (Hidx & Harr & Hpos).
    assert (Hd : 1 ≤ Z.min (MLFQ.remainingTime s !!! idx) (timeQuantum * 2)
                 ≤ MLFQ.remainingTime s !!! idx) by lia.
    assert (Hd2 : Z.min (MLFQ.remainingTime s !!! idx) (timeQuantum * 2)
                  ≤ 2 * timeQuantum) by lia.
    destruct (Hrun idx _ Hidx Harr Hd Hd2) as (Hrem' & Htime' & Hslices').
    rewrite mlfq_arrivals_spec. unfold mlfq_exec, mlfq_finish. mlfq_fields.
    change (1 =? 2)%nat with false. change (1 =? 0)%nat with false.
    change (1 =? 1)%nat with true. cbv iota. unfold min_bound.
    rewrite Hrem'.
    destruct (_ =? 0); intros [= <-]; mlfq_fields; split; assumption.
  - (* queue 0 *)
    destruct (Hhead idx [] [] (rest ++ MLFQ.q1 s ++ MLFQ.q2 s) eq_refl)
      as (Hidx & Harr & Hpos).
    assert (Hd : 1 ≤ Z.min (MLFQ.remainingTime s !!! idx) timeQuantum
                 ≤ MLFQ.remainingTime s !!! idx) by lia.
    assert (Hd2 : Z.min (MLFQ.remainingTime s !!! idx) timeQuantum
                  ≤ 2 * timeQuantum) by lia.
    destruct (Hrun idx _ Hidx Harr Hd Hd2) as (Hrem' & Htime' & Hslices').
    rewrite mlfq_arrivals_spec. unfold mlfq_exec, mlfq_finish. mlfq_fields.
    change (0 =? 2)%nat with false. change (0 =? 0)%nat with true. cbv iota.
    unfold min_bound. rewrite Hrem'.
    destruct (_ =? 0); intros [= <-]; mlfq_fields; split; assumption.
Qed.

(** The final state of the Multilevel Feedback Queue loop on a valid
    input. *)
Lemma mlfq_loop_timed fuel processes timeQuantum :
  valid_processes processes → 1 ≤ timeQuantum →
  (fuel_bound processes ≤ fuel)%nat →
  ∃ s,
    while_loop fuel (mlfq_cond (length processes))
      (Plain.mlfq_body processes timeQuantum) (mlfq_init processes) = Done s
    ∧ Forall (result_timed (deadline processes)) (MLFQ.results s)
    ∧ Forall (fun b => duration b ≤ 2 * timeQuantum) (MLFQ.ganttChart s)
    ∧ chart_positive (MLFQ.ganttChart s).
Proof.
  intros Hv Hq Hfuel.
  destruct (while_loop_total_with (mlfq_inv processes)
              (fun s => time_inv processes (MLFQ.remainingTime s)
                          (MLFQ.results s) (MLFQ.currentTime s)
                        ∧ Forall (fun b => duration b ≤ 2 * timeQuantum)
                            (MLFQ.ganttChart s))
              (fun s => work_left processes (MLFQ.remainingTime s)
                          (MLFQ.currentTime s))
              (mlfq_cond (length processes))
              (Plain.mlfq_body processes timeQuantum)
              (fun s Hs Hc => mlfq_body_inv processes timeQuantum s Hv Hq Hs Hc)
              (fun s s' Hs Hc He Hb =>
                 mlfq_body_time processes timeQuantum s s' Hv Hq Hs Hc He Hb)
              fuel (mlfq_init processes) (mlfq_inv_init processes Hv))
    as (s & Heq & [Hcore _] & [Htime Hslices] & Hcond).
  - simpl. split; [by apply time_inv_init|constructor].
  - simpl. rewrite work_left_init. exact Hfuel.
  - exists s. split; [exact Heq|]. split; [|split; [exact Hslices|]].
    + apply (time_inv_final _ _ _ _ _ _ Hv Hcore Htime).
      apply (core_inv_all_done _ _ _ _ _ _ Hcore).
      unfold mlfq_cond in Hcond. apply bool_decide_eq_false in Hcond. lia.
    + apply (chart_inv_positive processes (MLFQ.currentTime s)).
      apply (ci_chart _ _ _ _ _ _ Hcore).
Qed.

(** *** The run-to-completion solvers *)

Lemma served_later latest t t' results g :
  served latest t results g → t ≤ t' → t' ≤ Z.max t latest →
  served latest t' results g.
Proof.
  intros (Hres & Hg & Hspan) Hle Hmax.
  assert (0 ≤ sumZ (map (fun r => burstTime (process r)) results)) as Hsum.
  { clear -Hres. induction Hres as [|r rs (_ & _ & Hb & _) _ IH];
      unfold sumZ in *; simpl; lia. }
  split; [|split; [exact Hg|lia]].
  eapply Forall_impl; [exact Hres|]. unfold run_once. intros r. simpl. lia.
Qed.

(** A process that has arrived runs its whole burst from [t]. *)
Lemma served_run latest t results g (p : Process) :
  served latest t results g →
  arrivalTime p ≤ t → 1 ≤ burstTime p →
  served latest (t + burstTime p)
    (results ++ [mkResult p t (t + burstTime p)
                   (t + burstTime p - arrivalTime p) (t - arrivalTime p)])
    (g ++ [mkBlock (id p) t (t + burstTime p)]).
Proof.
  intros (Hres & Hg & Hspan) Harr Hb. split; [|split].
  - apply Forall_app. split.
    + eapply Forall_impl; [exact Hres|]. unfold run_once. intros r. simpl. lia.
    + constructor; [|constructor]. unfold run_once. simpl. lia.
  - rewrite map_app, Hg. reflexivity.
  - rewrite map_app. rewrite sumZ_app. unfold sumZ at 2. simpl. lia.
Qed.

Lemma np_body_served scan sorted s s' :
  valid_processes sorted → np_scan_ok scan sorted →
  np_inv sorted s → np_cond (length sorted) s = true →
  served (max_arrival sorted) (NP.currentTime s) (NP.results s)
    (NP.ganttChart s) →
  np_body scan sorted s = Next s' →
  served (max_arrival sorted) (NP.currentTime s') (NP.results s')
    (NP.ganttChart s').
Proof.
  intros Hv Hscan [Hlen (order & Hnd & Holen & Hmem & _) _ _ _] Hcond Hserved.
  destruct s as [t c isC res g]. simpl in *.
  unfold np_cond in Hcond. apply bool_decide_eq_true in Hcond. simpl in Hcond.
  unfold np_body. simpl. specialize (Hscan isC t).
  destruct (scan sorted isC t) as [[idx|]|]; [| |contradiction].
  - destruct Hscan as (Hidx & Hfree & Harr). intros [= <-].
    unfold np_run. simpl. apply served_run; auto.
    by destruct (burst_pos _ idx Hv Hidx).
  - intros [= <-]. unfold np_idle. simpl.
    assert (Hex : ∃ i, (i < length sorted)%nat ∧ is_set isC i = false).
    { destruct (decide (Forall (fun i => is_set isC i = true)
                          (seq 0 (length sorted)))) as [Hfull|Hex].
      - exfalso. rewrite Forall_forall in Hfull.
        assert (seq 0 (length sorted) ⊆+ order) as Hsub.
        { apply NoDup_submseteq; [apply NoDup_seq|]. intros i Hi.
          apply Hmem. split; [apply elem_of_seq in Hi; lia|by apply Hfull]. }
        apply submseteq_length in Hsub. rewrite length_seq in Hsub. lia.
      - apply not_Forall_Exists in Hex; [|intros x; apply _].
        apply Exists_exists in Hex as (i & Hi & Hne). apply elem_of_seq in Hi.
        exists i. split; [lia|]. simpl in Hne. by destruct (is_set isC i). }
    destruct Hex as (i & Hi & Hfree).
    pose proof (Hscan i Hi Hfree). pose proof (max_arrival_ge sorted i Hi).
    apply (served_later _ t); [exact Hserved|lia|lia].
Qed.

Lemma fcfs_fold_served latest sorted :
  ∀ s : FCFS.state,
    Forall (fun p => arrivalTime p ≤ latest ∧ 1 ≤ burstTime p) sorted →
    served latest (FCFS.currentTime s) (FCFS.results s) (FCFS.ganttChart s) →
    let s' := fold_left fcfs_run sorted s in
    served latest (FCFS.currentTime s') (FCFS.results s') (FCFS.ganttChart s').
Proof.
  induction sorted as [|p sorted IH]; intros s Hall Hserved; [exact Hserved|].
  simpl. apply Forall_cons in Hall as [[Ha Hb] Hall]. apply IH; [exact Hall|].
  unfold fcfs_run. simpl.
  set (t := if FCFS.currentTime s <? arrivalTime p
            then arrivalTime p else FCFS.currentTime s).
  assert (Hge : FCFS.currentTime s ≤ t ∧ arrivalTime p ≤ t
                ∧ t ≤ Z.max (FCFS.currentTime s) latest).
  { unfold t. destruct (Z.ltb_spec (FCFS.currentTime s) (arrivalTime p)); lia. }
  apply served_run; [|lia|exact Hb].
  apply (served_later _ (FCFS.currentTime s)); [exact Hserved|lia|lia].
Qed.

Lemma served_init latest : 0 ≤ latest → served latest 0 [] [].
Proof.
  intros H. split; [constructor|]. split; [reflexivity|].
  unfold sumZ. simpl. lia.
Qed.

Lemma sumZ_map_process (results : list ProcessResult) :
  sumZ (map (fun r => burstTime (process r)) results)
  = sumZ (map burstTime (map process results)).
Proof. by rewrite map_map. Qed.

(** What [served] gives at the end of a run, for the results in the
    order of the names. *)
Lemma served_final processes t results g
    (cmp : ProcessResult → ProcessResult → Z) :
  served (max_arrival processes) t results g →
  map process results ≡ₚ processes →
  Forall (result_timed (deadline processes)) (js_sort cmp results)
  ∧ Forall (fun r => endTime r = startTime r + burstTime (process r))
      (js_sort cmp results)
  ∧ g ≡ₚ map block_of (js_sort cmp results).
Proof.
  intros (Hres & -> & Hspan) Hperm.
  rewrite sumZ_map_process in Hspan.
  rewrite (sumZ_perm _ (map burstTime processes)) in Hspan
    by (change map with (@fmap list _); by rewrite Hperm).
  split; [|split].
  - rewrite js_sort_perm. eapply Forall_impl; [exact Hres|].
    unfold run_once, result_timed, deadline. intros r. simpl. lia.
  - rewrite js_sort_perm. eapply Forall_impl; [exact Hres|].
    unfold run_once. intros r. simpl. tauto.
  - change map with (@fmap list _). by rewrite js_sort_perm.
Qed.

Lemma np_solve_served scan localeCompare fuel processes :
  valid_processes processes →
  (∀ sorted, valid_processes sorted → np_scan_ok scan sorted) →
  (fuel_bound processes ≤ fuel)%nat →
  ∃ out,
    Plain.np_solve localeCompare scan fuel processes = Done out
    ∧ Forall (result_timed (deadline processes)) (Plain.results out)
    ∧ Forall (fun r => endTime r = startTime r + burstTime (process r))
        (Plain.results out)
    ∧ Plain.ganttChart out ≡ₚ map block_of (Plain.results out).
Proof.
  intros Hv Hscan Hfuel. unfold Plain.np_solve.
  set (sorted := js_sort by_arrival processes).
  assert (Hperm : sorted ≡ₚ processes) by apply js_sort_perm.
  assert (Hvs : valid_processes sorted).
  { apply (valid_processes_perm processes); [by symmetry|exact Hv]. }
  assert (Hlen : length processes = length sorted).
  { symmetry. apply js_sort_length. }
  rewrite Hlen.
  destruct (while_loop_total_with (np_inv sorted)
              (fun s => served (max_arrival sorted) (NP.currentTime s)
                          (NP.results s) (NP.ganttChart s))
              (np_left sorted)
              (np_cond (length sorted)) (np_body scan sorted)
              (fun s Hs Hc => np_body_inv scan sorted s Hvs (Hscan _ Hvs) Hs Hc)
              (fun s s' Hs Hc He Hb =>
                 np_body_served scan sorted s s' Hvs (Hscan _ Hvs) Hs Hc He Hb)
              fuel (np_init (length sorted)) (np_inv_init sorted))
    as (s & -> & Hinv & Hserved & Hcond).
  - simpl. apply served_init, max_arrival_nonneg.
  - unfold np_left. simpl.
    rewrite <- (fuel_bound_perm _ _ Hperm) in Hfuel. unfold fuel_bound in Hfuel.
    pose proof (length_le_sum_burst sorted (proj2 Hvs)). lia.
  - unfold np_cond in Hcond. apply bool_decide_eq_false in Hcond.
    destruct (np_inv_schedule sorted s (proj1 Hvs) Hinv ltac:(lia))
      as [Hsched _].
    eexists. split; [reflexivity|]. simpl.
    rewrite (max_arrival_perm _ _ Hperm) in Hserved.
    apply (served_final processes (NP.currentTime s)); [exact Hserved|].
    rewrite (so_all _ _ _ Hsched). exact Hperm.
Qed.

Lemma by_arrival_sorted processes :
  StronglySorted (fun p p' => arrivalTime p ≤ arrivalTime p')
    (js_sort by_arrival processes).
Proof.
  assert (Hins : ∀ x l,
            StronglySorted (fun p p' => arrivalTime p ≤ arrivalTime p') l →
            StronglySorted (fun p p' => arrivalTime p ≤ arrivalTime p')
              (js_insert by_arrival x l)).
  { intros x l Hl. induction Hl as [|y l Hl IH Hy]; simpl.
    - constructor; constructor.
    - unfold by_arrival at 1.
      destruct (Z.leb_spec (arrivalTime x - arrivalTime y) 0) as [Hle|Hgt].
      + constructor; [by constructor|]. constructor; [lia|].
        eapply Forall_impl; [exact Hy|]. simpl. intros z. lia.
      + constructor; [exact IH|]. rewrite js_insert_perm.
        constructor; [lia|exact Hy]. }
  unfold js_sort. induction processes as [|p ps IH]; simpl; [constructor|].
  by apply Hins.
Qed.

Lemma solveFCFS_served localeCompare processes :
  valid_processes processes →
  ∃ out,
    Plain.solveFCFS localeCompare processes = Done out
    ∧ Forall (result_timed (deadline processes)) (Plain.results out)
    ∧ Forall (fun r => endTime r = startTime r + burstTime (process r))
        (Plain.results out)
    ∧ Plain.ganttChart out ≡ₚ map block_of (Plain.results out)
    ∧ map processId (Plain.ganttChart out)
      = map id (js_sort by_arrival processes).
Proof.
  intros Hv. unfold Plain.solveFCFS.
  set (sorted := js_sort by_arrival processes).
  assert (Hperm : sorted ≡ₚ processes) by apply js_sort_perm.
  assert (Hvs : valid_processes sorted).
  { apply (valid_processes_perm processes); [by symmetry|exact Hv]. }
  assert (Hb0 : ∀ i, (i < length ([] ++ sorted))%nat →
            busy (id (([] ++ sorted) !!! i)) (FCFS.ganttChart fcfs_init)
            = if decide (i < length (@nil Process))%nat
              then burstTime (([] ++ sorted) !!! i) else 0).
  { intros i Hi. simpl. reflexivity. }
  destruct (fcfs_fold_inv sorted [] fcfs_init (proj1 Hvs) (proj2 Hvs)
              (Forall_nil_2 _) eq_refl eq_refl (chart_inv_nil _ _) Hb0)
    as (_ & Hres & Hg & _ & _).
  assert (Hall : Forall (fun p => arrivalTime p ≤ max_arrival sorted
                                  ∧ 1 ≤ burstTime p) sorted).
  { apply Forall_lookup. intros i p Hi.
    pose proof (lookup_lt_Some _ _ _ Hi) as Hlt.
    rewrite <- (list_lookup_total_correct _ _ _ Hi).
    split; [by apply max_arrival_ge|]. by destruct (burst_pos _ i Hvs Hlt). }
  pose proof (fcfs_fold_served (max_arrival sorted) sorted fcfs_init Hall
                (served_init _ (max_arrival_nonneg sorted))) as Hserved.
  simpl in *. eexists. split; [reflexivity|]. simpl.
  rewrite (max_arrival_perm _ _ Hperm) in Hserved.
  destruct (served_final processes _ _ _ (Plain.by_id localeCompare) Hserved)
    as (H1 & H2 & H3).
  { rewrite Hres. exact Hperm. }
  auto.
Qed.

(** ** Every policy: the times of the results *)

Lemma rr_solve_timed localeCompare fuel processes timeQuantum :
  valid_processes processes → 1 ≤ timeQuantum →
  (fuel_bound processes ≤ fuel)%nat →
  ∃ out,
    Plain.solveRR localeCompare fuel processes timeQuantum = Done out
    ∧ Forall (result_timed (deadline processes)) (Plain.results out)
    ∧ Forall (fun b => 1 ≤ duration b ≤ timeQuantum) (Plain.ganttChart out).
Proof.
  intros Hv Hq Hfuel. unfold Plain.solveRR.
  destruct (rr_loop_timed fuel processes timeQuantum Hv Hq Hfuel)
    as (s & -> & Htimed & Hslices & Hpos).
  eexists. split; [reflexivity|]. simpl.
  split; [by apply result_timed_sort|].
  unfold chart_positive in Hpos. rewrite Forall_forall in Hpos, Hslices.
  apply Forall_forall. intros b Hb. specialize (Hpos b Hb).
  specialize (Hslices b Hb). unfold duration in *. simpl in *. lia.
Qed.

Lemma mlfq_solve_timed localeCompare fuel processes timeQuantum :
  valid_processes processes → 1 ≤ timeQuantum →
  (fuel_bound processes ≤ fuel)%nat →
  ∃ out,
    Plain.solveMLFQ localeCompare fuel processes timeQuantum = Done out
    ∧ Forall (result_timed (deadline processes)) (Plain.results out)
    ∧ Forall (fun b => 1 ≤ duration b ≤ 2 * timeQuantum)
        (Plain.ganttChart out).
Proof.
  intros Hv Hq Hfuel. unfold Plain.solveMLFQ.
  destruct (mlfq_loop_timed fuel processes timeQuantum Hv Hq Hfuel)
    as (s & -> & Htimed & Hslices & Hpos).
  eexists. split; [reflexivity|]. simpl.
  split; [by apply result_timed_sort|].
  unfold chart_positive in Hpos. rewrite Forall_forall in Hpos, Hslices.
  apply Forall_forall. intros b Hb. specialize (Hpos b Hb).
  specialize (Hslices b Hb). unfold duration in *. simpl in *. lia.
Qed.

Lemma mlq_solve_timed localeCompare fuel processes timeQuantum :
  valid_processes processes → 1 ≤ timeQuantum →
  (fuel_bound processes ≤ fuel)%nat →
  ∃ out,
    Plain.solveMLQ localeCompare fuel processes timeQuantum = Done out
    ∧ Forall (result_timed (deadline processes)) (Plain.results out).
Proof.
  intros Hv Hq Hfuel. unfold Plain.solveMLQ.
  destruct (mlq_loop_extra fuel processes timeQuantum Hv Hq Hfuel)
    as (s & -> & _ & Htimed & _).
  eexists. split; [reflexivity|]. simpl. by apply result_timed_sort.
Qed.

Lemma plain_solve_timed localeCompare fuel algorithm processes timeQuantum :
  valid_processes processes → 1 ≤ timeQuantum →
  (fuel_bound processes ≤ fuel)%nat →
  ∃ out,
    (if (algorithm =? "SRTF (Preemptive)")%string
     then pr_solve_reset true Plain.srtf_scan localeCompare fuel processes
     else if (algorithm =? "Priority (Preemptive)")%string
     then pr_solve_reset true priop_scan localeCompare fuel processes
     else Plain.solve localeCompare fuel algorithm processes timeQuantum)
    = Done out
    ∧ Forall (result_timed (deadline processes)) (Plain.results out).
Proof.
  intros Hv Hq Hfuel.
  assert (Hnp : ∀ scan,
            (∀ sorted, valid_processes sorted → np_scan_ok scan sorted) →
            ∃ out, Plain.np_solve localeCompare scan fuel processes = Done out
                   ∧ Forall (result_timed (deadline processes))
                       (Plain.results out)).
  { intros scan Hscan.
    destruct (np_solve_served scan localeCompare fuel processes Hv Hscan Hfuel)
      as (out & ? & ? & _). eauto. }
  assert (Hfcfs : ∃ out, Plain.solveFCFS localeCompare processes = Done out
                         ∧ Forall (result_timed (deadline processes))
                             (Plain.results out)).
  { destruct (solveFCFS_served localeCompare processes Hv)
      as (out & ? & ? & _). eauto. }
  destruct (algorithm =? "SRTF (Preemptive)")%string eqn:E3.
  { apply pr_solve_timed; auto using srtf_scan_ok. }
  destruct (algorithm =? "Priority (Preemptive)")%string eqn:E5.
  { apply pr_solve_timed; auto using priop_scan_ok. }
  unfold Plain.solve. rewrite E3, E5.
  destruct (algorithm =? "FCFS")%string; [exact Hfcfs|].
  destruct (algorithm =? "SJF (Non-Preemptive)")%string.
  { apply Hnp. auto using sjf_scan_ok. }
  destruct (algorithm =? "Priority (Non-Preemptive)")%string.
  { apply Hnp. auto using prionp_scan_ok. }
  destruct (algorithm =? "Round Robin")%string.
  { destruct (rr_solve_timed localeCompare fuel processes timeQuantum
                Hv Hq Hfuel) as (out & ? & ? & _). eauto. }
  destruct (algorithm =? "LJF (Non-Preemptive)")%string.
  { apply Hnp. intros sorted Hs. by apply ljf_scan_ok, valid_bursts_nonneg. }
  destruct (algorithm =? "LRTF (Preemptive)")%string.
  { apply (pr_solve_timed false); auto using lrtf_scan_ok. }
  destruct (algorithm =? "HRRN")%string.
  { apply Hnp. intros sorted Hs. by apply hrrn_scan_ok, valid_bursts. }
  destruct (algorithm =? "Multilevel Queue")%string.
  { by apply mlq_solve_timed. }
  destruct (algorithm =? "Multilevel Feedback Queue (MLFQ)")%string.
  { destruct (mlfq_solve_timed localeCompare fuel processes timeQuantum
                Hv Hq Hfuel) as (out & ? & ? & _). eauto. }
  exact Hfcfs.
Qed.

(** An outcome of [scheduler.ts] from the one of its schedule. *)
Lemma logged_of_plain (o : outcome Logged.SchedulerOutput)
    (pout : Plain.SchedulerOutput) :
  outcome_map forget o = Done pout →
  ∃ out, o = Done out
         ∧ Logged.results out = Plain.results pout
         ∧ Logged.ganttChart out = Plain.ganttChart pout.
Proof.
  destruct o as [out| |]; simpl; [|discriminate|discriminate].
  intros [= <-]. exists out. auto.
Qed.

Lemma solve_timed localeCompare toFixed2 fuel algorithm processes timeQuantum :
  valid_processes processes → 1 ≤ timeQuantum →
  (fuel_bound processes ≤ fuel)%nat →
  ∃ out,
    Logged.solve localeCompare toFixed2 fuel algorithm processes timeQuantum
    = Done out
    ∧ Forall (result_timed (deadline processes)) (Logged.results out).
Proof.
  intros Hv Hq Hfuel.
  destruct (plain_solve_timed localeCompare fuel algorithm processes
              timeQuantum Hv Hq Hfuel) as (pout & Heq & Htimed).
  rewrite <- solve_forget with (toFixed2 := toFixed2) in Heq.
  destruct (logged_of_plain _ _ Heq) as (out & -> & Hres & _).
  exists out. split; [reflexivity|]. by rewrite Hres.
Qed.

(** X8. For every policy identifier, every process list that meets
    the input contract and every quantum of at least 1, no process of
    the output starts before it arrives, and every process ends no
    earlier than its start plus its burst: [arrivalTime <= startTime]
    and [startTime + burstTime <= endTime]. *)
Theorem start_times_sound localeCompare toFixed2 fuel algorithm processes
    timeQuantum :
  valid_processes processes → 1 ≤ timeQuantum →
  (fuel_bound processes ≤ fuel)%nat →
  ∃ out,
    Logged.solve localeCompare toFixed2 fuel algorithm processes timeQuantum
    = Done out
    ∧ Forall (fun r => arrivalTime (process r) ≤ startTime r
                       ∧ startTime r + burstTime (process r) ≤ endTime r)
        (Logged.results out).
Proof.
  intros Hv Hq Hfuel.
  destruct (solve_timed localeCompare toFixed2 fuel algorithm processes
              timeQuantum Hv Hq Hfuel) as (out & Heq & Htimed).
  exists out. split; [exact Heq|].
  eapply Forall_impl; [exact Htimed|]. unfold result_timed. intros r. tauto.
Qed.

Lemma start_times_sound_witness :
  ∃ out,
    Logged.solve code_order no_digits 20 "Multilevel Queue" sample 2 = Done out
    ∧ Forall (fun r => arrivalTime (process r) ≤ startTime r
                       ∧ startTime r + burstTime (process r) ≤ endTime r)
        (Logged.results out).
Proof.
  apply (start_times_sound code_order no_digits 20 "Multilevel Queue" sample 2).
  - exact valid_sample.
  - lia.
  - exact fuel_bound_sample.
Defined.

(** X9. For every policy identifier and every input as in X8, every
    process is finished by the latest arrival time plus the sum of
    all bursts. *)
Theorem finished_by_deadline localeCompare toFixed2 fuel algorithm processes
    timeQuantum :
  valid_processes processes → 1 ≤ timeQuantum →
  (fuel_bound processes ≤ fuel)%nat →
  ∃ out,
    Logged.solve localeCompare toFixed2 fuel algorithm processes timeQuantum
    = Done out
    ∧ Forall (fun r => endTime r
                       ≤ max_arrival processes
                         + sumZ (map burstTime processes))
        (Logged.results out).
Proof.
  intros Hv Hq Hfuel.
  destruct (solve_timed localeCompare toFixed2 fuel algorithm processes
              timeQuantum Hv Hq Hfuel) as (out & Heq & Htimed).
  exists out. split; [exact Heq|].
  eapply Forall_impl; [exact Htimed|]. unfold result_timed, deadline.
  intros r. tauto.
Qed.

Lemma finished_by_deadline_witness :
  ∃ out,
    Logged.solve code_order no_digits 20 "LRTF (Preemptive)" sample 2
    = Done out
    ∧ Forall (fun r => endTime r
                       ≤ max_arrival sample + sumZ (map burstTime sample))
        (Logged.results out).
Proof.
  apply (finished_by_deadline code_order no_digits 20 "LRTF (Preemptive)"
           sample 2).
  - exact valid_sample.
  - lia.
  - exact fuel_bound_sample.
Defined.

(** ** The policies one by one *)

(** X10. FCFS, SJF, the non-preemptive priority policy, LJF and HRRN
    never interrupt a process: on a valid input every result has
    [endTime = startTime + burstTime], and the chart consists of one
    block for each result, from its start time to its end time. *)
Theorem run_to_completion_blocks localeCompare toFixed2 fuel algorithm
    processes timeQuantum :
  run_to_completion algorithm = true →
  valid_processes processes →
  (fuel_bound processes ≤ fuel)%nat →
  ∃ out,
    Logged.solve localeCompare toFixed2 fuel algorithm processes timeQuantum
    = Done out
    ∧ Forall (fun r => endTime r = startTime r + burstTime (process r))
        (Logged.results out)
    ∧ Logged.ganttChart out ≡ₚ map block_of (Logged.results out).
Proof.
  intros Halg Hv Hfuel.
  assert (Hplain : ∃ pout,
            Plain.solve localeCompare fuel algorithm processes timeQuantum
            = Done pout
            ∧ Forall (fun r => endTime r = startTime r + burstTime (process r))
                (Plain.results pout)
            ∧ Plain.ganttChart pout ≡ₚ map block_of (Plain.results pout)).
  { assert (Hnp : ∀ scan,
              (∀ sorted, valid_processes sorted → np_scan_ok scan sorted) →
              ∃ pout,
                Plain.np_solve localeCompare scan fuel processes = Done pout
                ∧ Forall (fun r => endTime r
                                   = startTime r + burstTime (process r))
                    (Plain.results pout)
                ∧ Plain.ganttChart pout ≡ₚ map block_of (Plain.results pout)).
    { intros scan Hscan.
      destruct (np_solve_served scan localeCompare fuel processes Hv Hscan
                  Hfuel) as (out & ? & _ & ? & ?). eauto. }
    unfold run_to_completion in Halg. unfold Plain.solve.
    destruct (algorithm =? "FCFS")%string.
    { destruct (solveFCFS_served localeCompare processes Hv)
        as (out & ? & _ & ? & ? & _). eauto. }
    destruct (algorithm =? "SJF (Non-Preemptive)")%string eqn:E2.
    { apply Hnp. auto using sjf_scan_ok. }
    destruct (algorithm =? "SRTF (Preemptive)")%string eqn:E3.
    { apply String.eqb_eq in E3. subst algorithm. discriminate Halg. }
    destruct (algorithm =? "Priority (Non-Preemptive)")%string eqn:E4.
    { apply Hnp. auto using prionp_scan_ok. }
    destruct (algorithm =? "Priority (Preemptive)")%string eqn:E5.
    { apply String.eqb_eq in E5. subst algorithm. discriminate Halg. }
    destruct (algorithm =? "Round Robin")%string eqn:E6.
    { apply String.eqb_eq in E6. subst algorithm. discriminate Halg. }
    destruct (algorithm =? "LJF (Non-Preemptive)")%string eqn:E7.
    { apply Hnp. intros sorted Hs. by apply ljf_scan_ok, valid_bursts_nonneg. }
    destruct (algorithm =? "LRTF (Preemptive)")%string eqn:E8.
    { apply String.eqb_eq in E8. subst algorithm. discriminate Halg. }
    destruct (algorithm =? "HRRN")%string eqn:E9.
    { apply Hnp. intros sorted Hs. by apply hrrn_scan_ok, valid_bursts. }
    simpl in Halg. discriminate Halg. }
  destruct Hplain as (pout & Heq & Hrun & Hchart).
  pose proof (solve_forget localeCompare toFixed2 fuel algorithm processes
                timeQuantum) as Hforget.
  assert (Hno : (algorithm =? "SRTF (Preemptive)")%string = false
                ∧ (algorithm =? "Priority (Preemptive)")%string = false).
  { unfold run_to_completion in Halg.
    split; apply not_true_iff_false; intros E; apply String.eqb_eq in E;
      subst algorithm; discriminate Halg. }
  destruct Hno as [E3 E5]. rewrite E3, E5, Heq in Hforget.
  destruct (logged_of_plain _ _ Hforget) as (out & -> & Hres & Hg).
  exists out. split; [reflexivity|]. rewrite Hres, Hg. auto.
Qed.

Lemma run_to_completion_blocks_witness :
  ∃ out,
    Logged.solve code_order no_digits 20 "SJF (Non-Preemptive)" sample 2
    = Done out
    ∧ Forall (fun r => endTime r = startTime r + burstTime (process r))
        (Logged.results out)
    ∧ Logged.ganttChart out ≡ₚ map block_of (Logged.results out).
Proof.
  apply (run_to_completion_blocks code_order no_digits 20
           "SJF (Non-Preemptive)" sample 2).
  - reflexivity.
  - exact valid_sample.
  - exact fuel_bound_sample.
Defined.

(** X11. FCFS serves the processes in the order of their arrival
    times: on a valid input the chart has one block for each process,
    and the processes its blocks name, from first to last, have
    arrival times that never decrease. *)
Theorem fcfs_arrival_order localeCompare toFixed2 fuel processes timeQuantum :
  valid_processes processes →
  ∃ out order,
    Logged.solve localeCompare toFixed2 fuel "FCFS" processes timeQuantum
    = Done out
    ∧ order ≡ₚ processes
    ∧ StronglySorted (fun p p' => arrivalTime p ≤ arrivalTime p') order
    ∧ map processId (Logged.ganttChart out) = map id order.
Proof.
  intros Hv.
  destruct (solveFCFS_served localeCompare processes Hv)
    as (pout & Heq & _ & _ & _ & Horder).
  pose proof (solve_forget localeCompare toFixed2 fuel "FCFS" processes
                timeQuantum) as Hforget.
  change (outcome_map forget
            (Logged.solve localeCompare toFixed2 fuel "FCFS" processes
               timeQuantum)
          = Plain.solveFCFS localeCompare processes) in Hforget.
  rewrite Heq in Hforget.
  destruct (logged_of_plain _ _ Hforget) as (out & -> & _ & Hg).
  exists out, (js_sort by_arrival processes). split; [reflexivity|].
  split; [apply js_sort_perm|]. split; [apply by_arrival_sorted|].
  by rewrite Hg.
Qed.

Lemma fcfs_arrival_order_witness :
  ∃ out order,
    Logged.solve code_order no_digits 0 "FCFS" late_first 1 = Done out
    ∧ order ≡ₚ late_first
    ∧ StronglySorted (fun p p' => arrivalTime p ≤ arrivalTime p') order
    ∧ map processId (Logged.ganttChart out) = map id order.
Proof.
  apply (fcfs_arrival_order code_order no_digits 0 late_first 1).
  split; [split|].
  - simpl. repeat (constructor;
                   [rewrite ?elem_of_cons, elem_of_nil; intros H;
                    repeat (destruct H as [H|H]; [discriminate H|]); exact H|]).
    constructor.
  - repeat (constructor; [discriminate|]). constructor.
  - repeat (constructor; [simpl; lia|]). constructor.
Defined.

(** X12. Round Robin never lets a process run longer than the
    quantum at a time: on a valid input with a quantum of at least 1
    every block of the chart lasts at least 1 and at most
    [timeQuantum] units. *)
Theorem rr_slices_bounded localeCompare toFixed2 fuel processes timeQuantum :
  valid_processes processes → 1 ≤ timeQuantum →
  (fuel_bound processes ≤ fuel)%nat →
  ∃ out,
    Logged.solve localeCompare toFixed2 fuel "Round Robin" processes
      timeQuantum = Done out
    ∧ Forall (fun b => 1 ≤ blockEnd b - blockStart b ≤ timeQuantum)
        (Logged.ganttChart out).
Proof.
  intros Hv Hq Hfuel.
  destruct (rr_solve_timed localeCompare fuel processes timeQuantum
              Hv Hq Hfuel) as (pout & Heq & _ & Hslices).
  pose proof (solve_forget localeCompare toFixed2 fuel "Round Robin" processes
                timeQuantum) as Hforget.
  change (outcome_map forget
            (Logged.solve localeCompare toFixed2 fuel "Round Robin" processes
               timeQuantum)
          = Plain.solveRR localeCompare fuel processes timeQuantum) in Hforget.
  rewrite Heq in Hforget.
  destruct (logged_of_plain _ _ Hforget) as (out & -> & _ & Hg).
  exists out. split; [reflexivity|]. rewrite Hg. exact Hslices.
Qed.

Lemma rr_slices_bounded_witness :
  ∃ out,
    Logged.solve code_order no_digits 20 "Round Robin" sample 2 = Done out
    ∧ Forall (fun b => 1 ≤ blockEnd b - blockStart b ≤ 2)
        (Logged.ganttChart out).
Proof.
  apply (rr_slices_bounded code_order no_digits 20 sample 2).
  - exact valid_sample.
  - lia.
  - exact fuel_bound_sample.
Defined.

(** X13. The Multilevel Feedback Queue never lets a process run
    longer than twice the quantum at a time: on a valid input with a
    quantum of at least 1 every block of the chart lasts at least 1
    and at most [2 * timeQuantum] units. *)
Theorem mlfq_slices_bounded localeCompare toFixed2 fuel processes
    timeQuantum :
  valid_processes processes → 1 ≤ timeQuantum →
  (fuel_bound processes ≤ fuel)%nat →
  ∃ out,
    Logged.solve localeCompare toFixed2 fuel
      "Multilevel Feedback Queue (MLFQ)" processes timeQuantum = Done out
    ∧ Forall (fun b => 1 ≤ blockEnd b - blockStart b ≤ 2 * timeQuantum)
        (Logged.ganttChart out).
Proof.
  intros Hv Hq Hfuel.
  destruct (mlfq_solve_timed localeCompare fuel processes timeQuantum
              Hv Hq Hfuel) as (pout & Heq & _ & Hslices).
  pose proof (solve_forget localeCompare toFixed2 fuel
                "Multilevel Feedback Queue (MLFQ)" processes timeQuantum)
    as Hforget.
  change (outcome_map forget
            (Logged.solve localeCompare toFixed2 fuel
               "Multilevel Feedback Queue (MLFQ)" processes timeQuantum)
          = Plain.solveMLFQ localeCompare fuel processes timeQuantum)
    in Hforget.
  rewrite Heq in Hforget.
  destruct (logged_of_plain _ _ Hforget) as (out & -> & _ & Hg).
  exists out. split; [reflexivity|]. rewrite Hg. exact Hslices.
Qed.

Lemma mlfq_slices_bounded_witness :
  ∃ out,
    Logged.solve code_order no_digits 20 "Multilevel Feedback Queue (MLFQ)"
      sample 2 = Done out
    ∧ Forall (fun b => 1 ≤ blockEnd b - blockStart b ≤ 2 * 2)
        (Logged.ganttChart out).
Proof.
  apply (mlfq_slices_bounded code_order no_digits 20 sample 2).
  - exact valid_sample.
  - lia.
  - exact fuel_bound_sample.
Defined.

(** *** Multilevel Queue: the two queues *)

Lemma mlq_solve_blocks localeCompare toFixed2 fuel processes timeQuantum :
  valid_processes processes → 1 ≤ timeQuantum →
  (fuel_bound processes ≤ fuel)%nat →
  ∃ out,
    Logged.solve localeCompare toFixed2 fuel "Multilevel Queue" processes
      timeQuantum = Done out
    ∧ ∀ b p, b ∈ Logged.ganttChart out → p ∈ processes →
             processId b = id p →
             if priority p <=? 2 then duration b ≤ timeQuantum
             else duration b = 1
                  ∧ ∀ r, r ∈ Logged.results out →
                         priority (process r) ≤ 2 →
                         arrivalTime (process r) ≤ blockStart b →
                         endTime r ≤ blockStart b.
Proof.
  intros Hv Hq Hfuel.
  destruct (mlq_loop_extra fuel processes timeQuantum Hv Hq Hfuel)
    as (s & Heq & Hres & _ & Hchart).
  pose proof (solve_forget localeCompare toFixed2 fuel "Multilevel Queue"
                processes timeQuantum) as Hforget.
  change (outcome_map forget
            (Logged.solve localeCompare toFixed2 fuel "Multilevel Queue"
               processes timeQuantum)
          = Plain.solveMLQ localeCompare fuel processes timeQuantum)
    in Hforget.
  unfold Plain.solveMLQ in Hforget. rewrite Heq in Hforget. simpl in Hforget.
  destruct (logged_of_plain _ _ Hforget) as (out & -> & Hr & Hg).
  simpl in Hr, Hg. exists out. split; [reflexivity|].
  intros b p Hb Hp Hid. rewrite Hg in Hb.
  rewrite Forall_forall in Hchart.
  destruct (Hchart b Hb) as (i & Hi & Hidi & Hblock).
  apply list_elem_of_lookup in Hp as [k Hk].
  pose proof (lookup_lt_Some _ _ _ Hk) as Hklt.
  rewrite <- (list_lookup_total_correct _ _ _ Hk) in *.
  assert (k = i) as ->.
  { apply (ids_ok_inj processes); [apply Hv|exact Hklt|exact Hi|congruence]. }
  unfold high in Hblock. destruct (priority (processes !!! i) <=? 2);
    [exact Hblock|].
  destruct Hblock as [Hd Hprec]. split; [exact Hd|].
  intros r Hrin Hprio Harr. rewrite Hr in Hrin.
  rewrite js_sort_perm in Hrin.
  apply list_elem_of_lookup in Hrin as [j Hj].
  pose proof (lookup_lt_Some _ _ _ Hj) as Hjlt.
  rewrite (length_map_process _ _ Hres) in Hjlt.
  rewrite <- (list_lookup_total_correct _ _ _ Hj) in *.
  rewrite (process_lookup _ _ _ Hres Hjlt) in Hprio, Harr.
  apply (Hprec j Hjlt); [|exact Harr]. unfold high. by apply Z.leb_le.
Qed.

(** X14. In the Multilevel Queue a block of a process of queue 1
    (priority at most 2) lasts at most the quantum, and a block of a
    process of queue 2 (priority above 2) lasts exactly one unit. *)
Theorem mlq_slices localeCompare toFixed2 fuel processes timeQuantum :
  valid_processes processes → 1 ≤ timeQuantum →
  (fuel_bound processes ≤ fuel)%nat →
  ∃ out,
    Logged.solve localeCompare toFixed2 fuel "Multilevel Queue" processes
      timeQuantum = Done out
    ∧ ∀ b p, b ∈ Logged.ganttChart out → p ∈ processes →
             processId b = id p →
             if priority p <=? 2
             then blockEnd b - blockStart b ≤ timeQuantum
             else blockEnd b - blockStart b = 1.
Proof.
  intros Hv Hq Hfuel.
  destruct (mlq_solve_blocks localeCompare toFixed2 fuel processes timeQuantum
              Hv Hq Hfuel) as (out & Heq & Hblocks).
  exists out. split; [exact Heq|]. intros b p Hb Hp Hid.
  specialize (Hblocks b p Hb Hp Hid). unfold duration in Hblocks.
  destruct (priority p <=? 2); [exact Hblocks|apply Hblocks].
Qed.

Lemma mlq_slices_witness :
  ∃ out,
    Logged.solve code_order no_digits 20 "Multilevel Queue" sample 2
    = Done out
    ∧ ∀ b p, b ∈ Logged.ganttChart out → p ∈ sample →
             processId b = id p →
             if priority p <=? 2
             then blockEnd b - blockStart b ≤ 2
             else blockEnd b - blockStart b = 1.
Proof.
  apply (mlq_slices code_order no_digits 20 sample 2).
  - exact valid_sample.
  - lia.
  - exact fuel_bound_sample.
Defined.

(** X15. In the Multilevel Queue, queue 1 has precedence: whenever a
    process of queue 2 (priority above 2) is given a unit of time,
    every process of queue 1 (priority at most 2) that has arrived by
    then is already finished. *)
Theorem mlq_precedence localeCompare toFixed2 fuel processes timeQuantum :
  valid_processes processes → 1 ≤ timeQuantum →
  (fuel_bound processes ≤ fuel)%nat →
  ∃ out,
    Logged.solve localeCompare toFixed2 fuel "Multilevel Queue" processes
      timeQuantum = Done out
    ∧ ∀ b p r, b ∈ Logged.ganttChart out → p ∈ processes →
               processId b = id p → 2 < priority p →
               r ∈ Logged.results out → priority (process r) ≤ 2 →
               arrivalTime (process r) ≤ blockStart b →
               endTime r ≤ blockStart b.
Proof.
  intros Hv Hq Hfuel.
  destruct (mlq_solve_blocks localeCompare toFixed2 fuel processes timeQuantum
              Hv Hq Hfuel) as (out & Heq & Hblocks).
  exists out. split; [exact Heq|]. intros b p r Hb Hp Hid Hlow Hr Hhigh Harr.
  specialize (Hblocks b p Hb Hp Hid).
  destruct (Z.leb_spec (priority p) 2); [lia|].
  destruct Hblocks as [_ Hprec]. by apply Hprec.
Qed.

Lemma mlq_precedence_witness :
  ∃ out,
    Logged.solve code_order no_digits 20 "Multilevel Queue" sample 2
    = Done out
    ∧ ∀ b p r, b ∈ Logged.ganttChart out → p ∈ sample →
               processId b = id p → 2 < priority p →
               r ∈ Logged.results out → priority (process r) ≤ 2 →
               arrivalTime (process r) ≤ blockStart b →
               endTime r ≤ blockStart b.
Proof.
  apply (mlq_precedence code_order no_digits 20 sample 2).
  - exact valid_sample.
  - lia.
  - exact fuel_bound_sample.
Defined.

(** ** The output record *)

Lemma sum_fold_shift {A} (f : A → Z) (l : list A) (a : Z) :
  fold_left (fun acc curr => acc + f curr) l a = a + sumZ (map f l).
Proof.
  revert a. induction l as [|x l IH]; intros a; simpl.
  - unfold sumZ. simpl. lia.
  - rewrite IH. unfold sumZ. simpl. lia.
Qed.

Lemma sum_turnaround_sumZ results :
  sum_turnaround results = sumZ (map turnaroundTime results).
Proof. unfold sum_turnaround. by rewrite sum_fold_shift. Qed.

Lemma sum_waiting_sumZ results :
  sum_waiting results = sumZ (map waitingTime results).
Proof. unfold sum_waiting. by rewrite sum_fold_shift. Qed.

Lemma sum_turnaround_perm rs rs' :
  rs ≡ₚ rs' → sum_turnaround rs = sum_turnaround rs'.
Proof.
  intros Hp. rewrite !sum_turnaround_sumZ. apply sumZ_perm.
  change map with (@fmap list _). by rewrite Hp.
Qed.

Lemma sum_waiting_perm rs rs' :
  rs ≡ₚ rs' → sum_waiting rs = sum_waiting rs'.
Proof.
  intros Hp. rewrite !sum_waiting_sumZ. apply sumZ_perm.
  change map with (@fmap list _). by rewrite Hp.
Qed.

(** Every branch of [solve] builds its output with
    [calculateAverages]. *)
Lemma solve_output_shape localeCompare toFixed2 fuel algorithm processes
    timeQuantum out :
  Logged.solve localeCompare toFixed2 fuel algorithm processes timeQuantum
  = Done out →
  ∃ results ganttChart decisionLog,
    out = Logged.calculateAverages localeCompare results ganttChart
            decisionLog.
Proof.
  assert (Hfcfs : Logged.solveFCFS localeCompare processes = Done out →
            ∃ results ganttChart decisionLog,
              out = Logged.calculateAverages localeCompare results ganttChart
                      decisionLog).
  { unfold Logged.solveFCFS. destruct (fold_left _ _ _) as [s logs].
    intros [= <-]. eauto. }
  assert (Hloop : ∀ (S : Type) (o : outcome (S * list string))
                    (res : S → list ProcessResult) (g : S → list GanttBlock),
            outcome_map
              (fun '(s, logs) =>
                 Logged.calculateAverages localeCompare (res s) (g s) logs) o
            = Done out →
            ∃ results ganttChart decisionLog,
              out = Logged.calculateAverages localeCompare results ganttChart
                      decisionLog).
  { intros S [[s logs]| |] res g; simpl; [|discriminate|discriminate].
    intros [= <-]. eauto. }
  unfold Logged.solve.
  repeat (destruct (algorithm =? _)%string; [first [exact Hfcfs|apply Hloop]|]).
  exact Hfcfs.
Qed.

Lemma js_insert_sorted {A} (cmp : A → A → Z) (x : A) (l : list A) :
  (∀ a b, cmp a b ≤ 0 ∨ cmp b a ≤ 0) →
  (∀ a b c, cmp a b ≤ 0 → cmp b c ≤ 0 → cmp a c ≤ 0) →
  StronglySorted (fun a b => cmp a b ≤ 0) l →
  StronglySorted (fun a b => cmp a b ≤ 0) (js_insert cmp x l).
Proof.
  intros Htotal Htrans Hl. induction Hl as [|y l Hl IH Hy]; simpl.
  - constructor; constructor.
  - destruct (Z.leb_spec (cmp x y) 0) as [Hle|Hgt].
    + constructor; [by constructor|]. constructor; [exact Hle|].
      eapply Forall_impl; [exact Hy|]. simpl. intros z Hz.
      by apply (Htrans x y z).
    + constructor; [exact IH|]. rewrite js_insert_perm.
      constructor; [|exact Hy]. destruct (Htotal x y); [lia|assumption].
Qed.

Lemma js_sort_sorted {A} (cmp : A → A → Z) (l : list A) :
  (∀ a b, cmp a b ≤ 0 ∨ cmp b a ≤ 0) →
  (∀ a b c, cmp a b ≤ 0 → cmp b c ≤ 0 → cmp a c ≤ 0) →
  StronglySorted (fun a b => cmp a b ≤ 0) (js_sort cmp l).
Proof.
  intros Htotal Htrans. unfold js_sort.
  induction l as [|x l IH]; simpl; [constructor|].
  by apply js_insert_sorted.
Qed.

(** X17. [solve] returns the results in the order of the process
    names, whatever the order of service: for a collation
    [localeCompare] that is a total preorder, every result is ranked
    no later than the results that follow it. *)
Theorem results_in_name_order localeCompare toFixed2 fuel algorithm processes
    timeQuantum :
  (∀ a b, localeCompare a b ≤ 0 ∨ localeCompare b a ≤ 0) →
  (∀ a b c, localeCompare a b ≤ 0 → localeCompare b c ≤ 0 →
            localeCompare a c ≤ 0) →
  outcome_all
    (fun out =>
       StronglySorted
         (fun r r' => localeCompare (id (process r)) (id (process r')) ≤ 0)
         (Logged.results out))
    (Logged.solve localeCompare toFixed2 fuel algorithm processes timeQuantum).
Proof.
  intros Htotal Htrans.
  destruct (Logged.solve _ _ _ _ _ _) as [out| |] eqn:Heq; simpl; [|exact I..].
  destruct (solve_output_shape _ _ _ _ _ _ _ Heq) as (rs & g & l & ->).
  unfold Logged.calculateAverages. simpl.
  apply (js_sort_sorted (Logged.by_id localeCompare)); unfold Logged.by_id.
  - intros a b. apply Htotal.
  - intros a b c. apply Htrans.
Qed.

Lemma string_compare_trans (a b c : string) :
  String.compare a b ≠ Gt → String.compare b c ≠ Gt →
  String.compare a c ≠ Gt.
Proof.
  revert b c. induction a as [|x a IH]; intros [|y b] [|z c]; simpl;
    try congruence.
  unfold Ascii.compare.
  destruct (N.compare_spec (Ascii.N_of_ascii x) (Ascii.N_of_ascii y)) as [E1|L1|G1];
    destruct (N.compare_spec (Ascii.N_of_ascii y) (Ascii.N_of_ascii z)) as [E2|L2|G2];
    destruct (N.compare_spec (Ascii.N_of_ascii x) (Ascii.N_of_ascii z)) as [E3|L3|G3];
    try congruence; try lia.
  apply IH.
Qed.

Lemma code_order_le (a b : string) :
  code_order a b ≤ 0 ↔ String.compare a b ≠ Gt.
Proof. unfold code_order. destruct (String.compare a b); split; (lia || congruence). Qed.

Lemma code_order_total (a b : string) :
  code_order a b ≤ 0 ∨ code_order b a ≤ 0.
Proof.
  rewrite !code_order_le. rewrite (String.compare_antisym b a).
  destruct (String.compare a b); simpl; [left|left|right]; congruence.
Qed.

Lemma code_order_trans (a b c : string) :
  code_order a b ≤ 0 → code_order b c ≤ 0 → code_order a c ≤ 0.
Proof. rewrite !code_order_le. apply string_compare_trans. Qed.

Lemma results_in_name_order_witness :
  outcome_all
    (fun out =>
       StronglySorted
         (fun r r' => code_order (id (process r)) (id (process r')) ≤ 0)
         (Logged.results out))
    (Logged.solve code_order no_digits 20 "LJF (Non-Preemptive)" sample 2).
Proof.
  apply (results_in_name_order code_order no_digits 20 "LJF (Non-Preemptive)"
           sample 2).
  - exact code_order_total.
  - exact code_order_trans.
Defined.

Lemma result_ok_sums results :
  Forall result_ok results →
  sum_turnaround results - sum_waiting results
  = sumZ (map burstTime (map process results)).
Proof.
  rewrite sum_turnaround_sumZ, sum_waiting_sumZ.
  induction 1 as [|r rs (_ & Hw & _) _ IH]; unfold sumZ in *; simpl; lia.
Qed.

(** X18. For every policy identifier and every valid input, the
    turnaround times of the output exceed its waiting times, in sum,
    by the sum of the bursts of the input: every policy has the same
    difference between the two totals. *)
Theorem turnaround_minus_waiting localeCompare toFixed2 fuel algorithm
    processes timeQuantum :
  valid_processes processes → 1 ≤ timeQuantum →
  (fuel_bound processes ≤ fuel)%nat →
  ∃ out,
    Logged.solve localeCompare toFixed2 fuel algorithm processes timeQuantum
    = Done out
    ∧ sum_turnaround (Logged.results out) - sum_waiting (Logged.results out)
      = sumZ (map burstTime processes).
Proof.
  intros Hv Hq Hfuel.
  destruct (solve_ok localeCompare toFixed2 fuel algorithm processes
              timeQuantum Hv Hq Hfuel) as (out & Heq & Hok & _).
  exists out. split; [exact Heq|].
  rewrite (result_ok_sums _ (so_results _ _ _ Hok)).
  apply sumZ_perm. change map with (@fmap list _).
  by rewrite (so_all _ _ _ Hok).
Qed.

Lemma turnaround_minus_waiting_witness :
  ∃ out,
    Logged.solve code_order no_digits 20 "Priority (Preemptive)" sample 2
    = Done out
    ∧ sum_turnaround (Logged.results out) - sum_waiting (Logged.results out)
      = sumZ (map burstTime sample).
Proof.
  apply (turnaround_minus_waiting code_order no_digits 20
           "Priority (Preemptive)" sample 2).
  - exact valid_sample.
  - lia.
  - exact fuel_bound_sample.
Defined.

(** ** Arrivals *)

(** The search of Round Robin for the next arrival finds the process
    that was not visited and arrives earliest, the first of the list
    among equals; it finds none only when every process was visited. *)
Lemma rr_next_arrival_first processes visited :
  match rr_next_arrival processes visited with
  | (Some i, nextArr) =>
      (i < length processes)%nat ∧ is_set visited i = false
      ∧ nextArr = Fin (arrivalTime (processes !!! i))
      ∧ ∀ j, (j < length processes)%nat → is_set visited j = false →
             arrivalTime (processes !!! i) < arrivalTime (processes !!! j)
             ∨ (arrivalTime (processes !!! i) = arrivalTime (processes !!! j)
                ∧ (i ≤ j)%nat)
  | (None, _) =>
      ∀ j, (j < length processes)%nat → is_set visited j = true
  end.
Proof.
  unfold rr_next_arrival.
  cut (match for_loop (length processes) (rr_next_step processes visited)
               (None, Inf) with
       | (Some i, b) =>
           (i < length processes)%nat ∧ is_set visited i = false
           ∧ b = Fin (arrivalTime (processes !!! i))
           ∧ ∀ j, (j < length processes)%nat → is_set visited j = false →
                  arrivalTime (processes !!! i) < arrivalTime (processes !!! j)
                  ∨ (arrivalTime (processes !!! i)
                     = arrivalTime (processes !!! j) ∧ (i ≤ j)%nat)
       | (None, b) =>
           b = Inf
           ∧ ∀ j, (j < length processes)%nat → is_set visited j = true
       end).
  { destruct (for_loop _ _ _) as [[i|] b]; [auto|]. by intros [_ ?]. }
  apply (for_loop_ind
           (fun k acc =>
              match acc with
              | (Some i, b) =>
                  (i < k)%nat ∧ is_set visited i = false
                  ∧ b = Fin (arrivalTime (processes !!! i))
                  ∧ ∀ j, (j < k)%nat → is_set visited j = false →
                         arrivalTime (processes !!! i)
                         < arrivalTime (processes !!! j)
                         ∨ (arrivalTime (processes !!! i)
                            = arrivalTime (processes !!! j) ∧ (i ≤ j)%nat)
              | (None, b) =>
                  b = Inf ∧ ∀ j, (j < k)%nat → is_set visited j = true
              end)).
  - split; [reflexivity|]. lia.
  - intros k [[i|] b] Hk Hinv; unfold rr_next_step.
    + destruct Hinv as (Hi & Hu & -> & Hmin).
      destruct (is_set visited k) eqn:Hvk; simpl.
      * split; [lia|]. split; [exact Hu|]. split; [reflexivity|].
        intros j Hj Huj.
        destruct (decide (j = k)) as [->|]; [congruence|]. apply Hmin; [lia|auto].
      * destruct (Z.ltb_spec (arrivalTime (processes !!! k))
                    (arrivalTime (processes !!! i))).
        -- split; [lia|]. split; [exact Hvk|]. split; [reflexivity|].
           intros j Hj Huj.
           destruct (decide (j = k)) as [->|]; [lia|].
           specialize (Hmin j ltac:(lia) Huj). lia.
        -- split; [lia|]. split; [exact Hu|]. split; [reflexivity|].
           intros j Hj Huj.
           destruct (decide (j = k)) as [->|]; [lia|]. apply Hmin; [lia|auto].
    + destruct Hinv as (-> & Hall).
      destruct (is_set visited k) eqn:Hvk; simpl.
      * split; [reflexivity|]. intros j Hj.
        destruct (decide (j = k)) as [->|]; [exact Hvk|]. apply Hall. lia.
      * split; [lia|]. split; [exact Hvk|]. split; [reflexivity|].
        intros j Hj Huj.
        destruct (decide (j = k)) as [->|]; [lia|].
        specialize (Hall j ltac:(lia)). congruence.
Qed.

Lemma newcomers_sorted n visited ready :
  StronglySorted lt (newcomers n visited ready).
Proof. unfold newcomers. apply StronglySorted_filter, StronglySorted_seq. Qed.

(** X20. The arrival loop of the Multilevel Queue takes the processes
    that were not visited and have arrived by the clock, in the order
    of the list, marks them visited, and appends those of priority at
    most 2 to queue 1 and the others to queue 2; nothing else
    changes. The narrated loop of [scheduler.ts] does the same. *)
Theorem mlq_classification processes s logs :
  ∃ new,
    StronglySorted lt new
    ∧ (∀ i, i ∈ new ↔
            (i < length processes)%nat ∧ is_set (MLQ.visited s) i = false
            ∧ arrivalTime (processes !!! i) ≤ MLQ.currentTime s)
    ∧ mlq_arrivals processes s
      = MLQ.mk (MLQ.remainingTime s) (MLQ.results s) (MLQ.currentTime s)
          (MLQ.completed s) (MLQ.ganttChart s)
          (MLQ.q1 s
           ++ List.filter (fun i => priority (processes !!! i) <=? 2) new)
          (MLQ.q2 s
           ++ List.filter (fun i => negb (priority (processes !!! i) <=? 2))
                new)
          (mark_all new (MLQ.visited s))
    ∧ fst (Logged.mlq_arrivals_logged processes (s, logs))
      = mlq_arrivals processes s.
Proof.
  exists (newcomers (length processes) (MLQ.visited s)
            (arrived processes (MLQ.currentTime s))).
  split; [apply newcomers_sorted|]. split; [|split].
  - intros i. rewrite elem_of_newcomers. unfold arrived.
    rewrite Z.leb_le. reflexivity.
  - apply mlq_arrivals_spec.
  - apply mlq_arrivals_fst.
Qed.

(** X21. The arrival loop of the Multilevel Feedback Queue puts every
    process that was not visited and has arrived by the clock at the
    back of Q0, in the order of the list, whatever its priority or
    burst, and marks it visited; Q1 and Q2 are not touched. The
    narrated loop of [scheduler.ts] does the same. *)
Theorem mlfq_arrivals_enter_q0 processes note s logs :
  ∃ new,
    StronglySorted lt new
    ∧ (∀ i, i ∈ new ↔
            (i < length processes)%nat ∧ is_set (MLFQ.visited s) i = false
            ∧ arrivalTime (processes !!! i) ≤ MLFQ.currentTime s)
    ∧ mlfq_arrivals processes s
      = MLFQ.mk (MLFQ.remainingTime s) (MLFQ.results s) (MLFQ.currentTime s)
          (MLFQ.completed s) (MLFQ.ganttChart s) (MLFQ.q0 s ++ new)
          (MLFQ.q1 s) (MLFQ.q2 s) (mark_all new (MLFQ.visited s))
    ∧ fst (Logged.mlfq_arrivals_logged processes note (s, logs))
      = mlfq_arrivals processes s.
Proof.
  exists (newcomers (length processes) (MLFQ.visited s)
            (arrived processes (MLFQ.currentTime s))).
  split; [apply newcomers_sorted|]. split; [|split].
  - intros i. rewrite elem_of_newcomers. unfold arrived.
    rewrite Z.leb_le. reflexivity.
  - apply mlfq_arrivals_spec.
  - apply mlfq_arrivals_fst.
Qed.

(** *** Round Robin: whole quanta *)

Lemma rr_body_quanta processes timeQuantum s s' :
  valid_processes processes → 1 ≤ timeQuantum →
  rr_inv processes s → rr_cond (length processes) s = true →
  Forall (rr_block_ok processes timeQuantum (RR.remainingTime s) (RR.results s))
    (RR.ganttChart s) →
  Plain.rr_body processes timeQuantum s = Next s' →
  Forall (rr_block_ok processes timeQuantum (RR.remainingTime s')
            (RR.results s'))
    (RR.ganttChart s').
Proof.
  intros Hv Hq Hinv Hcond Hblocks.
  destruct (rr_refill_inv processes s Hv Hinv Hcond)
    as (s1 & idx & rest & Hrefill & Hqueue & Hrem & Hres & Hcomp & Hg & Hle
        & Hready & Hseen).
  destruct Hinv as (Hcore & _ & _ & _).
  pose proof (ci_length _ _ _ _ _ _ Hcore) as Hlen.
  pose proof (length_map_process _ _ (ci_results _ _ _ _ _ _ Hcore)) as Hlenr.
  assert (Hin : (idx < length processes)%nat
                ∧ is_set (RR.visited s1) idx = true
                ∧ 0 < RR.remainingTime s1 !!! idx).
  { apply (ri_mem _ _ _ _ Hready). rewrite Hqueue. apply elem_of_cons. auto. }
  destruct Hin as (Hidx & _ & Hpos). rewrite Hrem in Hpos.
  unfold Plain.rr_body. rewrite Hrefill, Hqueue. intros [= <-].
  rewrite rr_arrivals_spec. unfold rr_exec, rr_finish.
  cbn [RR.remainingTime RR.results RR.currentTime RR.completed RR.ganttChart
       RR.queue RR.visited].
  rewrite Hrem, Hres, Hg.
  set (t := RR.currentTime s1).
  set (d := Z.min timeQuantum (RR.remainingTime s !!! idx)).
  set (rem' := <[idx := RR.remainingTime s !!! idx - d]> (RR.remainingTime s)).
  assert (Hrem' : rem' !!! idx = RR.remainingTime s !!! idx - d).
  { unfold rem'. rewrite list_lookup_total_insert_eq; [reflexivity|lia]. }
  assert (Hstable : ∀ (c : bool) b,
            rr_block_ok processes timeQuantum (RR.remainingTime s)
              (RR.results s) b →
            rr_block_ok processes timeQuantum rem'
              (if c then finalize_from processes idx (t + d)
                           (mark_start idx t (RR.results s))
               else mark_start idx t (RR.results s)) b).
  { intros c b [Hfull|(i & Hi & Hid & Hz & He)]; [by left|]. right.
    assert (i ≠ idx) by (intros ->; lia).
    exists i. split; [exact Hi|]. split; [exact Hid|].
    unfold rem'. rewrite list_lookup_total_insert_ne by auto.
    split; [exact Hz|].
    rewrite lookup_slice_other; [exact He|lia|assumption]. }
  rewrite Hrem'.
  destruct (Z.ltb_spec 0 (RR.remainingTime s !!! idx - d)) as [Hlt|Hge];
    cbn [RR.remainingTime RR.results RR.currentTime RR.completed
         RR.ganttChart RR.queue RR.visited].
  - apply Forall_app. split.
    + eapply Forall_impl; [exact Hblocks|]. apply (Hstable false).
    + constructor; [|constructor]. left. unfold duration. simpl.
      unfold d in *. lia.
  - apply Forall_app. split.
    + eapply Forall_impl; [exact Hblocks|]. apply (Hstable true).
    + constructor; [|constructor]. right. exists idx.
      split; [exact Hidx|]. split; [reflexivity|].
      split; [rewrite Hrem'; unfold d in *; lia|].
      unfold finalize_from. rewrite list_lookup_total_insert_eq; [reflexivity|].
      rewrite length_mark_start. lia.
Qed.

(** X22. Round Robin gives a process whole quanta until its last
    slice: on a valid input with a quantum of at least 1, every block
    of the chart lasts exactly [timeQuantum] units, unless it is the
    block at whose end its process finishes. *)
Theorem rr_whole_quanta localeCompare toFixed2 fuel processes timeQuantum :
  valid_processes processes → 1 ≤ timeQuantum →
  (fuel_bound processes ≤ fuel)%nat →
  ∃ out,
    Logged.solve localeCompare toFixed2 fuel "Round Robin" processes
      timeQuantum = Done out
    ∧ Forall (fun b =>
                blockEnd b - blockStart b = timeQuantum
                ∨ ∃ r, r ∈ Logged.results out
                       ∧ id (process r) = processId b
                       ∧ endTime r = blockEnd b)
        (Logged.ganttChart out).
Proof.
  intros Hv Hq Hfuel.
  destruct (while_loop_total_with (rr_inv processes)
              (fun s => Forall (rr_block_ok processes timeQuantum
                                  (RR.remainingTime s) (RR.results s))
                          (RR.ganttChart s))
              (fun s => work_left processes (RR.remainingTime s)
                          (RR.currentTime s))
              (rr_cond (length processes))
              (Plain.rr_body processes timeQuantum)
              (fun s Hs Hc => rr_body_inv processes timeQuantum s Hv Hq Hs Hc)
              (fun s s' Hs Hc He Hb =>
                 rr_body_quanta processes timeQuantum s s' Hv Hq Hs Hc He Hb)
              fuel (rr_init processes) (rr_inv_init processes Hv))
    as (s & Heq & [Hcore _] & Hblocks & _).
  { rewrite rr_init_spec. simpl. constructor. }
  { rewrite rr_init_spec. simpl. rewrite work_left_init. exact Hfuel. }
  pose proof (solve_forget localeCompare toFixed2 fuel "Round Robin" processes
                timeQuantum) as Hforget.
  change (outcome_map forget
            (Logged.solve localeCompare toFixed2 fuel "Round Robin" processes
               timeQuantum)
          = Plain.solveRR localeCompare fuel processes timeQuantum) in Hforget.
  unfold Plain.solveRR in Hforget. rewrite Heq in Hforget. simpl in Hforget.
  destruct (logged_of_plain _ _ Hforget) as (out & -> & Hr & Hg).
  simpl in Hr, Hg. exists out. split; [reflexivity|]. rewrite Hg.
  eapply Forall_impl; [exact Hblocks|].
  intros b [Hfull|(i & Hi & Hid & _ & He)]; [left; exact Hfull|right].
  exists (RR.results s !!! i).
  pose proof (ci_results _ _ _ _ _ _ Hcore) as Hres.
  split; [|split].
  - rewrite Hr, js_sort_perm. apply list_elem_of_lookup_total_2.
    by rewrite (length_map_process _ _ Hres).
  - by rewrite (process_lookup _ _ _ Hres Hi).
  - exact He.
Qed.

Lemma rr_whole_quanta_witness :
  ∃ out,
    Logged.solve code_order no_digits 20 "Round Robin" sample 2 = Done out
    ∧ Forall (fun b =>
                blockEnd b - blockStart b = 2
                ∨ ∃ r, r ∈ Logged.results out
                       ∧ id (process r) = processId b
                       ∧ endTime r = blockEnd b)
        (Logged.ganttChart out).
Proof.
  apply (rr_whole_quanta code_order no_digits 20 sample 2).
  - exact valid_sample.
  - lia.
  - exact fuel_bound_sample.
Defined.

(** ** A quantum that is not positive *)

Lemma while_loop_diverges {S} (Inv : S → Prop) (cond : S → bool)
    (body : S → flow S) :
  (∀ s, Inv s → cond s = true ∧ ∃ s', body s = Next s' ∧ Inv s') →
  ∀ fuel s, Inv s → while_loop fuel cond body s = OutOfFuel.
Proof.
  intros Hstep. induction fuel as [|fuel IH]; intros s HI; simpl;
    destruct (Hstep s HI) as (-> & s' & Hb & HI'); [reflexivity|].
  rewrite Hb. by apply IH.
Qed.

Lemma rr_stuck_init processes :
  processes ≠ [] → Forall (fun p => 1 ≤ burstTime p) processes →
  rr_stuck processes (rr_init processes).
Proof.
  intros Hne Hb. rewrite rr_init_spec. unfold rr_stuck. simpl.
  set (seeds := newcomers _ _ _).
  split; [by rewrite length_map|]. split.
  { intros i Hi. rewrite lookup_total_map by exact Hi.
    rewrite Forall_lookup in Hb.
    apply (Hb i _ (list_lookup_lookup_total_lt processes i Hi)). }
  split; [reflexivity|]. split.
  { intros i Hi. apply elem_of_newcomers in Hi. tauto. }
  destruct seeds as [|i0 seeds'] eqn:E; [right|left; discriminate].
  exists 0%nat. split; [destruct processes; [congruence|simpl; lia]|].
  simpl. apply is_set_replicate_false.
Qed.

Lemma rr_stuck_body processes timeQuantum s :
  timeQuantum ≤ 0 → processes ≠ [] → rr_stuck processes s →
  rr_cond (length processes) s = true
  ∧ ∃ s', Plain.rr_body processes timeQuantum s = Next s'
          ∧ rr_stuck processes s'.
Proof.
  intros Hq Hne (Hlen & Hrem & Hc & Hqueue & Hsome). split.
  { unfold rr_cond. rewrite Hc. apply bool_decide_eq_true.
    destruct processes; [congruence|simpl; lia]. }
  assert (Hrefill : ∃ s1 idx rest,
            rr_refill processes s = Some s1 ∧ RR.queue s1 = idx :: rest
            ∧ (idx < length processes)%nat
            ∧ (∀ i, i ∈ rest → (i < length processes)%nat)
            ∧ RR.remainingTime s1 = RR.remainingTime s
            ∧ RR.completed s1 = RR.completed s).
  { unfold rr_refill. destruct (RR.queue s) as [|idx rest] eqn:E.
    - destruct Hsome as [?|(i & Hi & Hu)]; [congruence|].
      pose proof (rr_next_arrival_spec processes (RR.visited s)) as Hnext.
      destruct (rr_next_arrival processes (RR.visited s)) as [[j|] b].
      + destruct Hnext as (Hj & _). eexists _, j, []. unfold rr_jump.
        rewrite E. simpl. split; [reflexivity|]. split; [reflexivity|].
        split; [exact Hj|]. split; [|auto].
        intros k Hk. by apply elem_of_nil in Hk.
      + specialize (Hnext i Hi). congruence.
    - exists s, idx, rest. rewrite E. split; [reflexivity|].
      split; [reflexivity|]. split; [apply Hqueue, elem_of_cons; auto|].
      split; [|auto]. intros k Hk. apply Hqueue, elem_of_cons. auto. }
  destruct Hrefill as (s1 & idx & rest & Hr & Hq1 & Hidx & Hrest & Hrem1 & Hc1).
  unfold Plain.rr_body. rewrite Hr, Hq1. eexists. split; [reflexivity|].
  rewrite rr_arrivals_spec. unfold rr_exec, rr_finish.
  cbn [RR.remainingTime RR.results RR.currentTime RR.completed RR.ganttChart
       RR.queue RR.visited].
  rewrite Hrem1.
  pose proof (Hrem idx Hidx) as Hpos.
  assert (Hd : Z.min timeQuantum (RR.remainingTime s !!! idx) = timeQuantum)
    by lia.
  rewrite Hd.
  set (rem' := <[idx := RR.remainingTime s !!! idx - timeQuantum]>
                 (RR.remainingTime s)).
  assert (Hrem' : ∀ i, (i < length processes)%nat → 1 ≤ rem' !!! i).
  { intros i Hi. unfold rem'. destruct (decide (i = idx)) as [->|Hn].
    - rewrite list_lookup_total_insert_eq by lia. lia.
    - rewrite list_lookup_total_insert_ne by auto. by apply Hrem. }
  pose proof (Hrem' idx Hidx) as Hpos'.
  destruct (Z.ltb_spec 0 (rem' !!! idx)) as [_|?]; [|lia].
  unfold rr_stuck.
  cbn [RR.remainingTime RR.results RR.currentTime RR.completed RR.ganttChart
       RR.queue RR.visited].
  split; [unfold rem'; by rewrite length_insert|]. split; [exact Hrem'|].
  split; [congruence|]. split.
  - intros i. rewrite !elem_of_app, list_elem_of_singleton, elem_of_newcomers.
    intros [[Hi|Hi]| ->]; [by apply Hrest|tauto|exact Hidx].
  - left. intros E. by apply app_eq_nil in E as [_ ?].
Qed.

(** X23. Round Robin needs a positive quantum: with a quantum of 0 or
    less, on any non-empty process list whose bursts are at least 1,
    no slice ever lowers a remaining time, no process completes, and
    the loop never ends, whatever the number of rounds it is given. *)
Theorem rr_needs_positive_quantum localeCompare toFixed2 processes
    timeQuantum :
  timeQuantum ≤ 0 → processes ≠ [] →
  Forall (fun p => 1 ≤ burstTime p) processes →
  ∀ fuel,
    Logged.solve localeCompare toFixed2 fuel "Round Robin" processes
      timeQuantum = OutOfFuel.
Proof.
  intros Hq Hne Hb fuel.
  apply (outcome_map_out_of_fuel forget). rewrite solve_forget.
  change (Plain.solveRR localeCompare fuel processes timeQuantum = OutOfFuel).
  unfold Plain.solveRR.
  rewrite (while_loop_diverges (rr_stuck processes)); [reflexivity| |].
  - intros s Hs. by apply rr_stuck_body.
  - by apply rr_stuck_init.
Qed.

Lemma rr_needs_positive_quantum_witness :
  Logged.solve code_order no_digits 1000 "Round Robin" sample (-3)
  = OutOfFuel.
Proof.
  apply (rr_needs_positive_quantum code_order no_digits sample (-3)).
  - lia.
  - discriminate.
  - repeat (constructor; [simpl; lia|]). constructor.
Defined.

(** ** The comparison of the policies *)

Lemma compare_each_rows localeCompare toFixed2 fuel algos ps q rows :
  compare_each localeCompare toFixed2 fuel algos ps q = Done rows →
  map algo rows = algos
  ∧ Forall (row_of localeCompare toFixed2 fuel ps q) rows.
Proof.
  revert rows. induction algos as [|a algos IH]; intros rows; simpl.
  - intros [= <-]. split; [reflexivity|constructor].
  - destruct (Logged.solve localeCompare toFixed2 fuel a ps q) as [res| |] eqn:E;
      [|discriminate|discriminate].
    destruct (compare_each _ _ _ algos ps q) as [rows'| |];
      simpl; [|discriminate|discriminate].
    intros [= <-]. destruct (IH rows' eq_refl) as [Hmap Hall].
    split; [simpl; by rewrite Hmap|].
    constructor; [|exact Hall]. exists res. simpl. auto.
Qed.

Lemma compare_each_done localeCompare toFixed2 fuel algos ps q :
  (∀ a, a ∈ algos →
        ∃ out, Logged.solve localeCompare toFixed2 fuel a ps q = Done out) →
  ∃ rows, compare_each localeCompare toFixed2 fuel algos ps q = Done rows.
Proof.
  induction algos as [|a algos IH]; intros Hall; simpl; [eauto|].
  destruct (Hall a) as [out ->]; [apply elem_of_cons; auto|].
  destruct IH as [rows ->]; [|simpl; eauto].
  intros b Hb. apply Hall, elem_of_cons. auto.
Qed.

Lemma by_tat_le (a b : ComparisonResult) : by_tat a b ≤ 0 ↔ (tat a <= tat b)%Q.
Proof.
  unfold by_tat. rewrite Qle_alt.
  destruct (tat a ?= tat b)%Q; split; (lia || congruence).
Qed.

Lemma by_tat_sorted rows :
  StronglySorted (fun a b => (tat a <= tat b)%Q) (js_sort by_tat rows).
Proof.
  apply (StronglySorted_weaken (fun a b => by_tat a b ≤ 0) _ (fun _ => True)).
  - intros x y _ _. apply by_tat_le.
  - apply List.Forall_forall. auto.
  - apply js_sort_sorted.
    + intros a b. rewrite !by_tat_le. destruct (Qlt_le_dec (tat b) (tat a)).
      * right. by apply Qlt_le_weak.
      * left. assumption.
    + intros a b c. rewrite !by_tat_le. apply Qle_trans.
Qed.

(** X24. The comparison has a row for each of the eleven policies or
    none at all: for every process list and quantum, if
    [handleCompare] produces its table, then every policy has
    returned, each row holds the two averages of its policy's output,
    the rows name the eleven policies, each once, and they are in
    the order of their average turnaround times; a solver that
    throws or does not end makes the whole comparison fail. *)
Theorem comparison_complete localeCompare toFixed2 fuel numProcesses quantum :
  outcome_all
    (fun rows =>
       map algo rows ≡ₚ ALGORITHMS
       ∧ Forall (row_of localeCompare toFixed2 fuel numProcesses quantum) rows
       ∧ StronglySorted (fun a b => (tat a <= tat b)%Q) rows)
    (handleCompare localeCompare toFixed2 fuel numProcesses quantum).
Proof.
  unfold handleCompare.
  destruct (compare_each _ _ _ _ _ _) as [rows| |] eqn:E; simpl; [|exact I..].
  destruct (compare_each_rows _ _ _ _ _ _ _ E) as [Hmap Hall].
  split; [|split].
  - rewrite <- Hmap. change map with (@fmap list _).
    by rewrite js_sort_perm.
  - by rewrite js_sort_perm.
  - apply by_tat_sorted.
Qed.

(** X25. On every valid input and quantum of at least 1 the
    comparison succeeds: [handleCompare] produces eleven rows, one
    for each policy, in the order of their average turnaround times. *)
Theorem comparison_succeeds localeCompare toFixed2 fuel numProcesses quantum :
  valid_processes numProcesses → 1 ≤ quantum →
  (fuel_bound numProcesses ≤ fuel)%nat →
  ∃ rows,
    handleCompare localeCompare toFixed2 fuel numProcesses quantum = Done rows
    ∧ length rows = 11%nat
    ∧ map algo rows ≡ₚ ALGORITHMS
    ∧ StronglySorted (fun a b => (tat a <= tat b)%Q) rows.
Proof.
  intros Hv Hq Hfuel. unfold handleCompare.
  destruct (compare_each_done localeCompare toFixed2 fuel ALGORITHMS
              numProcesses quantum) as [rows E].
  { intros a _.
    destruct (solve_ok localeCompare toFixed2 fuel a numProcesses quantum
                Hv Hq Hfuel) as (out & ? & _). eauto. }
  rewrite E. simpl. eexists. split; [reflexivity|].
  destruct (compare_each_rows _ _ _ _ _ _ _ E) as [Hmap _].
  split; [|split].
  - rewrite js_sort_length, <- (length_map algo), Hmap. reflexivity.
  - rewrite <- Hmap. change map with (@fmap list _).
    by rewrite js_sort_perm.
  - apply by_tat_sorted.
Qed.

Lemma comparison_succeeds_witness :
  ∃ rows,
    handleCompare code_order no_digits 20 sample 2 = Done rows
    ∧ length rows = 11%nat
    ∧ map algo rows ≡ₚ ALGORITHMS
    ∧ StronglySorted (fun a b => (tat a <= tat b)%Q) rows.
Proof.
  apply (comparison_succeeds code_order no_digits 20 sample 2).
  - exact valid_sample.
  - lia.
  - exact fuel_bound_sample.
Defined.

(** ** No idle time while a process waits *)

Lemma covered_app_l g g' u : covered g u → covered (g ++ g') u.
Proof. intros (b & Hb & Hu). exists b. split; [|exact Hu]. apply elem_of_app. auto. Qed.

Lemma covered_snoc g pid t t' u : t ≤ u < t' → covered (g ++ [mkBlock pid t t']) u.
Proof.
  intros Hu. exists (mkBlock pid t t'). split; [|exact Hu].
  apply elem_of_app. right. apply list_elem_of_singleton. reflexivity.
Qed.

Lemma busy_inv_init processes g :
  valid_processes processes →
  busy_inv processes (map burstTime processes) (init_results processes) 0 g.
Proof.
  intros Hv i Hi u Ha Hu. destruct (burst_pos _ i Hv Hi) as [Harr Hb].
  rewrite lookup_total_map in Hu by exact Hi.
  destruct (Z.eqb_spec (burstTime (processes !!! i)) 0); lia.
Qed.

(** The clock advances to [t'] while every process that is not
    finished is still to arrive. *)
Lemma busy_inv_wait processes rem results t t' g :
  busy_inv processes rem results t g →
  (∀ i, (i < length processes)%nat → rem !!! i ≠ 0 →
        t' ≤ arrivalTime (processes !!! i)) →
  busy_inv processes rem results t' g.
Proof.
  intros Hinv Hlater i Hi u Ha Hu. apply (Hinv i Hi u Ha).
  destruct (Z.eqb_spec (rem !!! i) 0) as [Hz|Hnz]; [exact Hu|].
  specialize (Hlater i Hi Hnz). lia.
Qed.

(** A process that is not finished runs for [d] units from [t]; the
    new chart [g'] keeps what [g] covers and covers the slice. *)
Lemma busy_inv_run processes rem results results' t g g' idx d :
  busy_inv processes rem results t g →
  (idx < length rem)%nat → 1 ≤ d ≤ rem !!! idx →
  (∀ u, covered g u → covered g' u) →
  (∀ u, t ≤ u < t + d → covered g' u) →
  (∀ j, j ≠ idx → results' !!! j = results !!! j) →
  (rem !!! idx - d = 0 → endTime (results' !!! idx) = t + d) →
  busy_inv processes (<[idx := rem !!! idx - d]> rem) results' (t + d) g'.
Proof.
  intros Hinv Hidx Hd Hkeep Hnew Hother Hend i Hi u Ha Hu.
  destruct (Z.lt_ge_cases u t) as [Hlt|Hge].
  - apply Hkeep, (Hinv i Hi u Ha).
    destruct (decide (i = idx)) as [->|Hne].
    + destruct (Z.eqb_spec (rem !!! idx) 0); [lia|exact Hlt].
    + rewrite list_lookup_total_insert_ne in Hu by auto.
      rewrite (Hother i Hne) in Hu.
      destruct (Z.eqb_spec (rem !!! i) 0); [exact Hu|exact Hlt].
  - destruct (decide (i = idx)) as [->|Hne].
    + apply Hnew. split; [exact Hge|].
      rewrite list_lookup_total_insert_eq in Hu by exact Hidx.
      destruct (Z.eqb_spec (rem !!! idx - d) 0) as [Hz|Hnz]; [|exact Hu].
      rewrite (Hend Hz) in Hu. exact Hu.
    + rewrite list_lookup_total_insert_ne in Hu by auto.
      rewrite (Hother i Hne) in Hu.
      destruct (Z.eqb_spec (rem !!! i) 0) as [Hz|Hnz].
      * apply Hkeep, (Hinv i Hi u Ha).
        destruct (Z.eqb_spec (rem !!! i) 0); [exact Hu|contradiction].
      * apply Hnew. lia.
Qed.

Lemma slice_end processes idx t t' results :
  (idx < length results)%nat →
  endTime (finalize_from processes idx t' (mark_start idx t results) !!! idx)
  = t'.
Proof.
  intros Hidx. unfold finalize_from.
  rewrite list_lookup_total_insert_eq; [reflexivity|].
  by rewrite length_mark_start.
Qed.

(** The slice of a queue-based solver. *)
Lemma busy_inv_slice processes rem results t completed g idx d :
  core_inv processes rem results t completed g →
  busy_inv processes rem results t g →
  (idx < length processes)%nat → 1 ≤ d ≤ rem !!! idx →
  busy_inv processes (<[idx := rem !!! idx - d]> rem)
    (if rem !!! idx - d =? 0
     then finalize_from processes idx (t + d) (mark_start idx t results)
     else mark_start idx t results)
    (t + d) (g ++ [mkBlock (id (processes !!! idx)) t (t + d)]).
Proof.
  intros Hcore Hinv Hidx Hd.
  pose proof (ci_length _ _ _ _ _ _ Hcore) as Hlen.
  pose proof (length_map_process _ _ (ci_results _ _ _ _ _ _ Hcore)) as Hlenr.
  apply (busy_inv_run processes rem results _ t g); auto.
  - lia.
  - intros u. apply covered_app_l.
  - intros u. apply covered_snoc.
  - intros j Hne. apply lookup_slice_other; [lia|exact Hne].
  - intros Hz. rewrite Hz. simpl. apply slice_end. lia.
Qed.

Lemma busy_inv_final processes rem results t g :
  map process results = processes →
  busy_inv processes rem results t g →
  (∀ i, (i < length processes)%nat → rem !!! i = 0) →
  never_idle results g.
Proof.
  intros Hres Hinv Hzero r u Hr [Ha Hu].
  apply list_elem_of_lookup in Hr as [i Hi].
  pose proof (lookup_lt_Some _ _ _ Hi) as Hlt.
  rewrite (length_map_process _ _ Hres) in Hlt.
  rewrite <- (list_lookup_total_correct _ _ _ Hi) in *.
  rewrite (process_lookup _ _ _ Hres Hlt) in Ha.
  apply (Hinv i Hlt u Ha). rewrite (Hzero i Hlt). exact Hu.
Qed.

Lemma never_idle_sort results g (cmp : ProcessResult → ProcessResult → Z) :
  never_idle results g → never_idle (js_sort cmp results) g.
Proof.
  intros H r u Hr. apply H. by rewrite js_sort_perm in Hr.
Qed.

(** *** The preemptive solvers *)

Lemma covered_extend g0 b u :
  covered (g0 ++ [b]) u →
  covered (g0 ++ [mkBlock (processId b) (blockStart b) (blockEnd b + 1)]) u.
Proof.
  intros (b1 & Hb1 & Hu). apply elem_of_app in Hb1 as [Hb1|Hb1].
  - exists b1. split; [|exact Hu]. apply elem_of_app. auto.
  - apply list_elem_of_singleton in Hb1. subst b1.
    eexists. split; [apply elem_of_app; right; by apply list_elem_of_singleton|].
    simpl. lia.
Qed.

Lemma pr_body_busy reset scan processes s s' :
  valid_processes processes → pr_scan_ok scan processes →
  pr_inv processes s → pr_cond (length processes) s = true →
  busy_inv processes (PR.remainingTime s) (PR.results s) (PR.currentTime s)
    (PR.ganttChart s)
  ∧ pr_tail processes s →
  pr_body reset scan processes s = Next s' →
  busy_inv processes (PR.remainingTime s') (PR.results s') (PR.currentTime s')
    (PR.ganttChart s')
  ∧ pr_tail processes s'.
Proof.
  intros Hv Hscan [Hcore [Halt Hlast]] Hcond [Hbusy Htail].
  destruct s as [rem res t c g last]. unfold pr_tail in *. simpl in *.
  pose proof (ci_length _ _ _ _ _ _ Hcore) as Hlen.
  pose proof (length_map_process _ _ (ci_results _ _ _ _ _ _ Hcore)) as Hlenr.
  unfold pr_body. simpl. specialize (Hscan rem t).
  destruct (scan processes rem t) as [[idx|]|]; [| |contradiction].
  - destruct Hscan as (Hidx & Hpos & Harr).
    pose proof (ids_ok_nonempty _ _ (proj1 Hv) Hidx) as Hne.
    assert (Hrem_idx : <[idx := rem !!! idx - 1]> rem !!! idx = rem !!! idx - 1).
    { rewrite list_lookup_total_insert_eq; [reflexivity|lia]. }
    assert (Hother : ∀ (c0 : bool) j, j ≠ idx →
              (if c0 then finalize idx (t + 1) (mark_start idx t res)
               else mark_start idx t res) !!! j = res !!! j).
    { intros c0 j Hj. destruct c0.
      - rewrite lookup_finalize by (rewrite length_mark_start; lia).
        rewrite decide_False by exact Hj.
        rewrite lookup_mark_start by lia. by rewrite decide_False.
      - rewrite lookup_mark_start by lia. by rewrite decide_False. }
    assert (Hend : endTime (finalize idx (t + 1) (mark_start idx t res) !!! idx)
                   = t + 1).
    { rewrite lookup_finalize by (rewrite length_mark_start; lia).
      by rewrite decide_True. }
    assert (Hstep : ∀ g',
              (∀ u, covered g u → covered g' u) →
              (∀ u, t ≤ u < t + 1 → covered g' u) →
              ∀ c0 : bool, (rem !!! idx - 1 = 0 → c0 = true) →
              busy_inv processes (<[idx := rem !!! idx - 1]> rem)
                (if c0 then finalize idx (t + 1) (mark_start idx t res)
                 else mark_start idx t res) (t + 1) g').
    { intros g' Hkeep Hnew c0 Hc0.
      apply (busy_inv_run processes rem res _ t g); auto; try lia.
      intros Hz. rewrite (Hc0 Hz). exact Hend. }
    assert (Htail' : ∀ g' : list GanttBlock,
              (∀ g0 b, g' = g0 ++ [b] →
                       processId b = id (processes !!! idx)
                       ∧ blockEnd b = t + 1) →
              ∀ g0 b, g' = g0 ++ [b] →
                ∃ j, (j < length processes)%nat
                     ∧ processId b = id (processes !!! j)
                     ∧ arrivalTime (processes !!! j) ≤ t + 1
                     ∧ (0 < <[idx := rem !!! idx - 1]> rem !!! j →
                        blockEnd b = t + 1)).
    { intros g' Hg' g0 b Heq. destruct (Hg' g0 b Heq) as [Hid He].
      exists idx. split; [exact Hidx|]. split; [exact Hid|].
      split; [lia|]. auto. }
    unfold pr_run. simpl.
    destruct (String.eqb_spec last (id (processes !!! idx))) as [Heq|Hneq];
      simpl.
    + (* the block of the same process is extended *)
      destruct Hlast as [[_ ->]|(g0 & b & j & -> & Hj & Hb & Hl)];
        [congruence|].
      destruct Hl as [Hl|[Hl _]]; [|congruence].
      assert (j = idx) as ->.
      { apply (ids_ok_inj processes); [apply Hv|exact Hj|exact Hidx|congruence]. }
      destruct (Htail g0 b eq_refl) as (j & Hj' & Hbj & _ & Hnow).
      assert (j = idx) as ->.
      { apply (ids_ok_inj processes); [apply Hv|exact Hj'|exact Hidx|congruence]. }
      specialize (Hnow Hpos).
      assert (Hstart : blockStart b < blockEnd b).
      { destruct (ci_chart _ _ _ _ _ _ Hcore) as [_ Hall].
        rewrite Forall_app in Hall. destruct Hall as [_ Hall].
        apply Forall_cons in Hall as [(? & _) _]. assumption. }
      rewrite extend_last_snoc.
      pose proof (Hstep (g0 ++ [mkBlock (processId b) (blockStart b)
                                  (blockEnd b + 1)])
                    (covered_extend g0 b)) as Hnew.
      assert (Hcov : ∀ u, t ≤ u < t + 1 →
                covered (g0 ++ [mkBlock (processId b) (blockStart b)
                                  (blockEnd b + 1)]) u).
      { intros u Hu. eexists. split;
          [apply elem_of_app; right; by apply list_elem_of_singleton|].
        simpl. lia. }
      specialize (Hnew Hcov).
      assert (Hlastb : ∀ g1 b1,
                g0 ++ [mkBlock (processId b) (blockStart b) (blockEnd b + 1)]
                = g1 ++ [b1] →
                processId b1 = id (processes !!! idx) ∧ blockEnd b1 = t + 1).
      { intros g1 b1 E. apply app_inj_tail in E as [_ <-]. simpl.
        split; [exact Hb|lia]. }
      rewrite Hrem_idx.
      destruct (Z.eqb_spec (rem !!! idx - 1) 0) as [Hz|Hnz]; intros [= <-];
        simpl; (split; [|by apply Htail']).
      * apply (Hnew true). auto.
      * apply (Hnew false). intros ?. contradiction.
    + (* a new block *)
      pose proof (Hstep (g ++ [mkBlock (id (processes !!! idx)) t (t + 1)])
                    (fun u => covered_app_l g _ u)
                    (fun u => covered_snoc g _ t (t + 1) u)) as Hnew.
      assert (Hlastb : ∀ g1 b1,
                g ++ [mkBlock (id (processes !!! idx)) t (t + 1)] = g1 ++ [b1] →
                processId b1 = id (processes !!! idx) ∧ blockEnd b1 = t + 1).
      { intros g1 b1 E. apply app_inj_tail in E as [_ <-]. simpl. auto. }
      rewrite Hrem_idx.
      destruct (Z.eqb_spec (rem !!! idx - 1) 0) as [Hz|Hnz]; intros [= <-];
        simpl; (split; [|by apply Htail']).
      * apply (Hnew true). auto.
      * apply (Hnew false). intros ?. contradiction.
  - intros [= <-]. unfold pr_idle. simpl. split.
    + apply (busy_inv_wait _ _ _ t); [exact Hbusy|].
      intros i Hi Hnz. pose proof (ci_range _ _ _ _ _ _ Hcore i Hi).
      specialize (Hscan i Hi ltac:(lia)). lia.
    + intros g0 b E. destruct (Htail g0 b E) as (j & Hj & Hb & Ha & Hnow).
      exists j. split; [exact Hj|]. split; [exact Hb|]. split; [lia|].
      intros Hpos. specialize (Hscan j Hj Hpos). lia.
Qed.

Lemma pr_solve_busy reset scan localeCompare fuel processes :
  valid_processes processes → pr_scan_ok scan processes →
  (fuel_bound processes ≤ fuel)%nat →
  ∃ out,
    pr_solve_reset reset scan localeCompare fuel processes = Done out
    ∧ never_idle (Plain.results out) (Plain.ganttChart out).
Proof.
  intros Hv Hscan Hfuel. unfold pr_solve_reset.
  destruct (while_loop_total_with (pr_inv processes)
              (fun s => busy_inv processes (PR.remainingTime s) (PR.results s)
                          (PR.currentTime s) (PR.ganttChart s)
                        ∧ pr_tail processes s)
              (fun s => work_left processes (PR.remainingTime s)
                          (PR.currentTime s))
              (pr_cond (length processes))
              (pr_body reset scan processes)
              (fun s Hs Hc => pr_body_inv reset scan processes s Hv Hscan Hs Hc)
              (fun s s' Hs Hc He Hb =>
                 pr_body_busy reset scan processes s s' Hv Hscan Hs Hc He Hb)
              fuel (pr_init processes) (pr_inv_init processes Hv))
    as (s & -> & [Hcore _] & [Hbusy _] & Hcond).
  - split; [apply (busy_inv_init processes [] Hv)|].
    intros g0 b E. simpl in E. by destruct g0.
  - simpl. rewrite work_left_init. exact Hfuel.
  - eexists. split; [reflexivity|]. simpl. apply never_idle_sort.
    apply (busy_inv_final processes (PR.remainingTime s) _ (PR.currentTime s));
      [apply (ci_results _ _ _ _ _ _ Hcore)|exact Hbusy|].
    apply (core_inv_all_done _ _ _ _ _ _ Hcore).
    unfold pr_cond in Hcond. apply bool_decide_eq_false in Hcond. lia.
Qed.

(** *** The queue-based solvers *)

(** With the ready queues empty, every process that is not finished
    is still to arrive. *)
Lemma idle_all_later processes rem results t completed g visited :
  core_inv processes rem results t completed g →
  ready_inv processes rem visited [] →
  none_waiting processes visited t →
  ∀ i, (i < length processes)%nat → rem !!! i ≠ 0 →
       t + 1 ≤ arrivalTime (processes !!! i).
Proof.
  intros Hcore Hready Hnone i Hi Hnz.
  pose proof (ci_range _ _ _ _ _ _ Hcore i Hi) as Hr.
  assert (t < arrivalTime (processes !!! i)); [|lia].
  apply Hnone; [exact Hi|].
  destruct (is_set visited i) eqn:E; [|reflexivity].
  assert (i ∈ @nil nat) as Hin.
  { apply (ri_mem _ _ _ _ Hready). split; [exact Hi|]. split; [exact E|lia]. }
  by apply elem_of_nil in Hin.
Qed.

Lemma rr_refill_busy processes s s1 :
  rr_inv processes s → rr_refill processes s = Some s1 →
  busy_inv processes (RR.remainingTime s) (RR.results s) (RR.currentTime s)
    (RR.ganttChart s) →
  busy_inv processes (RR.remainingTime s) (RR.results s) (RR.currentTime s1)
    (RR.ganttChart s).
Proof.
  intros (Hcore & Hready & Hseen & Hnone). unfold rr_refill.
  destruct (RR.queue s) eqn:Hq; [|by intros [= <-]].
  pose proof (rr_next_arrival_spec processes (RR.visited s)) as Hnext.
  destruct (rr_next_arrival processes (RR.visited s)) as [[k|] b];
    [|discriminate].
  destruct Hnext as (Hk & _ & -> & Hmin). intros [= <-]. simpl.
  intros Hbusy. apply (busy_inv_wait _ _ _ (RR.currentTime s)); [exact Hbusy|].
  intros i Hi Hnz. apply (Hmin i Hi).
  pose proof (ci_range _ _ _ _ _ _ Hcore i Hi) as Hr.
  destruct (is_set (RR.visited s) i) eqn:E; [|reflexivity].
  assert (i ∈ @nil nat) as Hin.
  { apply (ri_mem _ _ _ _ Hready). split; [exact Hi|]. split; [exact E|lia]. }
  by apply elem_of_nil in Hin.
Qed.

Lemma rr_body_busy processes timeQuantum s s' :
  valid_processes processes → 1 ≤ timeQuantum →
  rr_inv processes s → rr_cond (length processes) s = true →
  busy_inv processes (RR.remainingTime s) (RR.results s) (RR.currentTime s)
    (RR.ganttChart s) →
  Plain.rr_body processes timeQuantum s = Next s' →
  busy_inv processes (RR.remainingTime s') (RR.results s') (RR.currentTime s')
    (RR.ganttChart s').
Proof.
  intros Hv Hq Hinv Hcond Hbusy.
  destruct (rr_refill_inv processes s Hv Hinv Hcond)
    as (s1 & idx & rest & Hrefill & Hqueue & Hrem & Hres & Hcomp & Hg & Hle
        & Hready & Hseen).
  pose proof (rr_refill_busy _ _ _ Hinv Hrefill Hbusy) as Hbusy1.
  destruct Hinv as (Hcore & _ & _ & _).
  assert (Hcore1 : core_inv processes (RR.remainingTime s) (RR.results s)
                     (RR.currentTime s1) (RR.completed s) (RR.ganttChart s)).
  { by apply (core_inv_later _ _ _ (RR.currentTime s)). }
  assert (Hin : (idx < length processes)%nat
                ∧ is_set (RR.visited s1) idx = true
                ∧ 0 < RR.remainingTime s1 !!! idx).
  { apply (ri_mem _ _ _ _ Hready). rewrite Hqueue. apply elem_of_cons. auto. }
  destruct Hin as (Hidx & Hvis & Hpos). rewrite Hrem in Hpos.
  assert (Hd : 1 ≤ Z.min timeQuantum (RR.remainingTime s !!! idx)
               ≤ RR.remainingTime s !!! idx) by lia.
  pose proof (busy_inv_slice processes (RR.remainingTime s) (RR.results s)
                (RR.currentTime s1) (RR.completed s) (RR.ganttChart s) idx
                (Z.min timeQuantum (RR.remainingTime s !!! idx))
                Hcore1 Hbusy1 Hidx Hd) as Hnew.
  unfold Plain.rr_body. rewrite Hrefill, Hqueue. intros [= <-].
  rewrite rr_arrivals_spec. unfold rr_exec, rr_finish.
  cbn [RR.remainingTime RR.results RR.currentTime RR.completed RR.ganttChart
       RR.queue RR.visited].
  rewrite Hrem, Hres, Hg.
  set (d := Z.min timeQuantum (RR.remainingTime s !!! idx)) in *.
  set (rem' := <[idx := RR.remainingTime s !!! idx - d]> (RR.remainingTime s))
    in *.
  assert (Hrem' : rem' !!! idx = RR.remainingTime s !!! idx - d).
  { unfold rem'. rewrite list_lookup_total_insert_eq; [reflexivity|].
    rewrite (ci_length _ _ _ _ _ _ Hcore). exact Hidx. }
  rewrite Hrem'.
  destruct (Z.ltb_spec 0 (RR.remainingTime s !!! idx - d)) as [Hlt|Hge];
    cbn [RR.remainingTime RR.results RR.currentTime RR.completed
         RR.ganttChart RR.queue RR.visited].
  - destruct (Z.eqb_spec (RR.remainingTime s !!! idx - d) 0); [lia|].
    exact Hnew.
  - destruct (Z.eqb_spec (RR.remainingTime s !!! idx - d) 0);
      [|unfold d in *; lia].
    exact Hnew.
Qed.

Lemma rr_solve_busy localeCompare fuel processes timeQuantum :
  valid_processes processes → 1 ≤ timeQuantum →
  (fuel_bound processes ≤ fuel)%nat →
  ∃ out,
    Plain.solveRR localeCompare fuel processes timeQuantum = Done out
    ∧ never_idle (Plain.results out) (Plain.ganttChart out).
Proof.
  intros Hv Hq Hfuel. unfold Plain.solveRR.
  destruct (while_loop_total_with (rr_inv processes)
              (fun s => busy_inv processes (RR.remainingTime s)
                          (RR.results s) (RR.currentTime s) (RR.ganttChart s))
              (fun s => work_left processes (RR.remainingTime s)
                          (RR.currentTime s))
              (rr_cond (length processes))
              (Plain.rr_body processes timeQuantum)
              (fun s Hs Hc => rr_body_inv processes timeQuantum s Hv Hq Hs Hc)
              (fun s s' Hs Hc He Hb =>
                 rr_body_busy processes timeQuantum s s' Hv Hq Hs Hc He Hb)
              fuel (rr_init processes) (rr_inv_init processes Hv))
    as (s & -> & [Hcore _] & Hbusy & Hcond).
  - rewrite rr_init_spec. simpl. by apply busy_inv_init.
  - rewrite rr_init_spec. simpl. rewrite work_left_init. exact Hfuel.
  - eexists. split; [reflexivity|]. simpl. apply never_idle_sort.
    apply (busy_inv_final processes (RR.remainingTime s) _ (RR.currentTime s));
      [apply (ci_results _ _ _ _ _ _ Hcore)|exact Hbusy|].
    apply (core_inv_all_done _ _ _ _ _ _ Hcore).
    unfold rr_cond in Hcond. apply bool_decide_eq_false in Hcond. lia.
Qed.

Lemma mlq_body_busy processes timeQuantum s s' :
  valid_processes processes → 1 ≤ timeQuantum →
  mlq_inv processes s → mlq_cond (length processes) s = true →
  busy_inv processes (MLQ.remainingTime s) (MLQ.results s) (MLQ.currentTime s)
    (MLQ.ganttChart s) →
  Plain.mlq_body processes timeQuantum s = Next s' →
  busy_inv processes (MLQ.remainingTime s') (MLQ.results s')
    (MLQ.currentTime s') (MLQ.ganttChart s').
Proof.
  intros Hv Hq (Hcore & Hready & Hseen) Hcond Hbusy.
  pose proof (ci_length _ _ _ _ _ _ Hcore) as Hlen.
  unfold Plain.mlq_body. rewrite mlq_arrivals_spec. mlq_fields.
  change (fun i : nat => priority (processes !!! i) <=? 2)
    with (high processes).
  set (new0 := newcomers (length processes) (MLQ.visited s)
                 (arrived processes (MLQ.currentTime s))).
  set (lo := fun i : nat => negb (high processes i)).
  change (fun i : nat => negb (priority (processes !!! i) <=? 2)) with lo.
  set (q1A := MLQ.q1 s ++ List.filter (high processes) new0).
  set (q2A := MLQ.q2 s ++ List.filter lo new0).
  assert (Hsplit : ∀ l, List.filter (high processes) l ++ List.filter lo l ≡ₚ l)
    by (intros l; apply filter_split_perm).
  destruct (arrivals_inv processes (MLQ.remainingTime s) (MLQ.visited s)
              (MLQ.q1 s ++ MLQ.q2 s) (MLQ.currentTime s) (q1A ++ q2A)
              Hv Hready Hseen) as (HreadyA & HseenA & HnoneA).
  { unfold q1A, q2A. fold new0.
    etrans; [|apply Permutation_app; [reflexivity|apply (Hsplit new0)]].
    solve_Permutation. }
  fold new0 in HreadyA, HseenA, HnoneA.
  set (t := MLQ.currentTime s) in *.
  set (visitedA := mark_all new0 (MLQ.visited s)) in *.
  assert (Hrun : ∀ idx d, idx ∈ q1A ++ q2A →
            (0 < MLQ.remainingTime s !!! idx →
             1 ≤ d ≤ MLQ.remainingTime s !!! idx) →
            let rem' := <[idx := MLQ.remainingTime s !!! idx - d]>
                          (MLQ.remainingTime s) in
            rem' !!! idx = MLQ.remainingTime s !!! idx - d
            ∧ 0 < MLQ.remainingTime s !!! idx
            ∧ busy_inv processes rem'
                (if MLQ.remainingTime s !!! idx - d =? 0
                 then finalize_from processes idx (t + d)
                        (mark_start idx t (MLQ.results s))
                 else mark_start idx t (MLQ.results s)) (t + d)
                (MLQ.ganttChart s
                 ++ [mkBlock (id (processes !!! idx)) t (t + d)])).
  { intros idx d Hin Hd rem'.
    apply (ri_mem _ _ _ _ HreadyA) in Hin. destruct Hin as (Hidx & _ & Hpos).
    specialize (Hd Hpos).
    split; [|split; [exact Hpos|]].
    - unfold rem'. rewrite list_lookup_total_insert_eq; [reflexivity|lia].
    - apply (busy_inv_slice processes (MLQ.remainingTime s) (MLQ.results s)
               t (MLQ.completed s) (MLQ.ganttChart s) idx d); auto. }
  destruct q1A as [|idx rest] eqn:Eq1A.
  - destruct q2A as [|idx rest2] eqn:Eq2A.
    + (* idle *)
      intros [= <-]. unfold mlq_idle. mlq_fields.
      apply (busy_inv_wait _ _ _ t); [exact Hbusy|].
      apply (idle_all_later _ _ _ _ _ _ visitedA Hcore HreadyA HnoneA).
    + (* queue 2 *)
      destruct (Hrun idx 1) as (Hrem' & Hpos & Hnew);
        [apply elem_of_cons; auto|lia|].
      unfold mlq_exec2. mlq_fields. rewrite Hrem'. revert Hnew.
      destruct (_ =? 0); intros Hnew [= <-]; mlq_fields; exact Hnew.
  - (* queue 1 *)
    destruct (Hrun idx (Z.min timeQuantum (MLQ.remainingTime s !!! idx)))
      as (Hrem' & Hpos & Hnew); [apply elem_of_cons; auto|lia|].
    rewrite mlq_arrivals_spec. unfold mlq_exec1, mlq_finish1. mlq_fields.
    set (d := Z.min timeQuantum (MLQ.remainingTime s !!! idx)) in *.
    rewrite Hrem'.
    destruct (Z.ltb_spec 0 (MLQ.remainingTime s !!! idx - d)) as [Hlt|Hge];
      intros [= <-]; mlq_fields.
    + destruct (Z.eqb_spec (MLQ.remainingTime s !!! idx - d) 0); [lia|].
      exact Hnew.
    + destruct (Z.eqb_spec (MLQ.remainingTime s !!! idx - d) 0);
        [|unfold d in *; lia].
      exact Hnew.
Qed.

Lemma mlq_solve_busy localeCompare fuel processes timeQuantum :
  valid_processes processes → 1 ≤ timeQuantum →
  (fuel_bound processes ≤ fuel)%nat →
  ∃ out,
    Plain.solveMLQ localeCompare fuel processes timeQuantum = Done out
    ∧ never_idle (Plain.results out) (Plain.ganttChart out).
Proof.
  intros Hv Hq Hfuel. unfold Plain.solveMLQ.
  destruct (while_loop_total_with (mlq_inv processes)
              (fun s => busy_inv processes (MLQ.remainingTime s)
                          (MLQ.results s) (MLQ.currentTime s)
                          (MLQ.ganttChart s))
              (fun s => work_left processes (MLQ.remainingTime s)
                          (MLQ.currentTime s))
              (mlq_cond (length processes))
              (Plain.mlq_body processes timeQuantum)
              (fun s Hs Hc => mlq_body_inv processes timeQuantum s Hv Hq Hs Hc)
              (fun s s' Hs Hc He Hb =>
                 mlq_body_busy processes timeQuantum s s' Hv Hq Hs Hc He Hb)
              fuel (mlq_init processes) (mlq_inv_init processes Hv))
    as (s & -> & [Hcore _] & Hbusy & Hcond).
  - simpl. by apply busy_inv_init.
  - simpl. rewrite work_left_init. exact Hfuel.
  - eexists. split; [reflexivity|]. simpl. apply never_idle_sort.
    apply (busy_inv_final processes (MLQ.remainingTime s) _ (MLQ.currentTime s));
      [apply (ci_results _ _ _ _ _ _ Hcore)|exact Hbusy|].
    apply (core_inv_all_done _ _ _ _ _ _ Hcore).
    unfold mlq_cond in Hcond. apply bool_decide_eq_false in Hcond. lia.
Qed.

Lemma mlfq_body_busy processes timeQuantum s s' :
  valid_processes processes → 1 ≤ timeQuantum →
  mlfq_inv processes s → mlfq_cond (length processes) s = true →
  busy_inv processes (MLFQ.remainingTime s) (MLFQ.results s)
    (MLFQ.currentTime s) (MLFQ.ganttChart s) →
  Plain.mlfq_body processes timeQuantum s = Next s' →
  busy_inv processes (MLFQ.remainingTime s') (MLFQ.results s')
    (MLFQ.currentTime s') (MLFQ.ganttChart s').
Proof.
  intros Hv Hq (Hcore & Hready & Hseen) Hcond Hbusy.
  pose proof (ci_length _ _ _ _ _ _ Hcore) as Hlen.
  unfold Plain.mlfq_body. rewrite mlfq_arrivals_spec. unfold mlfq_pick.
  mlfq_fields.
  set (new0 := newcomers (length processes) (MLFQ.visited s)
                 (arrived processes (MLFQ.currentTime s))).
  set (q0A := MLFQ.q0 s ++ new0).
  set (t := MLFQ.currentTime s) in *.
  set (visitedA := mark_all new0 (MLFQ.visited s)).
  destruct (arrivals_inv processes (MLFQ.remainingTime s) (MLFQ.visited s)
              (MLFQ.q0 s ++ MLFQ.q1 s ++ MLFQ.q2 s) t
              (q0A ++ MLFQ.q1 s ++ MLFQ.q2 s)
              Hv Hready Hseen) as (HreadyA & HseenA & HnoneA).
  { unfold q0A. fold new0. solve_Permutation. }
  fold new0 visitedA in HreadyA, HseenA, HnoneA.
  assert (Hhead : ∀ idx l1 l2 l3, q0A ++ MLFQ.q1 s ++ MLFQ.q2 s
                                  = l1 ++ l2 ++ idx :: l3 →
                    (idx < length processes)%nat
                    ∧ 0 < MLFQ.remainingTime s !!! idx).
  { intros idx l1 l2 l3 Heq.
    assert (idx ∈ q0A ++ MLFQ.q1 s ++ MLFQ.q2 s) as Hi.
    { rewrite Heq, !elem_of_app, elem_of_cons. auto. }
    apply (ri_mem _ _ _ _ HreadyA) in Hi. destruct Hi as (Hi & Hvis & Hpos).
    split; [exact Hi|exact Hpos]. }
  assert (Hrun : ∀ idx d,
            (idx < length processes)%nat →
            1 ≤ d ≤ MLFQ.remainingTime s !!! idx →
            let rem' := <[idx := MLFQ.remainingTime s !!! idx - d]>
                          (MLFQ.remainingTime s) in
            rem' !!! idx = MLFQ.remainingTime s !!! idx - d
            ∧ busy_inv processes rem'
                (if MLFQ.remainingTime s !!! idx - d =? 0
                 then finalize_from processes idx (t + d)
                        (mark_start idx t (MLFQ.results s))
                 else mark_start idx t (MLFQ.results s)) (t + d)
                (MLFQ.ganttChart s
                 ++ [mkBlock (id (processes !!! idx)) t (t + d)])).
  { intros idx d Hidx Hd rem'. split.
    - unfold rem'. rewrite list_lookup_total_insert_eq; [reflexivity|lia].
    - apply (busy_inv_slice processes (MLFQ.remainingTime s) (MLFQ.results s)
               t (MLFQ.completed s) (MLFQ.ganttChart s) idx d); auto. }
  destruct q0A as [|idx rest] eqn:Hq0A;
    [destruct (MLFQ.q1 s) as [|idx rest] eqn:Hq1;
     [destruct (MLFQ.q2 s) as [|idx rest] eqn:Hq2|]|].
  - (* idle *)
    intros [= <-]. unfold mlfq_idle. mlfq_fields.
    apply (busy_inv_wait _ _ _ t); [exact Hbusy|].
    apply (idle_all_later _ _ _ _ _ _ visitedA Hcore HreadyA HnoneA).
  - (* queue 2 *)
    destruct (Hhead idx [] [] rest eq_refl) as (Hidx & Hpos).
    destruct (Hrun idx 1 Hidx ltac:(lia)) as (Hrem' & Hnew).
    rewrite mlfq_arrivals_spec. unfold mlfq_exec, mlfq_finish. mlfq_fields.
    change (2 =? 2)%nat with true. change (2 =? 0)%nat with false.
    change (2 =? 1)%nat with false. cbv iota.
    rewrite Hrem'.
    destruct (MLFQ.remainingTime s !!! idx - 1 =? 0); intros [= <-];
      mlfq_fields; assumption.
  - (* queue 1 *)
    destruct (Hhead idx [] [] (rest ++ MLFQ.q2 s) eq_refl) as (Hidx & Hpos).
    assert (Hd : 1 ≤ Z.min (MLFQ.remainingTime s !!! idx) (timeQuantum * 2)
                 ≤ MLFQ.remainingTime s !!! idx) by lia.
    destruct (Hrun idx _ Hidx Hd) as (Hrem' & Hnew).
    rewrite mlfq_arrivals_spec. unfold mlfq_exec, mlfq_finish. mlfq_fields.
    change (1 =? 2)%nat with false. change (1 =? 0)%nat with false.
    change (1 =? 1)%nat with true. cbv iota. unfold min_bound.
    rewrite Hrem'.
    destruct (_ =? 0); intros [= <-]; mlfq_fields; assumption.
  - (* queue 0 *)
    destruct (Hhead idx [] [] (rest ++ MLFQ.q1 s ++ MLFQ.q2 s) eq_refl)
      as (Hidx & Hpos).
    assert (Hd : 1 ≤ Z.min (MLFQ.remainingTime s !!! idx) timeQuantum
                 ≤ MLFQ.remainingTime s !!! idx) by lia.
    destruct (Hrun idx _ Hidx Hd) as (Hrem' & Hnew).
    rewrite mlfq_arrivals_spec. unfold mlfq_exec, mlfq_finish. mlfq_fields.
    change (0 =? 2)%nat with false. change (0 =? 0)%nat with true. cbv iota.
    unfold min_bound. rewrite Hrem'.
    destruct (_ =? 0); intros [= <-]; mlfq_fields; assumption.
Qed.

Lemma mlfq_solve_busy localeCompare fuel processes timeQuantum :
  valid_processes processes → 1 ≤ timeQuantum →
  (fuel_bound processes ≤ fuel)%nat →
  ∃ out,
    Plain.solveMLFQ localeCompare fuel processes timeQuantum = Done out
    ∧ never_idle (Plain.results out) (Plain.ganttChart out).
Proof.
  intros Hv Hq Hfuel. unfold Plain.solveMLFQ.
  destruct (while_loop_total_with (mlfq_inv processes)
              (fun s => busy_inv processes (MLFQ.remainingTime s)
                          (MLFQ.results s) (MLFQ.currentTime s)
                          (MLFQ.ganttChart s))
              (fun s => work_left processes (MLFQ.remainingTime s)
                          (MLFQ.currentTime s))
              (mlfq_cond (length processes))
              (Plain.mlfq_body processes timeQuantum)
              (fun s Hs Hc => mlfq_body_inv processes timeQuantum s Hv Hq Hs Hc)
              (fun s s' Hs Hc He Hb =>
                 mlfq_body_busy processes timeQuantum s s' Hv Hq Hs Hc He Hb)
              fuel (mlfq_init processes) (mlfq_inv_init processes Hv))
    as (s & -> & [Hcore _] & Hbusy & Hcond).
  - simpl. by apply busy_inv_init.
  - simpl. rewrite work_left_init. exact Hfuel.
  - eexists. split; [reflexivity|]. simpl. apply never_idle_sort.
    apply (busy_inv_final processes (MLFQ.remainingTime s) _
             (MLFQ.currentTime s));
      [apply (ci_results _ _ _ _ _ _ Hcore)|exact Hbusy|].
    apply (core_inv_all_done _ _ _ _ _ _ Hcore).
    unfold mlfq_cond in Hcond. apply bool_decide_eq_false in Hcond. lia.
Qed.

(** *** The run-to-completion solvers *)

(** A process that has arrived runs its whole burst from [t]. *)
Lemma never_idle_run results g t (p : Process) :
  never_idle results g →
  (∀ u, arrivalTime p ≤ u < t → covered g u) →
  never_idle
    (results ++ [mkResult p t (t + burstTime p)
                   (t + burstTime p - arrivalTime p) (t - arrivalTime p)])
    (g ++ [mkBlock (id p) t (t + burstTime p)]).
Proof.
  intros Hres Hp r u Hr Hu. apply elem_of_app in Hr as [Hr|Hr].
  - apply covered_app_l. by apply (Hres r).
  - apply list_elem_of_singleton in Hr. subst r. simpl in Hu.
    destruct (Z.lt_ge_cases u t).
    + apply covered_app_l, Hp. lia.
    + apply covered_snoc. lia.
Qed.

Lemma np_body_busy scan sorted s s' :
  np_scan_ok scan sorted →
  np_inv sorted s → np_cond (length sorted) s = true →
  never_idle (NP.results s) (NP.ganttChart s)
  ∧ (∀ i, (i < length sorted)%nat → is_set (NP.isCompleted s) i = false →
     ∀ u, arrivalTime (sorted !!! i) ≤ u < NP.currentTime s →
          covered (NP.ganttChart s) u) →
  np_body scan sorted s = Next s' →
  never_idle (NP.results s') (NP.ganttChart s')
  ∧ (∀ i, (i < length sorted)%nat → is_set (NP.isCompleted s') i = false →
     ∀ u, arrivalTime (sorted !!! i) ≤ u < NP.currentTime s' →
          covered (NP.ganttChart s') u).
Proof.
  intros Hscan [Hlen _ _ _ _] Hcond [Hres Hfree].
  destruct s as [t c isC res g]. simpl in *.
  unfold np_body. simpl. specialize (Hscan isC t).
  destruct (scan sorted isC t) as [[idx|]|]; [| |contradiction].
  - destruct Hscan as (Hidx & Hfr & Harr). intros [= <-].
    unfold np_run. simpl. split.
    + apply never_idle_run; [exact Hres|]. apply (Hfree idx Hidx Hfr).
    + intros i Hi Hfi u Hu. rewrite is_set_insert in Hfi.
      destruct (decide _); [discriminate|].
      destruct (Z.lt_ge_cases u t).
      * apply covered_app_l, (Hfree i Hi Hfi). lia.
      * apply covered_snoc. lia.
  - intros [= <-]. unfold np_idle. simpl. split; [exact Hres|].
    intros i Hi Hfi u Hu. specialize (Hscan i Hi Hfi). lia.
Qed.

Lemma never_idle_nil g : never_idle [] g.
Proof. intros r u Hr. by apply elem_of_nil in Hr. Qed.

Lemma np_solve_busy scan localeCompare fuel processes :
  valid_processes processes →
  (∀ sorted, valid_processes sorted → np_scan_ok scan sorted) →
  (fuel_bound processes ≤ fuel)%nat →
  ∃ out,
    Plain.np_solve localeCompare scan fuel processes = Done out
    ∧ never_idle (Plain.results out) (Plain.ganttChart out).
Proof.
  intros Hv Hscan Hfuel. unfold Plain.np_solve.
  set (sorted := js_sort by_arrival processes).
  assert (Hperm : sorted ≡ₚ processes) by apply js_sort_perm.
  assert (Hvs : valid_processes sorted).
  { apply (valid_processes_perm processes); [by symmetry|exact Hv]. }
  assert (Hlen : length processes = length sorted).
  { symmetry. apply js_sort_length. }
  rewrite Hlen.
  destruct (while_loop_total_with (np_inv sorted)
              (fun s =>
                 never_idle (NP.results s) (NP.ganttChart s)
                 ∧ (∀ i, (i < length sorted)%nat →
                      is_set (NP.isCompleted s) i = false →
                      ∀ u, arrivalTime (sorted !!! i) ≤ u < NP.currentTime s →
                           covered (NP.ganttChart s) u))
              (np_left sorted)
              (np_cond (length sorted)) (np_body scan sorted)
              (fun s Hs Hc => np_body_inv scan sorted s Hvs (Hscan _ Hvs) Hs Hc)
              (fun s s' Hs Hc He Hb =>
                 np_body_busy scan sorted s s' (Hscan _ Hvs) Hs Hc He Hb)
              fuel (np_init (length sorted)) (np_inv_init sorted))
    as (s & -> & Hinv & [Hbusy _] & Hcond).
  - simpl. split; [apply never_idle_nil|]. intros i Hi _ u Hu.
    destruct (burst_pos _ i Hvs Hi). lia.
  - unfold np_left. simpl.
    rewrite <- (fuel_bound_perm _ _ Hperm) in Hfuel. unfold fuel_bound in Hfuel.
    pose proof (length_le_sum_burst sorted (proj2 Hvs)). lia.
  - eexists. split; [reflexivity|]. simpl. by apply never_idle_sort.
Qed.

Lemma fcfs_fold_busy sorted :
  ∀ s : FCFS.state,
    StronglySorted (fun p p' => arrivalTime p ≤ arrivalTime p') sorted →
    never_idle (FCFS.results s) (FCFS.ganttChart s) →
    (∀ p, p ∈ sorted →
     ∀ u, arrivalTime p ≤ u < FCFS.currentTime s →
          covered (FCFS.ganttChart s) u) →
    let s' := fold_left fcfs_run sorted s in
    never_idle (FCFS.results s') (FCFS.ganttChart s').
Proof.
  induction sorted as [|p sorted IH]; intros s Hsorted Hres Hrest;
    [exact Hres|].
  simpl. apply StronglySorted_inv in Hsorted as [Hsorted Hp].
  rewrite Forall_forall in Hp.
  apply IH; [exact Hsorted| |]; unfold fcfs_run; simpl.
  - apply never_idle_run; [exact Hres|]. intros u Hu.
    apply (Hrest p); [apply elem_of_cons; auto|].
    destruct (Z.ltb_spec (FCFS.currentTime s) (arrivalTime p)); lia.
  - intros q Hq u Hu. specialize (Hp q Hq).
    destruct (Z.ltb_spec (FCFS.currentTime s) (arrivalTime p)).
    + apply covered_snoc. lia.
    + destruct (Z.lt_ge_cases u (FCFS.currentTime s)).
      * apply covered_app_l, (Hrest q); [apply elem_of_cons; auto|lia].
      * apply covered_snoc. lia.
Qed.

Lemma solveFCFS_busy localeCompare processes :
  valid_processes processes →
  ∃ out,
    Plain.solveFCFS localeCompare processes = Done out
    ∧ never_idle (Plain.results out) (Plain.ganttChart out).
Proof.
  intros Hv. unfold Plain.solveFCFS. eexists. split; [reflexivity|]. simpl.
  apply never_idle_sort.
  apply (fcfs_fold_busy (js_sort by_arrival processes) fcfs_init).
  - apply by_arrival_sorted.
  - apply never_idle_nil.
  - simpl. intros p Hp u Hu. rewrite js_sort_perm in Hp.
    apply list_elem_of_lookup in Hp as [i Hi].
    pose proof (lookup_lt_Some _ _ _ Hi) as Hlt.
    destruct (burst_pos _ i Hv Hlt) as [Ha _].
    rewrite (list_lookup_total_correct _ _ _ Hi) in Ha. lia.
Qed.

(** *** Every policy *)

Lemma plain_solve_busy localeCompare fuel algorithm processes timeQuantum :
  valid_processes processes → 1 ≤ timeQuantum →
  (fuel_bound processes ≤ fuel)%nat →
  ∃ out,
    (if (algorithm =? "SRTF (Preemptive)")%string
     then pr_solve_reset true Plain.srtf_scan localeCompare fuel processes
     else if (algorithm =? "Priority (Preemptive)")%string
     then pr_solve_reset true priop_scan localeCompare fuel processes
     else Plain.solve localeCompare fuel algorithm processes timeQuantum)
    = Done out
    ∧ never_idle (Plain.results out) (Plain.ganttChart out).
Proof.
  intros Hv Hq Hfuel.
  pose proof (fun scan Hscan =>
    np_solve_busy scan localeCompare fuel processes Hv Hscan Hfuel) as Hnp.
  pose proof (solveFCFS_busy localeCompare processes Hv) as Hfcfs.
  destruct (algorithm =? "SRTF (Preemptive)")%string eqn:E3.
  { apply pr_solve_busy; auto using srtf_scan_ok. }
  destruct (algorithm =? "Priority (Preemptive)")%string eqn:E5.
  { apply pr_solve_busy; auto using priop_scan_ok. }
  unfold Plain.solve. rewrite E3, E5.
  destruct (algorithm =? "FCFS")%string; [exact Hfcfs|].
  destruct (algorithm =? "SJF (Non-Preemptive)")%string.
  { apply Hnp. auto using sjf_scan_ok. }
  destruct (algorithm =? "Priority (Non-Preemptive)")%string.
  { apply Hnp. auto using prionp_scan_ok. }
  destruct (algorithm =? "Round Robin")%string.
  { by apply rr_solve_busy. }
  destruct (algorithm =? "LJF (Non-Preemptive)")%string.
  { apply Hnp. intros sorted Hs. by apply ljf_scan_ok, valid_bursts_nonneg. }
  destruct (algorithm =? "LRTF (Preemptive)")%string.
  { apply (pr_solve_busy false); auto using lrtf_scan_ok. }
  destruct (algorithm =? "HRRN")%string.
  { apply Hnp. intros sorted Hs. by apply hrrn_scan_ok, valid_bursts. }
  destruct (algorithm =? "Multilevel Queue")%string.
  { by apply mlq_solve_busy. }
  destruct (algorithm =? "Multilevel Feedback Queue (MLFQ)")%string.
  { by apply mlfq_solve_busy. }
  exact Hfcfs.
Qed.

(** X26. For every policy identifier, every process list that meets
    the input contract and every quantum of at least 1, the processor
    is never idle while a process waits: for every result and every
    time [u] with [arrivalTime <= u < endTime], some block of the
    chart has [start <= u < end]. *)
Theorem no_idle_while_waiting localeCompare toFixed2 fuel algorithm processes
    timeQuantum :
  valid_processes processes → 1 ≤ timeQuantum →
  (fuel_bound processes ≤ fuel)%nat →
  ∃ out,
    Logged.solve localeCompare toFixed2 fuel algorithm processes timeQuantum
    = Done out
    ∧ ∀ r u, r ∈ Logged.results out →
             arrivalTime (process r) ≤ u < endTime r →
             ∃ b, b ∈ Logged.ganttChart out ∧ blockStart b ≤ u < blockEnd b.
Proof.
  intros Hv Hq Hfuel.
  destruct (plain_solve_busy localeCompare fuel algorithm processes
              timeQuantum Hv Hq Hfuel) as (pout & Heq & Hbusy).
  rewrite <- solve_forget with (toFixed2 := toFixed2) in Heq.
  destruct (logged_of_plain _ _ Heq) as (out & -> & Hres & Hg).
  exists out. split; [reflexivity|]. rewrite Hres, Hg. exact Hbusy.
Qed.

Lemma no_idle_while_waiting_witness :
  ∃ out,
    Logged.solve code_order no_digits 20 "SRTF (Preemptive)" sample 2
    = Done out
    ∧ ∀ r u, r ∈ Logged.results out →
             arrivalTime (process r) ≤ u < endTime r →
             ∃ b, b ∈ Logged.ganttChart out ∧ blockStart b ≤ u < blockEnd b.
Proof.
  apply (no_idle_while_waiting code_order no_digits 20 "SRTF (Preemptive)"
           sample 2).
  - exact valid_sample.
  - lia.
  - exact fuel_bound_sample.
Defined.

(** * Termination on every input with positive bursts *)

Lemma burst_ge_1 processes (i : nat) :
  Forall (fun p => 1 ≤ burstTime p) processes → (i < length processes)%nat →
  1 ≤ burstTime (processes !!! i).
Proof.
  intros Hall Hi. rewrite Forall_lookup in Hall.
  apply (Hall i (processes !!! i)). by apply list_lookup_lookup_total_lt.
Qed.

Lemma live_inv_init processes :
  Forall (fun p => 1 ≤ burstTime p) processes →
  live_inv processes (map burstTime processes) (init_results processes) 0 0.
Proof.
  intros Hall.
  assert (Hb : ∀ i, (i < length processes)%nat →
                    map burstTime processes !!! i = burstTime (processes !!! i)
                    ∧ 1 ≤ burstTime (processes !!! i)).
  { intros i Hi. split; [by apply lookup_total_map|by apply burst_ge_1]. }
  constructor.
  - apply length_map.
  - apply map_process_init.
  - intros i Hi. destruct (Hb i Hi). lia.
  - exists []. split; [constructor|]. split; [reflexivity|].
    intros i. rewrite elem_of_nil. split; [tauto|].
    intros [Hi Hz]. destruct (Hb i Hi). lia.
  - intros i Hi. destruct (Hb i Hi). lia.
  - intros i Hi. destruct (Hb i Hi). lia.
Qed.

Lemma live_inv_later processes rem results t t' completed :
  live_inv processes rem results t completed → t ≤ t' →
  live_inv processes rem results t' completed.
Proof.
  intros [Hlen Hres Hrange Hdone Hran Hfin] Hle. constructor; auto.
  intros i Hi Hpos Hlt. specialize (Hran i Hi Hpos Hlt). lia.
Qed.

(** The clock may be set anywhere while no process is under way. *)
Lemma live_inv_jump processes rem results t t' completed :
  live_inv processes rem results t completed →
  (∀ i, (i < length processes)%nat → 0 < rem !!! i →
        rem !!! i = burstTime (processes !!! i)) →
  live_inv processes rem results t' completed.
Proof.
  intros [Hlen Hres Hrange Hdone Hran Hfin] Hfresh. constructor; auto.
  intros i Hi Hpos Hlt. specialize (Hfresh i Hi Hpos). lia.
Qed.

(** Process [idx], ready at [t], runs [d] units. *)
Lemma live_inv_slice processes rem results t completed idx d :
  live_inv processes rem results t completed →
  (idx < length processes)%nat →
  arrivalTime (processes !!! idx) ≤ t →
  1 ≤ d ≤ rem !!! idx →
  let rem' := <[idx := rem !!! idx - d]> rem in
  live_inv processes rem'
    (if rem' !!! idx =? 0
     then finalize idx (t + d) (mark_start idx t results)
     else mark_start idx t results)
    (t + d)
    (if rem' !!! idx =? 0 then S completed else completed).
Proof.
  intros [Hlen Hres Hrange (done & Hnd & Hdlen & Hdone) Hran Hfin]
    Hidx Harr Hd rem'.
  assert (Hidx' : (idx < length rem)%nat) by lia.
  assert (Hrem_idx : rem' !!! idx = rem !!! idx - d).
  { unfold rem'. by rewrite list_lookup_total_insert_eq. }
  assert (Hrem_ne : ∀ i, i ≠ idx → rem' !!! i = rem !!! i).
  { intros i Hne. unfold rem'. by rewrite list_lookup_total_insert_ne. }
  pose proof (Hrange idx Hidx) as Hr.
  assert (Hstart : arrivalTime (processes !!! idx)
                   + (burstTime (processes !!! idx) - rem !!! idx) ≤ t).
  { destruct (decide (rem !!! idx < burstTime (processes !!! idx))) as [Hl|Hl];
      [apply (Hran idx Hidx); lia|lia]. }
  constructor.
  - unfold rem'. by rewrite length_insert.
  - destruct (_ =? 0); rewrite ?map_process_finalize, map_process_mark_start;
      exact Hres.
  - intros i Hi. destruct (decide (i = idx)) as [->|Hne].
    + rewrite Hrem_idx. lia.
    + rewrite Hrem_ne by exact Hne. by apply Hrange.
  - destruct (rem' !!! idx =? 0) eqn:Hz.
    + apply Z.eqb_eq in Hz. exists (idx :: done).
      split; [|split; [simpl; by rewrite Hdlen|]].
      * constructor; [|exact Hnd]. intros Hin. apply Hdone in Hin. lia.
      * intros i. rewrite elem_of_cons, Hdone.
        destruct (decide (i = idx)) as [->|Hne]; [tauto|].
        rewrite Hrem_ne by exact Hne. tauto.
    + apply Z.eqb_neq in Hz. exists done.
      split; [exact Hnd|]. split; [exact Hdlen|].
      intros i. rewrite Hdone.
      destruct (decide (i = idx)) as [->|Hne]; [split; intros [? ?]; lia|].
      rewrite Hrem_ne by exact Hne. tauto.
  - intros i Hi Hpos Hlt. destruct (decide (i = idx)) as [->|Hne].
    + rewrite Hrem_idx in *. lia.
    + rewrite Hrem_ne in * by exact Hne. specialize (Hran i Hi Hpos Hlt). lia.
  - intros i Hi Hzero. destruct (decide (i = idx)) as [->|Hne].
    + rewrite Hzero. simpl. unfold finalize.
      rewrite list_lookup_total_insert_eq.
      2:{ rewrite <- (length_map process), map_process_mark_start, Hres.
          exact Hidx. }
      assert (Hp : process (mark_start idx t results !!! idx)
                   = processes !!! idx).
      { apply process_lookup; [|exact Hidx].
        by rewrite map_process_mark_start. }
      unfold result_ok. simpl. rewrite Hp.
      split; [reflexivity|]. split; [reflexivity|].
      rewrite Hrem_idx in Hzero. lia.
    + rewrite Hrem_ne in Hzero by exact Hne.
      specialize (Hfin i Hi Hzero).
      destruct (_ =? 0).
      * unfold finalize. rewrite list_lookup_total_insert_ne by auto.
        by apply result_ok_mark_start.
      * by apply result_ok_mark_start.
Qed.

Lemma live_work_slice processes rem results t completed idx d t' :
  live_inv processes rem results t completed →
  (idx < length processes)%nat → 1 ≤ d ≤ rem !!! idx → t ≤ t' →
  (work_left processes (<[idx := (rem !!! idx - d)%Z]> rem) t'
   < work_left processes rem t)%nat.
Proof.
  intros Hinv Hidx Hd Hle. unfold work_left.
  assert (Hidx' : (idx < length rem)%nat)
    by (rewrite (li_length _ _ _ _ _ Hinv); lia).
  rewrite sumZ_insert by exact Hidx'.
  assert (Hpos : ∀ j, (j < length rem)%nat → 0 ≤ rem !!! j).
  { intros j Hj. apply (li_range _ _ _ _ _ Hinv).
    by rewrite <- (li_length _ _ _ _ _ Hinv). }
  pose proof (sumZ_lookup_le rem idx Hpos Hidx'). lia.
Qed.

Lemma live_all_done processes rem results t completed :
  live_inv processes rem results t completed →
  (length processes ≤ completed)%nat →
  ∀ i, (i < length processes)%nat → rem !!! i = 0.
Proof.
  intros Hinv Hc i Hi.
  destruct (li_done _ _ _ _ _ Hinv) as (done & Hnd & Hlen & Hdone).
  apply Hdone. apply (NoDup_below_full done (length processes)); auto.
  - intros j Hj. by apply Hdone in Hj as [? _].
  - lia.
Qed.

Lemma live_pending processes rem results t completed :
  live_inv processes rem results t completed →
  (completed < length processes)%nat →
  ∃ i, (i < length processes)%nat ∧ 0 < rem !!! i.
Proof.
  intros Hinv Hc.
  destruct (li_done _ _ _ _ _ Hinv) as (done & Hnd & Hlen & Hdone).
  destruct (decide (Forall (fun i => rem !!! i = 0) (seq 0 (length processes))))
    as [Hall|Hex].
  - exfalso. rewrite Forall_forall in Hall.
    assert (seq 0 (length processes) ⊆+ done) as Hsub.
    { apply NoDup_submseteq; [apply NoDup_seq|]. intros i Hi.
      apply Hdone. split; [apply elem_of_seq in Hi; lia|by apply Hall]. }
    apply submseteq_length in Hsub. rewrite length_seq in Hsub. lia.
  - apply not_Forall_Exists in Hex; [|intros x; apply _].
    apply Exists_exists in Hex as (i & Hi & Hne). apply elem_of_seq in Hi.
    exists i. split; [lia|]. simpl in Hne.
    pose proof (li_range _ _ _ _ _ Hinv i ltac:(lia)). lia.
Qed.

(** Every process is finished: one sound result for each. *)
Lemma live_final processes rem results t completed
    (cmp : ProcessResult → ProcessResult → Z) :
  live_inv processes rem results t completed →
  (length processes ≤ completed)%nat →
  map process (js_sort cmp results) ≡ₚ processes
  ∧ Forall result_ok (js_sort cmp results).
Proof.
  intros Hinv Hc. pose proof (live_all_done _ _ _ _ _ Hinv Hc) as Hzero. split.
  - change map with (@fmap list _). rewrite js_sort_perm.
    change (@fmap list _) with map. by rewrite (li_results _ _ _ _ _ Hinv).
  - rewrite js_sort_perm. apply Forall_lookup. intros i r Hi.
    rewrite <- (list_lookup_total_correct _ _ _ Hi).
    assert (i < length processes)%nat as Hlt.
    { rewrite <- (length_map_process _ _ (li_results _ _ _ _ _ Hinv)).
      by apply lookup_lt_Some in Hi. }
    apply (li_final _ _ _ _ _ Hinv i Hlt). by apply Hzero.
Qed.

(** ** The preemptive solvers *)

Lemma extend_last_nonempty g : g ≠ [] → ∃ g', extend_last g = Some g' ∧ g' ≠ [].
Proof.
  intros Hne. destruct g as [|b g] using rev_ind; [contradiction|].
  rewrite extend_last_snoc. eexists. split; [reflexivity|].
  intros E. by apply app_eq_nil in E as [_ ?].
Qed.

Lemma pr_live_init processes :
  Forall (fun p => 1 ≤ burstTime p) processes →
  pr_live processes (pr_init processes).
Proof. intros Hb. split; [by apply live_inv_init|]. simpl. congruence. Qed.

Lemma pr_live_body reset scan processes s :
  Forall (fun p => id p ≠ "") processes → pr_scan_ok scan processes →
  pr_live processes s → pr_cond (length processes) s = true →
  ∃ s', pr_body reset scan processes s = Next s'
        ∧ pr_live processes s'
        ∧ (work_left processes (PR.remainingTime s') (PR.currentTime s')
           < work_left processes (PR.remainingTime s) (PR.currentTime s))%nat.
Proof.
  intros Hnames Hscan [Hlive Hlast] Hcond.
  destruct s as [rem res t c g last]. simpl in *.
  unfold pr_cond in Hcond. apply bool_decide_eq_true in Hcond. simpl in Hcond.
  unfold pr_body. simpl. specialize (Hscan rem t).
  destruct (scan processes rem t) as [[idx|]|]; [| |contradiction].
  - destruct Hscan as (Hidx & Hpos & Harr).
    assert (Hne : id (processes !!! idx) ≠ "").
    { rewrite Forall_lookup in Hnames.
      apply (Hnames idx (processes !!! idx)).
      by apply list_lookup_lookup_total_lt. }
    pose proof (live_inv_slice processes rem res t c idx 1 Hlive Hidx Harr
                  ltac:(lia)) as Hnew.
    pose proof (live_work_slice _ _ _ _ _ idx 1 (t + 1) Hlive Hidx
                  ltac:(lia) ltac:(lia)) as Hmu.
    simpl in Hnew. unfold pr_run. simpl.
    assert (Hchart : ∃ g',
              (if negb (last =? id (processes !!! idx))%string
               then Some (g ++ [mkBlock (id (processes !!! idx)) t (t + 1)])
               else extend_last g) = Some g' ∧ g' ≠ []).
    { destruct (String.eqb_spec last (id (processes !!! idx))) as [Heq|Hneq];
        simpl.
      - apply extend_last_nonempty, Hlast. congruence.
      - eexists. split; [reflexivity|].
        intros E. by apply app_eq_nil in E as [_ ?]. }
    destruct Hchart as (g' & -> & Hg').
    destruct (_ =? 0) eqn:Hz; (eexists; split; [reflexivity|]);
      (split; [split; [exact Hnew|]|exact Hmu]); simpl; auto.
  - destruct (live_pending _ _ _ _ _ Hlive Hcond) as (i & Hi & Hri).
    eexists. split; [reflexivity|]. unfold pr_live, pr_idle. simpl.
    split; [split; [apply (live_inv_later _ _ _ t); [exact Hlive|lia]|
                    exact Hlast]|].
    apply (work_left_wait _ _ _ i Hi). by apply Hscan.
Qed.

Lemma pr_solve_live reset scan localeCompare fuel processes :
  Forall (fun p => 1 ≤ burstTime p) processes →
  Forall (fun p => id p ≠ "") processes → pr_scan_ok scan processes →
  (fuel_bound processes ≤ fuel)%nat →
  ∃ out,
    pr_solve_reset reset scan localeCompare fuel processes = Done out
    ∧ map process (Plain.results out) ≡ₚ processes
    ∧ Forall result_ok (Plain.results out).
Proof.
  intros Hb Hnames Hscan Hfuel. unfold pr_solve_reset.
  destruct (while_loop_total (pr_live processes)
              (fun s => work_left processes (PR.remainingTime s)
                          (PR.currentTime s))
              (pr_cond (length processes))
              (pr_body reset scan processes)
              (fun s Hs Hc =>
                 pr_live_body reset scan processes s Hnames Hscan Hs Hc)
              fuel (pr_init processes) (pr_live_init processes Hb))
    as (s & -> & [Hlive _] & Hcond).
  - simpl. rewrite work_left_init. exact Hfuel.
  - eexists. split; [reflexivity|]. simpl.
    apply (live_final processes (PR.remainingTime s) _ (PR.currentTime s)
             (PR.completed s)); [exact Hlive|].
    unfold pr_cond in Hcond. apply bool_decide_eq_false in Hcond. lia.
Qed.

(** ** The run-to-completion solvers *)

Lemma np_live_init sorted : np_live sorted (np_init (length sorted)).
Proof.
  constructor; simpl.
  - apply length_replicate.
  - exists []. split; [constructor|]. split; [reflexivity|].
    split; [|reflexivity].
    intros i. rewrite elem_of_nil, is_set_replicate_false.
    split; [tauto|]. intros [_ ?]. discriminate.
  - constructor.
Qed.

Lemma np_live_body scan sorted s :
  Forall (fun p => 1 ≤ burstTime p) sorted → np_scan_ok scan sorted →
  np_live sorted s → np_cond (length sorted) s = true →
  ∃ s', np_body scan sorted s = Next s'
        ∧ np_live sorted s'
        ∧ (np_left sorted s' < np_left sorted s)%nat.
Proof.
  intros Hall Hscan [Hlen (order & Hnd & Holen & Hmem & Hres) Hok] Hcond.
  destruct s as [t c isC res g]. simpl in *.
  unfold np_cond in Hcond. apply bool_decide_eq_true in Hcond. simpl in Hcond.
  unfold np_body. simpl. specialize (Hscan isC t).
  destruct (scan sorted isC t) as [[idx|]|]; [| |contradiction].
  - destruct Hscan as (Hidx & Hfree & Harr).
    pose proof (burst_ge_1 _ idx Hall Hidx) as Hburst.
    eexists. split; [reflexivity|]. unfold np_run, np_left. simpl.
    split; [|lia]. constructor; simpl.
    + by rewrite length_insert.
    + exists (order ++ [idx]).
      split; [|split; [|split]].
      * apply NoDup_app. split; [exact Hnd|]. split; [|apply NoDup_singleton].
        intros i Hi Hi'. apply list_elem_of_singleton in Hi'. subst i.
        apply Hmem in Hi as [_ Hset]. congruence.
      * rewrite length_app. simpl. lia.
      * intros i. rewrite elem_of_app, list_elem_of_singleton, Hmem, is_set_insert.
        destruct (decide (i = idx ∧ (idx < length isC)%nat)) as [[-> _]|Hno].
        -- tauto.
        -- split; [intros [H| ->]; [exact H|exfalso; apply Hno; split; [reflexivity|lia]]|].
           tauto.
      * rewrite !map_app, Hres. reflexivity.
    + apply Forall_app. split; [exact Hok|]. constructor; [|constructor].
      unfold result_ok. simpl. lia.
  - assert (Hex : ∃ i, (i < length sorted)%nat ∧ is_set isC i = false).
    { destruct (decide (Forall (fun i => is_set isC i = true)
                          (seq 0 (length sorted)))) as [Hfull|Hex].
      - exfalso. rewrite Forall_forall in Hfull.
        assert (seq 0 (length sorted) ⊆+ order) as Hsub.
        { apply NoDup_submseteq; [apply NoDup_seq|]. intros i Hi.
          apply Hmem. split; [apply elem_of_seq in Hi; lia|by apply Hfull]. }
        apply submseteq_length in Hsub. rewrite length_seq in Hsub. lia.
      - apply not_Forall_Exists in Hex; [|intros x; apply _].
        apply Exists_exists in Hex as (i & Hi & Hne). apply elem_of_seq in Hi.
        exists i. split; [lia|]. simpl in Hne. by destruct (is_set isC i). }
    destruct Hex as (i & Hi & Hfree).
    eexists. split; [reflexivity|]. unfold np_idle, np_left. simpl.
    pose proof (Hscan i Hi Hfree). pose proof (max_arrival_ge sorted i Hi).
    split; [|lia]. constructor; simpl; auto.
    exists order. auto.
Qed.

Lemma length_le_bursts processes :
  Forall (fun p => 1 ≤ burstTime p) processes →
  Z.of_nat (length processes) ≤ sumZ (map burstTime processes).
Proof. induction 1 as [|p ps Hp _ IH]; unfold sumZ in *; simpl; lia. Qed.

Lemma np_solve_live scan localeCompare fuel processes :
  Forall (fun p => 1 ≤ burstTime p) processes →
  (∀ sorted, Forall (fun p => 1 ≤ burstTime p) sorted →
             np_scan_ok scan sorted) →
  (fuel_bound processes ≤ fuel)%nat →
  ∃ out,
    Plain.np_solve localeCompare scan fuel processes = Done out
    ∧ map process (Plain.results out) ≡ₚ processes
    ∧ Forall result_ok (Plain.results out).
Proof.
  intros Hb Hscan Hfuel. unfold Plain.np_solve.
  set (sorted := js_sort by_arrival processes).
  assert (Hperm : sorted ≡ₚ processes) by apply js_sort_perm.
  assert (Hbs : Forall (fun p => 1 ≤ burstTime p) sorted) by (by rewrite Hperm).
  assert (Hlen : length processes = length sorted).
  { symmetry. apply js_sort_length. }
  rewrite Hlen.
  destruct (while_loop_total (np_live sorted) (np_left sorted)
              (np_cond (length sorted)) (np_body scan sorted)
              (fun s Hs Hc => np_live_body scan sorted s Hbs (Hscan _ Hbs) Hs Hc)
              fuel (np_init (length sorted)) (np_live_init sorted))
    as (s & -> & [Hleni (order & Hnd & Holen & Hmem & Hres) Hok] & Hcond).
  - unfold np_left. simpl.
    rewrite <- (fuel_bound_perm _ _ Hperm) in Hfuel. unfold fuel_bound in Hfuel.
    pose proof (length_le_bursts sorted Hbs). lia.
  - unfold np_cond in Hcond. apply bool_decide_eq_false in Hcond.
    eexists. split; [reflexivity|]. simpl. split.
    + change map with (@fmap list _). rewrite js_sort_perm.
      change (@fmap list _) with map. rewrite Hres, <- Hperm.
      assert (Hord : order ≡ₚ seq 0 (length sorted)).
      { apply submseteq_length_Permutation.
        - apply NoDup_submseteq; [exact Hnd|]. intros i Hi. apply elem_of_seq.
          apply Hmem in Hi as [Hi _]. lia.
        - rewrite length_seq. lia. }
      change map with (@fmap list _). rewrite Hord.
      change (@fmap list _) with map. by rewrite map_lookup_total_seq.
    + by rewrite js_sort_perm.
Qed.

(** ** FCFS *)

Lemma fcfs_fold_live sorted :
  ∀ s : FCFS.state,
    Forall result_ok (FCFS.results s) →
    let s' := fold_left fcfs_run sorted s in
    Forall result_ok (FCFS.results s')
    ∧ map process (FCFS.results s') = map process (FCFS.results s) ++ sorted.
Proof.
  induction sorted as [|p sorted IH]; intros s Hok; simpl.
  - by rewrite app_nil_r.
  - destruct (IH (fcfs_run s p)) as [Hok' Hres'].
    + unfold fcfs_run. simpl. apply Forall_app. split; [exact Hok|].
      constructor; [|constructor]. unfold result_ok. simpl.
      destruct (Z.ltb_spec (FCFS.currentTime s) (arrivalTime p)); lia.
    + split; [exact Hok'|]. rewrite Hres'. unfold fcfs_run. simpl.
      rewrite map_app. simpl. by rewrite <- app_assoc.
Qed.

Lemma solveFCFS_live localeCompare processes :
  ∃ out,
    Plain.solveFCFS localeCompare processes = Done out
    ∧ map process (Plain.results out) ≡ₚ processes
    ∧ Forall result_ok (Plain.results out).
Proof.
  unfold Plain.solveFCFS. eexists. split; [reflexivity|]. simpl.
  destruct (fcfs_fold_live (js_sort by_arrival processes) fcfs_init
              (Forall_nil_2 _)) as [Hok Hres].
  simpl in Hres. split.
  - change map with (@fmap list _). rewrite js_sort_perm.
    change (@fmap list _) with map. rewrite Hres. apply js_sort_perm.
  - by rewrite js_sort_perm.
Qed.

(** ** The ready queues *)

(** Processes that were not visited join the ready queues. *)
Lemma ready_live_arrive processes rem visited ready new ready' :
  Forall (fun p => 1 ≤ burstTime p) processes →
  ready_inv processes rem visited ready →
  NoDup new →
  (∀ i, i ∈ new → (i < length processes)%nat ∧ is_set visited i = false) →
  ready' ≡ₚ ready ++ new →
  ready_inv processes rem (mark_all new visited) ready'.
Proof.
  intros Hb [Hlen Hnd Hmem Hfresh] Hnew Hin Hperm. constructor.
  - by rewrite length_mark_all.
  - rewrite Hperm. apply NoDup_app. split; [exact Hnd|]. split; [|exact Hnew].
    intros i Hi Hi'. apply Hmem in Hi as (_ & Hset & _).
    apply Hin in Hi' as [_ Hunset]. congruence.
  - intros i. rewrite Hperm, elem_of_app, Hmem, is_set_mark_all. split.
    + intros [(Hi & Hset & Hpos)|Hi']; [tauto|].
      destruct (Hin i Hi') as [Hi Hunset]. split; [exact Hi|].
      split; [right; split; [exact Hi'|lia]|].
      rewrite (Hfresh i Hi Hunset). pose proof (burst_ge_1 _ i Hb Hi). lia.
    + intros (Hi & [Hset|[Hi' _]] & Hpos); tauto.
  - intros i Hi Hunset. apply Hfresh; [exact Hi|].
    destruct (is_set visited i) eqn:E; [|reflexivity].
    rewrite <- Hunset. symmetry. apply is_set_mark_all. tauto.
Qed.

(** A ready process runs and is left with [r'] units, processes that
    were not visited join the ready queues, and the one that ran stays
    ready if it has time remaining. *)
Lemma ready_live_round processes rem visited ready idx rest r' new ready' :
  Forall (fun p => 1 ≤ burstTime p) processes →
  length rem = length processes →
  ready_inv processes rem visited ready →
  ready ≡ₚ idx :: rest →
  0 ≤ r' →
  NoDup new →
  (∀ i, i ∈ new → (i < length processes)%nat ∧ is_set visited i = false) →
  ready' ≡ₚ rest ++ new ++ (if 0 <? r' then [idx] else []) →
  ready_inv processes (<[idx := r']> rem) (mark_all new visited) ready'.
Proof.
  intros Hb Hlenr [Hlen Hnd Hmem Hfresh] Hready Hr' Hnew Hin Hperm.
  rewrite Hready in Hnd. apply NoDup_cons in Hnd as [Hnot Hndr].
  assert (Hidx : (idx < length processes)%nat ∧ is_set visited idx = true
                 ∧ 0 < rem !!! idx).
  { apply Hmem. rewrite Hready. apply elem_of_cons. auto. }
  destruct Hidx as (Hidx & Hset & Hpos).
  assert (Hrest : ∀ i, i ∈ rest ↔
            i ≠ idx ∧ (i < length processes)%nat ∧ is_set visited i = true
            ∧ 0 < rem !!! i).
  { intros i. rewrite <- Hmem, Hready, elem_of_cons. split.
    - intros Hi. split; [intros ->; contradiction|auto].
    - intros [Hne [->|Hi]]; [contradiction|exact Hi]. }
  assert (Hnew_idx : idx ∉ new).
  { intros Hi. apply Hin in Hi as [_ Hunset]. congruence. }
  assert (Hiff : ∀ i, i ∈ ready' ↔
            i ∈ rest ∨ i ∈ new ∨ (0 < r' ∧ i = idx)).
  { intros i. rewrite Hperm, !elem_of_app.
    destruct (Z.ltb_spec 0 r'); rewrite ?list_elem_of_singleton, ?elem_of_nil;
      intuition lia. }
  constructor.
  - by rewrite length_mark_all.
  - rewrite Hperm. apply NoDup_app. split; [exact Hndr|]. split.
    + intros i Hi Hi'. apply Hrest in Hi as (Hne & _ & Hseti & _).
      apply elem_of_app in Hi' as [Hi'|Hi'].
      * apply Hin in Hi' as [_ Hunset]. congruence.
      * destruct (0 <? r'); [apply list_elem_of_singleton in Hi'; congruence|
                             by apply elem_of_nil in Hi'].
    + apply NoDup_app. split; [exact Hnew|]. split.
      * intros i Hi Hi'. destruct (0 <? r');
          [apply list_elem_of_singleton in Hi'; congruence|
           by apply elem_of_nil in Hi'].
      * destruct (0 <? r'); [apply NoDup_singleton|constructor].
  - intros i. rewrite Hiff, Hrest, is_set_mark_all.
    destruct (decide (i = idx)) as [->|Hne].
    + rewrite list_lookup_total_insert_eq by lia. split.
      * intros [[? _]|[?|[? _]]]; [congruence|contradiction|tauto].
      * intros (_ & _ & ?). tauto.
    + rewrite list_lookup_total_insert_ne by auto. split.
      * intros [H|[Hi|[_ ?]]]; [tauto| |contradiction].
        destruct (Hin i Hi) as [Hlt Hunset]. split; [exact Hlt|].
        split; [right; split; [exact Hi|lia]|].
        rewrite (Hfresh i Hlt Hunset). pose proof (burst_ge_1 _ i Hb Hlt). lia.
      * intros (Hlt & [Hseti|[Hi _]] & Hposi); tauto.
  - intros i Hi Hunset.
    assert (is_set visited i = false) as Hu.
    { destruct (is_set visited i) eqn:E; [|reflexivity].
      rewrite <- Hunset. symmetry. apply is_set_mark_all. tauto. }
    rewrite list_lookup_total_insert_ne by congruence. by apply Hfresh.
Qed.

(** A ready process runs for [d] units from [t]: what the three
    solvers with ready queues share, without the chart. *)
Lemma live_queue_slice processes rem results t completed visited ready
    idx rest d new ready' :
  Forall (fun p => 1 ≤ burstTime p) processes →
  live_inv processes rem results t completed →
  ready_inv processes rem visited ready →
  arrivalTime (processes !!! idx) ≤ t →
  ready ≡ₚ idx :: rest →
  1 ≤ d ≤ rem !!! idx →
  NoDup new →
  (∀ i, i ∈ new → (i < length processes)%nat ∧ is_set visited i = false) →
  ready' ≡ₚ rest ++ new ++ (if 0 <? rem !!! idx - d then [idx] else []) →
  let rem' := <[idx := (rem !!! idx - d)%Z]> rem in
  let done := rem' !!! idx =? 0 in
  let started := mark_start idx t results in
  (idx < length processes)%nat
  ∧ rem' !!! idx = rem !!! idx - d
  ∧ live_inv processes rem'
      (if done then finalize_from processes idx (t + d) started else started)
      (t + d) (if done then S completed else completed)
  ∧ ready_inv processes rem' (mark_all new visited) ready'
  ∧ (work_left processes rem' (t + d) < work_left processes rem t)%nat
  ∧ sumZ rem' = sumZ rem - d ∧ d ≤ sumZ rem.
Proof.
  intros Hb Hlive Hready Harr Hperm Hd Hnew Hin Hperm' rem' done started.
  assert (Hidx : (idx < length processes)%nat).
  { assert (idx ∈ ready) as Hi by (rewrite Hperm; apply elem_of_cons; auto).
    apply (ri_mem _ _ _ _ Hready) in Hi. tauto. }
  assert (Hlen : (idx < length rem)%nat)
    by (rewrite (li_length _ _ _ _ _ Hlive); exact Hidx).
  assert (Hrem' : rem' !!! idx = rem !!! idx - d)
    by (unfold rem'; by rewrite list_lookup_total_insert_eq).
  split; [exact Hidx|]. split; [exact Hrem'|].
  split; [|split; [|split; [|split]]].
  - assert (Hfin : finalize_from processes idx (t + d) started
                   = finalize idx (t + d) started).
    { apply finalize_from_eq; [|exact Hidx]. unfold started.
      rewrite map_process_mark_start. apply (li_results _ _ _ _ _ Hlive). }
    rewrite Hfin. by apply live_inv_slice.
  - apply (ready_live_round processes rem visited ready idx rest
             (rem !!! idx - d) new ready'); auto.
    + apply (li_length _ _ _ _ _ Hlive).
    + lia.
  - apply (live_work_slice processes rem results t completed idx d (t + d));
      [exact Hlive|exact Hidx|exact Hd|lia].
  - unfold rem'. rewrite sumZ_insert by exact Hlen. lia.
  - assert (Hpos : ∀ j, (j < length rem)%nat → 0 ≤ rem !!! j).
    { intros j Hj. apply (li_range _ _ _ _ _ Hlive).
      by rewrite <- (li_length _ _ _ _ _ Hlive). }
    pose proof (sumZ_lookup_le rem idx Hpos Hlen). lia.
Qed.

(** ** Round Robin *)

Lemma rr_live_init processes :
  Forall (fun p => 1 ≤ burstTime p) processes →
  rr_live processes (rr_init processes).
Proof.
  intros Hb. rewrite rr_init_spec. simpl.
  set (seeds := newcomers _ _ _).
  assert (Hseed : ∀ i, i ∈ seeds ↔
            (i < length processes)%nat ∧ arrivalTime (processes !!! i) = 0).
  { intros i. unfold seeds. rewrite elem_of_newcomers, is_set_replicate_false.
    rewrite Z.eqb_eq. tauto. }
  assert (Hset : ∀ i, is_set (mark_all seeds (replicate (length processes) false)) i
                      = true ↔ i ∈ seeds).
  { intros i. rewrite is_set_mark_all, is_set_replicate_false, length_replicate.
    rewrite Hseed. split; [intros [?|[? _]]; [discriminate|assumption]|tauto]. }
  assert (Hrem : ∀ i, (i < length processes)%nat →
            map burstTime processes !!! i = burstTime (processes !!! i)).
  { intros i Hi. by apply lookup_total_map. }
  split; [by apply live_inv_init|]. simpl. split.
  - constructor.
    + by rewrite length_mark_all, length_replicate.
    + apply NoDup_newcomers.
    + intros i. rewrite Hset, Hseed. split; [|tauto].
      intros [Hi Ha]. repeat split; auto.
      rewrite (Hrem i Hi). pose proof (burst_ge_1 _ i Hb Hi). lia.
    + intros i Hi _. by apply Hrem.
  - intros i Hi. apply Hseed in Hi. lia.
Qed.

(** The state after the refill: the queue is not empty, and its
    processes have arrived. *)
Lemma rr_live_refill processes s :
  Forall (fun p => 1 ≤ burstTime p) processes →
  rr_live processes s → rr_cond (length processes) s = true →
  ∃ s1 idx rest,
    rr_refill processes s = Some s1
    ∧ RR.queue s1 = idx :: rest
    ∧ RR.remainingTime s1 = RR.remainingTime s
    ∧ rr_live processes s1.
Proof.
  intros Hb (Hlive & Hready & Harr) Hcond.
  unfold rr_cond in Hcond. apply bool_decide_eq_true in Hcond.
  unfold rr_refill. destruct (RR.queue s) as [|idx rest] eqn:Hq.
  - destruct (live_pending _ _ _ _ _ Hlive Hcond) as (i & Hi & Hpos).
    assert (Hfresh : ∀ j, (j < length processes)%nat →
              0 < RR.remainingTime s !!! j → is_set (RR.visited s) j = false).
    { intros j Hj Hpj. destruct (is_set (RR.visited s) j) eqn:E; [|reflexivity].
      assert (j ∈ @nil nat) as Hin by (by apply (ri_mem _ _ _ _ Hready)).
      by apply elem_of_nil in Hin. }
    pose proof (rr_next_arrival_spec processes (RR.visited s)) as Hnext.
    destruct (rr_next_arrival processes (RR.visited s)) as [[nextIdx|] nextArr].
    + destruct Hnext as (Hn & Hun & -> & Hmin).
      exists (rr_jump nextIdx (Fin (arrivalTime (processes !!! nextIdx))) s),
        nextIdx, [].
      unfold rr_jump, rr_live. simpl. rewrite Hq. simpl.
      do 3 (split; [reflexivity|]). split; [|split].
      * apply (live_inv_jump _ _ _ (RR.currentTime s)); [exact Hlive|].
        intros j Hj Hpj. apply (ri_fresh _ _ _ _ Hready j Hj).
        by apply Hfresh.
      * change (<[nextIdx := true]> (RR.visited s))
          with (mark_all [nextIdx] (RR.visited s)).
        apply (ready_live_arrive _ _ _ [] [nextIdx]); auto.
        -- apply NoDup_singleton.
        -- intros j Hj. apply list_elem_of_singleton in Hj. by subst j.
      * intros j Hj. apply list_elem_of_singleton in Hj. subst j. lia.
    + specialize (Hnext i Hi). rewrite (Hfresh i Hi Hpos) in Hnext.
      discriminate.
  - exists s, idx, rest. rewrite Hq.
    do 3 (split; [reflexivity|]). unfold rr_live. rewrite Hq. auto.
Qed.

Lemma rr_live_body processes timeQuantum s :
  Forall (fun p => 1 ≤ burstTime p) processes → 1 ≤ timeQuantum →
  rr_live processes s → rr_cond (length processes) s = true →
  ∃ s', Plain.rr_body processes timeQuantum s = Next s'
        ∧ rr_live processes s'
        ∧ (Z.to_nat (sumZ (RR.remainingTime s'))
           < Z.to_nat (sumZ (RR.remainingTime s)))%nat.
Proof.
  intros Hb Hq Hinv Hcond.
  destruct (rr_live_refill processes s Hb Hinv Hcond)
    as (s1 & idx & rest & Hrefill & Hqueue & Hrem & Hlive1 & Hready & Harr).
  unfold Plain.rr_body. rewrite Hrefill, Hqueue.
  eexists. split; [reflexivity|].
  rewrite rr_arrivals_spec. unfold rr_exec. cbn [RR.remainingTime RR.results
    RR.currentTime RR.completed RR.ganttChart RR.queue RR.visited].
  set (d := Z.min timeQuantum (RR.remainingTime s1 !!! idx)).
  set (t := RR.currentTime s1) in *.
  set (rem' := <[idx := RR.remainingTime s1 !!! idx - d]> (RR.remainingTime s1)).
  set (new := newcomers (length processes) (RR.visited s1)
                (rr_ready processes rem' (t + d))).
  assert (Hin : idx ∈ RR.queue s1) by (rewrite Hqueue; apply elem_of_cons; auto).
  assert (Hpos : 0 < RR.remainingTime s1 !!! idx).
  { apply (ri_mem _ _ _ _ Hready) in Hin. tauto. }
  assert (Hnew : ∀ i, i ∈ new → (i < length processes)%nat
                   ∧ is_set (RR.visited s1) i = false
                   ∧ arrivalTime (processes !!! i) ≤ t + d).
  { intros i Hi. apply elem_of_newcomers in Hi as (Hi & Hu & Hr).
    unfold rr_ready in Hr. apply andb_true_iff in Hr as [Hr _].
    apply Z.leb_le in Hr. auto. }
  destruct (live_queue_slice processes (RR.remainingTime s1) (RR.results s1) t
              (RR.completed s1) (RR.visited s1)
              (RR.queue s1) idx rest d new
              (rest ++ new ++ (if 0 <? RR.remainingTime s1 !!! idx - d
                               then [idx] else [])))
    as (Hidx & Hrem' & Hlive' & Hready' & _ & Hsum & Hle); auto.
  { by rewrite Hqueue. }
  { unfold d. lia. }
  { apply NoDup_newcomers. }
  { intros i Hi. apply Hnew in Hi. tauto. }
  fold rem' in Hrem', Hlive', Hready', Hsum.
  assert (Hd : 1 ≤ d) by (unfold d; lia).
  assert (Harr' : ∀ extra,
            (∀ i, i ∈ extra → i = idx) →
            ready_arrived processes (rest ++ new ++ extra) (t + d)).
  { intros extra Hextra i Hi. rewrite !elem_of_app in Hi.
    destruct Hi as [Hi|[Hi|Hi]].
    - assert (arrivalTime (processes !!! i) ≤ t); [|lia].
      apply Harr. rewrite Hqueue. apply elem_of_cons. auto.
    - apply Hnew in Hi. tauto.
    - rewrite (Hextra i Hi). specialize (Harr idx Hin). lia. }
  unfold rr_finish. cbn [RR.remainingTime RR.results RR.currentTime
    RR.completed RR.ganttChart RR.queue RR.visited].
  rewrite Hrem'. rewrite Hrem' in Hlive'.
  assert (Hmu : (Z.to_nat (sumZ rem')
                 < Z.to_nat (sumZ (RR.remainingTime s)))%nat).
  { rewrite <- Hrem. lia. }
  destruct (Z.ltb_spec 0 (RR.remainingTime s1 !!! idx - d)) as [Hlt|Hge].
  - assert ((RR.remainingTime s1 !!! idx - d =? 0) = false) as Hz
      by (apply Z.eqb_neq; lia).
    rewrite Hz in Hlive'. unfold rr_live.
    cbn [RR.remainingTime RR.results RR.currentTime RR.completed
         RR.ganttChart RR.queue RR.visited].
    split; [|exact Hmu].
    split; [exact Hlive'|]. rewrite <- app_assoc. split; [exact Hready'|].
    apply Harr'. intros i Hi. by apply list_elem_of_singleton in Hi.
  - assert ((RR.remainingTime s1 !!! idx - d =? 0) = true) as Hz
      by (apply Z.eqb_eq; unfold d in *; lia).
    rewrite Hz in Hlive'. unfold rr_live.
    cbn [RR.remainingTime RR.results RR.currentTime RR.completed
         RR.ganttChart RR.queue RR.visited].
    split; [|exact Hmu].
    split; [exact Hlive'|]. rewrite !app_nil_r in Hready'.
    split; [exact Hready'|].
    rewrite <- (app_nil_r new). apply Harr'.
    intros i Hi. by apply elem_of_nil in Hi.
Qed.

Lemma solveRR_live localeCompare fuel processes timeQuantum :
  Forall (fun p => 1 ≤ burstTime p) processes → 1 ≤ timeQuantum →
  (fuel_bound processes ≤ fuel)%nat →
  ∃ out,
    Plain.solveRR localeCompare fuel processes timeQuantum = Done out
    ∧ map process (Plain.results out) ≡ₚ processes
    ∧ Forall result_ok (Plain.results out).
Proof.
  intros Hb Hq Hfuel. unfold Plain.solveRR.
  destruct (while_loop_total (rr_live processes)
              (fun s => Z.to_nat (sumZ (RR.remainingTime s)))
              (rr_cond (length processes))
              (Plain.rr_body processes timeQuantum)
              (fun s Hs Hc => rr_live_body processes timeQuantum s Hb Hq Hs Hc)
              fuel (rr_init processes) (rr_live_init processes Hb))
    as (s & -> & [Hlive _] & Hcond).
  - rewrite rr_init_spec. simpl. unfold fuel_bound in Hfuel. lia.
  - eexists. split; [reflexivity|]. simpl.
    apply (live_final processes (RR.remainingTime s) _ (RR.currentTime s)
             (RR.completed s)); [exact Hlive|].
    unfold rr_cond in Hcond. apply bool_decide_eq_false in Hcond. lia.
Qed.

(** ** The multilevel solvers *)

(** The enqueueing at the start of a round: afterwards no arrived
    process is left out. *)
Lemma arrivals_live processes rem visited ready t ready' :
  Forall (fun p => 1 ≤ burstTime p) processes →
  ready_inv processes rem visited ready →
  seen_inv processes visited t →
  let new := newcomers (length processes) visited (arrived processes t) in
  ready' ≡ₚ ready ++ new →
  ready_inv processes rem (mark_all new visited) ready'
  ∧ seen_inv processes (mark_all new visited) t
  ∧ none_waiting processes (mark_all new visited) t.
Proof.
  intros Hb Hready Hseen new Hperm. split; [|split].
  - apply (ready_live_arrive _ _ _ ready new); auto.
    + apply NoDup_newcomers.
    + intros i Hi. apply newcomers_arrived in Hi. tauto.
  - apply (seen_inv_arrive _ _ t); [exact Hseen|lia|].
    intros i Hi. apply newcomers_arrived in Hi. tauto.
  - apply none_waiting_arrived; [apply (ri_length _ _ _ _ Hready)|].
    intros i Hi Hu Ha. unfold arrived. by apply Z.leb_le.
Qed.

(** Nothing is ready: some process is still to arrive. *)
Lemma idle_live processes rem results t completed visited :
  live_inv processes rem results t completed →
  ready_inv processes rem visited [] →
  seen_inv processes visited t →
  none_waiting processes visited t →
  (completed < length processes)%nat →
  live_inv processes rem results (t + 1) completed
  ∧ seen_inv processes visited (t + 1)
  ∧ (work_left processes rem (t + 1) < work_left processes rem t)%nat.
Proof.
  intros Hlive Hready Hseen Hnone Hc.
  split; [apply (live_inv_later _ _ _ t); [exact Hlive|lia]|].
  split; [apply (seen_inv_mono _ _ t); [exact Hseen|lia]|].
  destruct (live_pending _ _ _ _ _ Hlive Hc) as (i & Hi & Hpos).
  apply (work_left_wait _ _ _ i Hi). apply Hnone; [exact Hi|].
  destruct (is_set visited i) eqn:E; [|reflexivity].
  assert (i ∈ @nil nat) as Hin by (by apply (ri_mem _ _ _ _ Hready)).
  by apply elem_of_nil in Hin.
Qed.

(** The ready process [idx] runs [d] units: the slice and the
    arrivals seen at its end. *)
Lemma live_seen_slice processes rem results t completed visited ready
    idx rest d new ready' :
  Forall (fun p => 1 ≤ burstTime p) processes →
  live_inv processes rem results t completed →
  ready_inv processes rem visited ready →
  seen_inv processes visited t →
  ready ≡ₚ idx :: rest →
  1 ≤ d ≤ rem !!! idx →
  NoDup new →
  (∀ i, i ∈ new → (i < length processes)%nat ∧ is_set visited i = false
                  ∧ arrivalTime (processes !!! i) ≤ t + d) →
  ready' ≡ₚ rest ++ new ++ (if 0 <? rem !!! idx - d then [idx] else []) →
  let rem' := <[idx := (rem !!! idx - d)%Z]> rem in
  let done := rem' !!! idx =? 0 in
  let started := mark_start idx t results in
  (idx < length processes)%nat
  ∧ rem' !!! idx = rem !!! idx - d
  ∧ live_inv processes rem'
      (if done then finalize_from processes idx (t + d) started else started)
      (t + d) (if done then S completed else completed)
  ∧ ready_inv processes rem' (mark_all new visited) ready'
  ∧ seen_inv processes (mark_all new visited) (t + d)
  ∧ (work_left processes rem' (t + d) < work_left processes rem t)%nat.
Proof.
  intros Hb Hlive Hready Hseen Hperm Hd Hnew Hin Hperm' rem' done started.
  assert (Hidx : (idx < length processes)%nat ∧ is_set visited idx = true).
  { assert (idx ∈ ready) as Hi by (rewrite Hperm; apply elem_of_cons; auto).
    apply (ri_mem _ _ _ _ Hready) in Hi. tauto. }
  destruct Hidx as [Hidx Hset].
  destruct (live_queue_slice processes rem results t completed visited ready
              idx rest d new ready' Hb Hlive Hready (Hseen idx Hidx Hset)
              Hperm Hd Hnew) as (_ & Hrem' & Hlive' & Hready' & Hwork & _);
    [intros i Hi; apply Hin in Hi; tauto|exact Hperm'|].
  split; [exact Hidx|]. split; [exact Hrem'|]. split; [exact Hlive'|].
  split; [exact Hready'|]. split; [|exact Hwork].
  apply (seen_inv_arrive _ _ t); [exact Hseen|lia|].
  intros i Hi. apply Hin in Hi. tauto.
Qed.

Lemma ready_inv_start processes :
  ready_inv processes (map burstTime processes)
    (replicate (length processes) false) [].
Proof.
  constructor.
  - by rewrite length_replicate.
  - constructor.
  - intros i. rewrite is_set_replicate_false, elem_of_nil.
    split; [tauto|]. intros (_ & ? & _). discriminate.
  - intros i Hi _. by apply lookup_total_map.
Qed.

Lemma mlq_live_init processes :
  Forall (fun p => 1 ≤ burstTime p) processes →
  mlq_live processes (mlq_init processes).
Proof.
  intros Hb. unfold mlq_live, mlq_init. simpl.
  split; [by apply live_inv_init|]. split; [apply ready_inv_start|].
  intros i Hi Hs. rewrite is_set_replicate_false in Hs. discriminate.
Qed.

Lemma mlq_live_body processes timeQuantum s :
  Forall (fun p => 1 ≤ burstTime p) processes → 1 ≤ timeQuantum →
  mlq_live processes s → mlq_cond (length processes) s = true →
  ∃ s', Plain.mlq_body processes timeQuantum s = Next s'
        ∧ mlq_live processes s'
        ∧ (work_left processes (MLQ.remainingTime s') (MLQ.currentTime s')
           < work_left processes (MLQ.remainingTime s) (MLQ.currentTime s))%nat.
Proof.
  intros Hb Hq (Hlive & Hready & Hseen) Hcond.
  unfold mlq_cond in Hcond. apply bool_decide_eq_true in Hcond.
  unfold Plain.mlq_body. rewrite mlq_arrivals_spec. mlq_fields.
  set (hi := fun i : nat => priority (processes !!! i) <=? 2).
  set (new0 := newcomers (length processes) (MLQ.visited s)
                 (arrived processes (MLQ.currentTime s))).
  set (q1A := MLQ.q1 s ++ List.filter hi new0).
  set (lo := fun i : nat => negb (priority (processes !!! i) <=? 2)).
  set (q2A := MLQ.q2 s ++ List.filter lo new0).
  assert (Hsplit : ∀ l, List.filter hi l ++ List.filter lo l ≡ₚ l)
    by (intros l; apply filter_split_perm).
  destruct (arrivals_live processes (MLQ.remainingTime s) (MLQ.visited s)
              (MLQ.q1 s ++ MLQ.q2 s) (MLQ.currentTime s) (q1A ++ q2A)
              Hb Hready Hseen) as (HreadyA & HseenA & HnoneA).
  { unfold q1A, q2A. fold new0.
    etrans; [|apply Permutation_app; [reflexivity|apply (Hsplit new0)]].
    solve_Permutation. }
  fold new0 in HreadyA, HseenA, HnoneA.
  destruct q1A as [|idx rest] eqn:Hq1A.
  - destruct q2A as [|idx rest2] eqn:Hq2A.
    + (* idle *)
      destruct (idle_live _ _ _ _ _ _ Hlive HreadyA HseenA HnoneA Hcond)
        as (Hlive' & Hseen' & Hwork).
      eexists. split; [reflexivity|]. unfold mlq_live, mlq_idle. mlq_fields.
      split; [|exact Hwork]. split; [exact Hlive'|]. split; assumption.
    + (* queue 2 *)
      assert (Hpos : 0 < MLQ.remainingTime s !!! idx).
      { assert (idx ∈ [] ++ idx :: rest2) as Hi by (apply elem_of_cons; auto).
        apply (ri_mem _ _ _ _ HreadyA) in Hi. tauto. }
      destruct (live_seen_slice processes (MLQ.remainingTime s) (MLQ.results s)
                  (MLQ.currentTime s) (MLQ.completed s)
                  (mark_all new0 (MLQ.visited s)) ([] ++ idx :: rest2)
                  idx rest2 1 []
                  ([] ++ (if (MLQ.remainingTime s !!! idx - 1 =? 0)
                          then rest2 else idx :: rest2)))
        as (Hidx & Hrem' & Hlive' & Hready' & Hseen' & Hwork); auto.
      { lia. }
      { constructor. }
      { intros i Hi. by apply elem_of_nil in Hi. }
      { destruct (Z.eqb_spec (MLQ.remainingTime s !!! idx - 1) 0) as [Hz|Hz].
        - rewrite Hz. simpl. by rewrite app_nil_r.
        - destruct (Z.ltb_spec 0 (MLQ.remainingTime s !!! idx - 1)); [|lia].
          simpl. apply Permutation_cons_append. }
      eexists. split; [reflexivity|]. unfold mlq_exec2. mlq_fields.
      rewrite mark_all_nil in Hready', Hseen'.
      rewrite Hrem'. rewrite Hrem' in Hlive'.
      destruct (MLQ.remainingTime s !!! idx - 1 =? 0); unfold mlq_live;
        mlq_fields; cbn [tail];
        (split; [|exact Hwork]); (split; [exact Hlive'|]); split; assumption.
  - (* queue 1 *)
    rewrite mlq_arrivals_spec. unfold mlq_exec1. mlq_fields.
    set (d := Z.min timeQuantum (MLQ.remainingTime s !!! idx)).
    set (t := MLQ.currentTime s).
    set (visitedA := mark_all new0 (MLQ.visited s)).
    set (new1 := newcomers (length processes) visitedA
                   (arrived processes (t + d))).
    fold hi lo.
    assert (Hpos : 0 < MLQ.remainingTime s !!! idx).
    { assert (idx ∈ (idx :: rest) ++ q2A) as Hi by (apply elem_of_cons; auto).
      apply (ri_mem _ _ _ _ HreadyA) in Hi. tauto. }
    destruct (live_seen_slice processes (MLQ.remainingTime s) (MLQ.results s)
                t (MLQ.completed s)
                visitedA ((idx :: rest) ++ q2A) idx (rest ++ q2A) d new1
                (((rest ++ List.filter hi new1)
                  ++ (if 0 <? MLQ.remainingTime s !!! idx - d
                      then [idx] else []))
                 ++ (q2A ++ List.filter lo new1)))
      as (Hidx & Hrem' & Hlive' & Hready' & Hseen' & Hwork); auto.
    { unfold d. lia. }
    { apply NoDup_newcomers. }
    { intros i Hi. by apply newcomers_arrived in Hi. }
    { etrans; [|apply Permutation_app; [reflexivity|
                 apply Permutation_app; [apply (Hsplit new1)|reflexivity]]].
      solve_Permutation. }
    eexists. split; [reflexivity|]. unfold mlq_finish1. mlq_fields.
    rewrite Hrem'. rewrite Hrem' in Hlive'.
    destruct (Z.ltb_spec 0 (MLQ.remainingTime s !!! idx - d)) as [Hlt|Hge].
    + assert ((MLQ.remainingTime s !!! idx - d =? 0) = false) as Hz
        by (apply Z.eqb_neq; lia).
      rewrite Hz in Hlive'. unfold mlq_live. mlq_fields.
      split; [|exact Hwork]. split; [exact Hlive'|]. split; assumption.
    + assert ((MLQ.remainingTime s !!! idx - d =? 0) = true) as Hz
        by (apply Z.eqb_eq; unfold d in *; lia).
      rewrite Hz in Hlive'. unfold mlq_live. mlq_fields.
      split; [|exact Hwork]. split; [exact Hlive'|]. split; [|assumption].
      rewrite app_nil_r in Hready'. exact Hready'.
Qed.

Lemma solveMLQ_live localeCompare fuel processes timeQuantum :
  Forall (fun p => 1 ≤ burstTime p) processes → 1 ≤ timeQuantum →
  (fuel_bound processes ≤ fuel)%nat →
  ∃ out,
    Plain.solveMLQ localeCompare fuel processes timeQuantum = Done out
    ∧ map process (Plain.results out) ≡ₚ processes
    ∧ Forall result_ok (Plain.results out).
Proof.
  intros Hb Hq Hfuel. unfold Plain.solveMLQ.
  destruct (while_loop_total (mlq_live processes)
              (fun s => work_left processes (MLQ.remainingTime s)
                          (MLQ.currentTime s))
              (mlq_cond (length processes))
              (Plain.mlq_body processes timeQuantum)
              (fun s Hs Hc => mlq_live_body processes timeQuantum s Hb Hq Hs Hc)
              fuel (mlq_init processes) (mlq_live_init processes Hb))
    as (s & -> & [Hlive _] & Hcond).
  - simpl. rewrite work_left_init. exact Hfuel.
  - eexists. split; [reflexivity|]. simpl.
    apply (live_final processes (MLQ.remainingTime s) _ (MLQ.currentTime s)
             (MLQ.completed s)); [exact Hlive|].
    unfold mlq_cond in Hcond. apply bool_decide_eq_false in Hcond. lia.
Qed.

Lemma mlfq_live_init processes :
  Forall (fun p => 1 ≤ burstTime p) processes →
  mlfq_live processes (mlfq_init processes).
Proof.
  intros Hb. unfold mlfq_live, mlfq_init. simpl.
  split; [by apply live_inv_init|]. split; [apply ready_inv_start|].
  intros i Hi Hs. rewrite is_set_replicate_false in Hs. discriminate.
Qed.

Lemma mlfq_live_body processes timeQuantum s :
  Forall (fun p => 1 ≤ burstTime p) processes → 1 ≤ timeQuantum →
  mlfq_live processes s → mlfq_cond (length processes) s = true →
  ∃ s', Plain.mlfq_body processes timeQuantum s = Next s'
        ∧ mlfq_live processes s'
        ∧ (work_left processes (MLFQ.remainingTime s') (MLFQ.currentTime s')
           < work_left processes (MLFQ.remainingTime s) (MLFQ.currentTime s))%nat.
Proof.
  intros Hb Hq (Hlive & Hready & Hseen) Hcond.
  unfold mlfq_cond in Hcond. apply bool_decide_eq_true in Hcond.
  unfold Plain.mlfq_body. rewrite mlfq_arrivals_spec. unfold mlfq_pick.
  mlfq_fields.
  set (new0 := newcomers (length processes) (MLFQ.visited s)
                 (arrived processes (MLFQ.currentTime s))).
  set (q0A := MLFQ.q0 s ++ new0).
  set (t := MLFQ.currentTime s).
  set (visitedA := mark_all new0 (MLFQ.visited s)).
  destruct (arrivals_live processes (MLFQ.remainingTime s) (MLFQ.visited s)
              (MLFQ.q0 s ++ MLFQ.q1 s ++ MLFQ.q2 s) (MLFQ.currentTime s)
              (q0A ++ MLFQ.q1 s ++ MLFQ.q2 s)
              Hb Hready Hseen) as (HreadyA & HseenA & HnoneA).
  { unfold q0A. fold new0. solve_Permutation. }
  fold new0 visitedA t in HreadyA, HseenA, HnoneA.
  assert (Hhead : ∀ idx l1 l2 l3, q0A ++ MLFQ.q1 s ++ MLFQ.q2 s
                                  = l1 ++ l2 ++ idx :: l3 →
                    0 < MLFQ.remainingTime s !!! idx).
  { intros idx l1 l2 l3 Heq.
    assert (idx ∈ q0A ++ MLFQ.q1 s ++ MLFQ.q2 s) as Hi.
    { rewrite Heq, !elem_of_app, elem_of_cons. auto. }
    apply (ri_mem _ _ _ _ HreadyA) in Hi. tauto. }
  destruct q0A as [|idx rest] eqn:Hq0A;
    [destruct (MLFQ.q1 s) as [|idx rest] eqn:Hq1;
     [destruct (MLFQ.q2 s) as [|idx rest] eqn:Hq2|]|].
  - (* idle *)
    destruct (idle_live _ _ _ _ _ _ Hlive HreadyA HseenA HnoneA Hcond)
      as (Hlive' & Hseen' & Hwork).
    eexists. split; [reflexivity|]. unfold mlfq_live, mlfq_idle. mlfq_fields.
    split; [|exact Hwork]. split; [exact Hlive'|]. split; assumption.
  - (* queue 2 *)
    pose proof (Hhead idx [] [] rest eq_refl) as Hpos.
    rewrite mlfq_arrivals_spec. unfold mlfq_exec. mlfq_fields.
    change (2 =? 2)%nat with true. cbv iota.
    set (new1 := newcomers (length processes) visitedA
                   (arrived processes (t + 1))).
    destruct (live_seen_slice processes (MLFQ.remainingTime s) (MLFQ.results s)
                t (MLFQ.completed s)
                visitedA ([] ++ [] ++ idx :: rest) idx rest 1 new1
                (([] ++ new1) ++ []
                 ++ (if (MLFQ.remainingTime s !!! idx - 1 =? 0)
                     then rest else idx :: rest)))
      as (Hidx & Hrem' & Hlive' & Hready' & Hseen' & Hwork); auto.
    { lia. }
    { apply NoDup_newcomers. }
    { intros i Hi. apply newcomers_arrived in Hi. exact Hi. }
    { destruct (Z.eqb_spec (MLFQ.remainingTime s !!! idx - 1) 0) as [Hz|Hz].
      - rewrite Hz. simpl. rewrite app_nil_r. solve_Permutation.
      - destruct (Z.ltb_spec 0 (MLFQ.remainingTime s !!! idx - 1)); [|lia].
        simpl. solve_Permutation. }
    eexists. split; [reflexivity|]. unfold mlfq_finish. mlfq_fields.
    rewrite Hrem'. rewrite Hrem' in Hlive'.
    change (2 =? 2)%nat with true. change (2 =? 0)%nat with false.
    change (2 =? 1)%nat with false. cbv iota.
    destruct (MLFQ.remainingTime s !!! idx - 1 =? 0); unfold mlfq_live;
      mlfq_fields; cbn [tail]; rewrite ?Hq1, ?Hq2;
      (split; [|exact Hwork]); (split; [exact Hlive'|]); split; assumption.
  - (* queue 1 *)
    pose proof (Hhead idx [] [] (rest ++ MLFQ.q2 s) eq_refl) as Hpos.
    rewrite mlfq_arrivals_spec. unfold mlfq_exec. mlfq_fields.
    change (1 =? 2)%nat with false. cbv iota. unfold min_bound.
    set (d := Z.min (MLFQ.remainingTime s !!! idx) (timeQuantum * 2)).
    set (new1 := newcomers (length processes) visitedA
                   (arrived processes (t + d))).
    destruct (live_seen_slice processes (MLFQ.remainingTime s) (MLFQ.results s)
                t (MLFQ.completed s)
                visitedA ([] ++ (idx :: rest) ++ MLFQ.q2 s) idx
                (rest ++ MLFQ.q2 s) d new1
                (([] ++ new1) ++ rest
                 ++ (if (MLFQ.remainingTime s !!! idx - d =? 0)
                     then MLFQ.q2 s else MLFQ.q2 s ++ [idx])))
      as (Hidx & Hrem' & Hlive' & Hready' & Hseen' & Hwork); auto.
    { unfold d. lia. }
    { apply NoDup_newcomers. }
    { intros i Hi. apply newcomers_arrived in Hi. exact Hi. }
    { destruct (Z.eqb_spec (MLFQ.remainingTime s !!! idx - d) 0) as [Hz|Hz].
      - rewrite Hz. simpl. rewrite app_nil_r. solve_Permutation.
      - destruct (Z.ltb_spec 0 (MLFQ.remainingTime s !!! idx - d));
          [|unfold d in *; lia].
        simpl. solve_Permutation. }
    eexists. split; [reflexivity|]. unfold mlfq_finish. mlfq_fields.
    rewrite Hrem'. rewrite Hrem' in Hlive'.
    change (1 =? 2)%nat with false. change (1 =? 0)%nat with false.
    change (1 =? 1)%nat with true. cbv iota.
    destruct (MLFQ.remainingTime s !!! idx - d =? 0); unfold mlfq_live;
      mlfq_fields;
      (split; [|exact Hwork]); (split; [exact Hlive'|]); split; assumption.
  - (* queue 0 *)
    pose proof (Hhead idx [] [] (rest ++ MLFQ.q1 s ++ MLFQ.q2 s) eq_refl)
      as Hpos.
    rewrite mlfq_arrivals_spec. unfold mlfq_exec. mlfq_fields.
    change (0 =? 2)%nat with false. cbv iota. unfold min_bound.
    set (d := Z.min (MLFQ.remainingTime s !!! idx) timeQuantum).
    set (new1 := newcomers (length processes) visitedA
                   (arrived processes (t + d))).
    destruct (live_seen_slice processes (MLFQ.remainingTime s) (MLFQ.results s)
                t (MLFQ.completed s)
                visitedA ((idx :: rest) ++ MLFQ.q1 s ++ MLFQ.q2 s) idx
                (rest ++ MLFQ.q1 s ++ MLFQ.q2 s) d new1
                ((rest ++ new1)
                 ++ (if (MLFQ.remainingTime s !!! idx - d =? 0)
                     then MLFQ.q1 s else MLFQ.q1 s ++ [idx])
                 ++ MLFQ.q2 s))
      as (Hidx & Hrem' & Hlive' & Hready' & Hseen' & Hwork); auto.
    { unfold d. lia. }
    { apply NoDup_newcomers. }
    { intros i Hi. apply newcomers_arrived in Hi. exact Hi. }
    { destruct (Z.eqb_spec (MLFQ.remainingTime s !!! idx - d) 0) as [Hz|Hz].
      - rewrite Hz. simpl. rewrite app_nil_r. solve_Permutation.
      - destruct (Z.ltb_spec 0 (MLFQ.remainingTime s !!! idx - d));
          [|unfold d in *; lia].
        simpl. solve_Permutation. }
    eexists. split; [reflexivity|]. unfold mlfq_finish. mlfq_fields.
    rewrite Hrem'. rewrite Hrem' in Hlive'.
    change (0 =? 2)%nat with false. change (0 =? 0)%nat with true. cbv iota.
    destruct (MLFQ.remainingTime s !!! idx - d =? 0); unfold mlfq_live;
      mlfq_fields;
      (split; [|exact Hwork]); (split; [exact Hlive'|]); split; assumption.
Qed.

Lemma solveMLFQ_live localeCompare fuel processes timeQuantum :
  Forall (fun p => 1 ≤ burstTime p) processes → 1 ≤ timeQuantum →
  (fuel_bound processes ≤ fuel)%nat →
  ∃ out,
    Plain.solveMLFQ localeCompare fuel processes timeQuantum = Done out
    ∧ map process (Plain.results out) ≡ₚ processes
    ∧ Forall result_ok (Plain.results out).
Proof.
  intros Hb Hq Hfuel. unfold Plain.solveMLFQ.
  destruct (while_loop_total (mlfq_live processes)
              (fun s => work_left processes (MLFQ.remainingTime s)
                          (MLFQ.currentTime s))
              (mlfq_cond (length processes))
              (Plain.mlfq_body processes timeQuantum)
              (fun s Hs Hc => mlfq_live_body processes timeQuantum s Hb Hq Hs Hc)
              fuel (mlfq_init processes) (mlfq_live_init processes Hb))
    as (s & -> & [Hlive _] & Hcond).
  - simpl. rewrite work_left_init. exact Hfuel.
  - eexists. split; [reflexivity|]. simpl.
    apply (live_final processes (MLFQ.remainingTime s) _ (MLFQ.currentTime s)
             (MLFQ.completed s)); [exact Hlive|].
    unfold mlfq_cond in Hcond. apply bool_decide_eq_false in Hcond. lia.
Qed.

(** ** Every policy *)

Lemma plain_solve_live localeCompare fuel algorithm processes timeQuantum :
  Forall (fun p => 1 ≤ burstTime p) processes →
  (merging algorithm = true → Forall (fun p => id p ≠ "") processes) →
  (slicing algorithm = true → 1 ≤ timeQuantum) →
  (fuel_bound processes ≤ fuel)%nat →
  ∃ out,
    (if (algorithm =? "SRTF (Preemptive)")%string
     then pr_solve_reset true Plain.srtf_scan localeCompare fuel processes
     else if (algorithm =? "Priority (Preemptive)")%string
     then pr_solve_reset true priop_scan localeCompare fuel processes
     else Plain.solve localeCompare fuel algorithm processes timeQuantum)
    = Done out
    ∧ map process (Plain.results out) ≡ₚ processes
    ∧ Forall result_ok (Plain.results out).
Proof.
  intros Hb Hnames Hq Hfuel. unfold merging, slicing in *.
  pose proof (fun scan Hscan =>
    np_solve_live scan localeCompare fuel processes Hb Hscan Hfuel) as Hnp.
  pose proof (solveFCFS_live localeCompare processes) as Hfcfs.
  destruct (algorithm =? "SRTF (Preemptive)")%string eqn:E3.
  { apply pr_solve_live; auto using srtf_scan_ok. }
  destruct (algorithm =? "Priority (Preemptive)")%string eqn:E5.
  { apply pr_solve_live; auto using priop_scan_ok. }
  unfold Plain.solve. rewrite E3, E5.
  destruct (algorithm =? "FCFS")%string; [exact Hfcfs|].
  destruct (algorithm =? "SJF (Non-Preemptive)")%string.
  { apply Hnp. auto using sjf_scan_ok. }
  destruct (algorithm =? "Priority (Non-Preemptive)")%string.
  { apply Hnp. auto using prionp_scan_ok. }
  destruct (algorithm =? "Round Robin")%string.
  { apply solveRR_live; auto. }
  destruct (algorithm =? "LJF (Non-Preemptive)")%string.
  { apply Hnp. intros sorted Hs. apply ljf_scan_ok.
    eapply Forall_impl; [exact Hs|]. simpl. lia. }
  destruct (algorithm =? "LRTF (Preemptive)")%string.
  { apply (pr_solve_live false); auto using lrtf_scan_ok. }
  destruct (algorithm =? "HRRN")%string.
  { apply Hnp. intros sorted Hs. by apply hrrn_scan_ok. }
  destruct (algorithm =? "Multilevel Queue")%string.
  { apply solveMLQ_live; auto. }
  destruct (algorithm =? "Multilevel Feedback Queue (MLFQ)")%string.
  { apply solveMLFQ_live; auto. }
  exact Hfcfs.
Qed.

(** ** Termination *)

(** With a quantum of 0 or less, a slice of queue 1 of the Multilevel
    Queue does not lower the remaining time, and the process goes
    back to the queue. *)
Lemma mlq_lone_stuck timeQuantum (fuel : nat) :
  timeQuantum ≤ 0 →
  while_loop fuel (mlq_cond 1) (Plain.mlq_body lone timeQuantum)
    (mlq_init lone)
  = OutOfFuel.
Proof.
  intros Hq.
  apply (while_loop_diverges
           (fun s => s = mlq_init lone
                     ∨ ∃ r results t g,
                         1 ≤ r
                         ∧ s = MLQ.mk [r] results t 0 g [0%nat] [] [true])).
  - intros s [->|(r & results & t & g & Hr & ->)].
    + split; [reflexivity|]. eexists. split; [|right].
      * unfold Plain.mlq_body. rewrite mlq_arrivals_spec. simpl.
        rewrite mlq_arrivals_spec. unfold mlq_exec1, mlq_finish1. simpl.
        rewrite Z.min_l by lia.
        destruct (Z.ltb_spec 0 (3 - timeQuantum)); [|lia]. reflexivity.
      * do 4 eexists. split; [|reflexivity]. lia.
    + split; [reflexivity|]. eexists. split; [|right].
      * unfold Plain.mlq_body. rewrite mlq_arrivals_spec. simpl.
        rewrite mlq_arrivals_spec. unfold mlq_exec1, mlq_finish1. simpl.
        rewrite Z.min_l by lia.
        destruct (Z.ltb_spec 0 (r - timeQuantum)); [|lia]. reflexivity.
      * do 4 eexists. split; [|reflexivity]. lia.
  - by left.
Qed.

(** With a quantum of 0 or less, the slices of Q0 and of Q1 of the
    Multilevel Feedback Queue do not lower the remaining time, and the
    unit slices of Q2 take more rounds than the sum of the bursts. *)
Lemma mlfq_lone_slow timeQuantum :
  timeQuantum ≤ 0 →
  while_loop 3 (mlfq_cond 1) (Plain.mlfq_body lone timeQuantum)
    (mlfq_init lone)
  = OutOfFuel.
Proof.
  intros Hq.
  assert (H0 : ∃ results t g,
            Plain.mlfq_body lone timeQuantum (mlfq_init lone)
            = Next (MLFQ.mk [3 - timeQuantum] results t 0 g [] [0%nat] []
                      [true])).
  { unfold Plain.mlfq_body. rewrite mlfq_arrivals_spec. simpl.
    rewrite mlfq_arrivals_spec. unfold mlfq_exec, mlfq_finish. simpl.
    rewrite Z.min_r by lia.
    destruct (Z.eqb_spec (3 - timeQuantum) 0); [lia|]. eauto. }
  assert (H1 : ∀ results t g, ∃ results' t' g',
            Plain.mlfq_body lone timeQuantum
              (MLFQ.mk [3 - timeQuantum] results t 0 g [] [0%nat] [] [true])
            = Next (MLFQ.mk [3 - timeQuantum - timeQuantum * 2] results' t' 0
                      g' [] [] [0%nat] [true])).
  { intros results t g.
    unfold Plain.mlfq_body. rewrite mlfq_arrivals_spec. simpl.
    rewrite mlfq_arrivals_spec. unfold mlfq_exec, mlfq_finish. simpl.
    rewrite Z.min_r by lia.
    destruct (Z.eqb_spec (3 - timeQuantum - timeQuantum * 2) 0); [lia|].
    eauto. }
  assert (H2 : ∀ results t g, ∃ results' t' g',
            Plain.mlfq_body lone timeQuantum
              (MLFQ.mk [3 - timeQuantum - timeQuantum * 2] results t 0 g
                 [] [] [0%nat] [true])
            = Next (MLFQ.mk [3 - timeQuantum - timeQuantum * 2 - 1] results'
                      t' 0 g' [] [] [0%nat] [true])).
  { intros results t g.
    unfold Plain.mlfq_body. rewrite mlfq_arrivals_spec. simpl.
    rewrite mlfq_arrivals_spec. unfold mlfq_exec, mlfq_finish. simpl.
    destruct (Z.eqb_spec (3 - timeQuantum - timeQuantum * 2 - 1) 0); [lia|].
    eauto. }
  destruct H0 as (r0 & t0 & g0 & E0).
  destruct (H1 r0 t0 g0) as (r1 & t1 & g1 & E1).
  destruct (H2 r1 t1 g1) as (r2 & t2 & g2 & E2).
  cbn [while_loop].
  change (mlfq_cond 1 (mlfq_init lone)) with true. cbv iota. rewrite E0.
  change (mlfq_cond 1 (MLFQ.mk [3 - timeQuantum] r0 t0 0 g0 [] [0%nat] []
                         [true])) with true. cbv iota. rewrite E1.
  change (mlfq_cond 1 (MLFQ.mk [3 - timeQuantum - timeQuantum * 2] r1 t1 0 g1
                         [] [] [0%nat] [true])) with true. cbv iota.
  rewrite E2. reflexivity.
Qed.

(** C3, as stated, fails. Bursts of at least 1 do not suffice. On a
    process whose name is empty, SRTF, the preemptive priority policy
    and LRTF extend the last block of an empty chart in their first
    round and raise a TypeError. With a quantum of 0 or less the loops
    of Round Robin and of the Multilevel Queue never end, and the loop
    of the Multilevel Feedback Queue runs for more rounds than the sum
    of the bursts: with a quantum of -1 it takes eight rounds for a
    burst of 3. *)
Lemma solve_fails_to_complete :
  Forall (fun p => 1 ≤ burstTime p) nameless
  ∧ (∀ fuel, Logged.solve code_order no_digits (S fuel) "SRTF (Preemptive)"
               nameless 1 = Throws)
  ∧ (∀ fuel, Logged.solve code_order no_digits (S fuel)
               "Priority (Preemptive)" nameless 1 = Throws)
  ∧ (∀ fuel, Logged.solve code_order no_digits (S fuel) "LRTF (Preemptive)"
               nameless 1 = Throws)
  ∧ Forall (fun p => 1 ≤ burstTime p) lone
  ∧ (∀ timeQuantum fuel, timeQuantum ≤ 0 →
       Logged.solve code_order no_digits fuel "Round Robin" lone timeQuantum
       = OutOfFuel)
  ∧ (∀ timeQuantum fuel, timeQuantum ≤ 0 →
       Logged.solve code_order no_digits fuel "Multilevel Queue" lone
         timeQuantum
       = OutOfFuel)
  ∧ fuel_bound lone = 3%nat
  ∧ (∀ timeQuantum, timeQuantum ≤ 0 →
       Logged.solve code_order no_digits 3 "Multilevel Feedback Queue (MLFQ)"
         lone timeQuantum
       = OutOfFuel)
  ∧ outcome_map Logged.ganttChart
      (Logged.solve code_order no_digits 8 "Multilevel Feedback Queue (MLFQ)"
         lone (-1))
    = Done [ mkBlock "A" 0 (-1); mkBlock "A" (-1) (-3); mkBlock "A" (-3) (-2);
             mkBlock "A" (-2) (-1); mkBlock "A" (-1) 0; mkBlock "A" 0 1;
             mkBlock "A" 1 2; mkBlock "A" 2 3 ].
Proof.
  assert (Hlone : Forall (fun p => 1 ≤ burstTime p) lone)
    by (repeat constructor; simpl; lia).
  split; [repeat constructor; simpl; lia|].
  do 3 (split; [intros fuel; reflexivity|]).
  split; [exact Hlone|]. split; [|split].
  - intros timeQuantum fuel Hq.
    apply (outcome_map_out_of_fuel forget). rewrite solve_forget.
    change (Plain.solveRR code_order fuel lone timeQuantum = OutOfFuel).
    unfold Plain.solveRR.
    rewrite (while_loop_diverges (rr_stuck lone)); [reflexivity| |].
    + intros s Hs. by apply rr_stuck_body.
    + by apply rr_stuck_init.
  - intros timeQuantum fuel Hq.
    apply (outcome_map_out_of_fuel forget). rewrite solve_forget.
    change (Plain.solveMLQ code_order fuel lone timeQuantum = OutOfFuel).
    unfold Plain.solveMLQ.
    change (length lone) with 1%nat. by rewrite mlq_lone_stuck.
  - split; [reflexivity|]. split; [|reflexivity].
    intros timeQuantum Hq.
    apply (outcome_map_out_of_fuel forget). rewrite solve_forget.
    change (Plain.solveMLFQ code_order 3 lone timeQuantum = OutOfFuel).
    unfold Plain.solveMLFQ.
    change (length lone) with 1%nat. by rewrite mlfq_lone_slow.
Qed.

(** C3, amended. For every policy identifier and every process list
    whose bursts are at least 1, whatever the names and the arrival
    times, provided that no name is empty when the policy is SRTF,
    Priority (Preemptive) or LRTF, and that the quantum is at least 1
    when the policy is Round Robin, the Multilevel Queue or the
    Multilevel Feedback Queue: the loop of the solver ends within
    [fuel_bound] rounds, the sum of the bursts plus the latest arrival
    time, and [solve] returns one result for each process, which ends
    no earlier than its arrival plus its burst. *)
Theorem solve_terminates localeCompare toFixed2 fuel algorithm processes
    timeQuantum :
  Forall (fun p => 1 ≤ burstTime p) processes →
  (merging algorithm = true → Forall (fun p => id p ≠ "") processes) →
  (slicing algorithm = true → 1 ≤ timeQuantum) →
  (fuel_bound processes ≤ fuel)%nat →
  ∃ out,
    Logged.solve localeCompare toFixed2 fuel algorithm processes timeQuantum
    = Done out
    ∧ map process (Logged.results out) ≡ₚ processes
    ∧ Forall result_complete (Logged.results out).
Proof.
  intros Hb Hnames Hq Hfuel.
  destruct (plain_solve_live localeCompare fuel algorithm processes
              timeQuantum Hb Hnames Hq Hfuel) as (pout & Heq & Hall & Hok).
  rewrite <- solve_forget with (toFixed2 := toFixed2) in Heq.
  destruct (logged_of_plain _ _ Heq) as (out & -> & Hres & _).
  exists out. split; [reflexivity|]. rewrite Hres. split; [exact Hall|].
  eapply Forall_impl; [exact Hok|]. exact result_ok_complete.
Qed.

Lemma solve_terminates_witness :
  ∃ out,
    Logged.solve code_order no_digits 6 "Round Robin" early_twins 2 = Done out
    ∧ map process (Logged.results out) ≡ₚ early_twins
    ∧ Forall result_complete (Logged.results out).
Proof.
  apply (solve_terminates code_order no_digits 6 "Round Robin" early_twins 2).
  - repeat (constructor; [simpl; lia|]). constructor.
  - discriminate.
  - intros _. lia.
  - unfold fuel_bound. simpl. lia.
Defined.

(** * The short jobs of the Multilevel Feedback Queue *)

(** What a loop keeps, it has at its end. *)
Lemma while_loop_inv {S} (Inv : S → Prop) (cond : S → bool)
    (body : S → flow S) :
  (∀ s s', Inv s → cond s = true → body s = Next s' → Inv s') →
  (∀ s s', Inv s → cond s = true → body s = Break s' → Inv s') →
  ∀ fuel s s', Inv s → while_loop fuel cond body s = Done s' → Inv s'.
Proof.
  intros Hnext Hbreak. induction fuel as [|fuel IH]; intros s s' HI; simpl.
  - destruct (cond s); [discriminate|]. by intros [= <-].
  - destruct (cond s) eqn:Hc; [|by intros [= <-]].
    destruct (body s) as [s1|s1|] eqn:Hb; [| |discriminate].
    + apply IH. by apply (Hnext s).
    + intros [= <-]. by apply (Hbreak s).
Qed.

Lemma id_inj processes (i j : nat) :
  NoDup (map id processes) →
  (i < length processes)%nat → (j < length processes)%nat →
  id (processes !!! i) = id (processes !!! j) → i = j.
Proof.
  intros Hnd Hi Hj Heq.
  apply (NoDup_lookup _ i j (id (processes !!! i)) Hnd);
    change map with (@fmap list _); rewrite list_lookup_fmap.
  - by rewrite (list_lookup_lookup_total_lt _ _ Hi).
  - rewrite (list_lookup_lookup_total_lt _ _ Hj). simpl. by rewrite Heq.
Qed.

(** Processes that were not visited join [q0]. *)
Lemma short_ok_arrive processes visited q0 results g new (i : nat) :
  (∀ j, j ∈ new → is_set visited j = false) →
  short_ok processes visited q0 results g i →
  short_ok processes (mark_all new visited) (q0 ++ new) results g i.
Proof.
  intros Hnew [([Hu|Hin] & Hs & Hg)|(Hv & Hnot & He & Hb & Hone)].
  - left. split; [|auto].
    destruct (is_set (mark_all new visited) i) eqn:E; [|auto].
    apply is_set_mark_all in E as [E|[E _]]; [congruence|].
    right. apply elem_of_app. auto.
  - left. split; [|auto]. right. apply elem_of_app. auto.
  - right. split; [apply is_set_mark_all; auto|]. split; [|auto].
    rewrite elem_of_app. intros [H|H]; [contradiction|].
    apply Hnew in H. congruence.
Qed.

(** Another process runs. *)
Lemma short_ok_other processes visited q0 q0' results results' g idx t t'
    (i : nat) :
  (i < length processes)%nat → (idx < length processes)%nat → i ≠ idx →
  results' !!! i = results !!! i →
  (i ∈ q0' ↔ i ∈ q0) →
  short_ok processes visited q0 results g i →
  short_ok processes visited q0' results'
    (g ++ [mkBlock (id (processes !!! idx)) t t']) i.
Proof.
  intros Hi Hidx Hne Hres Hq Hok. unfold short_ok in *. rewrite Hres, Hq.
  assert (Hnew : NoDup (map id processes) →
                 id (processes !!! idx) ≠ id (processes !!! i)).
  { intros Hnd E. apply Hne. symmetry. by apply (id_inj processes). }
  destruct Hok as [(Hf & Hs & Hg)|(Hv & Hnot & He & Hb & Hone)].
  - left. split; [exact Hf|]. split; [exact Hs|].
    intros Hnd b Hin. apply elem_of_app in Hin as [Hin|Hin]; [by apply Hg|].
    apply list_elem_of_singleton in Hin. subst b. simpl. by apply Hnew.
  - right. split; [exact Hv|]. split; [exact Hnot|]. split; [exact He|].
    split; [apply elem_of_app; auto|].
    intros Hnd b Hin Hb'. apply elem_of_app in Hin as [Hin|Hin];
      [by apply Hone|].
    apply list_elem_of_singleton in Hin. subst b. simpl in Hb'.
    by apply Hnew in Hb'.
Qed.

(** The short job at the head of [q0] runs. *)
Lemma short_ok_run processes visited rest results g idx t :
  (idx < length results)%nat →
  is_set visited idx = true → idx ∉ rest →
  short_ok processes visited (idx :: rest) results g idx →
  short_ok processes visited rest
    (finalize_from processes idx (t + burstTime (processes !!! idx))
       (mark_start idx t results))
    (g ++ [mkBlock (id (processes !!! idx)) t
             (t + burstTime (processes !!! idx))]) idx.
Proof.
  intros Hidx Hv Hnot [(_ & Hs & Hg)|(_ & Hin & _)];
    [|exfalso; apply Hin, elem_of_cons; auto].
  right. unfold finalize_from.
  rewrite list_lookup_total_insert_eq by (by rewrite length_mark_start).
  rewrite lookup_mark_start by exact Hidx. rewrite decide_True by reflexivity.
  rewrite Hs. simpl.
  split; [exact Hv|]. split; [exact Hnot|]. split; [reflexivity|].
  split; [apply elem_of_app; right; by apply list_elem_of_singleton|].
  intros Hnd b Hb Hid. apply elem_of_app in Hb as [Hb|Hb].
  - by apply (Hg Hnd) in Hb.
  - by apply list_elem_of_singleton in Hb.
Qed.

Lemma short_jobs_init processes timeQuantum :
  short_jobs processes timeQuantum (mlfq_init processes).
Proof.
  split; [apply mlfq_levels_init|]. split; [apply map_process_init|].
  intros i Hi _. left. simpl. split; [left; apply is_set_replicate_false|].
  split; [by rewrite lookup_total_init_results|].
  intros _ b Hb. by apply elem_of_nil in Hb.
Qed.

Lemma short_jobs_body processes timeQuantum s :
  short_jobs processes timeQuantum s →
  ∃ s', Plain.mlfq_body processes timeQuantum s = Next s'
        ∧ short_jobs processes timeQuantum s'.
Proof.
  intros (Hlev & Hres & Hshort).
  destruct (mlfq_levels_body _ _ _ Hlev) as (s' & Hbody & Hlev').
  exists s'. split; [exact Hbody|]. split; [exact Hlev'|].
  apply mlfq_levels_arrivals in Hlev.
  revert Hbody Hlev. unfold Plain.mlfq_body. rewrite mlfq_arrivals_spec.
  unfold mlfq_pick. mlfq_fields.
  set (new0 := newcomers (length processes) (MLFQ.visited s)
                 (arrived processes (MLFQ.currentTime s))).
  set (q0A := MLFQ.q0 s ++ new0).
  set (t := MLFQ.currentTime s).
  set (visitedA := mark_all new0 (MLFQ.visited s)).
  intros Hbody (Hlen & Hlenv & Hnd & Hq0 & Hunv & Hq12). mlfq_fields.
  simpl in Hlen, Hlenv, Hnd, Hq0, Hunv, Hq12.
  fold new0 q0A visitedA in Hlenv, Hnd, Hq0, Hunv, Hq12.
  assert (Hlenr : length (MLFQ.results s) = length processes)
    by (by apply length_map_process).
  assert (HshortA : ∀ i, (i < length processes)%nat →
            burstTime (processes !!! i) ≤ timeQuantum →
            short_ok processes visitedA q0A (MLFQ.results s)
              (MLFQ.ganttChart s) i).
  { intros i Hi Hb. apply short_ok_arrive; [|by apply Hshort].
    intros j Hj. apply elem_of_newcomers in Hj. tauto. }
  assert (Hnew : ∀ ready j,
            j ∈ newcomers (length processes) visitedA ready →
            is_set visitedA j = false).
  { intros ready j Hj. apply elem_of_newcomers in Hj. tauto. }
  (* the dispatch of [idx], which is not in [q0'] afterwards *)
  assert (Hrun : ∀ idx d q0' ready (c : bool),
            is_set visitedA idx = true →
            (∀ i, i ≠ idx → i ∈ q0' ↔ i ∈ q0A) → idx ∉ q0' →
            (burstTime (processes !!! idx) ≤ timeQuantum →
             idx ∈ q0A ∧ d = burstTime (processes !!! idx) ∧ c = true) →
            let new1 := newcomers (length processes) visitedA ready in
            let results' :=
              if c then finalize_from processes idx (t + d)
                          (mark_start idx t (MLFQ.results s))
              else mark_start idx t (MLFQ.results s) in
            map process results' = processes
            ∧ ∀ i, (i < length processes)%nat →
                   burstTime (processes !!! i) ≤ timeQuantum →
                   short_ok processes (mark_all new1 visitedA) (q0' ++ new1)
                     results'
                     (MLFQ.ganttChart s
                      ++ [mkBlock (id (processes !!! idx)) t (t + d)]) i).
  { intros idx d q0' ready c Hv Hq0' Hnot Hshortidx new1 results'.
    assert (Hidx : (idx < length processes)%nat).
    { rewrite <- Hlenv. by apply is_set_lt. }
    split.
    { unfold results'. destruct c.
      - unfold finalize_from. rewrite map_process_insert. simpl.
        + by rewrite map_process_mark_start.
        + reflexivity.
      - by rewrite map_process_mark_start. }
    intros i Hi Hb. apply short_ok_arrive; [apply Hnew|].
    destruct (decide (i = idx)) as [->|Hne].
    - destruct (Hshortidx Hb) as (Hin & -> & ->). unfold results'.
      apply short_ok_run; [lia|exact Hv|exact Hnot|].
      destruct (HshortA idx Hidx Hb) as [(Hf & Hs & Hg)|(_ & Hout & _)];
        [|contradiction].
      left. split; [right; apply elem_of_cons; auto|auto].
    - unfold results'.
      apply (short_ok_other _ _ q0A _ (MLFQ.results s)); auto.
      apply lookup_slice_other; [lia|exact Hne]. }
  assert (Hlong : ∀ idx, idx ∈ MLFQ.q1 s ++ MLFQ.q2 s →
            is_set visitedA idx = true
            ∧ ∀ P : Prop, burstTime (processes !!! idx) ≤ timeQuantum → P).
  { intros idx Hin. destruct (Hq12 idx Hin) as [Hv Hb]. split; [exact Hv|].
    intros P Hs. lia. }
  revert Hbody.
  destruct q0A as [|idx rest] eqn:Hq0A;
    [destruct (MLFQ.q1 s) as [|idx rest] eqn:Hq1;
     [destruct (MLFQ.q2 s) as [|idx rest] eqn:Hq2|]|].
  - (* idle *)
    intros [= <-]. unfold mlfq_idle. mlfq_fields.
    split; [exact Hres|exact HshortA].
  - (* queue 2 *)
    destruct (Hlong idx) as [Hv Hno]; [apply elem_of_cons; auto|].
    rewrite mlfq_arrivals_spec. unfold mlfq_exec, mlfq_finish. mlfq_fields.
    change (2 =? 2)%nat with true. change (2 =? 0)%nat with false.
    change (2 =? 1)%nat with false. cbv iota.
    destruct (_ =? 0) eqn:Hz; intros [= <-]; mlfq_fields.
    + apply (Hrun idx 1 [] (arrived processes (t + 1)) true); auto.
      * apply not_elem_of_nil.
      * apply Hno.
    + apply (Hrun idx 1 [] (arrived processes (t + 1)) false); auto.
      * apply not_elem_of_nil.
      * apply Hno.
  - (* queue 1 *)
    destruct (Hlong idx) as [Hv Hno];
      [apply elem_of_app; left; apply elem_of_cons; auto|].
    rewrite mlfq_arrivals_spec. unfold mlfq_exec, mlfq_finish. mlfq_fields.
    change (1 =? 2)%nat with false. change (1 =? 0)%nat with false.
    change (1 =? 1)%nat with true. cbv iota. unfold min_bound.
    set (d := Z.min (MLFQ.remainingTime s !!! idx) (timeQuantum * 2)).
    destruct (_ =? 0) eqn:Hz; intros [= <-]; mlfq_fields.
    + apply (Hrun idx d [] (arrived processes (t + d)) true); auto.
      * apply not_elem_of_nil.
      * apply Hno.
    + apply (Hrun idx d [] (arrived processes (t + d)) false); auto.
      * apply not_elem_of_nil.
      * apply Hno.
  - (* queue 0 *)
    assert (Hin : idx ∈ idx :: rest) by (apply elem_of_cons; auto).
    destruct (Hq0 idx Hin) as [Hv Hr].
    apply NoDup_cons in Hnd as [Hnot Hnd].
    assert (Hidx : (idx < length (MLFQ.remainingTime s))%nat).
    { rewrite Hlen, <- Hlenv. by apply is_set_lt. }
    assert (Hrest : ∀ i, i ≠ idx → i ∈ rest ↔ i ∈ idx :: rest).
    { intros i Hne. rewrite elem_of_cons. tauto. }
    rewrite mlfq_arrivals_spec. unfold mlfq_exec, mlfq_finish. mlfq_fields.
    change (0 =? 2)%nat with false. change (0 =? 0)%nat with true. cbv iota.
    unfold min_bound.
    set (d := Z.min (MLFQ.remainingTime s !!! idx) timeQuantum).
    rewrite list_lookup_total_insert_eq by exact Hidx.
    destruct (Z.eqb_spec (MLFQ.remainingTime s !!! idx - d) 0) as [Hz|Hz];
      intros [= <-]; mlfq_fields.
    + apply (Hrun idx d rest (arrived processes (t + d)) true); auto.
      intros Hs. split; [exact Hin|]. split; [unfold d; lia|reflexivity].
    + apply (Hrun idx d rest (arrived processes (t + d)) false); auto.
      intros Hs. exfalso. apply Hz. unfold d. lia.
Qed.

Lemma solve_mlfq_forget localeCompare toFixed2 fuel processes timeQuantum :
  outcome_map forget
    (Logged.solve localeCompare toFixed2 fuel
       "Multilevel Feedback Queue (MLFQ)" processes timeQuantum)
  = Plain.solveMLFQ localeCompare fuel processes timeQuantum.
Proof. rewrite solve_forget. reflexivity. Qed.

(** A result of the final state, by its index. *)
Lemma result_index processes (results : list ProcessResult)
    (cmp : ProcessResult → ProcessResult → Z) r :
  map process results = processes → r ∈ js_sort cmp results →
  ∃ i, (i < length processes)%nat ∧ r = results !!! i
       ∧ process r = processes !!! i.
Proof.
  intros Hres Hr. rewrite js_sort_perm in Hr.
  apply list_elem_of_lookup in Hr as [i Hi].
  pose proof (lookup_lt_Some _ _ _ Hi) as Hlt.
  rewrite (length_map_process _ _ Hres) in Hlt.
  exists i. split; [exact Hlt|].
  rewrite <- (list_lookup_total_correct _ _ _ Hi).
  split; [reflexivity|]. by apply process_lookup.
Qed.

Lemma mlfq_short_partial localeCompare fuel processes timeQuantum :
  outcome_all
    (fun out =>
       ∀ r, r ∈ Plain.results out → burstTime (process r) ≤ timeQuantum →
            startTime r = -1 ∨ ran_once (Plain.ganttChart out) r)
    (Plain.solveMLFQ localeCompare fuel processes timeQuantum).
Proof.
  unfold Plain.solveMLFQ.
  destruct (while_loop _ _ _ _) as [s| |] eqn:Hloop; simpl; [|exact I..].
  assert (Hs : short_jobs processes timeQuantum s).
  { apply (while_loop_inv (short_jobs processes timeQuantum)
             (mlfq_cond (length processes))
             (Plain.mlfq_body processes timeQuantum)) in Hloop;
      [exact Hloop| | |apply short_jobs_init].
    - intros s0 s1 Hs0 _ Hb.
      destruct (short_jobs_body _ _ _ Hs0) as (s2 & Hb2 & Hs2). congruence.
    - intros s0 s1 Hs0 _ Hb.
      destruct (short_jobs_body _ _ _ Hs0) as (s2 & Hb2 & Hs2). congruence. }
  destruct Hs as (_ & Hres & Hshort).
  intros r Hr Hb.
  destruct (result_index _ _ _ _ Hres Hr) as (i & Hi & -> & Hp).
  rewrite Hp in Hb. unfold ran_once. rewrite Hp.
  destruct (Hshort i Hi Hb) as [(_ & Hst & _)|(_ & _ & He & Hblock & _)]; auto.
Qed.

Lemma mlfq_short_total localeCompare fuel processes timeQuantum :
  Forall (fun p => 1 ≤ burstTime p) processes → 1 ≤ timeQuantum →
  (fuel_bound processes ≤ fuel)%nat →
  ∃ out,
    Plain.solveMLFQ localeCompare fuel processes timeQuantum = Done out
    ∧ map process (Plain.results out) ≡ₚ processes
    ∧ ∀ r, r ∈ Plain.results out → burstTime (process r) ≤ timeQuantum →
           ran_once (Plain.ganttChart out) r
           ∧ (NoDup (map id processes) →
              ∀ b, b ∈ Plain.ganttChart out → processId b = id (process r) →
                   b = mkBlock (id (process r)) (startTime r) (endTime r)).
Proof.
  intros Hb Hq Hfuel. unfold Plain.solveMLFQ.
  destruct (while_loop_total_with (mlfq_live processes)
              (short_jobs processes timeQuantum)
              (fun s => work_left processes (MLFQ.remainingTime s)
                          (MLFQ.currentTime s))
              (mlfq_cond (length processes))
              (Plain.mlfq_body processes timeQuantum)
              (fun s Hs Hc => mlfq_live_body processes timeQuantum s Hb Hq Hs Hc))
    with (fuel := fuel) (s := mlfq_init processes)
    as (s & -> & [Hlive _] & (Hlev & Hres & Hshort) & Hcond).
  - intros s0 s1 _ _ Hs0 Hbody.
    destruct (short_jobs_body _ _ _ Hs0) as (s2 & Hb2 & Hs2). congruence.
  - by apply mlfq_live_init.
  - apply short_jobs_init.
  - simpl. rewrite work_left_init. exact Hfuel.
  - unfold mlfq_cond in Hcond. apply bool_decide_eq_false in Hcond.
    assert (Hc : (length processes ≤ MLFQ.completed s)%nat) by lia.
    eexists. split; [reflexivity|]. simpl.
    split; [apply (live_final _ _ _ _ _ _ Hlive Hc)|].
    intros r Hr Hshortr.
    destruct (result_index _ _ _ _ Hres Hr) as (i & Hi & -> & Hp).
    rewrite Hp in Hshortr. unfold ran_once. rewrite Hp.
    pose proof (live_all_done _ _ _ _ _ Hlive Hc i Hi) as Hzero.
    pose proof (burst_ge_1 _ i Hb Hi) as Hpos.
    destruct Hlev as (_ & _ & _ & Hq0 & Hunv & _).
    destruct (Hshort i Hi Hshortr)
      as [([Hu|Hin] & _)|(_ & _ & He & Hblock & Hone)].
    + rewrite (Hunv i Hi Hu) in Hzero. lia.
    + destruct (Hq0 i Hin) as [_ Hr0]. rewrite Hr0 in Hzero. lia.
    + auto.
Qed.

(** The state that a loop returns is the last of its trace. *)
Lemma while_trace_last {S} (cond : S → bool) (body : S → flow S) fuel s s' :
  while_loop fuel cond body s = Done s' →
  last (while_trace fuel cond body s) = Some s'.
Proof.
  revert s. induction fuel as [|fuel IH]; intros s; simpl.
  - destruct (cond s); [discriminate|]. by intros [= <-].
  - destruct (cond s); [|by intros [= <-]].
    destruct (body s) as [s1|s1|]; [|by intros [= <-]|discriminate].
    intros Hloop. specialize (IH s1 Hloop).
    destruct (while_trace fuel cond body s1) as [|x l] eqn:Htrace;
      [discriminate|]. exact IH.
Qed.

(** What the rounds keep holds of every state of the trace. *)
Lemma while_trace_inv {S} (Inv : S → Prop) (cond : S → bool)
    (body : S → flow S) fuel s :
  (∀ s0 s1, Inv s0 → cond s0 = true → body s0 = Next s1 → Inv s1) →
  (∀ s0 s1, Inv s0 → cond s0 = true → body s0 = Break s1 → Inv s1) →
  Inv s → Forall Inv (while_trace fuel cond body s).
Proof.
  intros Hnext Hbreak. revert s.
  induction fuel as [|fuel IH]; intros s Hs; simpl.
  - by constructor.
  - constructor; [exact Hs|].
    destruct (cond s) eqn:Hc; [|constructor].
    destruct (body s) as [s1|s1|] eqn:Hb; [|by repeat constructor; eauto|
                                             constructor].
    apply IH. eauto.
Qed.

Lemma mlfq_rounds_levels fuel processes timeQuantum :
  Forall (fun sl => mlfq_levels processes timeQuantum (fst sl))
    (mlfq_rounds fuel processes timeQuantum).
Proof.
  unfold mlfq_rounds. apply while_trace_inv.
  - intros [s l] [s1 l1] Hs _ Hbody. simpl in *.
    destruct (mlfq_levels_body _ _ _ Hs) as (s2 & Hs2 & Hl2).
    pose proof (mlfq_body_fst processes timeQuantum s l) as Hfst.
    rewrite Hbody, Hs2 in Hfst. simpl in Hfst. by injection Hfst as ->.
  - intros [s l] [s1 l1] Hs _ Hbody. simpl in *.
    destruct (mlfq_levels_body _ _ _ Hs) as (s2 & Hs2 & Hl2).
    pose proof (mlfq_body_fst processes timeQuantum s l) as Hfst.
    rewrite Hbody, Hs2 in Hfst. discriminate.
  - apply mlfq_levels_init.
Qed.

(** C8. In MLFQ a process whose burst does not exceed the quantum
    completes in Q0, in the slice in which it is first dispatched.
    For every process list and every quantum: in every round of the
    loop of [solveMLFQ], Q1 and Q2 hold only processes whose burst
    exceeds the quantum, and the output that [solve] returns is that
    of the last of these rounds; in that output a result of a process
    whose burst does not exceed the quantum either never ran (its
    start time is unset) or ran once: it ended at its start plus its
    burst, and the chart has the block from its start to its end. And
    for every process list whose bursts are at least 1 and every
    quantum of at least 1, [solve] returns within [fuel_bound] rounds
    one result for each process, and every process whose burst does
    not exceed the quantum ran once, in that one block; where the
    names are pairwise distinct it is the only block of its name. *)
Theorem mlfq_short_job_completes_in_q0 localeCompare toFixed2 fuel processes
    timeQuantum :
  (∀ sl i, sl ∈ mlfq_rounds fuel processes timeQuantum →
           i ∈ MLFQ.q1 (fst sl) ∨ i ∈ MLFQ.q2 (fst sl) →
           timeQuantum < burstTime (processes !!! i))
  ∧ outcome_all
      (fun out =>
         ∃ s logs,
           last (mlfq_rounds fuel processes timeQuantum) = Some (s, logs)
           ∧ out = Logged.calculateAverages localeCompare (MLFQ.results s)
                     (MLFQ.ganttChart s) logs)
      (Logged.solve localeCompare toFixed2 fuel
         "Multilevel Feedback Queue (MLFQ)" processes timeQuantum)
  ∧ outcome_all
      (fun out =>
         ∀ r, r ∈ Logged.results out → burstTime (process r) ≤ timeQuantum →
              startTime r = -1 ∨ ran_once (Logged.ganttChart out) r)
      (Logged.solve localeCompare toFixed2 fuel
         "Multilevel Feedback Queue (MLFQ)" processes timeQuantum)
  ∧ (Forall (fun p => 1 ≤ burstTime p) processes → 1 ≤ timeQuantum →
     (fuel_bound processes ≤ fuel)%nat →
     ∃ out,
       Logged.solve localeCompare toFixed2 fuel
         "Multilevel Feedback Queue (MLFQ)" processes timeQuantum = Done out
       ∧ map process (Logged.results out) ≡ₚ processes
       ∧ ∀ r, r ∈ Logged.results out →
              burstTime (process r) ≤ timeQuantum →
              ran_once (Logged.ganttChart out) r
              ∧ (NoDup (map id processes) →
                 ∀ b, b ∈ Logged.ganttChart out →
                      processId b = id (process r) →
                      b = mkBlock (id (process r)) (startTime r)
                            (endTime r))).
Proof.
  split; [|split; [|split]].
  - intros sl i Hsl Hi.
    pose proof (mlfq_rounds_levels fuel processes timeQuantum) as Hall.
    rewrite Forall_forall in Hall.
    destruct (Hall sl Hsl) as (_ & _ & _ & _ & _ & Hq12).
    apply Hq12. apply elem_of_app. exact Hi.
  - change (Logged.solve localeCompare toFixed2 fuel
              "Multilevel Feedback Queue (MLFQ)" processes timeQuantum)
      with (Logged.solveMLFQ localeCompare fuel processes timeQuantum).
    unfold Logged.solveMLFQ, mlfq_rounds.
    destruct (while_loop _ _ _ _) as [[s logs]| |] eqn:Hloop; simpl;
      [|exact I..].
    exists s, logs. split; [by apply while_trace_last|reflexivity].
  - pose proof (mlfq_short_partial localeCompare fuel processes timeQuantum)
      as Hpartial.
    rewrite <- solve_mlfq_forget with (toFixed2 := toFixed2) in Hpartial.
    destruct (Logged.solve _ _ _ _ _ _) as [out| |]; simpl; [|exact I..].
    exact Hpartial.
  - intros Hb Hq Hfuel.
    destruct (mlfq_short_total localeCompare fuel processes timeQuantum
                Hb Hq Hfuel) as (pout & Heq & Hall & Hshort).
    rewrite <- solve_mlfq_forget with (toFixed2 := toFixed2) in Heq.
    destruct (logged_of_plain _ _ Heq) as (out & -> & Hres & Hg).
    exists out. split; [reflexivity|]. rewrite Hres, Hg. auto.
Qed.

Lemma mlfq_short_job_completes_in_q0_witness :
  ∃ out,
    Logged.solve code_order no_digits 13 "Multilevel Feedback Queue (MLFQ)"
      mixed 2 = Done out
    ∧ map process (Logged.results out) ≡ₚ mixed
    ∧ ∀ r, r ∈ Logged.results out → burstTime (process r) ≤ 2 →
           ran_once (Logged.ganttChart out) r
           ∧ (NoDup (map id mixed) →
              ∀ b, b ∈ Logged.ganttChart out →
                   processId b = id (process r) →
                   b = mkBlock (id (process r)) (startTime r) (endTime r)).
Proof.
  apply (proj2 (proj2 (proj2 (mlfq_short_job_completes_in_q0 code_order
                                no_digits 13 mixed 2)))).
  - repeat (constructor; [simpl; lia|]). constructor.
  - lia.
  - unfold fuel_bound. simpl. lia.
Defined.

(** * One block for each slice *)

Lemma blocks_of_snoc pid g b :
  blocks_of pid (g ++ [b])
  = (blocks_of pid g + (if (processId b =? pid)%string then 1 else 0))%nat.
Proof.
  unfold blocks_of. rewrite List.filter_app, length_app. simpl.
  by destruct (processId b =? pid)%string.
Qed.

Lemma blocks_of_push processes g idx t t' (i : nat) :
  ids_ok processes → (i < length processes)%nat → (idx < length processes)%nat →
  blocks_of (id (processes !!! i))
    (g ++ [mkBlock (id (processes !!! idx)) t t'])
  = (blocks_of (id (processes !!! i)) g + (if decide (i = idx) then 1 else 0))%nat.
Proof.
  intros Hids Hi Hidx. rewrite blocks_of_snoc. simpl.
  rewrite (id_eqb_index _ _ _ Hids Hi Hidx).
  destruct (decide (i = idx)) as [->|Hne].
  - by rewrite bool_decide_true.
  - by rewrite bool_decide_false.
Qed.

Lemma ceil_div_last len blocks rem :
  1 ≤ len → 1 ≤ rem ≤ len → 0 ≤ blocks →
  ceil_div (len * blocks + rem) len = blocks + 1.
Proof.
  intros Hl Hr Hb. unfold ceil_div. symmetry.
  apply (Z.div_unique_pos _ _ _ (rem - 1)); lia.
Qed.

(** A process with time remaining runs the lesser of [len] and of
    what remains, in a new block. *)
Lemma sliced_run len burst rem blocks :
  1 ≤ len → 0 < rem →
  sliced len burst rem blocks →
  sliced len burst (rem - Z.min len rem) (S blocks).
Proof.
  intros Hl Hpos [Hrun _]. specialize (Hrun Hpos). split.
  - intros Hleft. lia.
  - intros Hz. assert (burst = len * Z.of_nat blocks + rem) as -> by lia.
    rewrite ceil_div_last; lia.
Qed.

Lemma sliced_init len burst : 1 ≤ burst → sliced len burst burst 0.
Proof. intros Hb. split; [lia|lia]. Qed.

(** ** Round Robin *)

Lemma rr_body_count processes timeQuantum s s' :
  valid_processes processes → 1 ≤ timeQuantum →
  rr_inv processes s → rr_cond (length processes) s = true →
  (∀ i, (i < length processes)%nat →
        sliced timeQuantum (burstTime (processes !!! i))
          (RR.remainingTime s !!! i)
          (blocks_of (id (processes !!! i)) (RR.ganttChart s))) →
  Plain.rr_body processes timeQuantum s = Next s' →
  ∀ i, (i < length processes)%nat →
       sliced timeQuantum (burstTime (processes !!! i))
         (RR.remainingTime s' !!! i)
         (blocks_of (id (processes !!! i)) (RR.ganttChart s')).
Proof.
  intros Hv Hq Hinv Hcond Hcount.
  destruct (rr_refill_inv processes s Hv Hinv Hcond)
    as (s1 & idx & rest & Hrefill & Hqueue & Hrem & Hres & Hcomp & Hg & Hle
        & Hready & Hseen).
  destruct Hinv as (Hcore & _ & _ & _).
  pose proof (ci_length _ _ _ _ _ _ Hcore) as Hlen.
  assert (Hin : (idx < length processes)%nat
                ∧ is_set (RR.visited s1) idx = true
                ∧ 0 < RR.remainingTime s1 !!! idx).
  { apply (ri_mem _ _ _ _ Hready). rewrite Hqueue. apply elem_of_cons. auto. }
  destruct Hin as (Hidx & _ & Hpos). rewrite Hrem in Hpos.
  unfold Plain.rr_body. rewrite Hrefill, Hqueue. intros [= <-].
  rewrite rr_arrivals_spec. unfold rr_exec, rr_finish.
  cbn [RR.remainingTime RR.results RR.currentTime RR.completed RR.ganttChart
       RR.queue RR.visited].
  rewrite Hrem, Hg.
  assert (Hnew : ∀ i, (i < length processes)%nat →
            sliced timeQuantum (burstTime (processes !!! i))
              (<[idx := RR.remainingTime s !!! idx
                        - Z.min timeQuantum (RR.remainingTime s !!! idx)]>
                 (RR.remainingTime s) !!! i)
              (blocks_of (id (processes !!! i))
                 (RR.ganttChart s
                  ++ [mkBlock (id (processes !!! idx)) (RR.currentTime s1)
                        (RR.currentTime s1
                         + Z.min timeQuantum (RR.remainingTime s !!! idx))]))).
  { intros i Hi. rewrite (blocks_of_push _ _ _ _ _ _ (proj1 Hv) Hi Hidx).
    destruct (decide (i = idx)) as [->|Hne].
    - rewrite list_lookup_total_insert_eq by lia. rewrite Nat.add_1_r.
      apply sliced_run; auto.
    - rewrite list_lookup_total_insert_ne by auto. rewrite Nat.add_0_r. auto. }
  destruct (0 <? _);
    cbn [RR.remainingTime RR.results RR.currentTime RR.completed
         RR.ganttChart RR.queue RR.visited]; exact Hnew.
Qed.

Lemma solveRR_count localeCompare fuel processes timeQuantum :
  valid_processes processes → 1 ≤ timeQuantum →
  (fuel_bound processes ≤ fuel)%nat →
  ∃ out,
    Plain.solveRR localeCompare fuel processes timeQuantum = Done out
    ∧ ∀ i, (i < length processes)%nat →
           Z.of_nat (blocks_of (id (processes !!! i)) (Plain.ganttChart out))
           = ceil_div (burstTime (processes !!! i)) timeQuantum.
Proof.
  intros Hv Hq Hfuel. unfold Plain.solveRR.
  destruct (while_loop_total_with (rr_inv processes)
              (fun s => ∀ i, (i < length processes)%nat →
                 sliced timeQuantum (burstTime (processes !!! i))
                   (RR.remainingTime s !!! i)
                   (blocks_of (id (processes !!! i)) (RR.ganttChart s)))
              (fun s => work_left processes (RR.remainingTime s)
                          (RR.currentTime s))
              (rr_cond (length processes))
              (Plain.rr_body processes timeQuantum)
              (fun s Hs Hc => rr_body_inv processes timeQuantum s Hv Hq Hs Hc)
              (fun s s' Hs Hc He Hb =>
                 rr_body_count processes timeQuantum s s' Hv Hq Hs Hc He Hb)
              fuel (rr_init processes) (rr_inv_init processes Hv))
    as (s & -> & [Hcore _] & Hcount & Hcond).
  - rewrite rr_init_spec. simpl. intros i Hi.
    rewrite lookup_total_map by exact Hi. apply sliced_init.
    by destruct (burst_pos _ i Hv Hi).
  - rewrite rr_init_spec. simpl. rewrite work_left_init. exact Hfuel.
  - eexists. split; [reflexivity|]. simpl. intros i Hi.
    apply (Hcount i Hi).
    apply (core_inv_all_done _ _ _ _ _ _ Hcore); [|exact Hi].
    unfold rr_cond in Hcond. apply bool_decide_eq_false in Hcond. lia.
Qed.

(** ** Multilevel Queue *)

Lemma mlq_body_count processes timeQuantum s s' :
  valid_processes processes → 1 ≤ timeQuantum →
  mlq_inv processes s → mlq_cond (length processes) s = true →
  mlq_extra processes timeQuantum s
  ∧ (∀ i, (i < length processes)%nat →
          sliced (mlq_len processes timeQuantum i)
            (burstTime (processes !!! i)) (MLQ.remainingTime s !!! i)
            (blocks_of (id (processes !!! i)) (MLQ.ganttChart s))) →
  Plain.mlq_body processes timeQuantum s = Next s' →
  mlq_extra processes timeQuantum s'
  ∧ (∀ i, (i < length processes)%nat →
          sliced (mlq_len processes timeQuantum i)
            (burstTime (processes !!! i)) (MLQ.remainingTime s' !!! i)
            (blocks_of (id (processes !!! i)) (MLQ.ganttChart s'))).
Proof.
  intros Hv Hq Hinv Hcond [Hextra Hcount] Hbody.
  split; [by apply (mlq_body_extra processes timeQuantum s)|].
  revert Hbody.
  destruct Hinv as (Hcore & Hready & Hseen).
  destruct Hextra as [_ Hq1 Hq2 _].
  pose proof (ci_length _ _ _ _ _ _ Hcore) as Hlen.
  unfold Plain.mlq_body. rewrite mlq_arrivals_spec. mlq_fields.
  change (fun i : nat => priority (processes !!! i) <=? 2)
    with (high processes).
  set (new0 := newcomers (length processes) (MLQ.visited s)
                 (arrived processes (MLQ.currentTime s))).
  set (lo := fun i : nat => negb (high processes i)).
  change (fun i : nat => negb (priority (processes !!! i) <=? 2)) with lo.
  set (q1A := MLQ.q1 s ++ List.filter (high processes) new0).
  set (q2A := MLQ.q2 s ++ List.filter lo new0).
  assert (Hsplit : ∀ l, List.filter (high processes) l ++ List.filter lo l ≡ₚ l)
    by (intros l; apply filter_split_perm).
  destruct (arrivals_inv processes (MLQ.remainingTime s) (MLQ.visited s)
              (MLQ.q1 s ++ MLQ.q2 s) (MLQ.currentTime s) (q1A ++ q2A)
              Hv Hready Hseen) as (HreadyA & _ & _).
  { unfold q1A, q2A. fold new0.
    etrans; [|apply Permutation_app; [reflexivity|apply (Hsplit new0)]].
    solve_Permutation. }
  fold new0 in HreadyA.
  assert (Hq1A : Forall (fun i => high processes i = true) q1A).
  { apply Forall_app. split; [exact Hq1|apply Forall_filter_true]. }
  assert (Hq2A : Forall (fun i => high processes i = false) q2A).
  { apply Forall_app. split; [exact Hq2|].
    eapply Forall_impl; [apply (Forall_filter_true lo)|].
    intros i Hi. unfold lo in Hi. by apply negb_true_iff in Hi. }
  set (t := MLQ.currentTime s) in *.
  assert (Hrun : ∀ idx d, idx ∈ q1A ++ q2A →
            d = Z.min (mlq_len processes timeQuantum idx)
                  (MLQ.remainingTime s !!! idx) →
            ∀ i, (i < length processes)%nat →
              sliced (mlq_len processes timeQuantum i)
                (burstTime (processes !!! i))
                (<[idx := MLQ.remainingTime s !!! idx - d]>
                   (MLQ.remainingTime s) !!! i)
                (blocks_of (id (processes !!! i))
                   (MLQ.ganttChart s
                    ++ [mkBlock (id (processes !!! idx)) t (t + d)]))).
  { intros idx d Hin -> i Hi.
    apply (ri_mem _ _ _ _ HreadyA) in Hin. destruct Hin as (Hidx & _ & Hpos).
    rewrite (blocks_of_push _ _ _ _ _ _ (proj1 Hv) Hi Hidx).
    destruct (decide (i = idx)) as [->|Hne].
    - rewrite list_lookup_total_insert_eq by lia. rewrite Nat.add_1_r.
      apply sliced_run; auto. unfold mlq_len. destruct (high _ _); lia.
    - rewrite list_lookup_total_insert_ne by auto. rewrite Nat.add_0_r. auto. }
  destruct q1A as [|idx rest] eqn:Eq1A.
  - destruct q2A as [|idx rest2] eqn:Eq2A.
    + intros [= <-]. unfold mlq_idle. mlq_fields. exact Hcount.
    + assert (Hin : idx ∈ [] ++ idx :: rest2) by (apply elem_of_cons; auto).
      assert (Hlow : high processes idx = false)
        by (by apply Forall_cons in Hq2A as [? _]).
      pose proof (proj2 (proj2 (proj1 (ri_mem _ _ _ _ HreadyA idx) Hin)))
        as Hpos.
      pose proof (Hrun idx 1 Hin) as Hnew.
      unfold mlq_exec2. mlq_fields.
      destruct (_ =? 0); intros [= <-]; mlq_fields; apply Hnew;
        unfold mlq_len; rewrite Hlow; lia.
  - assert (Hin : idx ∈ (idx :: rest) ++ q2A) by (apply elem_of_cons; auto).
    assert (Hhigh : high processes idx = true)
      by (by apply Forall_cons in Hq1A as [? _]).
    pose proof (Hrun idx (Z.min timeQuantum (MLQ.remainingTime s !!! idx)) Hin)
      as Hnew.
    rewrite mlq_arrivals_spec. unfold mlq_exec1, mlq_finish1. mlq_fields.
    destruct (0 <? _); intros [= <-]; mlq_fields; apply Hnew;
      unfold mlq_len; by rewrite Hhigh.
Qed.

Lemma ceil_div_1 burst : ceil_div burst 1 = burst.
Proof. unfold ceil_div. rewrite Z.div_1_r. lia. Qed.

Lemma solveMLQ_count localeCompare fuel processes timeQuantum :
  valid_processes processes → 1 ≤ timeQuantum →
  (fuel_bound processes ≤ fuel)%nat →
  ∃ out,
    Plain.solveMLQ localeCompare fuel processes timeQuantum = Done out
    ∧ ∀ i, (i < length processes)%nat →
           Z.of_nat (blocks_of (id (processes !!! i)) (Plain.ganttChart out))
           = if priority (processes !!! i) <=? 2
             then ceil_div (burstTime (processes !!! i)) timeQuantum
             else burstTime (processes !!! i).
Proof.
  intros Hv Hq Hfuel. unfold Plain.solveMLQ.
  destruct (while_loop_total_with (mlq_inv processes)
              (fun s =>
                 mlq_extra processes timeQuantum s
                 ∧ (∀ i, (i < length processes)%nat →
                      sliced (mlq_len processes timeQuantum i)
                        (burstTime (processes !!! i))
                        (MLQ.remainingTime s !!! i)
                        (blocks_of (id (processes !!! i)) (MLQ.ganttChart s))))
              (fun s => work_left processes (MLQ.remainingTime s)
                          (MLQ.currentTime s))
              (mlq_cond (length processes))
              (Plain.mlq_body processes timeQuantum)
              (fun s Hs Hc => mlq_body_inv processes timeQuantum s Hv Hq Hs Hc)
              (fun s s' Hs Hc He Hb =>
                 mlq_body_count processes timeQuantum s s' Hv Hq Hs Hc He Hb)
              fuel (mlq_init processes) (mlq_inv_init processes Hv))
    as (s & -> & [Hcore _] & [_ Hcount] & Hcond).
  - split; [by apply mlq_extra_init|]. simpl. intros i Hi.
    rewrite lookup_total_map by exact Hi. apply sliced_init.
    by destruct (burst_pos _ i Hv Hi).
  - simpl. rewrite work_left_init. exact Hfuel.
  - eexists. split; [reflexivity|]. simpl. intros i Hi.
    destruct (Hcount i Hi) as [_ Hdone]. rewrite Hdone.
    + unfold mlq_len, high. destruct (_ <=? 2); [reflexivity|apply ceil_div_1].
    + apply (core_inv_all_done _ _ _ _ _ _ Hcore); [|exact Hi].
      unfold mlq_cond in Hcond. apply bool_decide_eq_false in Hcond. lia.
Qed.

(** ** Multilevel Feedback Queue *)

(** Another process runs, and [i] stays in its queue. *)
Lemma mlfq_counted_other processes timeQuantum rem g q1 q2 q1' q2' idx r' t t'
    (i : nat) :
  ids_ok processes → (i < length processes)%nat →
  (idx < length processes)%nat → i ≠ idx →
  (i ∈ q1' → i ∈ q1) → (i ∈ q2' → i ∈ q2) →
  mlfq_counted processes timeQuantum rem g q1 q2 i →
  mlfq_counted processes timeQuantum (<[idx := r']> rem)
    (g ++ [mkBlock (id (processes !!! idx)) t t']) q1' q2' i.
Proof.
  intros Hids Hi Hidx Hne H1 H2 (Hfresh & Hq1 & Hq2 & Hdone).
  unfold mlfq_counted.
  rewrite (blocks_of_push _ _ _ _ _ _ Hids Hi Hidx).
  rewrite decide_False by exact Hne. rewrite Nat.add_0_r.
  rewrite list_lookup_total_insert_ne by auto.
  split; [exact Hfresh|]. split; [intros H; apply Hq1, H1, H|].
  split; [intros H; apply Hq2, H2, H|exact Hdone].
Qed.

Lemma mlfq_body_count processes timeQuantum s s' :
  valid_processes processes → 1 ≤ timeQuantum →
  mlfq_inv processes s → mlfq_cond (length processes) s = true →
  mlfq_levels processes timeQuantum s
  ∧ (∀ i, (i < length processes)%nat →
          mlfq_counted processes timeQuantum (MLFQ.remainingTime s)
            (MLFQ.ganttChart s) (MLFQ.q1 s) (MLFQ.q2 s) i) →
  Plain.mlfq_body processes timeQuantum s = Next s' →
  mlfq_levels processes timeQuantum s'
  ∧ (∀ i, (i < length processes)%nat →
          mlfq_counted processes timeQuantum (MLFQ.remainingTime s')
            (MLFQ.ganttChart s') (MLFQ.q1 s') (MLFQ.q2 s') i).
Proof.
  intros Hv Hq (Hcore & Hready & Hseen) Hcond [Hlev Hcount] Hbody.
  split.
  { destruct (mlfq_levels_body _ _ _ Hlev) as (s2 & Hb2 & Hl2). congruence. }
  apply mlfq_levels_arrivals in Hlev. revert Hbody Hlev.
  pose proof (ci_length _ _ _ _ _ _ Hcore) as Hlen.
  unfold Plain.mlfq_body. rewrite mlfq_arrivals_spec. unfold mlfq_pick.
  mlfq_fields.
  set (new0 := newcomers (length processes) (MLFQ.visited s)
                 (arrived processes (MLFQ.currentTime s))).
  set (q0A := MLFQ.q0 s ++ new0).
  set (t := MLFQ.currentTime s) in *.
  set (visitedA := mark_all new0 (MLFQ.visited s)).
  destruct (arrivals_inv processes (MLFQ.remainingTime s) (MLFQ.visited s)
              (MLFQ.q0 s ++ MLFQ.q1 s ++ MLFQ.q2 s) t
              (q0A ++ MLFQ.q1 s ++ MLFQ.q2 s)
              Hv Hready Hseen) as (HreadyA & _ & _).
  { unfold q0A. fold new0. solve_Permutation. }
  fold new0 visitedA in HreadyA.
  intros Hbody (_ & _ & _ & Hq0 & _ & _). simpl in Hq0.
  fold new0 q0A visitedA in Hq0. revert Hbody.
  pose proof (ri_nodup _ _ _ _ HreadyA) as Hnd.
  assert (Hmem : ∀ idx, idx ∈ q0A ++ MLFQ.q1 s ++ MLFQ.q2 s →
            (idx < length processes)%nat
            ∧ 0 < MLFQ.remainingTime s !!! idx
              ≤ burstTime (processes !!! idx)).
  { intros idx Hin. apply (ri_mem _ _ _ _ HreadyA) in Hin.
    destruct Hin as (Hidx & _ & Hpos).
    pose proof (ci_range _ _ _ _ _ _ Hcore idx Hidx). split; [exact Hidx|lia]. }
  (* the state after the slice of [idx], by what holds of [idx] *)
  assert (Hstep : ∀ idx d q1' q2',
            (idx < length processes)%nat →
            (∀ i, i ≠ idx → i ∈ q1' → i ∈ MLFQ.q1 s) →
            (∀ i, i ≠ idx → i ∈ q2' → i ∈ MLFQ.q2 s) →
            mlfq_counted processes timeQuantum
              (<[idx := MLFQ.remainingTime s !!! idx - d]>
                 (MLFQ.remainingTime s))
              (MLFQ.ganttChart s
               ++ [mkBlock (id (processes !!! idx)) t (t + d)]) q1' q2' idx →
            ∀ i, (i < length processes)%nat →
              mlfq_counted processes timeQuantum
                (<[idx := MLFQ.remainingTime s !!! idx - d]>
                   (MLFQ.remainingTime s))
                (MLFQ.ganttChart s
                 ++ [mkBlock (id (processes !!! idx)) t (t + d)]) q1' q2' i).
  { intros idx d q1' q2' Hidx H1 H2 Hself i Hi.
    destruct (decide (i = idx)) as [->|Hne]; [exact Hself|].
    apply (mlfq_counted_other _ _ _ _ (MLFQ.q1 s) (MLFQ.q2 s)); auto.
    apply Hv. }
  destruct q0A as [|idx rest] eqn:Hq0A;
    [destruct (MLFQ.q1 s) as [|idx rest] eqn:Hq1;
     [destruct (MLFQ.q2 s) as [|idx rest] eqn:Hq2|]|].
  - (* idle *)
    intros [= <-]. unfold mlfq_idle. mlfq_fields.
    exact Hcount.
  - (* queue 2 *)
    destruct (Hmem idx) as [Hidx Hpos]; [apply elem_of_cons; auto|].
    simpl in Hnd. apply NoDup_cons in Hnd as [Hnot _].
    pose proof (Hcount idx Hidx) as (_ & _ & Hin2 & _).
    destruct Hin2 as [Hb2 Hran]; [apply elem_of_cons; auto|].
    rewrite mlfq_arrivals_spec. unfold mlfq_exec, mlfq_finish. mlfq_fields.
    change (2 =? 2)%nat with true. change (2 =? 0)%nat with false.
    change (2 =? 1)%nat with false. cbv iota.
    rewrite list_lookup_total_insert_eq by lia.
    assert (Hself : ∀ q2', (idx ∈ q2' → 0 < MLFQ.remainingTime s !!! idx - 1) →
              mlfq_counted processes timeQuantum
                (<[idx := MLFQ.remainingTime s !!! idx - 1]>
                   (MLFQ.remainingTime s))
                (MLFQ.ganttChart s
                 ++ [mkBlock (id (processes !!! idx)) t (t + 1)]) [] q2' idx).
    { intros q2' Hin. unfold mlfq_counted.
      rewrite (blocks_of_push _ _ _ _ _ _ (proj1 Hv) Hidx Hidx).
      rewrite decide_True by reflexivity.
      rewrite list_lookup_total_insert_eq by lia.
      split; [lia|]. split; [intros H; by apply elem_of_nil in H|].
      split; [intros H; lia|].
      intros Hz. unfold mlfq_slices.
      destruct (Z.leb_spec (burstTime (processes !!! idx)) timeQuantum); [lia|].
      destruct (Z.leb_spec (burstTime (processes !!! idx)) (3 * timeQuantum));
        lia. }
    destruct (Z.eqb_spec (MLFQ.remainingTime s !!! idx - 1) 0) as [Hz|Hz];
      intros [= <-]; mlfq_fields; cbn [tail].
    + apply Hstep; [exact Hidx|auto| |].
      * intros i _ Hi. apply elem_of_cons. auto.
      * apply Hself. intros Hin. contradiction.
    + apply Hstep; [exact Hidx|auto|auto|].
      apply Hself. intros _. lia.
  - (* queue 1 *)
    destruct (Hmem idx) as [Hidx Hpos];
      [simpl; apply elem_of_cons; auto|].
    simpl in Hnd. apply NoDup_cons in Hnd as [Hnot _].
    rewrite elem_of_app in Hnot.
    pose proof (Hcount idx Hidx) as (_ & Hin1 & _).
    destruct Hin1 as [Hb1 Hran]; [apply elem_of_cons; auto|].
    rewrite mlfq_arrivals_spec. unfold mlfq_exec, mlfq_finish. mlfq_fields.
    change (1 =? 2)%nat with false. change (1 =? 0)%nat with false.
    change (1 =? 1)%nat with true. cbv iota. unfold min_bound.
    set (d := Z.min (MLFQ.remainingTime s !!! idx) (timeQuantum * 2)).
    rewrite list_lookup_total_insert_eq by lia.
    assert (Hself : ∀ q2',
              (idx ∈ q2' → 0 < MLFQ.remainingTime s !!! idx - d) →
              mlfq_counted processes timeQuantum
                (<[idx := MLFQ.remainingTime s !!! idx - d]>
                   (MLFQ.remainingTime s))
                (MLFQ.ganttChart s
                 ++ [mkBlock (id (processes !!! idx)) t (t + d)]) rest q2' idx).
    { intros q2' Hin. unfold mlfq_counted.
      rewrite (blocks_of_push _ _ _ _ _ _ (proj1 Hv) Hidx Hidx).
      rewrite decide_True by reflexivity.
      rewrite list_lookup_total_insert_eq by lia.
      split; [unfold d; lia|]. split; [intros H; tauto|].
      split; [intros H; specialize (Hin H); unfold d in *; lia|].
      intros Hz. unfold mlfq_slices.
      destruct (Z.leb_spec (burstTime (processes !!! idx)) timeQuantum);
        [unfold d in *; lia|].
      destruct (Z.leb_spec (burstTime (processes !!! idx)) (3 * timeQuantum));
        unfold d in *; lia. }
    destruct (Z.eqb_spec (MLFQ.remainingTime s !!! idx - d) 0) as [Hz|Hz];
      intros [= <-]; mlfq_fields.
    + apply Hstep; [exact Hidx| |auto|].
      * intros i _ Hi. apply elem_of_cons. auto.
      * apply Hself. intros Hin. tauto.
    + apply Hstep; [exact Hidx| | |].
      * intros i _ Hi. apply elem_of_cons. auto.
      * intros i Hne Hi. apply elem_of_app in Hi as [Hi|Hi]; [exact Hi|].
        apply list_elem_of_singleton in Hi. contradiction.
      * apply Hself. intros _. unfold d in *. lia.
  - (* queue 0 *)
    destruct (Hmem idx) as [Hidx Hpos]; [apply elem_of_cons; auto|].
    simpl in Hnd. apply NoDup_cons in Hnd as [Hnot _].
    rewrite !elem_of_app in Hnot.
    destruct (Hq0 idx) as [_ Hfull]; [apply elem_of_cons; auto|].
    pose proof (Hcount idx Hidx) as (Hfresh & _). specialize (Hfresh Hfull).
    rewrite mlfq_arrivals_spec. unfold mlfq_exec, mlfq_finish. mlfq_fields.
    change (0 =? 2)%nat with false. change (0 =? 0)%nat with true. cbv iota.
    unfold min_bound.
    set (d := Z.min (MLFQ.remainingTime s !!! idx) timeQuantum).
    rewrite list_lookup_total_insert_eq by lia.
    assert (Hself : ∀ q1',
              (idx ∈ q1' → 0 < MLFQ.remainingTime s !!! idx - d) →
              mlfq_counted processes timeQuantum
                (<[idx := MLFQ.remainingTime s !!! idx - d]>
                   (MLFQ.remainingTime s))
                (MLFQ.ganttChart s
                 ++ [mkBlock (id (processes !!! idx)) t (t + d)]) q1'
                (MLFQ.q2 s) idx).
    { intros q1' Hin. unfold mlfq_counted.
      rewrite (blocks_of_push _ _ _ _ _ _ (proj1 Hv) Hidx Hidx).
      rewrite decide_True by reflexivity.
      rewrite list_lookup_total_insert_eq by lia.
      split; [unfold d; lia|].
      split; [intros H; specialize (Hin H); unfold d in *; lia|].
      split; [intros H; tauto|].
      intros Hz. unfold mlfq_slices.
      destruct (Z.leb_spec (burstTime (processes !!! idx)) timeQuantum);
        unfold d in *; lia. }
    destruct (Z.eqb_spec (MLFQ.remainingTime s !!! idx - d) 0) as [Hz|Hz];
      intros [= <-]; mlfq_fields.
    + apply Hstep; [exact Hidx|auto|auto|]. apply Hself. intros Hin. tauto.
    + apply Hstep; [exact Hidx| |auto|].
      * intros i Hne Hi. apply elem_of_app in Hi as [Hi|Hi]; [exact Hi|].
        apply list_elem_of_singleton in Hi. contradiction.
      * apply Hself. intros _. unfold d in *. lia.
Qed.

Lemma solveMLFQ_count localeCompare fuel processes timeQuantum :
  valid_processes processes → 1 ≤ timeQuantum →
  (fuel_bound processes ≤ fuel)%nat →
  ∃ out,
    Plain.solveMLFQ localeCompare fuel processes timeQuantum = Done out
    ∧ ∀ i, (i < length processes)%nat →
           Z.of_nat (blocks_of (id (processes !!! i)) (Plain.ganttChart out))
           = mlfq_slices timeQuantum (burstTime (processes !!! i)).
Proof.
  intros Hv Hq Hfuel. unfold Plain.solveMLFQ.
  destruct (while_loop_total_with (mlfq_inv processes)
              (fun s =>
                 mlfq_levels processes timeQuantum s
                 ∧ (∀ i, (i < length processes)%nat →
                      mlfq_counted processes timeQuantum (MLFQ.remainingTime s)
                        (MLFQ.ganttChart s) (MLFQ.q1 s) (MLFQ.q2 s) i))
              (fun s => work_left processes (MLFQ.remainingTime s)
                          (MLFQ.currentTime s))
              (mlfq_cond (length processes))
              (Plain.mlfq_body processes timeQuantum)
              (fun s Hs Hc => mlfq_body_inv processes timeQuantum s Hv Hq Hs Hc)
              (fun s s' Hs Hc He Hb =>
                 mlfq_body_count processes timeQuantum s s' Hv Hq Hs Hc He Hb)
              fuel (mlfq_init processes) (mlfq_inv_init processes Hv))
    as (s & -> & [Hcore _] & [_ Hcount] & Hcond).
  - split; [apply mlfq_levels_init|]. simpl. intros i Hi.
    unfold mlfq_counted. simpl. rewrite lookup_total_map by exact Hi.
    pose proof (burst_pos _ i Hv Hi).
    split; [reflexivity|]. split; [intros H'; by apply elem_of_nil in H'|].
    split; [intros H'; by apply elem_of_nil in H'|]. lia.
  - simpl. rewrite work_left_init. exact Hfuel.
  - eexists. split; [reflexivity|]. simpl. intros i Hi.
    destruct (Hcount i Hi) as (_ & _ & _ & Hdone). apply Hdone.
    apply (core_inv_all_done _ _ _ _ _ _ Hcore); [|exact Hi].
    unfold mlfq_cond in Hcond. apply bool_decide_eq_false in Hcond. lia.
Qed.

(** ** The slicing policies, through the dispatch *)

Lemma plain_solve_count localeCompare fuel algorithm processes timeQuantum :
  valid_processes processes → 1 ≤ timeQuantum →
  (fuel_bound processes ≤ fuel)%nat →
  slicing algorithm = true →
  ∃ out,
    Plain.solve localeCompare fuel algorithm processes timeQuantum = Done out
    ∧ ∀ p, p ∈ processes →
           Z.of_nat (blocks_of (id p) (Plain.ganttChart out))
           = slices algorithm timeQuantum p.
Proof.
  intros Hv Hq Hfuel Hs.
  assert (Hlookup : ∀ (out : Plain.SchedulerOutput) (f : Process → Z),
            (∀ i, (i < length processes)%nat →
                  Z.of_nat (blocks_of (id (processes !!! i))
                              (Plain.ganttChart out))
                  = f (processes !!! i)) →
            ∀ p, p ∈ processes →
                 Z.of_nat (blocks_of (id p) (Plain.ganttChart out)) = f p).
  { intros out f H p Hp. apply list_elem_of_lookup in Hp as [i Hi].
    pose proof (lookup_lt_Some _ _ _ Hi) as Hlt.
    apply list_lookup_total_correct in Hi. subst p. by apply H. }
  unfold slicing in Hs. apply orb_true_iff in Hs as [Hs|Hs];
    [apply orb_true_iff in Hs as [Hs|Hs]|];
    apply String.eqb_eq in Hs; subst algorithm;
    unfold Plain.solve, slices; simpl.
  - destruct (solveRR_count localeCompare fuel processes timeQuantum
                Hv Hq Hfuel) as (out & Heq & Hcount).
    exists out. split; [exact Heq|].
    by apply (Hlookup out (fun p => ceil_div (burstTime p) timeQuantum)).
  - destruct (solveMLQ_count localeCompare fuel processes timeQuantum
                Hv Hq Hfuel) as (out & Heq & Hcount).
    exists out. split; [exact Heq|].
    by apply (Hlookup out
                (fun p => if priority p <=? 2
                          then ceil_div (burstTime p) timeQuantum
                          else burstTime p)).
  - destruct (solveMLFQ_count localeCompare fuel processes timeQuantum
                Hv Hq Hfuel) as (out & Heq & Hcount).
    exists out. split; [exact Heq|].
    by apply (Hlookup out (fun p => mlfq_slices timeQuantum (burstTime p))).
Qed.

Lemma solve_count localeCompare toFixed2 fuel algorithm processes timeQuantum
    out :
  valid_processes processes → 1 ≤ timeQuantum →
  (fuel_bound processes ≤ fuel)%nat →
  slicing algorithm = true →
  Logged.solve localeCompare toFixed2 fuel algorithm processes timeQuantum
  = Done out →
  ∀ p, p ∈ processes →
       Z.of_nat (blocks_of (id p) (Logged.ganttChart out))
       = slices algorithm timeQuantum p.
Proof.
  intros Hv Hq Hfuel Hs Heq.
  destruct (plain_solve_count localeCompare fuel algorithm processes
              timeQuantum Hv Hq Hfuel Hs) as (pout & Hp & Hcount).
  pose proof (solve_forget localeCompare toFixed2 fuel algorithm processes
                timeQuantum) as Hf.
  rewrite Heq in Hf. simpl in Hf.
  assert (Hplain : Done (forget out)
                   = Plain.solve localeCompare fuel algorithm processes
                       timeQuantum).
  { rewrite Hf. unfold slicing in Hs.
    apply orb_true_iff in Hs as [Hs|Hs];
      [apply orb_true_iff in Hs as [Hs|Hs]|];
      apply String.eqb_eq in Hs; subst algorithm; reflexivity. }
  rewrite Hp in Hplain. injection Hplain as <-. exact Hcount.
Qed.

(** C6, amended. For every policy identifier and every input as in C1,
    every block of the chart that [solve] returns names a process of
    the input (idle time has no block). For every policy other than
    Round Robin, the Multilevel Queue and the Multilevel Feedback
    Queue no two consecutive blocks name the same process, so that no
    two consecutive blocks of one process touch. Round Robin, the
    Multilevel Queue and the Multilevel Feedback Queue do not merge:
    every slice is a block of its own, so that the chart holds, for
    each process, as many blocks as the policy grants it slices
    ([slices]), however the slices follow one another. *)
Theorem chart_blocks_merged localeCompare toFixed2 fuel algorithm processes
    timeQuantum :
  valid_processes processes → 1 ≤ timeQuantum →
  (fuel_bound processes ≤ fuel)%nat →
  ∃ out,
    Logged.solve localeCompare toFixed2 fuel algorithm processes timeQuantum
    = Done out
    ∧ chart_names processes (Logged.ganttChart out)
    ∧ (slicing algorithm = false →
       chart_alternating (Logged.ganttChart out)
       ∧ chart_merged (Logged.ganttChart out))
    ∧ (slicing algorithm = true →
       ∀ p, p ∈ processes →
            Z.of_nat (blocks_of (id p) (Logged.ganttChart out))
            = slices algorithm timeQuantum p).
Proof.
  intros Hv Hq Hfuel.
  destruct (solve_ok localeCompare toFixed2 fuel algorithm processes
              timeQuantum Hv Hq Hfuel) as (out & Heq & Hok & Halt).
  exists out. split; [exact Heq|]. split; [exact (so_names _ _ _ Hok)|].
  split.
  - intros Hs. split; [by apply Halt|].
    by apply chart_alternating_merged, Halt.
  - intros Hs. by apply (solve_count localeCompare toFixed2 fuel).
Qed.

Lemma chart_blocks_merged_witness :
  ∃ out,
    Logged.solve code_order no_digits 20 "Round Robin" sample 2 = Done out
    ∧ chart_names sample (Logged.ganttChart out)
    ∧ (slicing "Round Robin" = false →
       chart_alternating (Logged.ganttChart out)
       ∧ chart_merged (Logged.ganttChart out))
    ∧ (slicing "Round Robin" = true →
       ∀ p, p ∈ sample →
            Z.of_nat (blocks_of (id p) (Logged.ganttChart out))
            = slices "Round Robin" 2 p).
Proof.
  apply (chart_blocks_merged code_order no_digits 20 "Round Robin" sample 2).
  - exact valid_sample.
  - lia.
  - exact fuel_bound_sample.
Defined.

(** X19. When its queue is empty, Round Robin fast-forwards: it sets
    the clock to the arrival time of the process that was not visited
    and arrives earliest, the first of the list among equals, makes
    that process the only one of the queue, marks it visited and logs
    the jump; the clock moves even when that arrival lies in the past.
    It breaks the loop only when every process was visited, and it
    changes nothing when the queue holds a process. The older module
    computes the same state. *)
Theorem rr_earliest_arrival processes s logs :
  rr_refill processes s = fst <$> Logged.rr_refill processes (s, logs)
  ∧
  match Logged.rr_refill processes (s, logs) with
  | Some (s1, logs1) =>
      (RR.queue s ≠ [] ∧ s1 = s ∧ logs1 = logs)
      ∨ (RR.queue s = []
         ∧ ∃ i,
             (i < length processes)%nat ∧ is_set (RR.visited s) i = false
             ∧ (∀ j, (j < length processes)%nat →
                     is_set (RR.visited s) j = false →
                     arrivalTime (processes !!! i)
                     < arrivalTime (processes !!! j)
                     ∨ (arrivalTime (processes !!! i)
                        = arrivalTime (processes !!! j) ∧ (i ≤ j)%nat))
             ∧ s1 = RR.mk (RR.remainingTime s) (RR.results s)
                      (arrivalTime (processes !!! i)) (RR.completed s)
                      (RR.ganttChart s) [i] (<[i := true]> (RR.visited s))
             ∧ logs1
               = logs
                 ++ [Logged.cat
                       ["Time "; num (arrivalTime (processes !!! i));
                        ": Queue empty. Fast-forward to ";
                        id (processes !!! i); " arrival."]])
  | None =>
      RR.queue s = []
      ∧ ∀ j, (j < length processes)%nat → is_set (RR.visited s) j = true
  end.
Proof.
  unfold Logged.rr_refill, rr_refill.
  destruct (RR.queue s) as [|idx rest] eqn:Hqueue;
    [|split; [reflexivity|left; split; [discriminate|auto]]].
  split; [by destruct (rr_next_arrival _ _) as [[i|] nextArr]|].
  pose proof (rr_next_arrival_first processes (RR.visited s)) as Hnext.
  destruct (rr_next_arrival processes (RR.visited s)) as [[i|] nextArr].
  - destruct Hnext as (Hi & Hu & -> & Hmin). right. split; [reflexivity|].
    exists i. unfold rr_jump. rewrite Hqueue. simpl. auto.
  - auto.
Qed.

Lemma js_avg_empty total : js_avg total 0 = 0%Q.
Proof. reflexivity. Qed.

Lemma js_avg_mean total len :
  len ≠ 0%nat →
  (js_avg total len == inject_Z total / inject_Z (Z.of_nat len))%Q.
Proof.
  intros Hlen. destruct len as [|k]; [contradiction|]. unfold js_avg.
  rewrite Qmake_Qdiv.
  replace (Z.pos (Pos.of_nat (Datatypes.S k))) with (Z.of_nat (Datatypes.S k));
    [reflexivity|].
  rewrite <- positive_nat_Z. by rewrite Nat2Pos.id.
Qed.

(** X16. The averages that [solve] reports are the arithmetic means
    of the turnaround times and of the waiting times of the results it
    returns: the sum of the values divided by the number of results,
    as exact rationals, and [0] when there is no result, for every
    policy identifier, process list and quantum. *)
Theorem averages_of_results localeCompare toFixed2 fuel algorithm processes
    timeQuantum :
  outcome_all
    (fun out =>
       let results := Logged.results out in
       let n := inject_Z (Z.of_nat (length results)) in
       (results = [] →
        Logged.averageTurnaroundTime out = 0%Q
        ∧ Logged.averageWaitingTime out = 0%Q)
       ∧ (results ≠ [] →
          (Logged.averageTurnaroundTime out
           == inject_Z (sumZ (map turnaroundTime results)) / n)%Q
          ∧ (Logged.averageWaitingTime out
             == inject_Z (sumZ (map waitingTime results)) / n)%Q))
    (Logged.solve localeCompare toFixed2 fuel algorithm processes timeQuantum).
Proof.
  destruct (Logged.solve _ _ _ _ _ _) as [out| |] eqn:Heq; simpl; [|exact I..].
  destruct (solve_output_shape _ _ _ _ _ _ _ Heq) as (rs & g & l & ->).
  unfold Logged.calculateAverages. simpl.
  pose proof (js_sort_perm (Logged.by_id localeCompare) rs) as Hperm.
  rewrite js_sort_length.
  rewrite <- (sum_turnaround_sumZ (js_sort _ rs)).
  rewrite <- (sum_waiting_sumZ (js_sort _ rs)).
  rewrite (sum_turnaround_perm _ _ Hperm), (sum_waiting_perm _ _ Hperm).
  split.
  - intros Hnil.
    assert (rs = []) as ->.
    { apply Permutation_nil. by rewrite <- Hnil, Hperm. }
    split; reflexivity.
  - intros Hne.
    assert (Hlen : length rs ≠ 0%nat).
    { intros Hz. apply Hne. apply nil_length_inv.
      by rewrite js_sort_length. }
    split; by apply js_avg_mean.
Qed.

Lemma averages_of_results_witness :
  outcome_all
    (fun out =>
       let results := Logged.results out in
       let n := inject_Z (Z.of_nat (length results)) in
       (results = [] →
        Logged.averageTurnaroundTime out = 0%Q
        ∧ Logged.averageWaitingTime out = 0%Q)
       ∧ (results ≠ [] →
          (Logged.averageTurnaroundTime out
           == inject_Z (sumZ (map turnaroundTime results)) / n)%Q
          ∧ (Logged.averageWaitingTime out
             == inject_Z (sumZ (map waitingTime results)) / n)%Q))
    (Logged.solve code_order no_digits 20 "FCFS" sample 2).
Proof.
  exact (averages_of_results code_order no_digits 20 "FCFS" sample 2).
Defined.
